(* ===== verification/_CoqProject ===== *)
-Q . S2P
Prelude.v
Decimal.v
Asio.v
Wp.v
Copy.v
Script.v
StreamUtils.v
Core.v
AsyncInvoke.v
Formatters.v
Log.v
Echo.v
Corosio.v
EchoAdvanced.v
EchoPromise.v
EchoSignal.v
ServerSpec.v
Servers.v
Client.v
LoadThreads.v
Context.v
EchoThreads.v
Net.v
Http.v
HttpThreads.v
Tools.v
Mains.v
Process.v
PingAdvanced.v
PingLog.v
Threads.v
Issues.v
Promise.v
Cobalt.v
