(* ===== verification/Prelude.v ===== *)
(** * asio-coro: a verification development

    The repository is a collection of small network programs on Boost.Asio coroutines, and the headers they share.
    This development models the C++ code under src/ (without the tests), and proves what the programs rely on.

    ** The parts of the program

    - include/ and lib/: the shared helpers.  stream_utils.hpp writes, reads, counts and copies streams;
      lib/log.cpp prints the output of a pipe line by line, and what is left of it when it is cancelled;
      async_invoke.hpp runs a function on another executor; formatters.hpp prints addresses, cancellation
      types and byte counts; asio-coro.hpp and literals.hpp are the small functions every program uses.
    - echo/, corosio/: the same echo server, written in a dozen ways (callbacks, coroutines, blocking, threads).
    - cancellation/: four echo servers that shut down on a signal; they differ in how the
      signal reaches the sessions, and in what keeps memory safe while it does.
    - bin/, net/, http/: the load generators, a proxy, wait_for_port, Happy Eyeballs, HTTP servers.
    - process/, threading/, issues/, cobalt/: programs that run a child process, hop between
      executors, or show a feature or a defect of a library.

    ** How it is modelled

    A coroutine is a function of a state [st W]: an arbitrary world [W] and the trace of the operations performed so
    far, each with its completion (Asio.v).  Boost.Asio is a set of classes over [W] ([Streams],
    [Timers], [Networking], ...), with its documented contracts as classes of laws ([StreamsOk], ...);
    what other coroutines, the peers and the operating system do is in the transitions of [W],
    so that every theorem holds for all of it.  Exceptions, [co_await] on a cancelled coroutine, error codes and
    [as_tuple] are as in the code.  Where the interleaving of several coroutines and handlers matters (the servers
    with a shutdown, Happy Eyeballs, the thread pool, async_invoke, the child process), the program is a step relation
    whose labels are the events of the event loop, and the theorems are about all reachable states.
    A [size_t] is a [Z] with its wrap-around written out ([size_add], ...).

    ** The files

    - Prelude.v: machine integers, byte lists, transition systems, invariants and forward simulation.
      Decimal.v: decimal integers in strings.
    - Asio.v: the interface to Boost.Asio; Wp.v: a program logic for coroutines; Copy.v: the
      abstract specification of a loop that copies one stream to another, which cat, forward and the echo
      sessions refine; Script.v: a concrete world, in which the programs run.
    - StreamUtils.v (include/stream_utils.hpp): [cat] copies, [write] reports what it sent and sends all of it or
      throws, [write_and_close] closes, [count] counts.
    - Core.v (asio-coro.hpp, literals.hpp): [code] and [what] agree on nested exceptions; the literals.
    - AsyncInvoke.v (async_invoke.hpp): every operation completes on the right executor, whatever executors stop.
    - Formatters.v (formatters.hpp): formatting a cancellation type can be undone; the unit and the rounding of byte counts.
    - Log.v (log.hpp, lib/log.cpp): no output is lost or duplicated, for a coroutine that is cancelled at most once; the
      overload that prints makes the same run; a
      cancellation race that loses some, an empty line that was never written, and a second cancellation, which
      duplicates what is left, are shown.
    - Echo.v (echo/*.cpp, the echo loops of cancellation/*.cpp, corosio/corosio_echo_server.cpp), one Module per
      program: every session is an echo and ends with its peer, the callback version equals the coroutine version,
      every accepted connection is served; the blocking version does not notice read errors.
    - Corosio.v (corosio/corosio_echo_server.cpp): the workers, and [main] with its checks of the arguments.
    - EchoAdvanced.v (echo_coro_signal_advanced.cpp): a map of signals and a channel; sessions do not outlive the
      server, the server ends, signals reach every session, sessions say goodbye, all variables keep to their types.
    - EchoPromise.v (echo_coro_signal_cancellation.cpp, echo_class.cpp): a map of promises; no task touches the map after its end.
    - EchoSignal.v (echo_coro_signal.cpp): a map of sockets; what works, and the two orders of events that break it.
    - ServerSpec.v, Servers.v: what the four servers of cancellation/ promise, as one abstract transition
      system (sessions start under fresh numbers and end; the server tells its sessions, closes, leaves); the class through which
      a server implements it; the theorem that each of the four programs refines it, and, against the
      class, that every shutdown is graceful.
    - Client.v (bin/client.cpp, bin/corosio_client.cpp): chunks and limits, connecting, the configuration.
    - LoadThreads.v (the two [main]s): the contexts and their threads, interleaved with [main]; client.cpp reports all its clients,
      corosio_client.cpp counts all of them but may print the total before; which threads outlive their context.
    - Context.v (lib/program_options.cpp: [run]; issues/boost_process_fork.cpp): an io_context run by several threads, for any
      program whose processes are chains of handlers; no process is resumed by two threads at once, no handler uses an
      object that was destroyed, the handlers of a strand do not overlap, [main] returns exactly when all is done.
      EchoThreads.v (echo/*_threaded.cpp): the three threaded servers as such programs; whatever the threads do, each
      session is that of Echo.v, and each accepted connection gets one.  Mains.v (the [main]s of three servers of
      cancellation/ that share a map, with the command line of Tools.v): which of them needs no lock.
    - Net.v (net/proxy.cpp, net/happy_eyeballs.cpp, bin/wait_for_port.cpp).
    - Http.v (http/*.cpp): the streaming echo, the JSON servers, the checked memory resource.  HttpThreads.v: the sessions of
      jsoncons_validator.cpp in several threads; they share the schema under a [std::shared_mutex], and the requests are answered as
      if they came one after the other.
    - Tools.v (bin/file_io.cpp, bin/handle_signal.cpp, lib/run.cpp, lib/program_options.cpp, include/run_sync.hpp).
    - Process.v (process/*.cpp): all output is logged before the exit code is awaited.
      PingAdvanced.v (process/ping_signal_advanced.cpp): the two log coroutines, the timer and the signals as a step
      relation; no pipe is accessed after its end, the exit code is returned within a second, and everything that was
      read is logged unless the wait was cut short.  PingLog.v: the state machine of a log coroutine there hands out the lines
      of the function in Log.v, whatever it is interleaved with.
    - Threads.v (threading/*.cpp): every coroutine is counted.
    - Issues.v (issues/*.cpp), Promise.v (issues/asio_issue_promise.cpp): the reproducers; a resource outlives the
      cancelled coroutine that refers to it only because its owner waits.
    - Cobalt.v (cobalt/*.cpp): the coroutines, the guard of a thread's state, the task with a teardown; a worker ticks ten times.

    The Modules, Records and Definitions have the names of the code; a Definition stands for the whole function,
    a step for the code between two suspensions.

    ** Fuel, bounds and assumptions

    Loops take fuel, and [NoFuel] is a result of its own; a partial correctness theorem therefore also says what the trace of an
    unfinished run looks like, which is how it covers servers that run forever.  Where a loop
    ends, a theorem says how much fuel is enough: more than the number of chunks the peer still sends ([budget]), of lines still to come
    ([lines_budget]), of bytes of a limit, of signals to ignore.  The step relations need no fuel.
    The servers number their sessions with a [size_t]: their invariants hold for fewer than 2^64 sessions.
    The step relations of the servers of cancellation/ run one handler after the other, as these servers
    need it: their handlers share state without a lock.  With one thread, or a strand, they do
    (Context.v, [threads_share_context]); Mains.v shows the programs where this depends on the command line.
    In Context.v any queued handler may be taken next; a run has at most four steps per completed operation.

    ** What is not modelled

    The libraries themselves; the output to the console, apart from the lines the log coroutine hands to its
    callback; the parsing of the command line by Boost.Program_options (but what [main] does with its
    result); races inside a handler (Context.v interleaves whole handlers, and says which run at the same time; HttpThreads.v
    goes inside); the tests, the slides and the scripts; the branch of
    async_invoke for functions without a result, which cannot be compiled; the reproducers
    that only call a library; the [main] functions that only create a context, spawn a server and run it, apart
    from those of EchoThreads.v and Mains.v. *)

From Stdlib Require Export ZArith Lia Strings.Byte.
From stdpp Require Export base list gmap strings.

(** ** Machine integers

    [size_t] is modelled as a [Z] in the range [0 .. 2^64-1]; the arithmetic
    the code does on it is written with its wrap-around. *)

Declare Scope size_scope.
Delimit Scope size_scope with size.

Definition size_max : Z := (2 ^ 64 - 1)%Z.
Definition wrap64 (z : Z) : Z := (z mod 2 ^ 64)%Z.
Definition size_add (a b : Z) : Z := wrap64 (a + b)%Z.
Definition size_sub (a b : Z) : Z := wrap64 (a - b)%Z.
Definition size_mul (a b : Z) : Z := wrap64 (a * b)%Z.
Definition is_size (z : Z) : Prop := (0 <= z < 2 ^ 64)%Z.
(** An [unsigned int]. *)
Definition is_uint32 (z : Z) : Prop := (0 <= z < 2 ^ 32)%Z.

Notation "a +ₛ b" := (size_add a b) (at level 50, left associativity) : size_scope.
Notation "a -ₛ b" := (size_sub a b) (at level 50, left associativity) : size_scope.
Notation "a *ₛ b" := (size_mul a b) (at level 40, left associativity) : size_scope.
#[global] Open Scope size_scope.

Create HintDb size discriminated.
Create Rewrite HintDb size_simpl.

Lemma wrap64_range z : is_size (wrap64 z).
Proof. unfold is_size, wrap64. apply Z.mod_pos_bound. reflexivity. Qed.

Lemma wrap64_small z : is_size z → wrap64 z = z.
Proof. intros H. by apply Z.mod_small. Qed.

Lemma size_add_range a b : is_size (a +ₛ b).
Proof. apply wrap64_range. Qed.

Lemma size_sub_range a b : is_size (a -ₛ b).
Proof. apply wrap64_range. Qed.

Lemma size_add_small a b : is_size (a + b)%Z → a +ₛ b = (a + b)%Z.
Proof. apply wrap64_small. Qed.

Lemma size_add_wrap a b : wrap64 a +ₛ b = wrap64 (a + b)%Z.
Proof. unfold size_add, wrap64. by rewrite Zplus_mod_idemp_l. Qed.

Lemma land_uint32 a b : is_uint32 a → (0 <= b)%Z → is_uint32 (Z.land a b).
Proof.
  intros [Ha Ha'] Hb. split; [by apply Z.land_nonneg; left|].
  destruct (decide (Z.land a b = 0%Z)) as [->|Hne]; [lia|].
  assert (0 <= Z.land a b)%Z by (by apply Z.land_nonneg; left).
  apply Z.log2_lt_pow2; [lia|]. eapply Z.le_lt_trans; [by apply Z.log2_land|].
  assert (0 < a)%Z. { destruct (decide (a = 0%Z)) as [->|]; [by rewrite Z.land_0_l in Hne|lia]. }
  apply Z.lt_le_trans with 32%Z; [|done].
  apply Z.min_lt_iff. left. by apply Z.log2_lt_pow2.
Qed.

#[export] Hint Resolve wrap64_range size_add_range size_sub_range : size.

(** ** Bytes *)

#[export] Instance byte_eq_dec : EqDecision byte := Byte.byte_eq_dec.

(** The number of bytes of a buffer, as the [size_t] the code sees. *)
Definition zlen {A} (l : list A) : Z := Z.of_nat (length l).

Lemma zlen_nil {A} : zlen (@nil A) = 0%Z.
Proof. reflexivity. Qed.
Lemma zlen_app {A} (l k : list A) : zlen (l ++ k) = (zlen l + zlen k)%Z.
Proof. unfold zlen. rewrite length_app. lia. Qed.
Lemma zlen_nonneg {A} (l : list A) : (0 <= zlen l)%Z.
Proof. unfold zlen. lia. Qed.

(** [ztake n l]: the first [n] bytes of [l], for a [size_t] count. *)
Definition ztake {A} (n : Z) (l : list A) : list A := take (Z.to_nat n) l.

Lemma ztake_all {A} n (l : list A) : (zlen l <= n)%Z → ztake n l = l.
Proof. intros H. apply take_ge. unfold zlen in H. lia. Qed.
Lemma zlen_ztake {A} n (l : list A) :
  (0 <= n <= zlen l)%Z → zlen (ztake n l) = n.
Proof. unfold zlen, ztake. intros H. rewrite length_take. lia. Qed.
Lemma ztake_prefix {A} n (l : list A) : ztake n l `prefix_of` l.
Proof. apply prefix_take. Qed.

(** A sum over a list, one element of which changes. *)
Lemma sum_list_insert {A} (f : A → nat) (l : list A) i x y :
  l !! i = Some x → sum_list_with f (<[i := y]> l) + f x = sum_list_with f l + f y.
Proof.
  revert i. induction l as [|z l IH]; intros [|i]; simpl; try done; intros Hi.
  - injection Hi as ->. lia.
  - specialize (IH i Hi). lia.
Qed.

#[export] Hint Resolve zlen_nonneg : size.
#[export] Hint Rewrite @zlen_nil @zlen_app : size_simpl.

(** ** Reachability of a labelled transition system

    The servers are modelled as step relations; their safety properties are
    invariants of the reachable states. *)

Section Reachability.
Context {S L : Type} (step : S → L → S → Prop).

Inductive steps : S → list L → S → Prop :=
| steps_nil s : steps s [] s
| steps_snoc s ls s' l s'' :
    steps s ls s' → step s' l s'' → steps s (ls ++ [l]) s''.

Definition reachable (s0 s : S) : Prop := ∃ ls, steps s0 ls s.

Definition inductive_invariant (I : S → Prop) : Prop :=
  ∀ s l s', I s → step s l s' → I s'.

Lemma invariant_steps I s ls s' :
  inductive_invariant I → I s → steps s ls s' → I s'.
Proof. intros HI Hs. induction 1; eauto. Qed.

Lemma invariant_reachable I s0 s :
  inductive_invariant I → I s0 → reachable s0 s → I s.
Proof. intros HI H0 [ls Hls]. by eapply invariant_steps. Qed.

Lemma steps_app s ls s' ks s'' :
  steps s ls s' → steps s' ks s'' → steps s (ls ++ ks) s''.
Proof.
  intros H1. induction 1 as [|? ? ? l ? ? IH].
  - by rewrite app_nil_r.
  - rewrite app_assoc. eapply steps_snoc; eauto.
Qed.

(** A measure that every step decreases, apart from what its label is worth, bounds the length of all runs. *)
Lemma steps_credit (I : S → Prop) (measure : S → nat) (credit : L → nat) s ls s' :
  inductive_invariant I → (∀ s l s', I s → step s l s' → measure s' < measure s + credit l) →
  I s → steps s ls s' → length ls + measure s' <= measure s + sum_list_with credit ls.
Proof.
  intros HI Hdec Hs Hrun. induction Hrun as [s|s ls s1 l s2 Hrun IH Hstep]; [simpl; lia|].
  pose proof (Hdec _ _ _ (invariant_steps I s ls s1 HI Hs Hrun) Hstep). specialize (IH Hs).
  rewrite length_app, sum_list_with_app. simpl. lia.
Qed.

Lemma steps_measure (I : S → Prop) (measure : S → nat) s ls s' :
  inductive_invariant I → (∀ s l s', I s → step s l s' → measure s' < measure s) →
  I s → steps s ls s' → length ls + measure s' <= measure s.
Proof.
  intros HI Hdec Hs Hrun. pose proof (steps_credit I measure (λ _, 0) s ls s' HI) as H.
  assert (sum_list_with (λ _ : L, 0) ls = 0) as Hz by (clear; induction ls; simpl; lia).
  rewrite Hz, Nat.add_0_r in H. apply H; [|done..]. intros s1 l s2 H1 H2. rewrite Nat.add_0_r. eauto.
Qed.

Lemma steps_one s l s' : step s l s' → steps s [l] s'.
Proof. intros H. apply (steps_snoc s [] s l s'); [constructor | done]. Qed.

Lemma steps_app_inv s ls ks s'' :
  steps s (ls ++ ks) s'' → ∃ s', steps s ls s' ∧ steps s' ks s''.
Proof.
  revert s''. induction ks as [|k ks IH] using rev_ind; intros s'' Hsteps.
  - rewrite app_nil_r in Hsteps. exists s''. split; [done|constructor].
  - rewrite app_assoc in Hsteps. inversion Hsteps as [Heq|? ? s1 ? ? Hs Hk Heq]; subst.
    + by destruct (ls ++ ks).
    + apply app_inj_tail in H as [-> ->].
      destruct (IH _ Hs) as (s' & H1 & H2). exists s'. split; [done|]. by eapply steps_snoc.
Qed.

Lemma steps_split s pre l post s'' :
  steps s (pre ++ l :: post) s'' →
  ∃ s1 s2, steps s pre s1 ∧ step s1 l s2 ∧ steps s2 post s''.
Proof.
  intros (s1 & Hpre & Hrest)%steps_app_inv. change (l :: post) with ([l] ++ post) in Hrest.
  apply steps_app_inv in Hrest as (s2 & Hl & Hpost). exists s1, s2. split_and!; [done| |done].
  inversion Hl as [|? ls s' ? ? Hnil Hstep Heq]; subst.
  destruct ls as [|? [|]]; simplify_eq/=. inversion Hnil as [|? ls ? ? ? ? ? Heq]; subst; [done|].
  by destruct ls.
Qed.

Lemma reachable_step s0 s l s' : reachable s0 s → step s l s' → reachable s0 s'.
Proof. intros [ls Hls] Hstep. exists (ls ++ [l]). by eapply steps_snoc. Qed.

(** What a run does, seen as the [actions] of another system. *)
Context {A : Type} (actions : S → L → list A).
Inductive performs : S → list A → S → Prop :=
| performs_nil s : performs s [] s
| performs_snoc s acts s' l s'' :
    performs s acts s' → step s' l s'' → performs s (acts ++ actions s' l) s''.

Lemma performs_one_more s acts s' l ks s'' :
  performs s acts s' → step s' l s'' → actions s' l = ks → performs s (acts ++ ks) s''.
Proof. intros Hrun Hstep <-. by eapply performs_snoc. Qed.

Lemma performs_reachable s acts s' : performs s acts s' → reachable s s'.
Proof. induction 1; [exists []; constructor|by eapply reachable_step]. Qed.
End Reachability.

(** ** Execution

    A step relation that a function computes: its runs can be evaluated. *)
Section Execution.
Context {S L : Type} (step : S → L → S → Prop) (next : S → L → option S).

Fixpoint execute_labels (s : S) (ls : list L) : option S :=
  match ls with
  | [] => Some s
  | l :: ls => s' ← next s l; execute_labels s' ls
  end.

Hypothesis next_sound : ∀ s l s', next s l = Some s' → step s l s'.

Lemma execute_labels_sound s ls s' : execute_labels s ls = Some s' → steps step s ls s'.
Proof.
  revert s. induction ls as [|l ls IH]; intros s; simpl; [intros [= ->]; constructor|].
  destruct (next s l) as [s1|] eqn:Hl; simpl; [|done]. intros Hrun.
  apply (steps_app _ _ [l] s1); [by apply steps_one, next_sound|by apply IH].
Qed.
End Execution.

(** ** Forward simulation

    If every step, between states that satisfy an invariant and are within a bound, is matched by its
    actions in the abstract system, then so is every run. *)
Section Simulation.
Context {S L T A : Type} (step : S → L → S → Prop) (spec : T → A → T → Prop).
Context (actions : S → L → list A) (abstraction : S → T) (I bounded : S → Prop).
Hypothesis I_inductive : inductive_invariant step I.
Hypothesis bounded_back : ∀ s l s', I s → step s l s' → bounded s' → bounded s.
Hypothesis simulates : ∀ s l s', I s → step s l s' → bounded s' →
  steps spec (abstraction s) (actions s l) (abstraction s').

Lemma simulation s0 acts s :
  I s0 → performs step actions s0 acts s → bounded s →
  steps spec (abstraction s0) acts (abstraction s).
Proof.
  intros HI0. induction 1 as [s0|s0 acts s l s' Hrun IH Hstep]; intros Hb; [constructor|].
  assert (I s) as HIs by (eapply invariant_reachable; [done..|by eapply performs_reachable]).
  eapply steps_app; [apply IH; eauto|eauto].
Qed.
End Simulation.
