(* ===== verification/Decimal.v ===== *)
(** * Decimal integers in strings

    What [std::stoll] and [std::atoi] of the standard library share: leading white space, a sign, digits. *)
From Stdlib Require Import Ascii.
From S2P Require Import Prelude.

(** [isspace], in the "C" locale *)
Definition is_space (c : ascii) : bool :=
  let n := nat_of_ascii c in (n =? 32) || ((9 <=? n) && (n <=? 13)).
Definition digit_of (c : ascii) : option Z :=
  let n := nat_of_ascii c in
  if (48 <=? n) && (n <=? 57) then Some (Z.of_nat n - 48)%Z else None.

Fixpoint skip_spaces (s : string) : string :=
  match s with
  | String c rest => if is_space c then skip_spaces rest else s
  | EmptyString => EmptyString
  end.
(** The value of the leading digits, on top of [acc], and the rest. *)
Fixpoint read_digits (acc : Z) (s : string) : Z * string :=
  match s with
  | String c rest =>
      match digit_of c with
      | Some d => read_digits (10 * acc + d) rest
      | None => (acc, s)
      end
  | EmptyString => (acc, EmptyString)
  end.
Definition starts_with_digit (s : string) : bool :=
  match s with
  | String c _ => match digit_of c with Some _ => true | None => false end
  | EmptyString => false
  end.
(** An optional sign. *)
Definition sign_of (s : string) : Z * string :=
  match s with
  | String c rest =>
      if Ascii.eqb c "-"%char then ((-1)%Z, rest)
      else if Ascii.eqb c "+"%char then (1%Z, rest)
      else (1%Z, s)
  | EmptyString => (1%Z, s)
  end.

(** ** Scanning digits *)

(** The digits [ds], most significant first, followed by [rest]. *)
Definition of_digits (ds : list nat) (rest : string) : string :=
  foldr (λ d s, String (ascii_of_nat (48 + d)) s) rest ds.
Definition value_of (acc : Z) (ds : list nat) : Z := foldl (λ v d, 10 * v + Z.of_nat d)%Z acc ds.

Lemma digit_of_digit d : d < 10 → digit_of (ascii_of_nat (48 + d)) = Some (Z.of_nat d).
Proof.
  intros Hd. unfold digit_of. rewrite nat_ascii_embedding by lia.
  rewrite (proj2 (Nat.leb_le _ _)), (proj2 (Nat.leb_le _ _)) by lia. simpl. f_equal. lia.
Qed.

Lemma read_digits_of ds rest : ∀ acc,
  Forall (λ d, d < 10) ds → starts_with_digit rest = false →
  read_digits acc (of_digits ds rest) = (value_of acc ds, rest).
Proof.
  induction ds as [|d ds IH]; intros acc Hds Hrest.
  - destruct rest as [|c rest]; [done|]. cbn. cbn in Hrest. by destruct (digit_of c).
  - apply Forall_cons in Hds as [Hd Hds].
    change (of_digits (d :: ds) rest) with (String (ascii_of_nat (48 + d)) (of_digits ds rest)).
    cbn [read_digits]. rewrite digit_of_digit by done. by apply IH.
Qed.

Lemma not_space_digit d : d < 10 → is_space (ascii_of_nat (48 + d)) = false
  ∧ Ascii.eqb (ascii_of_nat (48 + d)) "-"%char = false
  ∧ Ascii.eqb (ascii_of_nat (48 + d)) "+"%char = false.
Proof.
  intros Hd. assert (d ∈ seq 0 10) as Hin by (apply elem_of_seq; lia). clear Hd.
  revert d Hin. apply Forall_forall. repeat constructor.
Qed.

Definition signed (negative : bool) (s : string) : string :=
  if negative then String "-" s else s.

Lemma starts_with_of_digits ds rest :
  ds ≠ [] → Forall (λ d, d < 10) ds → starts_with_digit (of_digits ds rest) = true.
Proof.
  destruct ds as [|d ds]; [done|]. intros _ [Hd _]%Forall_cons.
  change (of_digits (d :: ds) rest) with (String (ascii_of_nat (48 + d)) (of_digits ds rest)).
  cbn [starts_with_digit]. by rewrite digit_of_digit.
Qed.

Lemma scan_signed (negative : bool) ds rest :
  ds ≠ [] → Forall (λ d, d < 10) ds →
  sign_of (skip_spaces (signed negative (of_digits ds rest)))
  = (if negative then -1 else 1, of_digits ds rest)%Z.
Proof.
  destruct ds as [|d ds]; [done|]. intros _ [Hd _]%Forall_cons.
  destruct (not_space_digit d Hd) as (Hs & Hm & Hp).
  change (of_digits (d :: ds) rest) with (String (ascii_of_nat (48 + d)) (of_digits ds rest)) in *.
  generalize (of_digits ds rest). intros t.
  generalize dependent (ascii_of_nat (48 + d)). intros c Hs Hm Hp.
  unfold signed, sign_of. destruct negative; cbn [skip_spaces].
  - by replace (is_space "-") with false by reflexivity.
  - rewrite Hs. cbn iota. by rewrite Hm, Hp.
Qed.
