(* ===== verification/Asio.v ===== *)
(** * The interface to Boost.Asio

    Boost.Asio is not part of the repository.  This file states what the
    programs rely on as an interface: error codes, exceptions, cancellation
    types, and the asynchronous operations as class methods over an arbitrary
    world [W].  A coroutine ([awaitable]) is a function of that world which
    records, in a trace, every operation it performed together with its
    completion; whatever other coroutines, the peers or the operating system do
    while it is suspended is in the transition of [W]. *)
From S2P Require Import Prelude.

(** ** Error codes and exceptions *)

(** [boost::system::error_code]: the values the source tells apart.
    [error::operation_aborted] and [errc::operation_canceled] compare equal and
    are the one constructor [Operation_canceled]. *)
Inductive error_code :=
| Success
| Eof                      (* asio::error::eof *)
| Operation_canceled
| Need_buffer              (* beast::http::error::need_buffer *)
| Other_error (value : Z).

#[export] Instance error_code_eq_dec : EqDecision error_code.
Proof. solve_decision. Defined.

(** [if (ec)] *)
Definition failed (ec : error_code) : bool := bool_decide (ec ≠ Success).

Lemma failed_false ec : failed ec = false ↔ ec = Success.
Proof. unfold failed. rewrite bool_decide_eq_false. destruct (decide (ec = Success)); naive_solver. Qed.
Lemma failed_true ec : failed ec = true ↔ ec ≠ Success.
Proof. unfold failed. by rewrite bool_decide_eq_true. Qed.

(** What a C++ [std::exception_ptr] may hold here. *)
#[warnings="-register-all"]
Inductive exn :=
| system_error (ec : error_code)
| multiple_exceptions (first : option exn)
| std_exception (what : string)
| foreign_exception.

Abbreviation exception_ptr := (option exn).

(** ** Cancellation types *)

Abbreviation cancellation_type := Z.

Class CancellationTypes := {
  none : cancellation_type;
  terminal : cancellation_type;
  partial : cancellation_type;
  total : cancellation_type;
  all : cancellation_type
}.

(** The documented contract of the enumeration: [none] is the empty bit mask,
    [all] the full one (of an [unsigned int]), the others are disjoint, non-empty masks. *)
Class CancellationTypesOk `{CancellationTypes} : Prop := {
  none_empty : none = 0%Z;
  all_full : all = (2 ^ 32 - 1)%Z;
  terminal_range : (0 < terminal < 2 ^ 32)%Z;
  partial_range : (0 < partial < 2 ^ 32)%Z;
  total_range : (0 < total < 2 ^ 32)%Z;
  terminal_partial : Z.land terminal partial = 0%Z;
  terminal_total : Z.land terminal total = 0%Z;
  partial_total : Z.land partial total = 0%Z
}.

#[export] Instance boost_cancellation_types : CancellationTypes :=
  {| none := 0; terminal := 1; partial := 2; total := 4; all := 2 ^ 32 - 1 |}.
#[export] Instance boost_cancellation_types_ok : CancellationTypesOk.
Proof. split; vm_compute; intuition congruence. Qed.

(** The filters passed to [this_coro::reset_cancellation_state]. *)
Inductive cancellation_filter :=
| enable_terminal_cancellation
| enable_partial_cancellation
| enable_total_cancellation
| custom_filter (f : cancellation_type → cancellation_type).

(** ** Handles, durations, events *)

(** An IO object (socket, pipe, file, acceptor). *)
Abbreviation handle := nat.
(** Nanoseconds. *)
Abbreviation duration := Z.
(** A [double] of seconds (an option of the command line), as the programs use it: its comparisons with [0.0], and its
    [duration_cast]. *)
Record seconds := Seconds { seconds_negative : bool; seconds_positive : bool; seconds_cast : duration }.

(** [ip::address] and [ip::tcp::endpoint]: an address as an integer, and a port. *)
Inductive ip_address := V4 (bits : Z) | V6 (bits : Z).
Abbreviation endpoint := (ip_address * Z)%type.
#[export] Instance ip_address_eq_dec : EqDecision ip_address.
Proof. solve_decision. Defined.

Inductive shutdown_type := shutdown_send | shutdown_both.

Inductive event :=
| EvRead (h : handle) (cap : Z) (ec : error_code) (data : list byte)
| EvReadAll (h : handle) (ec : error_code) (data : list byte)
| EvWriteSome (h : handle) (data : list byte) (ec : error_code) (n : Z)
| EvWrite (h : handle) (data : list byte) (ec : error_code) (n : Z)
| EvAccept (h : handle) (ec : error_code) (peer : handle)
| EvSpawn (executor : nat) (peer : handle)
| EvRebind (executor : nat) (h : handle)  (* release, and assign on another executor *)
| EvDeadline (d : duration)
| EvWait (d : duration) (ec : error_code)
| EvOpen (h : handle)
| EvClose (h : handle)
| EvShutdown (h : handle) (how : shutdown_type) (ec : error_code)
| EvReset (f : cancellation_filter)
| EvThrowIfCancelled (b : bool)
| EvArrived (h : handle) (data : list byte)
| EvReadUntil (h : handle) (ec : error_code) (data : list byte) (n : Z)
| EvLine (line : list byte)             (* a line was handed to a callback *)
| EvChild (timeout : option duration)   (* co_spawn of an awaited child coroutine *)
| EvJoin
| EvPost
| EvResolve (host service : string) (ec : error_code) (eps : list endpoint)
| EvConnect (h : handle) (ep : endpoint) (ec : error_code)
| EvConnectRange (h : handle) (eps : list endpoint) (ec : error_code)
| EvReadHeader (h : handle) (ec : error_code)
| EvWriteHeader (h : handle) (ec : error_code)
| EvReadBody (h : handle) (cap : Z) (ec : error_code) (data : list byte) (is_done : bool)
| EvWriteBody (h : handle) (data : list byte) (more : bool) (ec : error_code)
| EvOption (h : handle)
| EvRequest (h : handle) (ec : error_code) (target body : string)
| EvResponse (h : handle) (status : Z) (body : string) (ec : error_code)
| EvSignal (signal : Z) (ec : error_code)
| EvProcess (path : string) (args : list string) (ec : error_code)
| EvProcessExit (ec : error_code) (exit_code : Z)
| EvInterrupt
| EvBind (port : Z) (ec : error_code)
| EvServe (port : Z) (workers : list handle)  (* a server accepts with these workers *)
| EvEmit (ct : cancellation_type).

(** ** Coroutines *)

Record st (W : Type) := St { env : W; trace : list event }.
Arguments St {W} _ _.
Arguments env {W} _.
Arguments trace {W} _.

Inductive result (A : Type) :=
| Val (a : A)
| Throw (e : exn)
| NoFuel.
Arguments Val {A} _.
Arguments Throw {A} _.
Arguments NoFuel {A}.

Definition awaitable (W A : Type) : Type := st W → result A * st W.

Section Monad.
Context {W : Type}.

#[global] Instance awaitable_ret : MRet (awaitable W) := λ A a s, (Val a, s).
#[global] Instance awaitable_bind : MBind (awaitable W) := λ A B k m s,
  match m s with
  | (Val a, s') => k a s'
  | (Throw e, s') => (Throw e, s')
  | (NoFuel, s') => (NoFuel, s')
  end.

Definition throw {A} (e : exn) : awaitable W A := λ s, (Throw e, s).
Definition try_catch {A} (m : awaitable W A) (h : exn → awaitable W A) : awaitable W A :=
  λ s, match m s with
       | (Throw e, s') => h e s'
       | r => r
       end.
(** Runs [m], giving the exception it throws as a value: [co_spawn(ex, m, as_tuple)]. *)
Definition as_tuple {A} (m : awaitable W A) : awaitable W (exception_ptr * option A) :=
  λ s, match m s with
       | (Val a, s') => (Val (None, Some a), s')
       | (Throw e, s') => (Val (Some e, None), s')
       | (NoFuel, s') => (NoFuel, s')
       end.
Definition gets {A} (f : W → A) : awaitable W A := λ s, (Val (f (env s)), s).
Definition modify (f : W → W) : awaitable W unit :=
  λ s, (Val tt, St (f (env s)) (trace s)).
Definition emit (e : event) : awaitable W unit :=
  λ s, (Val tt, St (env s) (trace s ++ [e])).

(** [while]/[for (;;)] loops, with fuel: [inl] is the next iteration's state,
    [inr] leaves the loop. *)
Fixpoint loop {S A} (fuel : nat) (body : S → awaitable W (S + A)) (x : S) : awaitable W A :=
  match fuel with
  | O => λ s, (NoFuel, s)
  | Datatypes.S fuel =>
      r ← body x;
      match r with
      | inl x' => loop fuel body x'
      | inr a => mret a
      end
  end.
End Monad.

(** ** The operations of the library, as the programs see them *)

(** Cancellation state of the running coroutine: [this_coro::cancellation_state]
    and [.cancelled()], [this_coro::reset_cancellation_state],
    [this_coro::throw_if_cancelled].  [await_throws] is the library's test at
    every [co_await]: it throws when the coroutine was cancelled, unless
    disabled. *)
Class Cancellation (W : Type) := {
  cancelled : W → cancellation_type;
  await_throws : W → bool;
  on_reset : cancellation_filter → W → W;
  on_throw_if_cancelled : bool → W → W
}.

(** Byte streams: [async_read_some], [async_read] with [transfer_all],
    [async_write_some], [async_write], [close], [shutdown]. *)
Class Streams (W : Type) := {
  on_read_some : handle → Z → W → error_code * list byte * W;
  on_read_all : handle → W → error_code * list byte * W;
  on_write_some : handle → list byte → W → error_code * Z * W;
  on_write : handle → list byte → W → error_code * Z * W;
  on_close : handle → W → W;
  on_shutdown : handle → shutdown_type → W → error_code * W
}.

(** The documented contract of these operations: a read fills at most the given
    buffer, a write reports how much of its buffer was transferred, and the
    composed [async_write] succeeds only when all of it was. *)
Class StreamsOk (W : Type) `{Streams W} : Prop := {
  read_some_bound h cap w ec d w' :
    on_read_some h cap w = (ec, d, w') → (zlen d <= Z.max 0 cap)%Z;
  write_some_bound h d w ec n w' :
    on_write_some h d w = (ec, n, w') → (0 <= n <= zlen d)%Z;
  write_bound h d w ec n w' :
    on_write h d w = (ec, n, w') → (0 <= n <= zlen d)%Z;
  write_complete h d w n w' :
    on_write h d w = (Success, n, w') → n = zlen d
}.

(** A peer that does not send forever: every successful read uses up some
    [budget], and no write adds to it. *)
Class FiniteInput (W : Type) `{Streams W} := {
  budget : W → nat;
  read_some_budget h cap w d w' :
    on_read_some h cap w = (Success, d, w') → budget w' < budget w;
  write_budget h d w ec n w' :
    on_write h d w = (ec, n, w') → budget w' <= budget w
}.

Class Timers (W : Type) := {
  on_wait : duration → W → error_code * W
}.

(** [async_read_until(pipe, buffer, '\n')] on a [streambuf] holding [buffer].
    The operation has two observable moments: cancellation may reach the
    coroutine while it is suspended, possibly several times (each time after
    some more bytes had arrived in the buffer), and then it completes, with more bytes. *)
Class LinePipes (W : Type) := {
  slot_connected : W → bool;
  on_read_until : handle → list byte → W → list (list byte) * W;
  on_read_until_done : handle → list byte → W → error_code * list byte * Z * W
}.

(** [co_await co_spawn(ex, child, token)]: the child runs with a cancellation
    state of its own, possibly under [cancel_after(timeout)]. *)
Class Spawning (W : Type) := {
  on_child : option duration → W → W;
  on_join : W → W
}.

Class Acceptors (W : Type) := {
  on_accept : handle → W → error_code * handle * W;
  on_spawn : handle → W → W
}.

(** Name resolution and connecting: [ip::make_address], [resolver.async_resolve],
    [socket.connect], and [async_connect] over a range of endpoints. *)
Class Networking (W : Type) := {
  make_address : string → option ip_address;
  on_resolve : string → string → W → error_code * list endpoint * W;
  on_open : handle → W → W;
  on_connect : handle → endpoint → W → error_code * W;
  on_connect_range : handle → list endpoint → W → error_code * endpoint * W
}.
(** [async_connect] succeeds only with one of the endpoints. *)
Class NetworkingOk (W : Type) `{Networking W} : Prop := {
  connect_range_elem h eps w ep w' :
    on_connect_range h eps w = (Success, ep, w') → ep ∈ eps
}.

(** [signal_set::async_wait] on a set with one signal. *)
Class Signals (W : Type) := {
  on_signal_wait : Z → W → error_code * W
}.

(** [steady_clock::now()] *)
Class Clock (W : Type) := { now : W → duration }.

(** Running two coroutines concurrently until both have ended: [capy::when_all]. *)
Class WhenAll (W : Type) := {
  when_all : ∀ A B : Type, (st W → result A * st W) → (st W → result B * st W) →
    st W → result (A * B) * st W
}.
Arguments when_all {W _ A B} _ _ _.

Section Operations.
Context {W : Type} `{!Cancellation W}.

(** [co_await op]: a cancelled coroutine throws before [op] is initiated. *)
Definition co_await {A} (m : awaitable W A) : awaitable W A := λ s,
  if await_throws (env s) then (Throw (system_error Operation_canceled), s) else m s.

(** The default completion token: an error is thrown. *)
Definition deferred {A} (m : awaitable W (error_code * A)) : awaitable W A :=
  '(ec, a) ← m;
  if failed ec then throw (system_error ec) else mret a.

Definition cs_cancelled : awaitable W cancellation_type := gets cancelled.
Definition reset_cancellation_state (f : cancellation_filter) : awaitable W unit :=
  modify (on_reset f);; emit (EvReset f).
Definition throw_if_cancelled (b : bool) : awaitable W unit :=
  modify (on_throw_if_cancelled b);; emit (EvThrowIfCancelled b).

Context `{!Streams W}.

(** The bare operations: what a callback or a blocking call waits for. *)
Definition op_read_some (h : handle) (cap : Z) : awaitable W (error_code * list byte) := λ s,
  let '(ec, d, w) := on_read_some h cap (env s) in
  (Val (ec, d), St w (trace s ++ [EvRead h cap ec d])).
Definition op_read (h : handle) : awaitable W (error_code * list byte) := λ s,
  let '(ec, d, w) := on_read_all h (env s) in
  (Val (ec, d), St w (trace s ++ [EvReadAll h ec d])).
Definition op_write_some (h : handle) (data : list byte) : awaitable W (error_code * Z) := λ s,
  let '(ec, n, w) := on_write_some h data (env s) in
  (Val (ec, n), St w (trace s ++ [EvWriteSome h data ec n])).
Definition op_write (h : handle) (data : list byte) : awaitable W (error_code * Z) := λ s,
  let '(ec, n, w) := on_write h data (env s) in
  (Val (ec, n), St w (trace s ++ [EvWrite h data ec n])).

(** The operations awaited by a coroutine. *)
Definition async_read_some (h : handle) (cap : Z) := co_await (op_read_some h cap).
Definition async_read (h : handle) := co_await (op_read h).
Definition async_write_some (h : handle) (data : list byte) := co_await (op_write_some h data).
Definition async_write (h : handle) (data : list byte) := co_await (op_write h data).
(** [close] and [shutdown] are plain calls, not awaited. *)
Definition close (h : handle) : awaitable W unit :=
  modify (on_close h);; emit (EvClose h).
Definition shutdown (h : handle) (how : shutdown_type) : awaitable W error_code := λ s,
  let '(ec, w) := on_shutdown h how (env s) in
  (Val ec, St w (trace s ++ [EvShutdown h how ec])).
End Operations.

Definition async_wait {W} `{!Cancellation W, !Timers W} (d : duration) :
    awaitable W (error_code * unit) :=
  co_await (λ s, let '(ec, w) := on_wait d (env s) in
                 (Val (ec, tt), St w (trace s ++ [EvWait d ec]))).
Definition op_accept {W} `{!Acceptors W} (h : handle) : awaitable W (error_code * handle) := λ s,
  let '(ec, p, w) := on_accept h (env s) in
  (Val (ec, p), St w (trace s ++ [EvAccept h ec p])).
Definition async_accept {W} `{!Cancellation W, !Acceptors W} (h : handle) :
    awaitable W (error_code * handle) := co_await (op_accept h).
Definition op_resolve {W} `{!Networking W} (host service : string) :
    awaitable W (error_code * list endpoint) := λ s,
  let '(ec, eps, w) := on_resolve host service (env s) in
  (Val (ec, eps), St w (trace s ++ [EvResolve host service ec eps])).
Definition open {W} `{!Networking W} (h : handle) : awaitable W unit :=
  modify (on_open h);; emit (EvOpen h).
Definition op_connect {W} `{!Networking W} (h : handle) (ep : endpoint) :
    awaitable W error_code := λ s,
  let '(ec, w) := on_connect h ep (env s) in
  (Val ec, St w (trace s ++ [EvConnect h ep ec])).
Definition op_connect_range {W} `{!Networking W} (h : handle) (eps : list endpoint) :
    awaitable W (error_code * endpoint) := λ s,
  let '(ec, ep, w) := on_connect_range h eps (env s) in
  (Val (ec, ep), St w (trace s ++ [EvConnectRange h eps ec])).
Definition async_resolve {W} `{!Cancellation W, !Networking W} (host service : string) :=
  co_await (op_resolve (W := W) host service).
Definition async_connect {W} `{!Cancellation W, !Networking W} (h : handle) (eps : list endpoint) :=
  co_await (op_connect_range (W := W) h eps).
Definition async_signal {W} `{!Cancellation W, !Signals W} (signal : Z) :
    awaitable W (error_code * unit) :=
  co_await (λ s, let '(ec, w) := on_signal_wait signal (env s) in
                 (Val (ec, tt), St w (trace s ++ [EvSignal signal ec]))).
(** An operation under [cancel_after(d)]: the deadline is recorded; that it may
    complete with [Operation_canceled] is part of the world. *)
Definition cancel_after {W A} (d : duration) (op : awaitable W A) : awaitable W A :=
  emit (EvDeadline d);; op.
Definition op_co_spawn {W A} `{!Spawning W} (timeout : option duration)
    (child : awaitable W A) : awaitable W A := λ s,
  match child (St (on_child timeout (env s)) (trace s ++ [EvChild timeout])) with
  | (r, s') => (r, St (on_join (env s')) (trace s' ++ [EvJoin]))
  end.
Definition co_spawn {W A} `{!Cancellation W, !Spawning W} (timeout : option duration)
    (child : awaitable W A) : awaitable W A := co_await (op_co_spawn timeout child).
(** [co_spawn(ex, session(peer), detached)], on one of several executors. *)
Definition co_spawn_on {W} `{!Acceptors W} (executor : nat) (peer : handle) : awaitable W unit :=
  modify (on_spawn peer);; emit (EvSpawn executor peer).
Definition co_spawn_detached {W} `{!Acceptors W} (peer : handle) : awaitable W unit :=
  co_spawn_on 0 peer.

(** ** Other libraries *)

(** [ranges::views::chunk] of the range-v3 library: splits a range into
    consecutive, non-empty chunks of at most [n] elements. *)
Class Chunking := {
  views_chunk : Z → list byte → list (list byte)
}.
Class ChunkingOk `{Chunking} : Prop := {
  chunk_concat n l : (0 < n)%Z → concat (views_chunk n l) = l;
  chunk_bound n l : (0 < n)%Z → Forall (λ c, (0 < zlen c <= n)%Z) (views_chunk n l)
}.

(** ** What a trace says was transferred *)

Definition read_of (h : handle) (e : event) : list byte :=
  match e with
  | EvRead h' _ _ d | EvReadAll h' _ d => if decide (h = h') then d else []
  | _ => []
  end.
Definition written_of (h : handle) (e : event) : list byte :=
  match e with
  | EvWrite h' d _ n | EvWriteSome h' d _ n => if decide (h = h') then ztake n d else []
  | _ => []
  end.
(** All bytes received from, and sent to, [h] in the order of the operations. *)
Definition received (h : handle) (tr : list event) : list byte := concat (read_of h <$> tr).
Definition sent (h : handle) (tr : list event) : list byte := concat (written_of h <$> tr).

Lemma received_app h t1 t2 : received h (t1 ++ t2) = received h t1 ++ received h t2.
Proof. unfold received. by rewrite fmap_app, concat_app. Qed.
Lemma sent_app h t1 t2 : sent h (t1 ++ t2) = sent h t1 ++ sent h t2.
Proof. unfold sent. by rewrite fmap_app, concat_app. Qed.
Create Rewrite HintDb asio.
#[export] Hint Rewrite received_app sent_app : asio.

(** Connections accepted, and sessions started, in order. *)
Definition accepted_of (e : event) : list handle :=
  match e with EvAccept _ Success p => [p] | _ => [] end.
Definition spawned_of (e : event) : list (nat * handle) :=
  match e with EvSpawn x p => [(x, p)] | _ => [] end.
Definition accepted (tr : list event) : list handle := concat (accepted_of <$> tr).
Definition spawned (tr : list event) : list (nat * handle) := concat (spawned_of <$> tr).
Lemma accepted_app t1 t2 : accepted (t1 ++ t2) = accepted t1 ++ accepted t2.
Proof. unfold accepted. by rewrite fmap_app, concat_app. Qed.
Lemma spawned_app t1 t2 : spawned (t1 ++ t2) = spawned t1 ++ spawned t2.
Proof. unfold spawned. by rewrite fmap_app, concat_app. Qed.
#[export] Hint Rewrite accepted_app spawned_app : asio.
