(* ===== verification/Wp.v ===== *)
(** * A small program logic for coroutines

    [wp m Q s]: running [m] from [s] ends with a result and a state that
    satisfy [Q].  One rule per primitive of Asio.v, and two loop rules: partial
    correctness from an invariant, and total correctness from an invariant and
    a measure that decreases with every iteration. *)
From S2P Require Import Prelude Asio.

Definition post (W A : Type) : Type := result A → st W → Prop.

Definition wp {W A} (m : awaitable W A) (Q : post W A) (s : st W) : Prop :=
  Q (m s).1 (m s).2.

(** The postcondition of the first half of [m ≫= k]. *)
Definition post_bind {W A B} (k : A → awaitable W B) (Q : post W B) : post W A := λ r s,
  match r with
  | Val a => wp (k a) Q s
  | Throw e => Q (Throw e) s
  | NoFuel => Q NoFuel s
  end.

Section Rules.
Context {W : Type}.
Implicit Types s : st W.

Lemma wp_intro {A} (m : awaitable W A) Q s r s' :
  wp m Q s → m s = (r, s') → Q r s'.
Proof. unfold wp. intros H E. by rewrite E in H. Qed.

Lemma wp_mono {A} (m : awaitable W A) (Q Q' : post W A) s :
  (∀ r s', Q r s' → Q' r s') → wp m Q s → wp m Q' s.
Proof. unfold wp. auto. Qed.

Lemma wp_and {A} (m : awaitable W A) (Q Q' : post W A) s :
  wp m Q s → wp m Q' s → wp m (λ r s', Q r s' ∧ Q' r s') s.
Proof. done. Qed.

Lemma wp_bind {A B} (m : awaitable W A) (k : A → awaitable W B) Q s :
  wp m (post_bind k Q) s → wp (m ≫= k) Q s.
Proof. unfold wp, post_bind, mbind, awaitable_bind. by destruct (m s) as [[a|e|] s']. Qed.

Lemma wp_ret {A} (a : A) Q s : Q (Val a) s → wp (mret a) Q s.
Proof. done. Qed.

Lemma wp_throw {A} e (Q : post W A) s : Q (Throw e) s → wp (throw e) Q s.
Proof. done. Qed.

Lemma wp_gets {A} (f : W → A) Q s : Q (Val (f (env s))) s → wp (gets f) Q s.
Proof. done. Qed.

Lemma wp_modify f (Q : post W unit) s :
  Q (Val tt) (St (f (env s)) (trace s)) → wp (modify f) Q s.
Proof. done. Qed.

Lemma wp_emit e (Q : post W unit) s :
  Q (Val tt) (St (env s) (trace s ++ [e])) → wp (emit e) Q s.
Proof. done. Qed.

Lemma wp_try_catch {A} (m : awaitable W A) h Q s :
  wp m (λ r s', match r with Throw e => wp (h e) Q s' | _ => Q r s' end) s →
  wp (try_catch m h) Q s.
Proof. unfold wp, try_catch. by destruct (m s) as [[a|e|] s']. Qed.

Lemma wp_as_tuple {A} (m : awaitable W A) Q s :
  wp m (λ r s', match r with
                | Val a => Q (Val (None, Some a)) s'
                | Throw e => Q (Val (Some e, None)) s'
                | NoFuel => Q NoFuel s'
                end) s →
  wp (as_tuple m) Q s.
Proof. unfold wp, as_tuple. by destruct (m s) as [[a|e|] s']. Qed.

Lemma wp_deferred {A} (m : awaitable W (error_code * A)) Q s :
  wp m (λ r s', match r with
                | Val (ec, a) =>
                    (ec = Success → Q (Val a) s') ∧
                    (ec ≠ Success → Q (Throw (system_error ec)) s')
                | Throw e => Q (Throw e) s'
                | NoFuel => Q NoFuel s'
                end) s →
  wp (deferred m) Q s.
Proof.
  unfold wp, deferred, mbind, awaitable_bind.
  destruct (m s) as [[[ec a]|e|] s']; simpl; [|done..].
  intros [H1 H2]. destruct (failed ec) eqn:Hf.
  - apply failed_true in Hf. auto.
  - apply failed_false in Hf. auto.
Qed.

(** The body of an iteration, for an invariant [I] and a relation [R] between
    successive loop states. *)
Definition post_loop {S A} (I : S → st W → Prop) (Q : post W A) : post W (S + A) := λ r s,
  match r with
  | Val (inl x) => I x s
  | Val (inr a) => Q (Val a) s
  | Throw e => Q (Throw e) s
  | NoFuel => Q NoFuel s
  end.

Lemma wp_loop {S A} (I : S → st W → Prop) (body : S → awaitable W (S + A)) (Q : post W A) :
  (∀ x s, I x s → Q NoFuel s) →
  (∀ x s, I x s → wp (body x) (post_loop I Q) s) →
  ∀ fuel x s, I x s → wp (loop fuel body x) Q s.
Proof.
  intros Hfuel Hbody fuel. induction fuel as [|fuel IH]; intros x s Hx; simpl.
  { by apply (Hfuel x). }
  apply wp_bind. eapply wp_mono; [|by apply Hbody].
  intros [[x'|a]|e|] s'; simpl; auto.
Qed.

Lemma wp_loop_total {S A} (I : S → st W → Prop) (μ : S → st W → nat)
    (body : S → awaitable W (S + A)) (Q : post W A) :
  (∀ x s, I x s →
     wp (body x) (post_loop (λ x' s', I x' s' ∧ μ x' s' < μ x s) Q) s) →
  ∀ fuel x s, I x s → μ x s < fuel → wp (loop fuel body x) Q s.
Proof.
  intros Hbody fuel. induction fuel as [|fuel IH]; intros x s Hx Hμ; simpl; [lia|].
  apply wp_bind. eapply wp_mono; [|by apply Hbody].
  intros [[x'|a]|e|] s'; simpl; [intros []; apply IH; [done|lia]|auto..].
Qed.

(** ** Operations *)

Context `{!Cancellation W}.

Lemma wp_co_await {A} (m : awaitable W A) (Q : post W A) s :
  (await_throws (env s) = true → Q (Throw (system_error Operation_canceled)) s) →
  (await_throws (env s) = false → wp m Q s) →
  wp (co_await m) Q s.
Proof. unfold wp, co_await. destruct (await_throws (env s)); simpl; auto. Qed.

Lemma wp_cs_cancelled (Q : post W cancellation_type) s :
  Q (Val (cancelled (env s))) s → wp cs_cancelled Q s.
Proof. done. Qed.

Lemma wp_reset f (Q : post W unit) s :
  Q (Val tt) (St (on_reset f (env s)) (trace s ++ [EvReset f])) →
  wp (reset_cancellation_state f) Q s.
Proof. done. Qed.

Lemma wp_throw_if_cancelled b (Q : post W unit) s :
  Q (Val tt) (St (on_throw_if_cancelled b (env s)) (trace s ++ [EvThrowIfCancelled b])) →
  wp (throw_if_cancelled b) Q s.
Proof. done. Qed.

(** A bare operation completes in any way the world allows. *)
Lemma wp_op_read_some `{!Streams W} h cap (Q : post W (error_code * list byte)) s :
  (∀ ec d w, on_read_some h cap (env s) = (ec, d, w) →
     Q (Val (ec, d)) (St w (trace s ++ [EvRead h cap ec d]))) →
  wp (op_read_some h cap) Q s.
Proof.
  intros HQ. unfold wp, op_read_some. destruct (on_read_some h cap (env s)) as [[ec d] w]. by apply HQ.
Qed.

Lemma wp_op_read `{!Streams W} h (Q : post W (error_code * list byte)) s :
  (∀ ec d w, on_read_all h (env s) = (ec, d, w) →
     Q (Val (ec, d)) (St w (trace s ++ [EvReadAll h ec d]))) →
  wp (op_read h) Q s.
Proof.
  intros HQ. unfold wp, op_read. destruct (on_read_all h (env s)) as [[ec d] w]. by apply HQ.
Qed.

Lemma wp_op_write_some `{!Streams W} h data (Q : post W (error_code * Z)) s :
  (∀ ec n w, on_write_some h data (env s) = (ec, n, w) →
     Q (Val (ec, n)) (St w (trace s ++ [EvWriteSome h data ec n]))) →
  wp (op_write_some h data) Q s.
Proof.
  intros HQ. unfold wp, op_write_some. destruct (on_write_some h data (env s)) as [[ec n] w]. by apply HQ.
Qed.

Lemma wp_op_write `{!Streams W} h data (Q : post W (error_code * Z)) s :
  (∀ ec n w, on_write h data (env s) = (ec, n, w) →
     Q (Val (ec, n)) (St w (trace s ++ [EvWrite h data ec n]))) →
  wp (op_write h data) Q s.
Proof.
  intros HQ. unfold wp, op_write. destruct (on_write h data (env s)) as [[ec n] w]. by apply HQ.
Qed.

(** Awaiting it adds the case where the coroutine was cancelled before. *)
Lemma wp_async_read_some `{!Streams W} h cap (Q : post W (error_code * list byte)) s :
  Q (Throw (system_error Operation_canceled)) s →
  (∀ ec d w, on_read_some h cap (env s) = (ec, d, w) →
     Q (Val (ec, d)) (St w (trace s ++ [EvRead h cap ec d]))) →
  wp (async_read_some h cap) Q s.
Proof. intros. by apply wp_co_await; [|intros _; apply wp_op_read_some]. Qed.

Lemma wp_async_read `{!Streams W} h (Q : post W (error_code * list byte)) s :
  Q (Throw (system_error Operation_canceled)) s →
  (∀ ec d w, on_read_all h (env s) = (ec, d, w) →
     Q (Val (ec, d)) (St w (trace s ++ [EvReadAll h ec d]))) →
  wp (async_read h) Q s.
Proof. intros. by apply wp_co_await; [|intros _; apply wp_op_read]. Qed.

Lemma wp_async_write_some `{!Streams W} h data (Q : post W (error_code * Z)) s :
  Q (Throw (system_error Operation_canceled)) s →
  (∀ ec n w, on_write_some h data (env s) = (ec, n, w) →
     Q (Val (ec, n)) (St w (trace s ++ [EvWriteSome h data ec n]))) →
  wp (async_write_some h data) Q s.
Proof. intros. by apply wp_co_await; [|intros _; apply wp_op_write_some]. Qed.

Lemma wp_async_write `{!Streams W} h data (Q : post W (error_code * Z)) s :
  Q (Throw (system_error Operation_canceled)) s →
  (∀ ec n w, on_write h data (env s) = (ec, n, w) →
     Q (Val (ec, n)) (St w (trace s ++ [EvWrite h data ec n]))) →
  wp (async_write h data) Q s.
Proof. intros. by apply wp_co_await; [|intros _; apply wp_op_write]. Qed.

Lemma wp_close `{!Streams W} h (Q : post W unit) s :
  Q (Val tt) (St (on_close h (env s)) (trace s ++ [EvClose h])) → wp (close h) Q s.
Proof. done. Qed.

Lemma wp_shutdown `{!Streams W} h how (Q : post W error_code) s :
  (∀ ec w, on_shutdown h how (env s) = (ec, w) →
     Q (Val ec) (St w (trace s ++ [EvShutdown h how ec]))) →
  wp (shutdown h how) Q s.
Proof.
  intros H. unfold wp, shutdown. destruct (on_shutdown h how (env s)). by apply H.
Qed.

Lemma wp_async_wait `{!Timers W} d (Q : post W (error_code * unit)) s :
  Q (Throw (system_error Operation_canceled)) s →
  (∀ ec w, on_wait d (env s) = (ec, w) →
     Q (Val (ec, tt)) (St w (trace s ++ [EvWait d ec]))) →
  wp (async_wait d) Q s.
Proof.
  intros H1 H2. apply wp_co_await; [done|intros _]. unfold wp.
  destruct (on_wait d (env s)). by apply H2.
Qed.

Lemma wp_async_signal `{!Signals W} sig (Q : post W (error_code * unit)) s :
  Q (Throw (system_error Operation_canceled)) s →
  (∀ ec w, on_signal_wait sig (env s) = (ec, w) →
     Q (Val (ec, tt)) (St w (trace s ++ [EvSignal sig ec]))) →
  wp (async_signal sig) Q s.
Proof.
  intros H1 H2. apply wp_co_await; [done|intros _]. unfold wp.
  destruct (on_signal_wait sig (env s)). by apply H2.
Qed.

Lemma wp_op_accept `{!Acceptors W} h (Q : post W (error_code * handle)) s :
  (∀ ec p w, on_accept h (env s) = (ec, p, w) →
     Q (Val (ec, p)) (St w (trace s ++ [EvAccept h ec p]))) →
  wp (op_accept h) Q s.
Proof.
  intros HQ. unfold wp, op_accept. destruct (on_accept h (env s)) as [[ec p] w]. by apply HQ.
Qed.

Lemma wp_async_accept `{!Acceptors W} h (Q : post W (error_code * handle)) s :
  Q (Throw (system_error Operation_canceled)) s →
  (∀ ec p w, on_accept h (env s) = (ec, p, w) →
     Q (Val (ec, p)) (St w (trace s ++ [EvAccept h ec p]))) →
  wp (async_accept h) Q s.
Proof. intros. by apply wp_co_await; [|intros _; apply wp_op_accept]. Qed.

Lemma wp_op_resolve `{!Networking W} host service (Q : post W (error_code * list endpoint)) s :
  (∀ ec eps w, on_resolve host service (env s) = (ec, eps, w) →
     Q (Val (ec, eps)) (St w (trace s ++ [EvResolve host service ec eps]))) →
  wp (op_resolve host service) Q s.
Proof.
  intros HQ. unfold wp, op_resolve. destruct (on_resolve host service (env s)) as [[ec eps] w].
  by apply HQ.
Qed.

Lemma wp_open `{!Networking W} h (Q : post W unit) s :
  Q (Val tt) (St (on_open h (env s)) (trace s ++ [EvOpen h])) → wp (open h) Q s.
Proof. intros HQ. by apply wp_bind, wp_modify, wp_emit. Qed.

Lemma wp_op_connect `{!Networking W} h ep (Q : post W error_code) s :
  (∀ ec w, on_connect h ep (env s) = (ec, w) →
     Q (Val ec) (St w (trace s ++ [EvConnect h ep ec]))) →
  wp (op_connect h ep) Q s.
Proof. intros HQ. unfold wp, op_connect. destruct (on_connect h ep (env s)). by apply HQ. Qed.

Lemma wp_op_connect_range `{!Networking W} h eps (Q : post W (error_code * endpoint)) s :
  (∀ ec ep w, on_connect_range h eps (env s) = (ec, ep, w) →
     Q (Val (ec, ep)) (St w (trace s ++ [EvConnectRange h eps ec]))) →
  wp (op_connect_range h eps) Q s.
Proof.
  intros HQ. unfold wp, op_connect_range.
  destruct (on_connect_range h eps (env s)) as [[ec ep] w]. by apply HQ.
Qed.

Lemma wp_async_resolve `{!Networking W} host service (Q : post W (error_code * list endpoint)) s :
  Q (Throw (system_error Operation_canceled)) s →
  (∀ ec eps w, on_resolve host service (env s) = (ec, eps, w) →
     Q (Val (ec, eps)) (St w (trace s ++ [EvResolve host service ec eps]))) →
  wp (async_resolve host service) Q s.
Proof. intros. by apply wp_co_await; [|intros _; apply wp_op_resolve]. Qed.

Lemma wp_async_connect `{!Networking W} h eps (Q : post W (error_code * endpoint)) s :
  Q (Throw (system_error Operation_canceled)) s →
  (∀ ec ep w, on_connect_range h eps (env s) = (ec, ep, w) →
     Q (Val (ec, ep)) (St w (trace s ++ [EvConnectRange h eps ec]))) →
  wp (async_connect h eps) Q s.
Proof. intros. by apply wp_co_await; [|intros _; apply wp_op_connect_range]. Qed.

Lemma wp_cancel_after {A} d (m : awaitable W A) Q s :
  wp m Q (St (env s) (trace s ++ [EvDeadline d])) → wp (cancel_after d m) Q s.
Proof. done. Qed.

Lemma wp_op_co_spawn {A} `{!Spawning W} timeout (m : awaitable W A) (Q : post W A) s :
  wp m (λ r s', Q r (St (on_join (env s')) (trace s' ++ [EvJoin])))
     (St (on_child timeout (env s)) (trace s ++ [EvChild timeout])) →
  wp (op_co_spawn timeout m) Q s.
Proof. unfold wp, op_co_spawn. by destruct (m _) as [r s']. Qed.

Lemma wp_co_spawn {A} `{!Spawning W} timeout (m : awaitable W A) (Q : post W A) s :
  Q (Throw (system_error Operation_canceled)) s →
  wp m (λ r s', Q r (St (on_join (env s')) (trace s' ++ [EvJoin])))
     (St (on_child timeout (env s)) (trace s ++ [EvChild timeout])) →
  wp (co_spawn timeout m) Q s.
Proof. intros. by apply wp_co_await; [|intros _; apply wp_op_co_spawn]. Qed.

Lemma wp_co_spawn_on `{!Acceptors W} x p (Q : post W unit) s :
  Q (Val tt) (St (on_spawn p (env s)) (trace s ++ [EvSpawn x p])) →
  wp (co_spawn_on x p) Q s.
Proof. done. Qed.

Lemma wp_co_spawn_detached `{!Acceptors W} p (Q : post W unit) s :
  Q (Val tt) (St (on_spawn p (env s)) (trace s ++ [EvSpawn 0 p])) →
  wp (co_spawn_detached p) Q s.
Proof. done. Qed.
End Rules.

(** [wp_step] applies the rule of the next primitive; [wp_run] does so until
    control leaves the straight-line code. *)
Ltac subst_var H :=
  lazymatch type of H with
  | ?x = _ => try subst x
  | _ => idtac
  end.
Ltac wp_step :=
  lazymatch goal with
  | |- wp (_ ≫= _) _ _ => apply wp_bind
  | |- wp (mret _) _ _ => apply wp_ret
  | |- wp (throw _) _ _ => apply wp_throw
  | |- wp (try_catch _ _) _ _ => apply wp_try_catch
  | |- wp (as_tuple _) _ _ => apply wp_as_tuple
  | |- wp (deferred _) _ _ => apply wp_deferred
  | |- wp cs_cancelled _ _ => apply wp_cs_cancelled
  | |- wp (gets _) _ _ => apply wp_gets
  | |- wp (emit _) _ _ => apply wp_emit
  | |- wp (modify _) _ _ => apply wp_modify
  | |- wp (reset_cancellation_state _) _ _ => apply wp_reset
  | |- wp (throw_if_cancelled _) _ _ => apply wp_throw_if_cancelled
  | |- wp (async_read_some _ _) _ _ => apply wp_async_read_some; [|intros ?ec ?d ?w ?Hread]
  | |- wp (async_read _) _ _ => apply wp_async_read; [|intros ?ec ?d ?w ?Hread]
  | |- wp (async_write_some _ _) _ _ => apply wp_async_write_some; [|intros ?ec ?n ?w ?Hwrite]
  | |- wp (async_write _ _) _ _ => apply wp_async_write; [|intros ?ec ?n ?w ?Hwrite]
  | |- wp (close _) _ _ => apply wp_close
  | |- wp (shutdown _ _) _ _ => apply wp_shutdown; intros ?ec ?w ?Hshut
  | |- wp (async_wait _) _ _ => apply wp_async_wait; [|intros ?ec ?w ?Hwait]
  | |- wp (async_signal _) _ _ => apply wp_async_signal; [|intros ?ec ?w ?Hsignal]
  | |- wp (async_accept _) _ _ => apply wp_async_accept; [|intros ?ec ?p ?w ?Haccept]
  | |- wp (co_spawn _ _) _ _ => apply wp_co_spawn
  | |- wp (op_co_spawn _ _) _ _ => apply wp_op_co_spawn
  | |- wp (co_spawn_on _ _) _ _ => apply wp_co_spawn_on
  | |- wp (co_spawn_detached _) _ _ => apply wp_co_spawn_detached
  | |- wp (cancel_after _ _) _ _ => apply wp_cancel_after
  | |- wp (op_resolve _ _) _ _ => apply wp_op_resolve; intros ?ec ?eps ?w ?Hresolve
  | |- wp (open _) _ _ => apply wp_open
  | |- wp (op_connect _ _) _ _ => apply wp_op_connect; intros ?ec ?w ?Hconnect
  | |- wp (op_connect_range _ _) _ _ => apply wp_op_connect_range; intros ?ec ?ep ?w ?Hconnect
  | |- wp (async_resolve _ _) _ _ => apply wp_async_resolve; [|intros ?ec ?eps ?w ?Hresolve]
  | |- wp (async_connect _ _) _ _ => apply wp_async_connect; [|intros ?ec ?ep ?w ?Hconnect]
  | |- wp (op_read_some _ _) _ _ => apply wp_op_read_some; intros ?ec ?d ?w ?Hread
  | |- wp (op_write _ _) _ _ => apply wp_op_write; intros ?ec ?n ?w ?Hwrite
  | |- wp (op_accept _) _ _ => apply wp_op_accept; intros ?ec ?p ?w ?Haccept
  | |- wp (co_await _) _ _ => apply wp_co_await; [intros ?Hcancel|intros ?Hcancel]
  | |- wp (if bool_decide (_ ≠ _) then _ else _) _ _ =>
      let H := fresh "Hne" in
      case_bool_decide as H; [|try apply dec_stable in H; subst_var H]; try (exfalso; congruence)
  | |- wp (if failed ?ec then _ else _) _ _ =>
      let H := fresh "Hfail" in
      destruct (failed ec) eqn:H;
      [apply failed_true in H | apply failed_false in H; subst_var H]; try (exfalso; congruence)
  | |- (_ = Success → _) ∧ (_ ≠ Success → _) =>
      let H := fresh "Hok" in split; [intros H; subst_var H|intros ?Hec]
  | |- post_bind _ _ _ _ => unfold post_bind
  | |- post_loop _ _ _ _ => unfold post_loop
  end; cbn beta iota.
Ltac wp_run := cbn beta iota zeta; repeat wp_step; cbn [env trace] in *.
