(* ===== verification/Copy.v ===== *)
(** * The copy protocol: the abstract specification of echo, cat and forward

    Most programs of the repository contain a loop that reads a chunk from one
    stream and writes it to another.  This file states what such a loop promises
    in terms of its trace, independently of how the loop is written (exceptions,
    error codes, callbacks), and derives the end-to-end consequences: bytes
    arrive unchanged, in order, and without gaps. *)
From S2P Require Import Prelude Asio.

Section Copy.
Context (h_in h_out : handle) (cap : Z).

(** One successful iteration, for the chunk [d]. *)
Definition copy_step (d : list byte) : list event :=
  [EvRead h_in cap Success d; EvWrite h_out d Success (zlen d)].
Definition copied (ds : list (list byte)) : list event := concat (copy_step <$> ds).

(** How the loop may end, with the error that ended it. *)
Inductive copy_end : error_code → list event → Prop :=
| end_cancelled : copy_end Operation_canceled []
| end_read ec d : ec ≠ Success → copy_end ec [EvRead h_in cap ec d]
| end_cancelled_write d : copy_end Operation_canceled [EvRead h_in cap Success d]
| end_write d ec n :
    ec ≠ Success → (0 <= n <= zlen d)%Z →
    copy_end ec [EvRead h_in cap Success d; EvWrite h_out d ec n].

(** The bytes of the last chunk, if it was read but not completely written. *)
Definition unsent (tail : list event) : list byte :=
  match tail with
  | EvRead _ _ Success d :: _ => d
  | _ => []
  end.

Lemma copied_snoc ds d : copied (ds ++ [d]) = copied ds ++ copy_step d.
Proof. unfold copied. by rewrite fmap_app, concat_app. Qed.

Lemma received_copied ds : received h_in (copied ds) = concat ds.
Proof.
  induction ds as [|d ds IH]; [done|].
  change (copied (d :: ds)) with (copy_step d ++ copied ds).
  rewrite received_app, IH. unfold received; simpl.
  by rewrite decide_True, app_nil_r by done.
Qed.

Lemma sent_copied ds : sent h_out (copied ds) = concat ds.
Proof.
  induction ds as [|d ds IH]; [done|].
  change (copied (d :: ds)) with (copy_step d ++ copied ds).
  rewrite sent_app, IH. unfold sent; simpl.
  by rewrite decide_True, app_nil_r, ztake_all by done.
Qed.

(** Whatever ends the loop, what was sent in the last iteration is a prefix of
    what was received in it. *)
Lemma copy_end_prefix ec tail :
  copy_end ec tail → sent h_out tail `prefix_of` received h_in tail.
Proof.
  destruct 1; unfold sent, received; simpl; rewrite ?decide_True by done;
    rewrite ?app_nil_r; auto using prefix_nil, ztake_prefix.
Qed.

Lemma copy_run_prefix ds ec tail :
  copy_end ec tail →
  sent h_out (copied ds ++ tail) `prefix_of` received h_in (copied ds ++ tail).
Proof.
  intros Hend. rewrite sent_app, received_app, sent_copied, received_copied.
  by apply prefix_app, copy_end_prefix with ec.
Qed.

Lemma copy_end_failed ec tail : copy_end ec tail → ec ≠ Success.
Proof. by destruct 1. Qed.

(** A loop that ended on a read error has sent everything it received. *)
Lemma copy_run_complete ds ec d :
  sent h_out (copied ds ++ [EvRead h_in cap ec d]) = concat ds.
Proof. rewrite sent_app, sent_copied. unfold sent; simpl. by rewrite app_nil_r. Qed.
End Copy.

(** Automation: [asio_db] chooses how a loop ended; the bounds and the
    completeness of writes come from the contract of the streams. *)
Create HintDb asio_db.
#[export] Hint Constructors copy_end : asio_db.
#[export] Hint Resolve write_bound write_some_bound read_some_bound : asio_db.
#[export] Hint Extern 1 (_ ≠ _) => congruence : asio_db.

Lemma concat_snoc {A} (ds : list (list A)) d : concat (ds ++ [d]) = concat ds ++ d.
Proof. rewrite concat_app. simpl. by rewrite app_nil_r. Qed.

(** The total of the bytes transferred, as the [size_t] accumulator sees it. *)
Lemma size_add_concat (ds : list (list byte)) d :
  wrap64 (zlen (concat ds)) +ₛ zlen d = wrap64 (zlen (concat (ds ++ [d]))).
Proof. by rewrite size_add_wrap, concat_snoc, zlen_app. Qed.

(** The next iteration's trace is again a sequence of complete copies. *)
Lemma copied_extend {W} `{!Streams W, !StreamsOk W} (t0 : list event) h_in h_out cap ds d n w w' :
  on_write h_out d w = (Success, n, w') →
  ((t0 ++ copied h_in h_out cap ds) ++ [EvRead h_in cap Success d]) ++ [EvWrite h_out d Success n] =
  t0 ++ copied h_in h_out cap (ds ++ [d]).
Proof.
  intros H%write_complete. subst n. by rewrite copied_snoc, <-!app_assoc.
Qed.

(** Solves an exit of a copy loop: names the chunks copied so far and the last,
    incomplete iteration. *)
Ltac copy_exit ds tail :=
  exists ds, tail; cbn [env trace]; rewrite <-?app_assoc; cbn [app]; rewrite ?app_nil_r;
  repeat match goal with |- ∃ _, _ => eexists end;
  split_and?; try reflexivity; try congruence; eauto with asio_db.
