(* ===== verification/Script.v ===== *)
(** * A scripted world

    A concrete, finite environment in which the coroutines can be run: queues of
    read, write, accept and timer completions, consumed in order.  It inhabits
    the interface of Asio.v and its contracts, so that the theorems of the
    library apply to it, and it makes every program executable. *)
From S2P Require Import Prelude Asio.

Record script := Script {
  sc_reads : list (error_code * list byte);   (* then: end of file *)
  sc_writes : list error_code;                (* then: success *)
  sc_accepts : list (error_code * handle);    (* then: cancelled *)
  sc_waits : list error_code;                 (* then: success *)
  sc_cancelled : cancellation_type;
  sc_throws : bool
}.

Definition idle : script := Script [] [] [] [] 0 false.
Definition reading (reads : list (error_code * list byte)) : script :=
  Script reads [] [] [] 0 false.
Definition start (w : script) : st script := St w [].

Definition sc_read (cap : Z) (w : script) : error_code * list byte * script :=
  match sc_reads w with
  | [] => (Eof, [], w)
  | (ec, d) :: rest =>
      (ec, ztake (Z.max 0 cap) d,
       Script rest (sc_writes w) (sc_accepts w) (sc_waits w) (sc_cancelled w) (sc_throws w))
  end.

Definition sc_write (d : list byte) (w : script) : error_code * Z * script :=
  match sc_writes w with
  | [] => (Success, zlen d, w)
  | ec :: rest =>
      (ec, if decide (ec = Success) then zlen d else 0%Z,
       Script (sc_reads w) rest (sc_accepts w) (sc_waits w) (sc_cancelled w) (sc_throws w))
  end.

#[export] Instance script_streams : Streams script := {|
  on_read_some _ cap w := sc_read cap w;
  on_read_all _ w := (Eof, concat (sc_reads w).*2, w);
  on_write_some _ d w := sc_write d w;
  on_write _ d w := sc_write d w;
  on_close _ w := w;
  on_shutdown _ _ w := (Success, w)
|}.

#[export] Instance script_cancellation : Cancellation script := {|
  cancelled := sc_cancelled;
  await_throws := sc_throws;
  on_reset _ w := Script (sc_reads w) (sc_writes w) (sc_accepts w) (sc_waits w) 0 false;
  on_throw_if_cancelled _ w := w
|}.

#[export] Instance script_spawning : Spawning script :=
  {| on_child _ w := w; on_join w := w |}.

Definition sc_next (w : script) : error_code * script :=
  match sc_waits w with
  | [] => (Success, w)
  | ec :: rest => (ec, Script (sc_reads w) (sc_writes w) (sc_accepts w) rest
                         (sc_cancelled w) (sc_throws w))
  end.

#[export] Instance script_timers : Timers script := {|
  on_wait _ w := sc_next w
|}.

#[export] Instance script_signals : Signals script := {| on_signal_wait _ w := sc_next w |}.

(** Connects take their results from the same queue as timers. *)
#[export] Instance script_networking : Networking script := {|
  make_address host := if decide (host = "127.0.0.1"%string) then Some (V4 2130706433) else None;
  on_resolve _ _ w := (Success, [(V6 1, 55555%Z); (V4 2130706433, 55555%Z)], w);
  on_open _ w := w;
  on_connect _ _ w := sc_next w;
  on_connect_range _ eps w :=
    match eps with
    | [] => (Other_error 2, (V4 0, 0%Z), w)
    | ep :: _ => let '(ec, w) := sc_next w in (ec, ep, w)
    end
|}.
#[export] Instance script_networking_ok : NetworkingOk script.
Proof.
  split. simpl. intros _ [|ep' eps] w ep w'; [done|].
  destruct (sc_next w) as [ec w1]. intros [= -> -> ->]. by constructor.
Qed.
#[export] Instance script_clock : Clock script := {| now _ := 0%Z |}.
(** One after the other. *)
#[export] Instance script_when_all : WhenAll script := {|
  when_all A B m n := a ← (m : awaitable script A); b ← (n : awaitable script B); mret (a, b)
|}.

#[export] Instance script_acceptors : Acceptors script := {|
  on_accept _ w := match sc_accepts w with
                   | [] => (Operation_canceled, 0, w)
                   | (ec, p) :: rest => (ec, p, Script (sc_reads w) (sc_writes w) rest (sc_waits w)
                                                  (sc_cancelled w) (sc_throws w))
                   end;
  on_spawn _ w := w
|}.

Lemma sc_write_bound d w ec n w' : sc_write d w = (ec, n, w') → (0 <= n <= zlen d)%Z.
Proof.
  pose proof (zlen_nonneg d).
  unfold sc_write. destruct (sc_writes w); [|case_decide]; intros [= <- <- <-]; lia.
Qed.

#[export] Instance script_streams_ok : StreamsOk script.
Proof.
  split; simpl.
  - intros _ cap w ec d w'. unfold sc_read. destruct (sc_reads w) as [|[ec' d'] rest].
    + intros [= <- <- <-]. rewrite zlen_nil. lia.
    + intros [= <- <- <-]. unfold zlen, ztake. rewrite length_take. lia.
  - intros _. apply sc_write_bound.
  - intros _. apply sc_write_bound.
  - intros _ d w n w'. unfold sc_write.
    destruct (sc_writes w) as [|ec rest]; [by intros [= <- <-]|].
    case_decide; intros; simplify_eq; done.
Qed.

#[export] Instance script_finite : FiniteInput script.
Proof.
  refine {| budget w := length (sc_reads w) |}; simpl.
  - intros _ cap w d w'. unfold sc_read. destruct (sc_reads w) as [|[ec' d'] rest]; [done|].
    intros [= -> <- <-]. simpl. lia.
  - intros _ d w ec n w'. unfold sc_write.
    destruct (sc_writes w); intros [= <- <- <-]; simpl; lia.
Defined.

(** Chunking, as the range library documents it. *)
Fixpoint chunk_list (fuel : nat) (n : nat) (l : list byte) : list (list byte) :=
  match fuel, l with
  | S fuel, _ :: _ => take n l :: chunk_list fuel n (drop n l)
  | _, _ => []
  end.
#[export] Instance script_chunking : Chunking :=
  {| views_chunk n l := chunk_list (length l) (Z.to_nat n) l |}.

Lemma chunk_list_concat fuel n l :
  0 < n → length l <= fuel → concat (chunk_list fuel n l) = l.
Proof.
  intros Hn. revert l. induction fuel as [|fuel IH]; intros [|x l] Hl; simpl in *; try done; [lia|].
  rewrite IH; [by rewrite take_drop|]. rewrite length_drop. simpl. lia.
Qed.

Lemma chunk_list_bound fuel n l :
  0 < n → Forall (λ c, (0 < zlen c <= Z.of_nat n)%Z) (chunk_list fuel n l).
Proof.
  intros Hn. revert l. induction fuel as [|fuel IH]; intros [|x l]; simpl; constructor; [|done].
  unfold zlen. rewrite length_take. simpl. lia.
Qed.

#[export] Instance script_chunking_ok : ChunkingOk.
Proof.
  split; intros n l Hn; simpl.
  - apply chunk_list_concat; lia.
  - rewrite <-(Z2Nat.id n) at 1 by lia. eapply Forall_impl; [apply chunk_list_bound; lia|].
    simpl. lia.
Qed.

(** Bytes of an ASCII string, for examples. *)
Definition bytes_of (s : String.string) : list byte := String.list_byte_of_string s.
