(* ===== verification/StreamUtils.v ===== *)
(** * include/stream_utils.hpp: writing, reading and copying streams

    All functions of the header, on abstract streams; [cat] refines the copy protocol of Copy.v. *)
From S2P Require Import Prelude Asio Wp Copy Script.

(** [64_k] *)
Definition buffer_size : Z := 64 * 1024.

Section StreamUtils.
Context {W : Type} `{!CancellationTypes, !Cancellation W, !Streams W, !Spawning W, !Timers W}.
Context `{!Chunking}.

(** Overload for contiguous ranges: one [async_write]. *)
Definition write_contiguous (stream : handle) (range : list byte) : awaitable W Z :=
  reset_cancellation_state enable_partial_cancellation;;
  '(ec, n) ← async_write stream range;
  c ← cs_cancelled;
  if bool_decide (c ≠ none) then mret n
  else if failed ec then throw (system_error ec)
  else mret n.

(** Overload for other ranges: chunks of 64 KiB, copied to a temporary buffer. *)
Fixpoint write_chunks (request : handle) (total : Z) (chunks : list (list byte)) :
    awaitable W Z :=
  match chunks with
  | [] => mret total
  | chunk :: chunks =>
      '(ec, n) ← async_write request chunk;
      let total := total +ₛ n in
      c ← cs_cancelled;
      if bool_decide (c ≠ none) then mret total
      else if failed ec then throw (system_error ec)
      else write_chunks request total chunks
  end.
Definition write_range (request : handle) (range : list byte) : awaitable W Z :=
  reset_cancellation_state enable_partial_cancellation;;
  write_chunks request 0 (views_chunk buffer_size range).

(** The overload is chosen by the type of the range. *)
Definition write (contiguous : bool) (stream : handle) (range : list byte) : awaitable W Z :=
  if contiguous then write_contiguous stream range else write_range stream range.

Definition write_and_close (contiguous : bool) (stream : handle) (range : list byte) :
    awaitable W Z :=
  reset_cancellation_state enable_partial_cancellation;;
  n ← co_await (write contiguous stream range);
  close stream;;
  mret n.

Definition write_and_close_timeout (contiguous : bool) (stream : handle) (range : list byte)
    (timeout : duration) : awaitable W Z :=
  reset_cancellation_state enable_partial_cancellation;;
  n ← co_spawn (Some timeout) (write contiguous stream range);
  mret n.

Definition read_all (stream : handle) : awaitable W (list byte) :=
  '(ec, buffer) ← async_read stream;
  if failed ec && bool_decide (ec ≠ Eof) then throw (system_error ec)
  else close stream;; mret buffer.

Definition count (fuel : nat) (stream : handle) : awaitable W Z :=
  loop fuel (λ total,
    try_catch
      (data ← deferred (async_read_some stream buffer_size);
       mret (inl (total +ₛ zlen data)))
      (λ e, match e with
            | system_error ec => if bool_decide (ec ≠ Eof) then throw e else mret (inr total)
            | _ => throw e
            end)) 0%Z.

Definition cat (fuel : nat) (inn out : handle) : awaitable W Z :=
  loop fuel (λ total,
    try_catch
      (data ← deferred (async_read_some inn (64 * 1024));
       _ ← deferred (async_write out data);
       mret (inl (total +ₛ zlen data)))
      (λ e, match e with
            | system_error ec =>
                if bool_decide (ec ≠ Eof) then throw e
                else close out;; mret (inr total)
            | _ => throw e
            end)) 0%Z.
End StreamUtils.

Section StreamUtilsProofs.
Context {W : Type} `{!CancellationTypes, !Cancellation W, !Streams W, !Spawning W, !Timers W}.
Context `{!Chunking}.

Definition cat_post (inn out : handle) (s0 : st W) : post W Z := λ r s, ∃ ds tail,
  match r with
  | Val total =>
      trace s = trace s0 ++ copied inn out (64 * 1024) ds ++ tail ++ [EvClose out]
      ∧ copy_end inn out (64 * 1024) Eof tail
      ∧ total = wrap64 (zlen (concat ds))
  | Throw e => ∃ ec,
      trace s = trace s0 ++ copied inn out (64 * 1024) ds ++ tail
      ∧ copy_end inn out (64 * 1024) ec tail
      ∧ e = system_error ec ∧ ec ≠ Eof
  | NoFuel => trace s = trace s0 ++ copied inn out (64 * 1024) ds ∧ tail = []
  end.

Lemma cat_correct `{!StreamsOk W} fuel inn out s :
  wp (cat fuel inn out) (cat_post inn out s) s.
Proof.
  apply (wp_loop (λ total s', ∃ ds,
    trace s' = trace s ++ copied inn out (64 * 1024) ds ∧ total = wrap64 (zlen (concat ds)))).
  { intros total s' (ds & Ht & _). by exists ds, []. }
  2: { exists []. by rewrite app_nil_r. }
  intros total [w0 t0] (ds & Ht & Htotal); simpl in Ht; subst t0.
  wp_run.
  - copy_exit ds (@nil event).
  - copy_exit ds [EvRead inn (64 * 1024) Success d].
  - exists (ds ++ [d]). subst total. split; [by eapply copied_extend|apply size_add_concat].
  - copy_exit ds [EvRead inn (64 * 1024) Success d; EvWrite out d ec n].
  - copy_exit ds [EvRead inn (64 * 1024) Success d; EvWrite out d Eof n].
  - copy_exit ds [EvRead inn (64 * 1024) ec d].
  - copy_exit ds [EvRead inn (64 * 1024) Eof d].
Qed.

Lemma cat_post_prefix inn out s r s' :
  cat_post inn out s r s' →
  ∃ tr, trace s' = trace s ++ tr ∧ sent out tr `prefix_of` received inn tr.
Proof.
  intros (ds & tail & Hp). destruct r as [total|e|].
  - destruct Hp as (Ht & Hend & _). eexists; split; [done|].
    rewrite app_assoc, sent_app, received_app. unfold sent at 2, received at 2; simpl.
    rewrite !app_nil_r. by eapply copy_run_prefix.
  - destruct Hp as (ec & Ht & Hend & _). eexists; split; [done|]. by eapply copy_run_prefix.
  - destruct Hp as [Ht ->]. eexists; split; [done|]. by rewrite sent_copied, received_copied.
Qed.

(** A loop that performs at least one successful read per iteration ends, for
    a peer that does not send forever. *)
Lemma cat_total `{!FiniteInput W} fuel inn out s :
  budget (env s) < fuel → wp (cat fuel inn out) (λ r _, r ≠ NoFuel) s.
Proof.
  apply (wp_loop_total (λ _ _, True) (λ _ s', budget (env s'))); [|done].
  intros total s' _. wp_run; try done.
  split; [done|]. apply read_some_budget in Hread. apply write_budget in Hwrite. simpl in *. lia.
Qed.

Definition counted (stream : handle) (ds : list (list byte)) : list event :=
  (λ d, EvRead stream buffer_size Success d) <$> ds.

Definition count_post (stream : handle) (s0 : st W) : post W Z := λ r s, ∃ ds,
  match r with
  | Val total => ∃ d,
      trace s = trace s0 ++ counted stream ds ++ [EvRead stream buffer_size Eof d]
      ∧ total = wrap64 (zlen (concat ds))
  | Throw e =>
      (trace s = trace s0 ++ counted stream ds ∧ e = system_error Operation_canceled)
      ∨ ∃ ec d, trace s = trace s0 ++ counted stream ds ++ [EvRead stream buffer_size ec d]
                ∧ ec ≠ Success ∧ ec ≠ Eof ∧ e = system_error ec
  | NoFuel => trace s = trace s0 ++ counted stream ds
  end.

Lemma count_correct fuel stream s : wp (count fuel stream) (count_post stream s) s.
Proof.
  apply (wp_loop (λ total s', ∃ ds,
    trace s' = trace s ++ counted stream ds ∧ total = wrap64 (zlen (concat ds)))).
  { intros total s' (ds & Ht & _). by exists ds. }
  2: { exists []. by rewrite app_nil_r. }
  intros total [w0 t0] (ds & Ht & Htotal); simpl in Ht; subst t0. wp_run.
  - exists ds. by left.
  - exists (ds ++ [d]). subst total. split; [|apply size_add_concat].
    unfold counted. by rewrite fmap_app, app_assoc.
  - exists ds. right. exists ec, d. by rewrite <-app_assoc.
  - exists ds, d. by rewrite <-app_assoc.
Qed.

Lemma count_total `{!FiniteInput W} fuel stream s :
  budget (env s) < fuel → wp (count fuel stream) (λ r _, r ≠ NoFuel) s.
Proof.
  apply (wp_loop_total (λ _ _, True) (λ _ s', budget (env s'))); [|done].
  intros total s' _. wp_run; try done.
  split; [done|]. by apply read_some_budget in Hread.
Qed.

(** What a writer promises: the bytes sent are a prefix of the range, the
    returned number counts exactly them, and a normal return with less than
    the range happens only on cancellation. *)
Definition write_post (stream : handle) (range : list byte) (s0 : st W) : post W Z := λ r s,
  ∃ tr, trace s = trace s0 ++ tr ∧ sent stream tr `prefix_of` range ∧
  match r with
  | Val n => n = wrap64 (zlen (sent stream tr))
             ∧ (cancelled (env s) = none → sent stream tr = range)
  | Throw e => ∃ ec, e = system_error ec ∧ ec ≠ Success
  | NoFuel => False
  end.

Lemma sent_one stream data ec n :
  sent stream [EvWrite stream data ec n] = ztake n data.
Proof. unfold sent; simpl. by rewrite decide_True, app_nil_r. Qed.

Lemma sent_reset stream f tr : sent stream (EvReset f :: tr) = sent stream tr.
Proof. done. Qed.

Ltac write_exit stream range ec n :=
  exists [EvReset enable_partial_cancellation; EvWrite stream range ec n];
  cbn [env trace]; rewrite sent_reset, sent_one, <-app_assoc;
  match goal with H : on_write _ _ _ = _ |- _ =>
    pose proof (write_bound _ _ _ _ _ _ H); try pose proof (write_complete _ _ _ _ _ H)
  end;
  split_and?; [done|apply ztake_prefix|..];
  first [ by eauto
        | by rewrite zlen_ztake, wrap64_small by (unfold is_size in *; lia)
        | intros; try congruence; apply ztake_all; lia ].

Lemma write_contiguous_correct `{!StreamsOk W} stream range s :
  is_size (zlen range) → wp (write_contiguous stream range) (write_post stream range s) s.
Proof.
  intros Hsize. unfold write_contiguous. wp_run.
  - exists [EvReset enable_partial_cancellation].
    split_and!; [done|apply prefix_nil|by exists Operation_canceled].
  - write_exit stream range ec n.
  - write_exit stream range ec n.
  - write_exit stream range Success n.
Qed.

(** The chunked writer, from a state in which [base] bytes went out already. *)
Definition chunks_post (stream : handle) (range : list byte) (base : Z) (s0 : st W) : post W Z :=
  λ r s, ∃ tr, trace s = trace s0 ++ tr ∧ sent stream tr `prefix_of` range ∧
  match r with
  | Val n => n = wrap64 (base + zlen (sent stream tr))
             ∧ (cancelled (env s) = none → sent stream tr = range)
  | Throw e => ∃ ec, e = system_error ec ∧ ec ≠ Success
  | NoFuel => False
  end.

Lemma write_chunks_correct `{!StreamsOk W} stream chunks : ∀ base s,
  wp (write_chunks stream (wrap64 base) chunks) (chunks_post stream (concat chunks) base s) s.
Proof.
  induction chunks as [|c chunks IH]; intros base s; simpl.
  { apply wp_ret. exists []. by rewrite app_nil_r, Z.add_0_r. }
  wp_run.
  - exists []. rewrite app_nil_r. split_and!; [done|apply prefix_nil|by eexists].
  - exists [EvWrite stream c ec n]. rewrite sent_one, size_add_wrap.
    pose proof (write_bound _ _ _ _ _ _ Hwrite).
    rewrite zlen_ztake by done. split_and!; [done| |done|intros; simpl in *; congruence].
    by apply prefix_app_r, ztake_prefix.
  - exists [EvWrite stream c ec n]. rewrite sent_one.
    split_and!; [done|by apply prefix_app_r, ztake_prefix|by eexists].
  - apply write_complete in Hwrite as ->. rewrite size_add_wrap.
    eapply wp_mono; [|apply IH]. intros r s' (tr & Ht & Hpre & Hr). simpl in Ht.
    exists (EvWrite stream c Success (zlen c) :: tr).
    change (EvWrite stream c Success (zlen c) :: tr)
      with ([EvWrite stream c Success (zlen c)] ++ tr).
    rewrite sent_app, sent_one, ztake_all, app_assoc by done.
    split_and!; [done|by apply prefix_app|].
    destruct r as [n'|e|]; [|done..]. destruct Hr as [-> Hr].
    rewrite zlen_app. split; [f_equal; lia|]. intros Hc. by rewrite Hr.
Qed.

Lemma write_range_correct `{!StreamsOk W, !ChunkingOk} stream range s :
  wp (write_range stream range) (write_post stream range s) s.
Proof.
  unfold write_range. wp_run. eapply wp_mono; [|apply (write_chunks_correct _ _ 0)].
  rewrite chunk_concat by done. intros r s' (tr & Ht & Hpre & Hr).
  exists (EvReset enable_partial_cancellation :: tr). rewrite sent_reset.
  split_and!; [|done|done]. by rewrite Ht; simpl; rewrite <-app_assoc.
Qed.

Lemma write_correct `{!StreamsOk W, !ChunkingOk} contiguous stream range s :
  is_size (zlen range) →
  wp (write contiguous stream range) (write_post stream range s) s.
Proof. intros. destruct contiguous; eauto using write_contiguous_correct, write_range_correct. Qed.

(** [write_and_close] closes the stream exactly when it returns normally, and
    then after the last byte was written. *)
Definition write_and_close_post (stream : handle) (range : list byte) (s0 : st W) : post W Z :=
  λ r s, ∃ tr, sent stream tr `prefix_of` range ∧
  match r with
  | Val n => trace s = trace s0 ++ EvReset enable_partial_cancellation :: tr ++ [EvClose stream]
             ∧ n = wrap64 (zlen (sent stream tr))
  | Throw e => trace s = trace s0 ++ EvReset enable_partial_cancellation :: tr
               ∧ ∃ ec, e = system_error ec ∧ ec ≠ Success
  | NoFuel => False
  end.

Lemma write_and_close_correct `{!StreamsOk W, !ChunkingOk} contiguous stream range s :
  is_size (zlen range) →
  wp (write_and_close contiguous stream range) (write_and_close_post stream range s) s.
Proof.
  intros Hsize. unfold write_and_close. wp_run.
  { exists []. split; [apply prefix_nil|]. by split; [|eexists]. }
  eapply wp_mono; [|by apply write_correct].
  intros [n|e|] s' (tr & Ht & Hpre & Hr); [|..]; unfold post_bind; wp_run; try done.
  - exists tr. rewrite Ht. destruct Hr as [-> _]. by rewrite <-!app_assoc.
  - exists tr. by rewrite Ht, <-app_assoc.
Qed.

(** [read_all] returns everything up to the end of the stream, or what was
    read when the transfer stopped without an error, and closes the stream;
    any other error is thrown and the stream is not closed. *)
Lemma read_all_correct stream s :
  wp (read_all stream) (λ r s',
    match r with
    | Val buffer => ∃ ec, (ec = Success ∨ ec = Eof) ∧
        trace s' = trace s ++ [EvReadAll stream ec buffer; EvClose stream]
    | Throw e =>
        (trace s' = trace s ∧ e = system_error Operation_canceled)
        ∨ ∃ ec d, ec ≠ Success ∧ ec ≠ Eof ∧ e = system_error ec ∧
            trace s' = trace s ++ [EvReadAll stream ec d]
    | NoFuel => False
    end) s.
Proof.
  unfold read_all. wp_run.
  { by left. }
  destruct (failed ec) eqn:Hf; simpl.
  - apply failed_true in Hf. wp_run.
    + right. by exists ec, d.
    + exists Eof. rewrite <-app_assoc. auto.
  - apply failed_false in Hf as ->. wp_run. exists Success.
    rewrite <-app_assoc. auto.
Qed.
End StreamUtilsProofs.

(** ** Properties *)

(** C1. [cat] is a faithful copy: its run consists of complete read/write pairs
    followed by one incomplete iteration; it returns (closing [out]) exactly when
    that iteration ended in end-of-file, with the number of bytes copied modulo
    2^64; every other error is thrown with [out] left open; at every point the
    bytes sent are a prefix of the bytes received; and it ends whenever the input is finite. *)
Theorem cat_copies {W} `{!CancellationTypes, !Cancellation W, !Streams W, !StreamsOk W,
    !FiniteInput W} fuel inn out s r s' :
  cat fuel inn out s = (r, s') →
  cat_post inn out s r s'
  ∧ (∃ tr, trace s' = trace s ++ tr ∧ sent out tr `prefix_of` received inn tr)
  ∧ (budget (env s) < fuel → r ≠ NoFuel).
Proof.
  intros Hrun. pose proof (wp_intro _ _ _ _ _ (cat_correct fuel inn out s) Hrun) as Hpost.
  split_and!; [done| |].
  - apply (cat_post_prefix _ _ _ _ _ Hpost).
  - intros Hb. by apply (wp_intro _ _ _ _ _ (cat_total fuel inn out s Hb) Hrun).
Qed.

(** [write] (both overloads) reports exactly what went out: the bytes sent
    are a prefix of the range, the returned number is their count, a return
    without cancellation means the whole range was sent, and an error is thrown otherwise. *)
Theorem write_reports_sent {W} `{!CancellationTypes, !Cancellation W, !Streams W, !StreamsOk W,
    !Chunking, !ChunkingOk} contiguous stream range s r s' :
  is_size (zlen range) →
  write contiguous stream range s = (r, s') →
  write_post stream range s r s'.
Proof. intros Hsize Hrun. by eapply wp_intro; [apply write_correct|]. Qed.

(** [write_and_close] closes the stream exactly when it returns normally,
    after the last write, and returns the number of bytes sent. *)
Theorem write_and_close_closes {W} `{!CancellationTypes, !Cancellation W, !Streams W, !StreamsOk W,
    !Chunking, !ChunkingOk} contiguous stream range s r s' :
  is_size (zlen range) →
  write_and_close contiguous stream range s = (r, s') →
  write_and_close_post stream range s r s'.
Proof. intros Hsize Hrun. by eapply wp_intro; [apply write_and_close_correct|]. Qed.

(** [count] returns, on end-of-file only, the number of bytes of all
    successful reads modulo 2^64, throws every other error, and ends whenever the input is finite. *)
Theorem count_counts {W} `{!Cancellation W, !Streams W, !FiniteInput W} fuel stream s r s' :
  count fuel stream s = (r, s') →
  count_post stream s r s' ∧ (budget (env s) < fuel → r ≠ NoFuel).
Proof.
  intros Hrun. split.
  - by eapply wp_intro; [apply count_correct|].
  - intros Hb. by apply (wp_intro _ _ _ _ _ (count_total fuel stream s Hb) Hrun).
Qed.

(** ** Witnesses *)

Example hello : list (error_code * list byte) :=
  [(Success, bytes_of "hello "); (Success, bytes_of "world")].

Lemma cat_copies_witness :
  let s := start (reading hello) in
  ∃ s', cat 5 0 1 s = (Val 11%Z, s') ∧ cat_post 0 1 s (Val 11%Z) s'.
Proof.
  eexists. split; [vm_compute; reflexivity|].
  refine (proj1 (cat_copies (W := script) 5 0 1 _ _ _ _)). vm_compute; reflexivity.
Defined.

Lemma write_reports_sent_witness :
  let s := start idle in
  ∃ s', write false 3 (bytes_of "hello") s = (Val 5%Z, s')
        ∧ write_post 3 (bytes_of "hello") s (Val 5%Z) s'.
Proof.
  eexists. split; [vm_compute; reflexivity|].
  eapply (write_reports_sent (W := script) false 3); [vm_compute; split; congruence|].
  vm_compute; reflexivity.
Defined.

Lemma write_and_close_closes_witness :
  let s := start idle in
  ∃ s', write_and_close true 3 (bytes_of "hello") s = (Val 5%Z, s')
        ∧ write_and_close_post 3 (bytes_of "hello") s (Val 5%Z) s'.
Proof.
  eexists. split; [vm_compute; reflexivity|].
  eapply (write_and_close_closes (W := script) true 3); [vm_compute; split; congruence|].
  vm_compute; reflexivity.
Defined.

Lemma count_counts_witness :
  let s := start (reading hello) in
  ∃ s', count 5 0 s = (Val 11%Z, s') ∧ count_post 0 s (Val 11%Z) s'.
Proof.
  eexists. split; [vm_compute; reflexivity|].
  refine (proj1 (count_counts (W := script) 5 0 _ _ _ _)). vm_compute; reflexivity.
Defined.
