(* ===== verification/Core.v ===== *)
(** * include/asio-coro.hpp and include/literals.hpp: the helpers every program uses

    The error code and the message of an exception pointer, sleep and yield, the test for
    cancellation, and the size literals. *)
From stdpp Require Import pretty.
From S2P Require Import Prelude Asio Wp Script.

(** ** Literals: [64_k] and the like, [unsigned long long] arithmetic *)

Definition operator_k (k : Z) : Z := k *ₛ 1024.
Definition operator_m (m : Z) : Z := m *ₛ 1024 *ₛ 1024.
Definition operator_g (g : Z) : Z := g *ₛ 1024 *ₛ 1024 *ₛ 1024.

(** ** Exceptions and error codes *)

(** [code] applied to the exception that [ptr] holds; [inl] is an exception that
    propagates out of the function. *)
Fixpoint code_exn (e : exn) : exn + error_code :=
  match e with
  | multiple_exceptions first =>
      match first with
      | None => inr Success
      | Some e => code_exn e
      end
  | system_error ec => inr ec
  | _ => inl e
  end.
Definition code (ptr : exception_ptr) : exn + error_code :=
  match ptr with
  | None => inr Success
  | Some e => code_exn e
  end.

(** [error_code::message()] belongs to the system library. *)
Class Messages := { message : error_code → string }.

Section What.
Context `{!Messages}.

Definition what_ec (ec : error_code) : string := message ec.

Fixpoint what_exn (e : exn) : exn + string :=
  match e with
  | multiple_exceptions first =>
      match first with
      | None => inr "Success(ep)"
      | Some e => what_exn e
      end
  | system_error ec => inr (message ec)
  | std_exception w => inr w
  | foreign_exception => inl e
  end.
Definition what (ptr : exception_ptr) : exn + string :=
  match ptr with
  | None => inr "Success(ep)"
  | Some e => what_exn e
  end.

(** The completion handlers made by [log_exception()] and
    [log_exception(prefix)]: the lines they print. *)
Definition log_exception (ptr : exception_ptr) : exn + list string :=
  match ptr with
  | None => inr []
  | Some _ => match what ptr with
              | inl e => inl e
              | inr w => inr [w]
              end
  end.
Definition log_exception_prefix (prefix : string) (ptr : exception_ptr) (args : list string) :
    exn + list string :=
  match what ptr with
  | inl e => inl e
  | inr w => inr ((prefix +:+ ": " +:+ w)
                  :: ((λ a, prefix +:+ ":   result=" +:+ a) <$> args))
  end.
End What.

(** ** Coroutine helpers *)

Section Helpers.
Context {W : Type} `{!CancellationTypes, !Cancellation W, !Timers W}.

(** [post(executor)]: completes without error as soon as it is scheduled. *)
Definition yield : awaitable W unit := co_await (emit EvPost).

Definition sleep (timeout : duration) : awaitable W unit :=
  reset_cancellation_state enable_total_cancellation;;
  deferred (async_wait timeout).

Definition isCancelled (state : W) (mask : cancellation_type) : bool :=
  bool_decide (Z.land (cancelled state) mask ≠ none).
End Helpers.

(** The conditions of [boost::system::errc] that the programs use; the others by their number. *)
Inductive errc_t := operation_canceled | other_errc (value : Z).

(** [error_code(error, system_category())]: the value 0 is success. *)
Definition make_system_error (error : errc_t) : error_code :=
  match error with
  | operation_canceled => Operation_canceled
  | other_errc v => if (v =? 0)%Z then Success else Other_error v
  end.

(** [setpgid(pid, pgid)] of the operating system. *)
Class ProcessGroups (W : Type) := { on_setpgid : Z → Z → W → Z * W }.

(** [setpgid_initializer]: puts the child into a group of its own; a failure is not reported. *)
Definition on_exec_setup {W} `{!ProcessGroups W} : awaitable W error_code := λ s,
  let (_, w) := on_setpgid 0 0 (env s) in (Val Success, St w (trace s)).

(** What is printed for an exception pointer, after what [os] holds. *)
Definition PrintTo `{!Messages} (ptr : exception_ptr) (os : string) : exn + string :=
  match what ptr with
  | inl e => inl e
  | inr w => inr (os +:+ w)
  end.

(** An unscoped enumeration of [uint8_t]: it may have other values. *)
Inductive AddressFamily := IPv4 | IPv6 | Other_family (value : byte).

Definition to_string (family : AddressFamily) : string :=
  match family with
  | IPv4 => "IPv4"
  | IPv6 => "IPv6"
  | Other_family _ => "Unknown"
  end.

(** ** Lemmas *)

(** The exception at the bottom of a chain of [multiple_exceptions]. *)
Fixpoint root (e : exn) : option exn :=
  match e with
  | multiple_exceptions first =>
      match first with
      | None => None
      | Some e => root e
      end
  | _ => Some e
  end.

Section ExnInd.
Context (P : exn → Prop)
  (Hsys : ∀ ec, P (system_error ec)) (Hnull : P (multiple_exceptions None))
  (Hmult : ∀ e, P e → P (multiple_exceptions (Some e)))
  (Hstd : ∀ w, P (std_exception w)) (Hfor : P foreign_exception).

(** Induction over nested [multiple_exceptions]. *)
Fixpoint exn_nested_ind (e : exn) : P e :=
  match e with
  | system_error ec => Hsys ec
  | multiple_exceptions None => Hnull
  | multiple_exceptions (Some e) => Hmult e (exn_nested_ind e)
  | std_exception w => Hstd w
  | foreign_exception => Hfor
  end.
End ExnInd.

Lemma code_root e :
  code_exn e = match root e with
               | None => inr Success
               | Some (system_error ec) => inr ec
               | Some e => inl e
               end.
Proof. induction e using exn_nested_ind; done. Qed.

Lemma what_root `{!Messages} e :
  what_exn e = match root e with
               | None => inr "Success(ep)"
               | Some (system_error ec) => inr (message ec)
               | Some (std_exception w) => inr w
               | Some e => inl e
               end.
Proof. induction e using exn_nested_ind; done. Qed.

Lemma root_not_multiple e f : root e ≠ Some (multiple_exceptions f).
Proof. induction e using exn_nested_ind; done. Qed.

Lemma size_mul_wrap a b : wrap64 a *ₛ b = wrap64 (a * b).
Proof. unfold size_mul, wrap64. by rewrite Zmult_mod_idemp_l. Qed.

Lemma literals_wrap z :
  operator_k z = wrap64 (z * 2 ^ 10) ∧ operator_m z = wrap64 (z * 2 ^ 20)
  ∧ operator_g z = wrap64 (z * 2 ^ 30).
Proof.
  unfold operator_k, operator_m, operator_g. split_and!; [done|..].
  - change (z *ₛ 1024) with (wrap64 (z * 1024)). rewrite size_mul_wrap. f_equal. lia.
  - change (z *ₛ 1024) with (wrap64 (z * 1024)). rewrite !size_mul_wrap. f_equal. lia.
Qed.

Lemma wrap64_exact_iff z : (0 <= z)%Z → wrap64 z = z ↔ (z < 2 ^ 64)%Z.
Proof.
  intros Hz. split.
  - intros <-. apply wrap64_range.
  - intros H. by apply wrap64_small.
Qed.

(** ** Properties *)

(** [code] and [what] agree on what an exception pointer holds, through any
    nesting of [multiple_exceptions]: both look at the same innermost exception;
    [code] returns iff that is a [system_error] (or absent) and then [what]
    returns that code's message; [what] only lets a non-standard exception escape. *)
Theorem code_what_agree `{!Messages} ptr :
  match ptr ≫= root with
  | None => code ptr = inr Success ∧ what ptr = inr "Success(ep)"
  | Some (system_error ec) => code ptr = inr ec ∧ what ptr = inr (message ec)
  | Some (std_exception w) => code ptr = inl (std_exception w) ∧ what ptr = inr w
  | Some e => e = foreign_exception ∧ code ptr = inl e ∧ what ptr = inl e
  end.
Proof.
  destruct ptr as [e|]; [|done]. simpl. rewrite code_root, what_root.
  destruct (root e) as [[]|] eqn:He; try done. by apply root_not_multiple in He.
Qed.

(** The size literals [_k], [_m], [_g] are exact multiples of 2^10, 2^20 and
    2^30 exactly as long as the product fits 64 bits, and wrap around otherwise. *)
Theorem literals_exact_iff_fit (z : Z) :
  is_size z →
  (operator_k z = z * 2 ^ 10 ↔ z < 2 ^ 54)%Z
  ∧ (operator_m z = z * 2 ^ 20 ↔ z < 2 ^ 44)%Z
  ∧ (operator_g z = z * 2 ^ 30 ↔ z < 2 ^ 34)%Z.
Proof.
  intros [Hz _]. destruct (literals_wrap z) as (-> & -> & ->).
  split_and!; rewrite wrap64_exact_iff by lia; lia.
Qed.

Lemma literals_exact_iff_fit_witness :
  operator_k 64 = 65536%Z ∧ (operator_g (2 ^ 34) = 2 ^ 34 * 2 ^ 30 ↔ 2 ^ 34 < 2 ^ 34)%Z.
Proof.
  split; [reflexivity|]. apply (literals_exact_iff_fit (2 ^ 34)).
  unfold is_size; lia.
Defined.
