(* ===== verification/AsyncInvoke.v ===== *)
(** * include/async_invoke.hpp: running a function on another executor

    [async_invoke(pool, token, f, args...)] posts a function object to [pool] that calls
    [f] and dispatches the completion handler to the handler's own executor.  An executor's
    [run()] returns when it has no outstanding work, and what is queued afterwards
    never runs; the model therefore counts work, and any executor without work may stop
    at any time.  The overload for [void] functions is not modelled. *)
From S2P Require Import Prelude Asio.

Section AsyncInvoke.
Context {A : Type}.

(** Executors are numbered.  Whether [dispatch] to an executor from one of its own threads runs
    the function at once is up to the executor. *)
Abbreviation executor := nat.
Context (runs_inline : executor → bool).

(** The function object is in the queue of the pool; it runs; the completion handler is in
    the queue of its executor; the handler was called, by a thread of [on]. *)
Inductive stage :=
| Posted
| Invoking
| Dispatched (result : A)
| Completed (on : executor) (result : A).

(** An operation: [handler] is the executor associated with the completion handler, if there is
    one; [f] is bound to its arguments, and may throw; [work] is the [work_guard]. *)
Record operation := Operation {
  pool : executor;
  handler : option executor;
  f : unit → exn + A;
  work : option executor;
  progress : stage
}.

(** [get_associated_executor(handler, fallback)] *)
Definition get_associated_executor (handler : option executor) (fallback : executor) : executor :=
  default fallback handler.

(** The initiation: [make_work_guard(ex)], and [post(pool, ...)]. *)
Definition async_invoke (pool : executor) (handler : option executor) (f : unit → exn + A) :
    operation :=
  let ex := get_associated_executor handler pool in
  Operation pool handler f (Some ex) Posted.

(** The overload without a token uses [deferred]: it gives the operation, which is initiated later, with a handler. *)
Definition async_invoke_deferred (pool : executor) (f : unit → exn + A) : option executor → operation :=
  λ handler, async_invoke pool handler f.

(** [dispatch(ex, std::bind(handler, result))] from a thread of the pool.  Without a
    fallback, [get_associated_executor] gives the system executor, on which [dispatch] runs
    the handler where it is. *)
Definition dispatch (op : operation) (result : A) : stage :=
  match handler op with
  | None => Completed (pool op) result
  | Some ex =>
      if (ex =? pool op) && runs_inline ex then Completed ex result else Dispatched result
  end.

(** The posted function object; [None] if [f] throws, out of a thread of the pool.  Its end releases
    the work guard. *)
Definition invoke (op : operation) : option operation :=
  match f op tt with
  | inl _ => None
  | inr result => Some (Operation (pool op) (handler op) (f op) None (dispatch op result))
  end.

Definition advance (op : operation) (p : stage) : operation :=
  Operation (pool op) (handler op) (f op) (work op) p.

(** [terminated]: an exception left a thread. *)
Record state := State {
  operations : gmap nat operation;
  stopped : gset executor;
  terminated : bool
}.
Definition initial : state := State ∅ ∅ false.

(** What an operation contributes to the outstanding work of [ex]: the queued or running
    function object, the work guard, the queued completion handler. *)
Definition holds_work (op : operation) (ex : executor) : Prop :=
  match progress op with
  | Posted | Invoking => ex = pool op ∨ work op = Some ex
  | Dispatched _ => handler op = Some ex ∨ work op = Some ex
  | Completed _ _ => work op = Some ex
  end.

Inductive label :=
| Initiates (i : nat) | Invokes (i : nat) | Returns (i : nat) | Handles (i : nat)
| Stops (ex : executor).

Inductive step : state → label → state → Prop :=
| initiates s i pool handler f :
    terminated s = false → operations s !! i = None →
    pool ∉ stopped s → get_associated_executor handler pool ∉ stopped s →
    step s (Initiates i)
      (State (<[i := async_invoke pool handler f]> (operations s)) (stopped s) false)
| invokes s i op :
    terminated s = false → operations s !! i = Some op → progress op = Posted →
    pool op ∉ stopped s →
    step s (Invokes i) (State (<[i := advance op Invoking]> (operations s)) (stopped s) false)
| returns s i op :
    terminated s = false → operations s !! i = Some op → progress op = Invoking →
    step s (Returns i)
      (match invoke op with
      | Some op' => State (<[i := op']> (operations s)) (stopped s) false
      | None => State (operations s) (stopped s) true
      end)
| handles s i op ex result :
    terminated s = false → operations s !! i = Some op → progress op = Dispatched result →
    handler op = Some ex → ex ∉ stopped s →
    step s (Handles i)
      (State (<[i := advance op (Completed ex result)]> (operations s)) (stopped s) false)
| stops s ex :
    terminated s = false → map_Forall (λ _ op, ¬ holds_work op ex) (operations s) →
    step s (Stops ex) (State (operations s) ({[ex]} ∪ stopped s) false).

(** ** Invariant *)

(** Every operation keeps the executors it still needs from stopping. *)
Definition inv_operation (stopped : gset executor) (op : operation) : Prop :=
  let ex := get_associated_executor (handler op) (pool op) in
  match progress op with
  | Posted | Invoking => work op = Some ex ∧ (pool op ∉ stopped) ∧ (ex ∉ stopped)
  | Dispatched result => f op tt = inr result ∧ handler op = Some ex ∧ (ex ∉ stopped)
  | Completed on result => f op tt = inr result ∧ on = ex
  end.
Definition inv (s : state) : Prop :=
  map_Forall (λ _ op, inv_operation (stopped s) op) (operations s).

Lemma inv_operation_stops op ex stopped :
  ¬ holds_work op ex → inv_operation stopped op → inv_operation ({[ex]} ∪ stopped) op.
Proof.
  unfold holds_work, inv_operation, get_associated_executor.
  destruct (progress op) as [| |result|on result]; [| | |done].
  - intros Hw (Hwork & Hp & He). rewrite Hwork in Hw. split_and!; [done|set_solver..].
  - intros Hw (Hwork & Hp & He). rewrite Hwork in Hw. split_and!; [done|set_solver..].
  - intros Hw (Hf & Hh & He). split_and!; [done..|].
    rewrite Hh in Hw |- *. simpl in *. set_solver.
Qed.

Lemma invoke_inv stopped op op' :
  progress op = Invoking → inv_operation stopped op → invoke op = Some op' →
  inv_operation stopped op'.
Proof.
  unfold inv_operation, invoke. intros -> (_ & Hp & He) Hop'.
  destruct (f op tt) as [|r] eqn:Hf; simplify_eq/=.
  unfold dispatch. destruct (handler op) as [ex|]; simpl in *; [|done].
  by destruct ((ex =? pool op) && runs_inline ex).
Qed.

Lemma invoke_inv_inductive : inductive_invariant step inv.
Proof.
  intros s l s' Hinv Hstep.
  destruct Hstep as [s i p h g _ _ Hp He|s i op _ Hi Hpr Hp|s i op _ Hi Hpr
    |s i op ex r _ Hi Hpr Hh He|s ex _ Hw]; unfold inv in *; simpl.
  - by apply map_Forall_insert_2.
  - apply map_Forall_insert_2; [|done]. specialize (Hinv i op Hi). revert Hinv.
    unfold inv_operation. by rewrite Hpr.
  - destruct (invoke op) as [op'|] eqn:Hinvoke; [|done]. simpl.
    apply map_Forall_insert_2; [|done]. by apply (invoke_inv _ op op' Hpr (Hinv i op Hi)).
  - apply map_Forall_insert_2; [|done]. specialize (Hinv i op Hi). revert Hinv.
    unfold inv_operation. rewrite Hpr. simpl. rewrite Hh. naive_solver.
  - intros i op Hi. apply inv_operation_stops; [by apply (Hw i)|by apply (Hinv i)].
Qed.

Lemma invoke_inv_reachable s : reachable step initial s → inv s.
Proof. apply invariant_reachable; [apply invoke_inv_inductive|by apply map_Forall_empty]. Qed.

(** ** Completion *)

(** The steps that only concern operation [i]. *)
Definition of_operation (i : nat) (l : label) : Prop := l = Invokes i ∨ l = Returns i ∨ l = Handles i.

(** [s] leads to a state in which operation [i] has completed with [r], in at most [n] steps of its own. *)
Definition completes (n : nat) (s : state) (i : nat) (r : A) : Prop := ∃ ls s' op,
  steps step s ls s' ∧ length ls <= n ∧ Forall (of_operation i) ls ∧ terminated s' = false ∧
  operations s' !! i = Some op ∧
  progress op = Completed (get_associated_executor (handler op) (pool op)) r ∧
  (∀ j, j ≠ i → operations s' !! j = operations s !! j).

Lemma completes_mono n m s i r : n <= m → completes n s i r → completes m s i r.
Proof.
  intros Hnm (ls & s' & op & Hls & Hn & Hrest). exists ls, s', op. split_and!; [done|lia|apply Hrest..].
Qed.

Lemma completes_step n s l i op r :
  of_operation i l →
  step s l (State (<[i := op]> (operations s)) (stopped s) false) →
  completes n (State (<[i := op]> (operations s)) (stopped s) false) i r →
  completes (S n) s i r.
Proof.
  intros Hl Hstep (ls & s' & op' & Hls & Hn & Hall & Ht & Hi & Hp & Hj).
  exists ([l] ++ ls), s', op'. split_and!; try done.
  - eapply steps_app; [by apply steps_one|done].
  - simpl. lia.
  - by constructor.
  - intros j Hne. rewrite Hj by done. simpl. by rewrite lookup_insert_ne.
Qed.

Lemma completes_done s i op r :
  terminated s = false → operations s !! i = Some op → inv s → f op tt = inr r →
  (∃ on r', progress op = Completed on r') → completes 0 s i r.
Proof.
  intros Ht Hi Hinv Hf (on & r' & Hp). exists [], s, op. split_and!; [constructor|done..| |done].
  specialize (Hinv i op Hi). unfold inv_operation in Hinv. rewrite Hp in Hinv.
  rewrite Hp. destruct Hinv as [? ->]. congruence.
Qed.

Lemma completes_dispatched s i op r r' :
  terminated s = false → operations s !! i = Some op → inv s → f op tt = inr r →
  progress op = Dispatched r' → completes 1 s i r.
Proof.
  intros Ht Hi Hinv Hf Hp. pose proof (Hinv i op Hi) as Hop. unfold inv_operation in Hop.
  rewrite Hp in Hop. destruct Hop as (Hr & Hh & He).
  pose proof (handles s i op _ r' Ht Hi Hp Hh He) as Hstep.
  eapply (completes_step 0 s (Handles i)); [by right; right|exact Hstep|].
  eapply completes_done.
  - done.
  - apply lookup_insert_eq.
  - by eapply invoke_inv_inductive; [|exact Hstep].
  - done.
  - by do 2 eexists.
Qed.

Lemma completes_invoking s i op r :
  terminated s = false → operations s !! i = Some op → inv s → f op tt = inr r →
  progress op = Invoking → completes 2 s i r.
Proof.
  intros Ht Hi Hinv Hf Hp. pose proof (returns s i op Ht Hi Hp) as Hstep.
  pose proof (invoke_inv_inductive _ _ _ Hinv Hstep) as Hinv'. unfold invoke in Hstep, Hinv'.
  rewrite Hf in Hstep, Hinv'.
  eapply (completes_step 1 s (Returns i)); [by right; left|exact Hstep|].
  destruct (dispatch op r) as [| |r'|on r'] eqn:Hd;
    [unfold dispatch in Hd; by repeat case_match..| |].
  - by eapply completes_dispatched; [|apply lookup_insert_eq|..].
  - apply (completes_mono 0); [lia|].
    by eapply completes_done; [|apply lookup_insert_eq|..|do 2 eexists].
Qed.

Lemma completes_posted s i op r :
  terminated s = false → operations s !! i = Some op → inv s → f op tt = inr r →
  progress op = Posted → completes 3 s i r.
Proof.
  intros Ht Hi Hinv Hf Hp. pose proof (Hinv i op Hi) as Hop. unfold inv_operation in Hop.
  rewrite Hp in Hop. destruct Hop as (_ & Hpool & _).
  pose proof (invokes s i op Ht Hi Hp Hpool) as Hstep.
  eapply (completes_step 2 s (Invokes i)); [by left|exact Hstep|].
  eapply completes_invoking; [done|apply lookup_insert_eq| |done..].
  by eapply invoke_inv_inductive.
Qed.

(** ** Properties *)

(** C8. An operation whose function returns completes, whatever executors have stopped
    in the meantime: its handler is called with the result of the function, by a thread of the handler's associated
    executor (the pool's, if there is none); in every reachable state, if that has not happened yet,
    at most three steps of the operation alone lead to it. *)
Theorem async_invoke_completes s i op r :
  reachable step initial s → terminated s = false → operations s !! i = Some op →
  f op tt = inr r →
  (∀ on r', progress op = Completed on r' →
     on = get_associated_executor (handler op) (pool op) ∧ r' = r)
  ∧ completes 3 s i r.
Proof.
  intros Hr Ht Hi Hf. pose proof (invoke_inv_reachable s Hr) as Hinv. split.
  - intros on r' Hp. pose proof (Hinv i op Hi) as Hop. unfold inv_operation in Hop.
    rewrite Hp in Hop. destruct Hop as [Hfr ->]. split; congruence.
  - destruct (progress op) eqn:Hp.
    + by eapply completes_posted.
    + apply (completes_mono 2); [lia|]. by eapply completes_invoking.
    + apply (completes_mono 1); [lia|]. by eapply completes_dispatched.
    + apply (completes_mono 0); [lia|]. eapply completes_done; eauto.
Qed.
End AsyncInvoke.

(** ** [bind_all]

    The nullary function object that [bind_all(f, args...)] makes owns its arguments and moves them into the call;
    [moved_from] is what a moved-from argument holds. *)
Section BindAll.
Context {Args R : Type} (moved_from : Args → Args).

Record bound := Bound { callee : Args → R; arguments : Args }.
Definition bind_all (f : Args → R) (args : Args) : bound := Bound f args.
(** [operator()], which is mutable. *)
Definition call (b : bound) : R * bound :=
  (callee b (arguments b), Bound (callee b) (moved_from (arguments b))).

(** The first call is the call of the function; a second one gets the moved-from arguments. *)
Lemma bind_all_calls f args :
  (call (bind_all f args)).1 = f args
  ∧ (call (call (bind_all f args)).2).1 = f (moved_from args).
Proof. done. Qed.
End BindAll.

(** ** Witnesses *)

(** An operation whose handler belongs to executor 1, run on the pool 0. *)
Definition one_operation : state (A := Z) :=
  State {[0 := async_invoke 0 (Some 1) (λ _, inr 42%Z)]} ∅ false.
Lemma one_operation_reachable : reachable (step (λ _, true)) initial one_operation.
Proof.
  exists ([] ++ [Initiates 0]). eapply steps_snoc; [constructor|].
  by apply (initiates _ initial 0 0 (Some 1) (λ _, inr 42%Z)).
Qed.
Lemma async_invoke_completes_witness : completes (λ _, true) 3 one_operation 0 42%Z.
Proof.
  eapply (async_invoke_completes (λ _, true) one_operation 0).
  - apply one_operation_reachable.
  - reflexivity.
  - reflexivity.
  - reflexivity.
Defined.
