(* ===== verification/Formatters.v ===== *)
(** * include/formatters.hpp: addresses, endpoints, cancellation types, byte counts

    The text of an address is Boost.Asio's; the conversion of a [size_t] to [double], and printing it with two
    digits, are modelled with exact integer arithmetic. *)
From stdpp Require Import pretty.
From Stdlib Require Import Ascii.
From Stdlib Require HexString.
From S2P Require Import Prelude Asio.

(** ** Addresses and endpoints

    The representation of addresses and their textual form belong to Asio. *)

Class Addresses (A4 A6 : Type) := {
  is_v4_mapped : A6 → bool;
  make_address_v4 : A6 → A4;      (* of a mapped address *)
  print_v4 : A4 → string;
  print_v6 : A6 → string
}.

Inductive address (A4 A6 : Type) :=
| V4 (a : A4)
| V6 (a : A6).
Arguments V4 {A4 A6} _.
Arguments V6 {A4 A6} _.

Section Endpoints.
Context {A4 A6 : Type} `{!Addresses A4 A6}.

Definition normalize (addr : address A4 A6) : address A4 A6 :=
  match addr with
  | V6 a => if is_v4_mapped a then V4 (make_address_v4 a) else addr
  | V4 _ => addr
  end.

Definition is_v4 (addr : address A4 A6) : bool :=
  match addr with V4 _ => true | V6 _ => false end.

(** [stream << address] *)
Definition stream_address (addr : address A4 A6) : string :=
  match addr with V4 a => print_v4 a | V6 a => print_v6 a end.

Definition format_address (addr : address A4 A6) : string := stream_address (normalize addr).

Definition esc : string := String (Ascii.ascii_of_nat 27) EmptyString.

Definition format_endpoint (colored : bool) (ep : address A4 A6 * Z) : string :=
  let '(addr, port) := (normalize ep.1, ep.2) in
  if colored then
    if is_v4 addr
    then esc +:+ "[35m" +:+ format_address addr +:+ esc +:+ "[0m:" +:+ pretty port
    else "[" +:+ esc +:+ "[34m" +:+ format_address addr +:+ esc +:+ "[0m]:" +:+ pretty port
  else
    if is_v4 addr
    then format_address addr +:+ ":" +:+ pretty port
    else "[" +:+ format_address addr +:+ "]:" +:+ pretty port.
End Endpoints.

(** [formatter<endpoint>::parse]: from the text after the colon of the
    replacement field, the [colored] flag and the rest; [None] is [format_error]. *)
Definition spec_end (colored : bool) (it : string) : option (bool * string) :=
  match it with
  | EmptyString => Some (colored, it)
  | String c _ => if Ascii.eqb c "}"%char then Some (colored, it) else None
  end.
Definition parse_endpoint_spec (spec : string) : option (bool * string) :=
  match spec with
  | String c it => if Ascii.eqb c "c"%char then spec_end true it else spec_end false spec
  | EmptyString => spec_end false spec
  end.

(** ** Cancellation types *)

(** [~flag] on an [unsigned int]. *)
Definition bit_not32 (z : Z) : Z := Z.lxor z (2 ^ 32 - 1).

Section CancellationTypeFormat.
Context `{!CancellationTypes}.

(** The lambda [append_if], on the output, the flag [first] and the remaining [type]. *)
Definition append_if (flag : cancellation_type) (name : string)
    (s : string * bool * cancellation_type) : string * bool * cancellation_type :=
  let '(out, first, type) := s in
  if bool_decide (Z.land type flag = flag)
  then (out +:+ (if first then "" else "|") +:+ name, false, Z.land type (bit_not32 flag))
  else (out, first, type).

Definition format_cancellation_type (type : cancellation_type) : string :=
  if bool_decide (type = none) then "none"
  else if bool_decide (type = all) then "all"
  else
    let s := append_if terminal "terminal" ("", true, type) in
    let s := append_if partial "partial" s in
    let '(out, first, type) := append_if total "total" s in
    if bool_decide (type ≠ none)
    then out +:+ (if first : bool then "" else "|") +:+ HexString.of_N (Z.to_N type)
    else out.
End CancellationTypeFormat.

(** ** Byte counts *)

(** [static_cast<double>(n)] for a 64-bit [n]: 53 significant bits, round to
    nearest, ties to even.  The result is an integer. *)
Definition round_half_even (num den : Z) : Z :=
  let q := (num / den)%Z in
  let r := (num mod den)%Z in
  match (2 * r ?= den)%Z with
  | Lt => q
  | Gt => (q + 1)%Z
  | Eq => if Z.even q then q else (q + 1)%Z
  end.
Definition double_of_size (n : Z) : Z :=
  if (n <? 2 ^ 53)%Z then n
  else let ulp := (2 ^ (Z.log2 n - 52))%Z in (round_half_even n ulp * ulp)%Z.

Definition units : list string := ["bytes"; "KiB"; "MiB"; "GiB"; "TiB"; "PiB"].

(** The [while] loop.  [size] is kept as the integer numerator over
    [1024 ^ index]: dividing a double by 1024 is exact.  The remaining number of
    units bounds the iterations. *)
Fixpoint scale (remaining : nat) (size : Z) (index : nat) : nat :=
  match remaining with
  | O => index
  | S remaining =>
      if (1024 * 1024 ^ Z.of_nat index <=? size)%Z then scale remaining size (S index) else index
  end.

(** [{:.2f}] of [num / den]: the nearest multiple of 1/100, ties to even. *)
Definition hundredths (num den : Z) : Z := round_half_even (100 * num) den.
Definition two_digits (n : Z) : string := (if (n <? 10)%Z then "0" else "") +:+ pretty n.
Definition fixed2 (num den : Z) : string :=
  let h := hundredths num den in
  pretty (h / 100)%Z +:+ "." +:+ two_digits (h mod 100)%Z.

Definition format_Bytes (bytes : Z) : string :=
  if (bytes <? 1024)%Z then pretty bytes +:+ " " +:+ "bytes"
  else
    let size := double_of_size bytes in
    let index := scale (length units - 1) size 0 in
    fixed2 size (1024 ^ Z.of_nat index) +:+ " " +:+ default "" (units !! index).

(** The expectations of test/test_formatters.cpp. *)
Example format_none : format_cancellation_type 0 = "none". Proof. reflexivity. Qed.
Example format_three : format_cancellation_type 7 = "terminal|partial|total".
Proof. reflexivity. Qed.
Example format_two : format_cancellation_type 3 = "terminal|partial". Proof. reflexivity. Qed.
Example format_rest : format_cancellation_type (2 + 65536) = "partial|0x10000".
Proof. reflexivity. Qed.
Example format_all : format_cancellation_type (Z.lor 4 (2 ^ 32 - 1)) = "all".
Proof. reflexivity. Qed.
Example format_high : format_cancellation_type (4 + (2 ^ 32 - 256)) = "total|0xffffff00".
Proof. reflexivity. Qed.
Example format_bytes1 : format_Bytes 1536 = "1.50 KiB". Proof. vm_compute. reflexivity. Qed.
Example format_bytes2 : format_Bytes (2 ^ 64 - 1) = "16384.00 PiB".
Proof. vm_compute. reflexivity. Qed.
Example format_bytes3 : format_Bytes (1024 * 1024 - 1) = "1024.00 KiB".
Proof. vm_compute. reflexivity. Qed.

(** ** Reading a formatted cancellation type back *)

Fixpoint strip (p s : string) : option string :=
  match p, s with
  | EmptyString, _ => Some s
  | String a p, String b s => if Ascii.eqb a b then strip p s else None
  | _, EmptyString => None
  end.

Definition skip_bar (first : bool) (s : string) : string :=
  if first then s else default s (strip "|" s).

Section ParseCancellationType.
Context `{!CancellationTypes}.

Definition parse_flag (flag : cancellation_type) (name : string)
    (st : string * bool * cancellation_type) : string * bool * cancellation_type :=
  let '(s, first, acc) := st in
  match strip name (skip_bar first s) with
  | Some rest => (rest, false, Z.lor acc flag)
  | None => st
  end.

Definition parse_cancellation_type (s : string) : cancellation_type :=
  if String.eqb s "none" then none
  else if String.eqb s "all" then all
  else
    let st := parse_flag terminal "terminal" (s, true, 0%Z) in
    let st := parse_flag partial "partial" st in
    let '(rest, first, acc) := parse_flag total "total" st in
    match rest with
    | EmptyString => acc
    | _ => Z.lor acc (Z.of_N (HexString.to_N (skip_bar first rest)))
    end.
End ParseCancellationType.



(** Removing a flag and adding it again. *)
Lemma remove_flag flag type :
  is_uint32 flag → is_uint32 type → Z.land type flag = flag →
  Z.lor flag (Z.land type (bit_not32 flag)) = type ∧ is_uint32 (Z.land type (bit_not32 flag)).
Proof.
  intros Hf Ht Hland. split.
  - apply Z.bits_inj'. intros n Hn.
    rewrite Z.lor_spec, Z.land_spec. unfold bit_not32. rewrite Z.lxor_spec.
    change (2 ^ 32 - 1)%Z with (Z.ones 32). rewrite Z.testbit_ones_nonneg by lia.
    assert (Hbit : Z.testbit flag n = Z.testbit type n && Z.testbit flag n)
      by (by rewrite <-Z.land_spec, Hland).
    destruct (n <? 32)%Z eqn:Hn32.
    + destruct (Z.testbit type n), (Z.testbit flag n); simpl in *; done.
    + assert (Hz : ∀ a, is_uint32 a → Z.testbit a n = false).
      { intros a Ha. destruct (decide (a = 0%Z)) as [->|]; [apply Z.bits_0|].
        apply Z.bits_above_log2; [apply Ha|]. apply Z.lt_le_trans with 32%Z; [|lia].
        apply Z.log2_lt_pow2; [unfold is_uint32 in Ha; lia|apply Ha]. }
      by rewrite !Hz.
  - apply land_uint32; [done|]. unfold bit_not32. apply Z.lxor_nonneg.
    unfold is_uint32 in *. lia.
Qed.

Lemma hex_shape n : ∃ t, HexString.of_N n = String "0" (String "x" t).
Proof. destruct n; eexists; reflexivity. Qed.

Section FormatProofs.
Context `{!CancellationTypes, !CancellationTypesOk}.

(** One call of [append_if], seen from the value that remains to be printed. *)
Lemma append_if_spec flag name out first type :
  is_uint32 flag → is_uint32 type →
  ∃ (b : bool) type', append_if flag name (out, first, type) =
    (if b then out +:+ (if first then "" else "|") +:+ name else out,
     if b then false else first, type')
  ∧ is_uint32 type' ∧ type = Z.lor (if b : bool then flag else 0) type'.
Proof.
  intros Hf Ht. unfold append_if. case_bool_decide as Hland.
  - exists true, (Z.land type (bit_not32 flag)).
    destruct (remove_flag flag type Hf Ht Hland) as [-> ?]. done.
  - exists false, type. by rewrite Z.lor_0_l.
Qed.

Lemma parse_format type :
  is_uint32 type → parse_cancellation_type (format_cancellation_type type) = type.
Proof.
  intros Ht. unfold format_cancellation_type.
  case_bool_decide as Hnone; [by rewrite Hnone|].
  case_bool_decide as Hall; [by rewrite Hall|].
  assert (Hr : is_uint32 terminal ∧ is_uint32 partial ∧ is_uint32 total).
  { pose proof terminal_range. pose proof partial_range. pose proof total_range.
    unfold is_uint32; lia. }
  destruct Hr as (Hr1 & Hr2 & Hr3).
  destruct (append_if_spec terminal "terminal" "" true type Hr1 Ht) as (b1 & t1 & -> & H1 & ->).
  edestruct (append_if_spec partial "partial") as (b2 & t2 & -> & H2 & ->); [done|exact H1|].
  edestruct (append_if_spec total "total") as (b3 & t3 & -> & H3 & ->); [done|exact H2|].
  rewrite none_empty. case_bool_decide as Hz.
  - destruct (hex_shape (Z.to_N t3)) as [t Hhex].
    assert (Hback : Z.of_N (HexString.to_N (String "0" (String "x" t))) = t3).
    { rewrite <-Hhex, HexString.to_N_of_N, Z2N.id; [done|apply H3]. }
    rewrite Hhex. generalize dependent t. intros t _ Hback.
        destruct b1, b2, b3; lazy -[Z.lor HexString.to_N Z.of_N];
      rewrite Hback; by rewrite ?Z.lor_0_l, ?Z.lor_assoc.
  - subst t3.
    destruct b1, b2, b3; lazy -[Z.lor]; by rewrite ?Z.lor_0_l, ?Z.lor_0_r, ?Z.lor_assoc.
Qed.
End FormatProofs.

(** ** Rounding and scaling *)

Lemma round_half_even_error num den :
  (0 < den)%Z → (2 * Z.abs (num - round_half_even num den * den) <= den)%Z.
Proof.
  intros Hd. unfold round_half_even.
  pose proof (Z.div_mod num den ltac:(lia)) as Hdm.
  pose proof (Z.mod_pos_bound num den Hd) as Hm.
  destruct (Z.compare_spec (2 * (num mod den)) den) as [H|H|H];
    [destruct (Z.even (num / den))|..]; nia.
Qed.

(** The conversion to [double] is exact below 2^53 and has a relative error of at most 2^-53 above. *)
Lemma double_of_size_error n :
  (0 <= n)%Z → (Z.abs (n - double_of_size n) * 2 ^ 53 <= n)%Z.
Proof.
  intros Hn. unfold double_of_size. destruct (Z.ltb_spec n (2 ^ 53)) as [Hs|Hs]; [lia|].
  set (e := (Z.log2 n - 52)%Z).
  assert (Hlog : (53 <= Z.log2 n)%Z) by (rewrite <-(Z.log2_pow2 53) by lia; by apply Z.log2_le_mono).
  assert (He : (0 < 2 ^ e)%Z) by (apply Z.pow_pos_nonneg; lia).
  pose proof (round_half_even_error n (2 ^ e) He) as Herr.
  assert (Hpow : (2 ^ e * 2 ^ 52 <= n)%Z).
  { rewrite <-Z.pow_add_r by lia. replace (e + 52)%Z with (Z.log2 n) by lia.
    apply Z.log2_spec. lia. }
  change (2 ^ 53)%Z with (2 * 2 ^ 52)%Z. nia.
Qed.

Lemma scale_spec remaining : ∀ size index,
  (1024 ^ Z.of_nat index <= size)%Z →
  index <= scale remaining size index <= index + remaining
  ∧ (1024 ^ Z.of_nat (scale remaining size index) <= size)%Z
  ∧ (scale remaining size index < index + remaining →
     (size < 1024 ^ Z.of_nat (S (scale remaining size index)))%Z).
Proof.
  induction remaining as [|remaining IH]; intros size index Hsize; simpl scale; [split_and!; lia|].
  assert (Hpow : (1024 * 1024 ^ Z.of_nat index = 1024 ^ Z.of_nat (S index))%Z)
    by (rewrite Nat2Z.inj_succ, Z.pow_succ_r; lia).
  rewrite Hpow. destruct (Z.leb_spec (1024 ^ Z.of_nat (S index)) size) as [Hle|Hlt].
  - destruct (IH size (S index) Hle) as (H1 & H2 & H3). split_and!; [lia|lia|done|].
    intros H. apply H3. lia.
  - split_and!; [lia|lia|done|done].
Qed.

Lemma brace_or_end (b colored : bool) (s rest : string) :
  spec_end b s = Some (colored, rest) ↔
  (b = colored ∧ s = rest) ∧ (rest = "" ∨ ∃ t, rest = String "}"%char t).
Proof.
  unfold spec_end. destruct s as [|c s].
  - split; [intros [= -> <-]; auto|by intros [[-> <-] _]].
  - destruct (Ascii.eqb_spec c "}"%char) as [->|Hc].
    + split; [intros [= -> <-]; eauto|by intros [[-> <-] _]].
    + split; [done|]. intros [[-> <-] [?|[t [= ??]]]]; done.
Qed.

(** ** Properties *)


(** A byte count of at least 1024 is printed in a unit that fits it: the
    unit's power of 1024 is the largest one not above the value (up to PiB, the last
    unit), the printed number is the value in that unit rounded to the nearest
    hundredth, and the conversion to [double] before has a relative error of at most 2^-53. *)
Theorem format_Bytes_unit bytes :
  (1024 <= bytes < 2 ^ 64)%Z →
  ∃ size index unit,
    (Z.abs (bytes - size) * 2 ^ 53 <= bytes)%Z ∧ 1 <= index <= 5 ∧
    units !! index = Some unit ∧
    (1024 ^ Z.of_nat index <= size)%Z ∧
    (index < 5 → (size < 1024 ^ Z.of_nat (S index))%Z) ∧
    (2 * Z.abs (100 * size - hundredths size (1024 ^ Z.of_nat index) * 1024 ^ Z.of_nat index)
       <= 1024 ^ Z.of_nat index)%Z ∧
    format_Bytes bytes = fixed2 size (1024 ^ Z.of_nat index) +:+ " " +:+ unit.
Proof.
  intros Hb. pose proof (double_of_size_error bytes ltac:(lia)) as Herr.
  set (size := double_of_size bytes) in *.
  assert (Hsize : (1024 ^ Z.of_nat 1 <= size)%Z) by lia.
  destruct (scale_spec 4 size 1 Hsize) as (H1 & H2 & H3).
  set (index := scale 4 size 1) in *.
  assert (Hu : is_Some (units !! index)) by (apply lookup_lt_is_Some; simpl; lia).
  destruct Hu as [unit Hunit].
  exists size, index, unit.
  split_and!; [done|lia|lia|done|done|intros; apply H3; lia| |].
  - apply round_half_even_error, Z.pow_pos_nonneg; lia.
  - unfold format_Bytes. rewrite (proj2 (Z.ltb_ge _ _)) by lia. fold size. 
    assert (Hi : scale (length units - 1) size 0 = index).
    { change (length units - 1) with 5. simpl scale at 1.
      rewrite (proj2 (Z.leb_le _ _)) by lia. done. }
    by rewrite Hi, Hunit.
Qed.

(** Addresses are printed in normal form: normalising is idempotent, an IPv4
    mapped IPv6 address formats exactly like the IPv4 address it maps, alone and in
    an endpoint of either colouring, and brackets appear iff the normal form is IPv6. *)
Theorem endpoint_formats_normalized {A4 A6} `{!Addresses A4 A6} colored addr port :
  normalize (normalize addr) = normalize addr ∧
  format_address (normalize addr) = format_address addr ∧
  format_endpoint colored (normalize addr, port) = format_endpoint colored (addr, port) ∧
  (is_v4 (normalize addr) = false ↔
   ∃ rest, format_endpoint colored (addr, port) = String "["%char rest
           ∧ ∃ a, addr = V6 a ∧ is_v4_mapped a = false).
Proof.
  assert (Hidem : normalize (normalize addr) = normalize addr).
  { destruct addr as [a|a]; simpl; [done|]. destruct (is_v4_mapped a) eqn:Hm; simpl; [done|].
    by rewrite Hm. }
  split_and!; [done|..].
  - unfold format_address. by rewrite Hidem.
  - unfold format_endpoint; simpl. by rewrite Hidem.
  - split.
    + intros Hv4. unfold format_endpoint; simpl. rewrite Hv4.
      destruct addr as [a|a]; simpl in Hv4; [done|].
      destruct (is_v4_mapped a) eqn:Hm; [done|].
      destruct colored; eexists; (split; [reflexivity|eauto]).
    + intros (rest & _ & a & -> & Hm). simpl. by rewrite Hm.
Qed.

(** The format specification of an endpoint accepts exactly the empty
    specification and [c] (coloured), each up to the end or a closing brace. *)
Theorem parse_endpoint_spec_accepts spec colored rest :
  parse_endpoint_spec spec = Some (colored, rest) ↔
  spec = (if colored then "c" else "") +:+ rest
  ∧ (rest = "" ∨ ∃ t, rest = String "}"%char t).
Proof.
  unfold parse_endpoint_spec.
  destruct spec as [|c spec]; [|destruct (Ascii.eqb_spec c "c"%char) as [->|Hc]];
    rewrite brace_or_end; destruct colored; (split; [intros [[? <-] Hr]|intros [Heq Hr]]); try done;
    simpl in Heq; try (change ("c" +:+ rest) with (String "c"%char rest) in Heq);
    try (change ("" +:+ rest) with rest in Heq); simplify_eq; try by auto.
  by destruct Hr as [|[]].
Qed.

(** ** Witnesses *)


Lemma format_Bytes_unit_witness :
  ∃ size index unit,
    (Z.abs (5131466 - size) * 2 ^ 53 <= 5131466)%Z ∧ 1 <= index <= 5 ∧
    units !! index = Some unit ∧ format_Bytes 5131466 = "4.89 MiB".
Proof.
  destruct (format_Bytes_unit 5131466) as (size & index & unit & H1 & H2 & H3 & _); [lia|].
  exists size, index, unit. split; [exact H1|split; [exact H2|split; [exact H3|]]].
  vm_compute. reflexivity.
Defined.
