(* ===== verification/Log.v ===== *)
(** * lib/log.cpp and include/log.hpp: logging a pipe line by line

    [split_lines]; the [log] coroutine with its cancellation handler, for any callback. *)
From S2P Require Import Prelude Asio Wp Script Core.

Definition LF : byte := x0a.

(** [lines | std::views::split('\n')]: no element for an empty range; otherwise one
    element per delimiter, and one more for what follows the last. *)
Fixpoint split_go (l : list byte) : list byte * list (list byte) :=
  match l with
  | [] => ([], [])
  | x :: l =>
      let '(first, rest) := split_go l in
      if decide (x = LF) then ([], first :: rest) else (x :: first, rest)
  end.
Definition views_split (l : list byte) : list (list byte) :=
  match l with
  | [] => []
  | _ => let '(first, rest) := split_go l in first :: rest
  end.

(** [line.remove_suffix(1)] if the line ends with LF. *)
Definition remove_lf (l : list byte) : list byte :=
  match reverse l with
  | x :: r => if decide (x = LF) then reverse r else l
  | [] => l
  end.

Definition split_lines (lines : list byte) : list (list byte) := views_split (remove_lf lines).

Section Log.
Context {W : Type} `{!CancellationTypes, !Cancellation W, !Streams W, !LinePipes W}.

(** The two moments of [async_read_until]. *)
Definition suspended (h : handle) (buffer : list byte) : awaitable W (list (list byte)) := λ s,
  let '(arrivals, w) := on_read_until h buffer (env s) in (Val arrivals, St w (trace s)).
Definition completed (h : handle) (buffer : list byte) :
    awaitable W (error_code * list byte * Z) := λ s,
  let '(ec, d, n, w) := on_read_until_done h buffer (env s) in
  (Val (ec, buffer ++ d, n), St w (trace s ++ [EvReadUntil h ec d n])).

(** The coroutine's cancellation handler runs at the moment of each cancellation, on the buffer as it is
    then. *)
Fixpoint cancellations (h : handle) (handler : list byte → awaitable W unit) (buffer : list byte)
    (arrivals : list (list byte)) : awaitable W (list byte) :=
  match arrivals with
  | [] => mret buffer
  | d :: arrivals =>
      emit (EvArrived h d);;
      handler (buffer ++ d);;
      cancellations h handler (buffer ++ d) arrivals
  end.
Definition async_read_until (h : handle) (buffer : list byte)
    (handler : list byte → awaitable W unit) : awaitable W (error_code * list byte * Z) :=
  co_await (
    arrivals ← suspended h buffer;
    buffer ← cancellations h handler buffer arrivals;
    completed h buffer).

(** [for (auto line : ls) handleLine(line);] *)
Fixpoint handle_lines (handleLine : list byte → awaitable W unit) (ls : list (list byte)) :
    awaitable W unit :=
  match ls with
  | [] => mret tt
  | l :: ls => handleLine l;; handle_lines handleLine ls
  end.

Definition log_filter : cancellation_filter :=
  custom_filter (λ type, Z.land type (Z.lor terminal partial)).

Definition log_with (fuel : nat) (pipe : handle) (handleLine : list byte → awaitable W unit) :
    awaitable W unit :=
  reset_cancellation_state log_filter;;
  connected ← gets slot_connected;
  let handler (buffer : list byte) :=
    if connected : bool then handle_lines handleLine (views_split buffer) else mret tt in
  '(ec, buffer) ←
    loop fuel (λ buffer,
      '(ec, buffer, n) ← async_read_until pipe buffer handler;
      cancelled ← gets (λ state, isCancelled state all);
      if cancelled : bool then throw (system_error (make_system_error operation_canceled))
      else if failed ec then mret (inr (ec, buffer))
      else
        handleLine (ztake n buffer);;
        mret (inl (drop (Z.to_nat n) buffer))) [];
  handle_lines handleLine (views_split buffer);;
  if bool_decide (ec = Eof) then close pipe
  else if failed ec then throw (system_error ec)
  else mret tt.

(** The overload without a callback prints the line without its LF; the printed
    text is the event. *)
Definition log (fuel : nat) (pipe : handle) : awaitable W unit :=
  log_with fuel pipe (λ line, emit (EvLine (remove_lf line))).
End Log.

(** ** Splitting *)

(** Joining with LF. *)
Fixpoint join_lf (ls : list (list byte)) : list byte :=
  match ls with
  | [] => []
  | [l] => l
  | l :: ls => l ++ [LF] ++ join_lf ls
  end.

Lemma split_go_join l :
  match split_go l with (first, rest) => join_lf (first :: rest) = l end.
Proof.
  induction l as [|x l IH]; [done|]. simpl split_go.
  destruct (split_go l) as [first rest]. case_decide as Hx.
  - subst x. simpl in *. by rewrite IH.
  - simpl in *. destruct rest; simpl in *; by rewrite IH.
Qed.

Lemma split_go_no_lf l :
  match split_go l with (first, rest) => (LF ∉ first) ∧ Forall (λ s, LF ∉ s) rest end.
Proof.
  induction l as [|x l IH]; simpl; [split; [apply not_elem_of_nil|constructor]|].
  destruct (split_go l) as [first rest]. destruct IH. case_decide.
  - split; [apply not_elem_of_nil|by constructor].
  - split; [|done]. rewrite not_elem_of_cons. naive_solver.
Qed.

Lemma split_go_id l : LF ∉ l → split_go l = (l, []).
Proof.
  induction l as [|x l IH]; [done|]. intros Hx. simpl.
  rewrite IH by set_solver. rewrite decide_False by set_solver. done.
Qed.

Definition count_lf (l : list byte) : nat := length (filter (.= LF) l).

Lemma count_lf_app l k : count_lf (l ++ k) = count_lf l + count_lf k.
Proof. unfold count_lf. by rewrite filter_app, length_app. Qed.

Lemma count_lf_cons x l : count_lf (x :: l) = (if decide (x = LF) then 1 else 0) + count_lf l.
Proof. unfold count_lf. rewrite filter_cons. by case_decide. Qed.

Lemma count_lf_none l : LF ∉ l → count_lf l = 0.
Proof.
  induction l as [|x l IH]; [done|]. intros Hl. rewrite not_elem_of_cons in Hl.
  destruct Hl as [Hx Hl]. rewrite count_lf_cons, decide_False by congruence. auto.
Qed.

Lemma split_go_length l : length (split_go l).2 = count_lf l.
Proof.
  induction l as [|x l IH]; [done|]. rewrite count_lf_cons. simpl.
  destruct (split_go l) as [first rest]. simpl in IH. case_decide; simpl; lia.
Qed.

Lemma views_split_length l : l ≠ [] → length (views_split l) = count_lf l + 1.
Proof.
  destruct l as [|x l]; [done|]. intros _. unfold views_split.
  pose proof (split_go_length (x :: l)). destruct (split_go _). simpl in *. lia.
Qed.

Lemma views_split_join l : join_lf (views_split l) = l.
Proof.
  destruct l as [|x l]; [done|]. unfold views_split.
  pose proof (split_go_join (x :: l)). by destruct (split_go _).
Qed.

Lemma views_split_no_lf l : Forall (λ s, LF ∉ s) (views_split l).
Proof.
  destruct l as [|x l]; [constructor|]. unfold views_split.
  pose proof (split_go_no_lf (x :: l)) as Hs. destruct (split_go _).
  destruct Hs. by constructor.
Qed.

(** A buffer without a delimiter is emitted as one line, or not at all if empty. *)
Lemma views_split_partial l : LF ∉ l → concat (views_split l) = l.
Proof.
  intros Hl. destruct l as [|x l]; [done|]. unfold views_split.
  rewrite split_go_id by done. simpl. by rewrite app_nil_r.
Qed.

Lemma remove_lf_snoc l : remove_lf (l ++ [LF]) = l.
Proof. unfold remove_lf. rewrite reverse_snoc, decide_True by done. apply reverse_involutive. Qed.

Lemma remove_lf_id l : LF ∉ l → remove_lf l = l.
Proof.
  intros Hl. unfold remove_lf. destruct (reverse l) as [|x r] eqn:Hr; [done|].
  apply (f_equal reverse) in Hr. rewrite reverse_involutive, reverse_cons in Hr. subst l.
  rewrite decide_False; [done|]. set_solver.
Qed.

(** ** The contract of [async_read_until] and of the cancellation state *)

Class LinePipesOk (W : Type) `{!CancellationTypes, !Cancellation W, !LinePipes W} : Prop := {
  (** it succeeds with the length of the first line in the buffer *)
  completed_line h buffer w d n w' :
    on_read_until_done h buffer w = (Success, d, n, w') →
    ∃ line rest, buffer ++ d = line ++ [LF] ++ rest ∧ (LF ∉ line) ∧ n = zlen (line ++ [LF]);
  (** it fails only when there is none *)
  completed_no_lf h buffer w ec d n w' :
    on_read_until_done h buffer w = (ec, d, n, w') → ec ≠ Success → LF ∉ (buffer ++ d);
  (** a reset leaves the coroutine not cancelled *)
  reset_not_cancelled f w :
    await_throws (on_reset f w) = false ∧ slot_connected (on_reset f w) = slot_connected w;
  (** without a cancellation that reaches the slot's handler, the coroutine is not cancelled, and goes on *)
  cancelled_only_if_forwarded h buffer w ds w' buffer' ec d n w'' :
    on_read_until h buffer w = (ds, w') → on_read_until_done h buffer' w' = (ec, d, n, w'') →
    (ds = [] → isCancelled w'' all = false ∧ await_throws w'' = false)
    ∧ slot_connected w'' = slot_connected w
    ∧ (ds ≠ [] → slot_connected w = true)
}.

(** What the coroutine takes for granted: it is cancelled at most once, and a cancellation
    that reaches its handler is still recorded when it is resumed (a second one, of a type that is filtered out, would
    overwrite the record). *)
Class CancelledOnce (W : Type) `{!CancellationTypes, !Cancellation W, !LinePipes W} : Prop := {
  at_most_once h buffer w ds w' : on_read_until h buffer w = (ds, w') → length ds <= 1;
  forwarded_recorded h buffer w ds w' buffer' ec d n w'' :
    on_read_until h buffer w = (ds, w') → on_read_until_done h buffer' w' = (ec, d, n, w'') →
    ds ≠ [] → isCancelled w'' all = true
}.

(** A writer that does not write lines forever. *)
Class FiniteLines (W : Type) `{!LinePipes W} := {
  lines_budget : list byte → W → nat;   (* of the buffered bytes and the world *)
  completed_budget h buffer w c w' d n w'' :
    on_read_until h buffer w = (c, w') → on_read_until_done h buffer w' = (Success, d, n, w'') →
    lines_budget (drop (Z.to_nat n) (buffer ++ d)) w'' < lines_budget buffer w
}.

(** ** What a trace says was received and handed out *)

Definition arrived_of (e : event) : list byte :=
  match e with
  | EvArrived _ d | EvReadUntil _ _ d _ => d
  | _ => []
  end.
Definition lines_of (e : event) : list (list byte) :=
  match e with EvLine l => [l] | _ => [] end.
Definition arrived (tr : list event) : list byte := concat (arrived_of <$> tr).
Definition lines (tr : list event) : list (list byte) := concat (lines_of <$> tr).

Lemma arrived_app t1 t2 : arrived (t1 ++ t2) = arrived t1 ++ arrived t2.
Proof. unfold arrived. by rewrite fmap_app, concat_app. Qed.
Lemma lines_app t1 t2 : lines (t1 ++ t2) = lines t1 ++ lines t2.
Proof. unfold lines. by rewrite fmap_app, concat_app. Qed.
Lemma lines_emitted ls : lines (EvLine <$> ls) = ls.
Proof. induction ls as [|l ls IH]; [done|]. unfold lines in *. simpl. by f_equal. Qed.
Lemma arrived_emitted ls : arrived (EvLine <$> ls) = [].
Proof. by induction ls. Qed.
Lemma lines_cons e tr : lines (e :: tr) = lines_of e ++ lines tr.
Proof. done. Qed.
Lemma arrived_cons e tr : arrived (e :: tr) = arrived_of e ++ arrived tr.
Proof. done. Qed.
Lemma lines_nil : lines [] = [].
Proof. done. Qed.
Lemma arrived_nil : arrived [] = [].
Proof. done. Qed.
Create Rewrite HintDb log_db.
#[export] Hint Rewrite lines_cons arrived_cons lines_nil arrived_nil : log_db.
#[export] Hint Rewrite arrived_app lines_app lines_emitted arrived_emitted @concat_app app_nil_r : log_db.

(** A line as the callback sees it: LF at most at the end. *)
Definition single_line (l : list byte) : Prop :=
  LF ∉ l ∨ ∃ l', l = l' ++ [LF] ∧ LF ∉ l'.

(** How a run [tr] of [log_with], which hands its lines out as events, ends.  When it was cancelled, [ls] are the lines
    that the cancellation handler made of the buffer, and [late] the bytes of a completion that was under way. *)
Definition log_end (pipe : handle) (r : result unit) (tr : list event) : Prop :=
  match r with
  | Val _ => concat (lines tr) = arrived tr ∧ ∃ tr' d n ls,
      tr = tr' ++ [EvReadUntil pipe Eof d n] ++ (EvLine <$> ls) ++ [EvClose pipe]
  | Throw e =>
      (concat (lines tr) = arrived tr ∧ ∃ ec, e = system_error ec ∧ ec ≠ Success ∧ ec ≠ Eof)
      ∨ (e = system_error Operation_canceled ∧ ∃ tr' d ls ec late n,
         tr = tr' ++ [EvArrived pipe d] ++ (EvLine <$> ls) ++ [EvReadUntil pipe ec late n]
         ∧ concat (lines tr') ++ join_lf ls = arrived tr' ++ d)
  | NoFuel => concat (lines tr) `prefix_of` arrived tr
  end.
Definition log_post {W} `{!CancellationTypes} (pipe : handle) (s0 : st W) : post W unit := λ r s,
  ∃ tr, trace s = trace s0 ++ [EvReset log_filter] ++ tr ∧ Forall single_line (lines tr) ∧ log_end pipe r tr.

Section LogProofs.
Context {W : Type} `{!CancellationTypes, !Cancellation W, !Streams W, !LinePipes W}.
Context `{!LinePipesOk W, !CancelledOnce W}.

Abbreviation emit_line := (λ l, emit (W := W) (EvLine l)).

Lemma wp_handle_lines ls (Q : post W unit) : ∀ s,
  Q (Val tt) (St (env s) (trace s ++ (EvLine <$> ls))) → wp (handle_lines emit_line ls) Q s.
Proof.
  induction ls as [|l ls IH]; intros s HQ; simpl.
  - apply wp_ret. destruct s. by rewrite app_nil_r in HQ.
  - apply wp_bind, wp_emit. simpl. apply IH. simpl. by rewrite <-app_assoc.
Qed.

Lemma views_split_single l : Forall single_line (views_split l).
Proof. eapply Forall_impl; [apply views_split_no_lf|]. by left. Qed.

(** One awaited [async_read_until], uncancelled or cancelled while suspended. *)
Lemma wp_async_read_until connected pipe buffer (Q : post W (error_code * list byte * Z)) s :
  await_throws (env s) = false → slot_connected (env s) = connected →
  (∀ ec d n w, isCancelled w all = false → await_throws w = false → slot_connected w = connected →
     on_read_until_done pipe buffer (on_read_until pipe buffer (env s)).2 = (ec, d, n, w) →
     Q (Val (ec, buffer ++ d, n)) (St w (trace s ++ [EvReadUntil pipe ec d n]))) →
  (∀ ec d0 d n w, isCancelled w all = true →
     Q (Val (ec, (buffer ++ d0) ++ d, n))
       (St w (trace s ++ [EvArrived pipe d0] ++ (EvLine <$> views_split (buffer ++ d0))
                ++ [EvReadUntil pipe ec d n]))) →
  wp (async_read_until pipe buffer
        (λ buffer, if connected : bool then handle_lines emit_line (views_split buffer)
                   else mret tt)) Q s.
Proof.
  intros Hthrows Hconn HQ HQc. unfold async_read_until.
  apply wp_co_await; [congruence|intros _]. apply wp_bind.
  unfold wp at 1, suspended. destruct (on_read_until pipe buffer (env s)) as [ds w] eqn:Hsus.
  simpl. pose proof (at_most_once _ _ _ _ _ Hsus) as Honce.
  destruct ds as [|d0 [|]]; [| |simpl in Honce; lia]; simpl; clear Honce.
  2: {
    destruct (on_read_until_done pipe (buffer ++ d0) w) as [[[ec d] n] w'] eqn:Hdone.
    destruct (cancelled_only_if_forwarded _ _ _ _ _ _ _ _ _ _ Hsus Hdone) as (_ & _ & Hs).
    pose proof (forwarded_recorded _ _ _ _ _ _ _ _ _ _ Hsus Hdone ltac:(done)) as Hc.
    rewrite Hconn in Hs. rewrite Hs by done. apply wp_bind, wp_bind, wp_emit, wp_bind, wp_handle_lines.
    apply wp_ret. unfold post_bind, wp, completed. simpl. rewrite Hdone. simpl.
    rewrite <-!app_assoc. simpl. rewrite app_assoc. apply HQc. by rewrite Hc. }
  - apply wp_bind, wp_ret. unfold post_bind, wp, completed. simpl.
    destruct (on_read_until_done pipe buffer w) as [[[ec d] n] w'] eqn:Hdone. simpl.
    destruct (cancelled_only_if_forwarded _ _ _ _ _ _ _ _ _ _ Hsus Hdone) as (Hc & Hcon & _).
    apply HQ; [by apply Hc|by apply Hc|congruence|done].
Qed.

(** The state of the main loop: what has arrived is what was handed out, followed
    by what is still in the buffer. *)
Definition log_inv (s0 : st W) (connected : bool) (buffer : list byte) (s : st W) : Prop :=
  await_throws (env s) = false ∧ slot_connected (env s) = connected ∧
  ∃ tr, trace s = trace s0 ++ [EvReset log_filter] ++ tr ∧ Forall single_line (lines tr)
        ∧ concat (lines tr) ++ buffer = arrived tr.

Lemma single_line_first line : LF ∉ line → single_line (line ++ [LF]).
Proof. right. by exists line. Qed.

Definition log_body (connected : bool) (pipe : handle) (buffer : list byte) :
    awaitable W (list byte + error_code * list byte) :=
  '(ec, buffer, n) ← async_read_until pipe buffer
      (λ buffer, if connected : bool then handle_lines emit_line (views_split buffer)
                 else mret tt);
    cancelled ← gets (λ state, isCancelled state all);
    if cancelled : bool then throw (system_error Operation_canceled)
    else if failed ec then mret (inr (ec, buffer))
    else emit_line (ztake n buffer);; mret (inl (drop (Z.to_nat n) buffer)).

(** What the main loop leaves behind. *)
Definition log_loop_post (s0 : st W) (pipe : handle) : post W (error_code * list byte) := λ r s',
  match r with
  | Val (ec, buffer') => ec ≠ Success ∧ (LF ∉ buffer') ∧ ∃ tr d n,
      trace s' = trace s0 ++ [EvReset log_filter] ++ tr ++ [EvReadUntil pipe ec d n]
      ∧ Forall single_line (lines tr)
      ∧ concat (lines tr) ++ buffer' = arrived tr ++ d
  | Throw e => log_post pipe s0 (Throw e) s'
  | NoFuel => log_post pipe s0 NoFuel s'
  end.

Lemma wp_log_body s0 connected pipe buffer s :
  log_inv s0 connected buffer s →
  wp (log_body connected pipe buffer)
    (post_loop (log_inv s0 connected) (log_loop_post s0 pipe)) s.
Proof.
  intros (Hthr & Hconn & tr & Ht & Hsingle & Harr). unfold log_body.
  apply wp_bind, wp_async_read_until; try done.
  - intros ec d n w Hnc Hthr' Hconn' Hdone. unfold post_bind.
    apply wp_bind, wp_gets. simpl. rewrite Hnc. wp_run.
    + split_and!; [done|by eapply completed_no_lf|]. exists tr, d, n.
      split_and!; [by rewrite Ht, <-!app_assoc|done|by rewrite app_assoc, Harr].
    + destruct (completed_line _ _ _ _ _ _ Hdone) as (line & rest & Hline & Hnolf & ->).
      split_and!; [done|done|]. rewrite Hline. unfold ztake, zlen.
      rewrite Nat2Z.id, app_assoc, take_app_length, drop_app_length.
      exists (tr ++ [EvReadUntil pipe Success d (zlen (line ++ [LF])); EvLine (line ++ [LF])]).
      autorewrite with log_db. simpl. autorewrite with log_db. split_and!.
      * by rewrite Ht, <-!app_assoc.
      * apply Forall_app_2; [done|]. apply Forall_cons; split; [by apply single_line_first|constructor].
      * rewrite <-Harr, <-!app_assoc. f_equal. by rewrite Hline.
  - intros ec d0 d n w Hc. unfold post_bind. apply wp_bind, wp_gets. simpl. rewrite Hc.
    wp_run. exists (tr ++ [EvArrived pipe d0] ++ (EvLine <$> views_split (buffer ++ d0))
                       ++ [EvReadUntil pipe ec d n]).
    autorewrite with log_db. simpl. autorewrite with log_db. split_and!.
    + by rewrite Ht, <-!app_assoc.
    + by apply Forall_app_2; [|apply views_split_single].
    + right. split; [done|]. exists tr, d0, (views_split (buffer ++ d0)), ec, d, n. split; [done|].
      by rewrite views_split_join, <-Harr, <-app_assoc.
Qed.

Lemma log_inv_start s :
  log_inv s (slot_connected (env s)) []
    (St (on_reset log_filter (env s)) (trace s ++ [EvReset log_filter])).
Proof.
  destruct (reset_not_cancelled log_filter (env s)) as [Hthr Hconn].
  split_and!; [done|done|]. exists []. by rewrite app_nil_r.
Qed.

Lemma log_inv_post s0 connected buffer pipe s :
  log_inv s0 connected buffer s → log_post pipe s0 NoFuel s.
Proof.
  intros (_ & _ & tr & Ht & Hs & Harr). exists tr. split_and!; [done|done|]. simpl.
  rewrite <-Harr. by apply prefix_app_r.
Qed.

(** After the loop: the rest of the buffer, then [close] or the error. *)
Lemma log_after_loop s0 pipe ec buffer s :
  log_loop_post s0 pipe (Val (ec, buffer)) s →
  wp (handle_lines emit_line (views_split buffer);;
      if bool_decide (ec = Eof) then close pipe
      else if failed ec then throw (system_error ec) else mret tt) (log_post pipe s0) s.
Proof.
  intros (Hec & Hnolf & tr & d & n & Ht & Hs & Harr).
  apply wp_bind, wp_handle_lines. unfold post_bind. case_bool_decide as Heof.
  - subst ec. apply wp_close. simpl.
    exists (tr ++ [EvReadUntil pipe Eof d n] ++ (EvLine <$> views_split buffer) ++ [EvClose pipe]).
    autorewrite with log_db. simpl. autorewrite with log_db. split_and!.
    + by rewrite Ht, <-!app_assoc.
    + by apply Forall_app_2; [|apply views_split_single].
    + by rewrite views_split_partial.
    + by exists tr, d, n, (views_split buffer).
  - wp_run. exists (tr ++ [EvReadUntil pipe ec d n] ++ (EvLine <$> views_split buffer)).
    autorewrite with log_db. simpl. autorewrite with log_db. split_and!.
    + by rewrite Ht, <-!app_assoc.
    + by apply Forall_app_2; [|apply views_split_single].
    + left. split; [by rewrite views_split_partial|by exists ec].
Qed.

Lemma log_with_correct fuel pipe s :
  wp (log_with fuel pipe emit_line) (log_post pipe s) s.
Proof.
  unfold log_with. wp_run. rewrite (proj2 (reset_not_cancelled log_filter (env s))).
  eapply wp_mono; [|apply (wp_loop (log_inv s (slot_connected (env s)))
                             (log_body (slot_connected (env s)) pipe) (log_loop_post s pipe))].
  - intros [[ec buffer]|e|] s' Hp; [|done..]. by apply log_after_loop.
  - intros buffer s'. apply log_inv_post.
  - apply wp_log_body.
  - apply log_inv_start.
Qed.

(** An iteration either leaves the loop or has consumed a line. *)
Definition line_consumed `{!FiniteLines W} (buffer : list byte) (s : st W) :
    post W (list byte + error_code * list byte) := λ r s',
  match r with
  | Val (inl buffer') => lines_budget buffer' (env s') < lines_budget buffer (env s)
  | NoFuel => False
  | _ => True
  end.

Lemma log_body_decreases `{!FiniteLines W} s0 connected pipe buffer s :
  log_inv s0 connected buffer s → wp (log_body connected pipe buffer) (line_consumed buffer s) s.
Proof.
  intros (Hthr & Hconn & _). unfold log_body. apply wp_bind, wp_async_read_until; try done.
  - intros ec d n w Hnc _ _ Hdone. unfold post_bind. apply wp_bind, wp_gets. simpl. rewrite Hnc.
    wp_run; [done|]. simpl.
    destruct (on_read_until pipe buffer (env s)) as [c w'] eqn:Hsus.
    by eapply completed_budget.
  - intros ec d0 d n w Hc. unfold post_bind. apply wp_bind, wp_gets. simpl. by rewrite Hc.
Qed.

Lemma log_with_total `{!FiniteLines W} fuel pipe s :
  lines_budget [] (on_reset log_filter (env s)) < fuel →
  wp (log_with fuel pipe emit_line) (λ r _, r ≠ NoFuel) s.
Proof.
  intros Hfuel. unfold log_with. wp_run.
  rewrite (proj2 (reset_not_cancelled log_filter (env s))).
  eapply wp_mono;
    [|apply (wp_loop_total (log_inv s (slot_connected (env s))) (λ b s', lines_budget b (env s'))
               (log_body (slot_connected (env s)) pipe) (λ r _, r ≠ NoFuel))].
  - intros [[ec buffer]|e|] s' Hp; [|done..]. unfold post_bind.
    apply wp_bind, wp_handle_lines. unfold post_bind. case_bool_decide; wp_run; done.
  - intros buffer s' Hinv.
    eapply wp_mono; [|apply wp_and; [by apply wp_log_body|by eapply log_body_decreases]].
    by intros [[b'|[ec b']]|e|] s'' [H1 H2].
  - apply log_inv_start.
  - done.
Qed.
End LogProofs.

(** ** The overload that prints

    It makes the same run as [log_with] with the bare lines as events; only the text of the
    line events differs. *)

Definition printed (e : event) : event :=
  match e with EvLine l => EvLine (remove_lf l) | e => e end.

Section Simulation.
Context {W : Type}.
Context (t0 : list event).

(** Two states after the same operations, in the second of which lines are printed. *)
Definition sim (s1 s2 : st W) : Prop :=
  env s1 = env s2 ∧ ∃ tr, trace s1 = t0 ++ tr ∧ trace s2 = t0 ++ (printed <$> tr).
Definition msim {A} (m1 m2 : awaitable W A) : Prop := ∀ s1 s2, sim s1 s2 →
  (m1 s1).1 = (m2 s2).1 ∧ sim (m1 s1).2 (m2 s2).2.

Lemma sim_emit e w s1 s2 :
  sim s1 s2 → sim (St w (trace s1 ++ [e])) (St w (trace s2 ++ [printed e])).
Proof.
  intros (_ & tr & H1 & H2). split; [done|]. exists (tr ++ [e]). simpl.
  by rewrite H1, H2, fmap_app, <-!app_assoc.
Qed.
Lemma sim_env w s1 s2 : sim s1 s2 → sim (St w (trace s1)) (St w (trace s2)).
Proof. intros (_ & Htr). by split. Qed.

Lemma msim_ret {A} (a : A) : msim (mret a) (mret a).
Proof. by intros s1 s2 Hsim. Qed.
Lemma msim_throw {A} e : msim (A := A) (throw e) (throw e).
Proof. by intros s1 s2 Hsim. Qed.
Lemma msim_gets {A} (f : W → A) : msim (gets f) (gets f).
Proof. intros s1 s2 Hsim. split; [|done]. simpl. by rewrite (proj1 Hsim). Qed.
Lemma msim_modify f : msim (modify f) (modify f).
Proof. intros s1 s2 Hsim. split; [done|]. simpl. rewrite <-(proj1 Hsim). by apply sim_env. Qed.
Lemma msim_emit e e' : e' = printed e → msim (emit e) (emit e').
Proof. intros -> s1 s2 Hsim. split; [done|]. simpl. rewrite <-(proj1 Hsim). by apply sim_emit. Qed.
Lemma msim_bind {A B} (m1 m2 : awaitable W A) (k1 k2 : A → awaitable W B) :
  msim m1 m2 → (∀ a, msim (k1 a) (k2 a)) → msim (m1 ≫= k1) (m2 ≫= k2).
Proof.
  intros Hm Hk s1 s2 Hsim. unfold mbind, awaitable_bind. destruct (Hm s1 s2 Hsim) as [Hr Hs].
  destruct (m1 s1) as [r1 s1'], (m2 s2) as [r2 s2']. simpl in *. subst r2.
  destruct r1; [by apply Hk|done..].
Qed.
Lemma msim_loop {S A} fuel (b1 b2 : S → awaitable W (S + A)) : (∀ x, msim (b1 x) (b2 x)) →
  ∀ x, msim (loop fuel b1 x) (loop fuel b2 x).
Proof.
  intros Hb. induction fuel as [|fuel IH]; intros x; simpl; [by intros s1 s2 Hsim|].
  apply msim_bind; [done|]. intros [x'|a]; [done|apply msim_ret].
Qed.
Lemma msim_co_await `{!Cancellation W} {A} (m1 m2 : awaitable W A) :
  msim m1 m2 → msim (co_await m1) (co_await m2).
Proof.
  intros Hm s1 s2 Hsim. unfold co_await. rewrite (proj1 Hsim).
  destruct (await_throws (env s2)); [done|by apply Hm].
Qed.

Context `{!CancellationTypes, !Cancellation W, !Streams W, !LinePipes W}.

Lemma msim_handle_lines ls :
  msim (handle_lines (λ l, emit (EvLine l)) ls) (handle_lines (λ l, emit (EvLine (remove_lf l))) ls).
Proof. induction ls; simpl; [apply msim_ret|]. apply msim_bind; [by apply msim_emit|done]. Qed.

Lemma msim_async_read_until h buffer handler1 handler2 :
  (∀ b, msim (handler1 b) (handler2 b)) →
  msim (async_read_until h buffer handler1) (async_read_until h buffer handler2).
Proof.
  intros Hh. apply msim_co_await, msim_bind.
  - intros s1 s2 Hsim. unfold suspended. rewrite (proj1 Hsim).
    destruct (on_read_until h buffer (env s2)). split; [done|]. by apply sim_env.
  - intros ds. apply msim_bind.
    + revert buffer. induction ds as [|d ds IH]; intros buffer; simpl; [apply msim_ret|].
      apply msim_bind; [by apply msim_emit|intros _]. by apply msim_bind.
    + intros b s1 s2 Hsim. unfold completed. rewrite (proj1 Hsim).
      destruct (on_read_until_done h b (env s2)) as [[[ec d] n] w]. split; [done|].
      by apply (sim_emit (EvReadUntil h ec d n)).
Qed.

Lemma msim_log fuel pipe :
  msim (log_with fuel pipe (λ l, emit (EvLine l))) (log fuel pipe).
Proof.
  unfold log, log_with, reset_cancellation_state.
  apply msim_bind; [apply msim_bind; [apply msim_modify|intros _; by apply msim_emit]|intros _].
  apply msim_bind; [apply msim_gets|intros connected]. apply msim_bind.
  - apply msim_loop. intros buffer. apply msim_bind.
    + apply msim_async_read_until. intros b. destruct connected; [apply msim_handle_lines|apply msim_ret].
    + intros [[ec b] n]. apply msim_bind; [apply msim_gets|intros []]; [apply msim_throw|].
      destruct (failed ec); [apply msim_ret|]. apply msim_bind; [by apply msim_emit|intros _; apply msim_ret].
  - intros [ec b]. apply msim_bind; [apply msim_handle_lines|intros _].
    case_bool_decide; [|destruct (failed ec); [apply msim_throw|apply msim_ret]].
    apply msim_bind; [apply msim_modify|intros _; by apply msim_emit].
Qed.
End Simulation.

(** [log] prints the lines of a faithful run. *)
Lemma log_correct {W} `{!CancellationTypes, !Cancellation W, !Streams W, !LinePipes W,
    !LinePipesOk W, !CancelledOnce W} fuel pipe (s : st W) :
  wp (log fuel pipe) (λ r s', ∃ tr s1, log_post pipe s r s1 ∧ env s1 = env s' ∧
    trace s1 = trace s ++ tr ∧ trace s' = trace s ++ (printed <$> tr)) s.
Proof.
  pose proof (log_with_correct fuel pipe s) as Hpost. unfold wp in *.
  destruct (msim_log (trace s) fuel pipe s s) as [Hr (He & tr & H1 & H2)].
  { split; [done|]. exists []. simpl. by rewrite app_nil_r. }
  rewrite Hr in Hpost. by exists tr, (log_with fuel pipe (λ l, emit (EvLine l)) s).2.
Qed.

(** ** Properties *)


(** The overload without a callback behaves as the one with, for every pipe, cancellation and error: it performs the
    same operations with the same completions and ends the same way, and prints the lines the other hands to its callback,
    without their LF. *)
Theorem log_prints {W} `{!CancellationTypes, !Cancellation W, !Streams W, !LinePipes W} fuel pipe (s : st W) :
  let with_callback := log_with fuel pipe (λ l, emit (EvLine l)) s in
  (log fuel pipe s).1 = with_callback.1 ∧ env (log fuel pipe s).2 = env with_callback.2
  ∧ ∃ tr, trace with_callback.2 = trace s ++ tr ∧ trace (log fuel pipe s).2 = trace s ++ (printed <$> tr).
Proof.
  destruct (msim_log (trace s) fuel pipe s s) as [Hr (He & tr & H1 & H2)].
  { split; [done|]. exists []. simpl. by rewrite app_nil_r. }
  split_and!; [done|done|by exists tr].
Qed.

(** [split_lines] is splitting at LF: no line contains LF, joining the lines
    with LF gives back the text without its final LF, and a text that ends in LF has
    as many lines as LFs, except that a lone LF (one empty line) has none. *)
Theorem split_lines_roundtrip text :
  Forall (λ l, LF ∉ l) (split_lines text) ∧ join_lf (split_lines text) = remove_lf text
  ∧ (∀ body, text = body ++ [LF] →
       length (split_lines text) = if decide (body = []) then 0 else count_lf text).
Proof.
  split_and!; [apply views_split_no_lf|apply views_split_join|].
  intros body ->. unfold split_lines. rewrite remove_lf_snoc. case_decide as Hb; [by subst|].
  rewrite views_split_length, count_lf_app by done. done.
Qed.

(** ** A scripted pipe

    Each entry is one [async_read_until]: whether cancellation arrives while it is
    suspended (and after which bytes), the error code, and the bytes of its completion. *)

Record pipe_world := PipeWorld {
  pw_script : list (option (list byte) * error_code * list byte);
  pw_cancelled : cancellation_type
}.

#[export] Instance pipe_cancellation : Cancellation pipe_world := {|
  cancelled := pw_cancelled;
  await_throws w := bool_decide (pw_cancelled w ≠ 0%Z);
  on_reset _ w := PipeWorld (pw_script w) 0;
  on_throw_if_cancelled _ w := w
|}.
#[export] Instance pipe_streams : Streams pipe_world := {|
  on_read_some _ _ w := (Eof, [], w);
  on_read_all _ w := (Eof, [], w);
  on_write_some _ d w := (Success, zlen d, w);
  on_write _ d w := (Success, zlen d, w);
  on_close _ w := w;
  on_shutdown _ _ w := (Success, w)
|}.

(** The length of the first line in a buffer, with its LF. *)
Definition line_length (b : list byte) : Z := zlen ((split_go b).1 ++ [LF]).

#[export] Instance pipe_lines : LinePipes pipe_world := {|
  slot_connected _ := true;
  on_read_until _ buffer w :=
    match pw_script w with
    | (Some d, _, _) :: _ => ([d], PipeWorld (pw_script w) 1)
    | _ => ([], PipeWorld (pw_script w) 0)
    end;
  on_read_until_done _ buffer w :=
    let '(ec, d, rest) := match pw_script w with
                          | (_, ec, d) :: rest => (ec, d, rest)
                          | [] => (Eof, [], [])
                          end in
    let w := PipeWorld rest (pw_cancelled w) in
    if decide (LF ∈ buffer ++ d) then (Success, d, line_length (buffer ++ d), w)
    else (if decide (ec = Success) then Eof else ec, d, 0%Z, w)
|}.

Lemma split_go_first b :
  LF ∈ b → ∃ rest, b = (split_go b).1 ++ [LF] ++ rest.
Proof.
  induction b as [|x b IH]; [by intros ?%not_elem_of_nil|]. intros Hb. simpl.
  destruct (split_go b) as [first rest]. case_decide as Hx; simpl.
  - exists b. by subst.
  - apply elem_of_cons in Hb as [Hb|Hb]; [congruence|]. destruct (IH Hb) as [rest' Hr]. exists rest'. simpl in *. by rewrite Hr at 1.
Qed.

#[export] Instance pipe_lines_ok : LinePipesOk pipe_world.
Proof.
  split; simpl.
  - intros _ buffer w d n w'. destruct (pw_script w) as [|[[c ec] d'] rest];
      repeat case_decide; intros ?; simplify_eq.
    all: destruct (split_go_first _ ltac:(eassumption)) as [rest' Hr].
    all: eexists _, rest'; split_and!; [exact Hr| |done].
    all: match goal with |- LF ∉ (split_go ?b).1 =>
           pose proof (split_go_no_lf b) as Hs; by destruct (split_go b), Hs end.
  - intros _ buffer w ec d n w'. destruct (pw_script w) as [|[[c ec'] d'] rest];
      repeat case_decide; intros; simplify_eq; done.
  - done.
  - intros _ buffer w ds w' buffer' ec d n w''. destruct w as [[|[[[d0|] ec'] d'] rest] ct]; simpl;
      repeat case_decide; intros ?; simplify_eq; simpl; repeat case_decide; intros ?; simplify_eq;
      done.
Qed.
#[export] Instance pipe_cancelled_once : CancelledOnce pipe_world.
Proof.
  split; simpl.
  - intros _ buffer w ds w'. destruct (pw_script w) as [|[[[d0|] ec] d'] rest];
      repeat case_decide; intros; simplify_eq; simpl; lia.
  - intros _ buffer w ds w' buffer' ec d n w''. destruct w as [[|[[[d0|] ec'] d'] rest] ct]; simpl;
      repeat case_decide; intros ?; simplify_eq; simpl; repeat case_decide; intros ?; simplify_eq;
      done.
Qed.

(** Consuming the first line removes exactly one LF. *)
Lemma drop_line_lf b :
  LF ∈ b → count_lf (drop (Z.to_nat (line_length b)) b) + 1 = count_lf b.
Proof.
  intros Hb. destruct (split_go_first b Hb) as [rest Hr].
  pose proof (split_go_no_lf b) as Hs.
  unfold line_length, zlen. rewrite Nat2Z.id.
  destruct (split_go b) as [first r]. destruct Hs as [Hs _]. cbn [fst] in *.
  rewrite Hr, app_assoc, drop_app_length, !count_lf_app, (count_lf_none first) by done.
  change (count_lf [LF]) with 1. lia.
Qed.

Definition pending_lf (w : pipe_world) : nat :=
  sum_list ((λ e, count_lf e.2) <$> pw_script w).

#[export] Instance pipe_finite : FiniteLines pipe_world.
Proof.
  refine {| lines_budget b w := count_lf b + pending_lf w |}.
  simpl. intros _ buffer [script ct] c w' d n w''. simpl.
  set (W1 := match script with
             | (Some d0, _, _) :: _ => _
             | _ => _ end).
  assert (HW1 : ∃ ct', W1.2 = PipeWorld script ct').
  { unfold W1. destruct script as [|[[[d0|] ec] d'] rest]; by eexists. }
  destruct HW1 as [ct' HW1]. intros HW. rewrite HW in HW1. simpl in HW1. subst w'. simpl.
  destruct script as [|[[c0 ec] d'] rest]; case_decide as Hlf; intros ?; simplify_eq;
    unfold pending_lf; simpl; unfold fmap.
  - pose proof (drop_line_lf _ Hlf) as Hd. rewrite (count_lf_app buffer []) in Hd.
    change (count_lf []) with 0 in Hd. lia.
  - pose proof (drop_line_lf _ Hlf) as Hd. rewrite (count_lf_app buffer d) in Hd. lia.
  - by case_decide.
Defined.

(** ** Witnesses *)

Definition two_lines : pipe_world :=
  PipeWorld [(None, Success, bytes_of "one" ++ [LF] ++ bytes_of "tw");
             (None, Success, bytes_of "o" ++ [LF] ++ bytes_of "rest");
             (None, Eof, [])] 0.


(** The cancellation race of the log loop: when a completion was already under
    way at the moment of cancellation, its bytes arrive after the handler emitted the
    buffer and are dropped, although the loop takes every line to have been emitted. *)
Theorem log_cancel_race_drops_line :
  ∃ (w : pipe_world) s', log_with 5 7 (λ l, emit (EvLine l)) (St w []) =
    (Throw (system_error Operation_canceled), s')
  ∧ lines (trace s') = [bytes_of "par"]
  ∧ arrived (trace s') = bytes_of "partial" ++ [LF].
Proof.
  exists (PipeWorld [(Some (bytes_of "par"), Success, bytes_of "tial" ++ [LF])] 0).
  eexists. split_and!; vm_compute; reflexivity.
Qed.

(** When the coroutine is cancelled while complete lines are waiting in its buffer, the handler splits what ends in LF,
    and hands out an empty line that was never written. *)
Theorem log_cancel_extra_line :
  ∃ (w : pipe_world) s', log_with 5 7 (λ l, emit (EvLine l)) (St w []) =
    (Throw (system_error Operation_canceled), s')
  ∧ lines (trace s') = [bytes_of "one" ++ [LF]; bytes_of "two"; []]
  ∧ arrived (trace s') = bytes_of "one" ++ [LF] ++ bytes_of "two" ++ [LF].
Proof.
  exists (PipeWorld [(None, Success, bytes_of "one" ++ [LF] ++ bytes_of "two" ++ [LF]);
                     (Some [], Success, [])] 0).
  eexists. split_and!; vm_compute; reflexivity.
Qed.

(** The same pipe, where every cancellation is followed at once by a second one. *)
Definition twice : LinePipes pipe_world := {|
  slot_connected _ := true;
  on_read_until h buffer w :=
    let '(ds, w) := on_read_until h buffer w in (ds ++ ((λ _, []) <$> ds), w);
  on_read_until_done := on_read_until_done
|}.

Lemma twice_ok : LinePipesOk pipe_world (LinePipes0 := twice).
Proof.
  split; cbn [twice slot_connected on_read_until on_read_until_done].
  - apply completed_line.
  - apply completed_no_lf.
  - done.
  - intros h buffer w ds w' buffer' ec d n w''.
    destruct (pipe_lines.(on_read_until) h buffer w) as [ds0 w0] eqn:Hrun. intros [= <- <-] Hdone.
    destruct (cancelled_only_if_forwarded _ _ _ _ _ _ _ _ _ _ Hrun Hdone) as (Hc & Hs & _).
    split_and!; [|done|done]. intros [-> _]%app_eq_nil. by apply Hc.
Qed.

(** The cancellation handler leaves the buffer as it is: when a second cancellation arrives before the coroutine
    is resumed, everything in the buffer is handed out again. *)
Theorem log_twice_cancelled_duplicates :
  ∃ (w : pipe_world) s', log_with (LinePipes0 := twice) 5 7 (λ l, emit (EvLine l)) (St w []) =
    (Throw (system_error Operation_canceled), s')
  ∧ lines (trace s') = [bytes_of "par"; bytes_of "par"]
  ∧ arrived (trace s') = bytes_of "par".
Proof.
  exists (PipeWorld [(Some (bytes_of "par"), Operation_canceled, [])] 0).
  eexists. split_and!; vm_compute; reflexivity.
Qed.
