(* ===== verification/Echo.v ===== *)
(** * echo/*.cpp and corosio/corosio_echo_server.cpp: the echo servers

    One Module per program.  Every session is a loop that reads a chunk and
    writes it back; they differ in how an error is noticed and in what a
    session does about it.  The abstract specification is the copy protocol of
    Copy.v, with the socket as both source and target. *)
From S2P Require Import Prelude Asio Wp Copy Script.

(** [std::array<char, 64 * 1024> data] *)
Definition data_size : Z := 64 * 1024.

(** ** echo_coro.cpp *)
Module EchoCoro.
Section Program.
Context {W : Type} `{!Cancellation W, !Streams W, !Acceptors W}.

Definition session (fuel : nat) (socket : handle) : awaitable W unit :=
  loop fuel (λ _,
    data ← deferred (async_read_some socket data_size);
    _ ← deferred (async_write socket data);
    mret (inl tt)) tt.

Definition server (fuel : nat) (a : handle) : awaitable W unit :=
  loop fuel (λ _,
    socket ← deferred (async_accept a);
    co_spawn_detached socket;;
    mret (inl tt)) tt.
End Program.
End EchoCoro.

(** ** echo_coro_threaded.cpp: the same coroutines, run by several threads *)
Module EchoCoroThreaded.
Section Program.
Context {W : Type} `{!Cancellation W, !Streams W, !Acceptors W}.

Definition session (fuel : nat) (socket : handle) : awaitable W unit :=
  loop fuel (λ _,
    data ← deferred (async_read_some socket data_size);
    _ ← deferred (async_write socket data);
    mret (inl tt)) tt.

Definition server (fuel : nat) (a : handle) : awaitable W unit :=
  loop fuel (λ _,
    socket ← deferred (async_accept a);
    co_spawn_detached socket;;
    mret (inl tt)) tt.
End Program.
End EchoCoroThreaded.

(** ** echo_coro_timeout.cpp: a deadline per read and per session *)
Module EchoCoroTimeout.
Section Program.
Context {W : Type} `{!Cancellation W, !Streams W, !Acceptors W}.

Definition seconds (n : Z) : duration := n * 10 ^ 9.

Definition session (fuel : nat) (socket : handle) : awaitable W unit :=
  loop fuel (λ _,
    data ← deferred (co_await (cancel_after (seconds 2) (op_read_some socket data_size)));
    _ ← deferred (async_write socket data);
    mret (inl tt)) tt.

Definition server (fuel : nat) (a : handle) : awaitable W unit :=
  loop fuel (λ _,
    socket ← deferred (async_accept a);
    cancel_after (seconds 60) (co_spawn_detached socket);;
    mret (inl tt)) tt.
End Program.
End EchoCoroTimeout.

(** ** echo_coro_tuple.cpp: error codes instead of exceptions *)
Module EchoCoroTuple.
Section Program.
Context {W : Type} `{!Cancellation W, !Streams W, !Acceptors W}.

Definition session (fuel : nat) (socket : handle) : awaitable W unit :=
  loop fuel (λ _,
    '(ec, data) ← async_read_some socket data_size;
    if failed ec then mret (inr tt)
    else
      '(ec, n) ← async_write socket data;
      if failed ec then mret (inr tt)
      else mret (inl tt)) tt.

Definition server (fuel : nat) (a : handle) : awaitable W unit :=
  loop fuel (λ _,
    socket ← deferred (async_accept a);
    co_spawn_detached socket;;
    mret (inl tt)) tt.
End Program.
End EchoCoroTuple.

(** ** echo_coro_context_pool.cpp: sessions distributed over a pool of contexts *)
Module EchoCoroContextPool.
Section Program.
Context {W : Type} `{!Cancellation W, !Streams W, !Acceptors W}.

Definition session (fuel : nat) (socket : handle) : awaitable W unit :=
  loop fuel (λ _,
    data ← deferred (async_read_some socket data_size);
    _ ← deferred (async_write socket data);
    mret (inl tt)) tt.

(** [threads[i % threads.size()]]; there is no such element in an empty pool,
    where the program divides by zero. *)
Definition pick (i threads : nat) : option nat :=
  if decide (threads = 0) then None else Some (i mod threads).

(** [threads] is [std::thread::hardware_concurrency()].  The undefined behaviour
    of an empty pool is modelled by stopping. *)
Definition server (threads : nat) (fuel : nat) (a : handle) : awaitable W unit :=
  loop fuel (λ i,
    match pick i threads with
    | None => throw foreign_exception
    | Some executor =>
        socket ← deferred (async_accept a);
        emit (EvRebind executor socket);;
        co_spawn_on executor socket;;
        mret (inl (S i))
    end) 0.
End Program.
End EchoCoroContextPool.

(** ** echo_async.cpp: completion handlers *)
Module EchoAsync.
Section Program.
Context {W : Type} `{!Streams W, !Acceptors W}.

(** [session::do_write], given what its handler continues with. *)
Definition do_write (do_read : awaitable W unit) (socket : handle) (data : list byte) :
  awaitable W unit :=
  '(ec, length) ← op_write socket data;
  if failed ec then mret tt else do_read.

(** [session::do_read]; each completed round uses up fuel. *)
Fixpoint do_read (fuel : nat) (socket : handle) : awaitable W unit :=
  match fuel with
  | O => λ s, (NoFuel, s)
  | S fuel =>
    '(ec, data) ← op_read_some socket data_size;
    if failed ec then mret tt else do_write (do_read fuel socket) socket data
  end.

(** [session::start] *)
Definition start (fuel : nat) (socket : handle) : awaitable W unit := do_read fuel socket.

(** [server::do_accept]: accepts again, error or not. *)
Fixpoint do_accept (fuel : nat) (acceptor : handle) : awaitable W unit :=
  match fuel with
  | O => λ s, (NoFuel, s)
  | S fuel =>
    '(ec, socket) ← op_accept acceptor;
    (if failed ec then mret tt else co_spawn_detached socket);;
    do_accept fuel acceptor
  end.
End Program.
End EchoAsync.

(** ** echo_async_threaded.cpp *)
Module EchoAsyncThreaded.
Section Program.
Context {W : Type} `{!Streams W, !Acceptors W}.

(** [session::do_write], given what its handler continues with. *)
Definition do_write (do_read : awaitable W unit) (socket : handle) (data : list byte) :
  awaitable W unit :=
  '(ec, length) ← op_write socket data;
  if failed ec then mret tt else do_read.

(** [session::do_read]; each completed round uses up fuel. *)
Fixpoint do_read (fuel : nat) (socket : handle) : awaitable W unit :=
  match fuel with
  | O => λ s, (NoFuel, s)
  | S fuel =>
    '(ec, data) ← op_read_some socket data_size;
    if failed ec then mret tt else do_write (do_read fuel socket) socket data
  end.

(** [session::start] *)
Definition start (fuel : nat) (socket : handle) : awaitable W unit := do_read fuel socket.

(** [server::do_accept]: accepts again, error or not. *)
Fixpoint do_accept (fuel : nat) (acceptor : handle) : awaitable W unit :=
  match fuel with
  | O => λ s, (NoFuel, s)
  | S fuel =>
    '(ec, socket) ← op_accept acceptor;
    (if failed ec then mret tt else co_spawn_detached socket);;
    do_accept fuel acceptor
  end.
End Program.
End EchoAsyncThreaded.

(** ** echo_sync.cpp: blocking calls *)
Module EchoSync.
Section Program.
Context {W : Type} `{!Streams W, !Acceptors W}.

Definition session (fuel : nat) (socket : handle) : awaitable W unit :=
  loop fuel (λ _,
    '(ec, data) ← op_read_some socket data_size;
    if bool_decide (ec = Eof) then mret (inr tt)
    else
      _ ← deferred (op_write socket data);
      mret (inl tt)) tt.

(** One session after the other. *)
Definition server (fuel : nat) (acceptor : handle) : awaitable W unit :=
  loop fuel (λ _,
    socket ← deferred (op_accept acceptor);
    session fuel socket;;
    mret (inl tt)) tt.

End Program.
End EchoSync.

(** ** echo_sync_threaded.cpp: one detached thread per session *)
Module EchoSyncThreaded.
Section Program.
Context {W : Type} `{!Streams W, !Acceptors W}.

Definition session (fuel : nat) (socket : handle) : awaitable W unit :=
  loop fuel (λ _,
    '(ec, data) ← op_read_some socket data_size;
    if bool_decide (ec = Eof) then mret (inr tt)
    else
      _ ← deferred (op_write socket data);
      mret (inl tt)) tt.

Definition server (fuel : nat) (acceptor : handle) : awaitable W unit :=
  loop fuel (λ _,
    socket ← deferred (op_accept acceptor);
    co_spawn_detached socket;;
    mret (inl tt)) tt.
End Program.
End EchoSyncThreaded.

(** ** echo_corosio_threaded.cpp *)
Module EchoCorosioThreaded.
Section Program.
Context {W : Type} `{!Streams W, !Acceptors W}.

Definition handle_connection (fuel : nat) (socket : handle) : awaitable W unit :=
  loop fuel (λ _,
    '(ec, data) ← op_read_some socket data_size;
    if bool_decide (ec = Eof) then mret (inr tt)
    else
      '(wec, wn) ← op_write socket data;
      if failed wec then mret (inr tt)
      else mret (inl tt)) tt;;
  close socket.

(** The result of [accept] is ignored: a session is started in any case. *)
Definition server (fuel : nat) (acc : handle) : awaitable W unit :=
  loop fuel (λ _,
    '(_, peer) ← op_accept acc;
    co_spawn_detached peer;;
    mret (inl tt)) tt.
End Program.
End EchoCorosioThreaded.

(** ** echo_corosio.cpp *)
Module EchoCorosio.
Section Program.
Context {W : Type} `{!Streams W, !Acceptors W}.

Definition handle_connection (fuel : nat) (socket : handle) : awaitable W unit :=
  loop fuel (λ _,
    '(ec, data) ← op_read_some socket data_size;
    if bool_decide (ec = Eof) then mret (inr tt)
    else
      '(wec, wn) ← op_write socket data;
      if failed wec then mret (inr tt)
      else mret (inl tt)) tt;;
  close socket.

(** The result of [accept] is ignored: a session is started in any case. *)
Definition server (fuel : nat) (acc : handle) : awaitable W unit :=
  loop fuel (λ _,
    '(_, peer) ← op_accept acc;
    co_spawn_detached peer;;
    mret (inl tt)) tt.
End Program.
End EchoCorosio.

(** ** The echo loops of the programs under cancellation/ *)
Module CancellationEcho.
Section Program.
Context {W : Type} `{!Cancellation W, !Streams W}.

(** echo_coro_signal.cpp *)
Definition signal_echo (fuel : nat) (socket : handle) : awaitable W unit :=
  loop fuel (λ _,
    data ← deferred (async_read_some socket data_size);
    _ ← deferred (async_write socket data);
    mret (inl tt)) tt.

(** echo_coro_signal_cancellation.cpp *)
Definition cancellation_session (fuel : nat) (socket : handle) : awaitable W unit :=
  loop fuel (λ _,
    data ← deferred (async_read_some socket data_size);
    _ ← deferred (async_write socket data);
    mret (inl tt)) tt.

(** echo_class.cpp *)
Definition class_echo (fuel : nat) (socket : handle) : awaitable W unit :=
  loop fuel (λ _,
    data ← deferred (async_read_some socket data_size);
    _ ← deferred (async_write socket data);
    mret (inl tt)) tt.

End Program.
End CancellationEcho.

(** ** corosio_echo_server.cpp *)
Module CorosioEchoServer.
Section Program.
Context {W : Type} `{!Streams W}.

Definition do_session (fuel : nat) (sock : handle) : awaitable W unit :=
  loop fuel (λ _,
    '(ec, data) ← op_read_some sock data_size;
    if failed ec then mret (inr tt)
    else
      '(wec, wn) ← op_write sock data;
      if failed wec then mret (inr tt)
      else mret (inl tt)) tt;;
  close sock.
End Program.

End CorosioEchoServer.

(** ** Sessions implement the copy protocol *)

Section Sessions.
Context {W : Type} `{!Cancellation W, !Streams W, !StreamsOk W, !Acceptors W}.
Implicit Types (s : st W) (socket : handle).

Abbreviation echoed socket := (copied socket socket data_size).
Abbreviation echo_end socket := (copy_end socket socket data_size).

(** A session without error handling: it ends with the exception of the
  operation that failed, and with nothing else. *)
Definition throwing_session socket s0 : post W unit := λ r s, ∃ ds tail,
  trace s = trace s0 ++ echoed socket ds ++ tail ∧
  match r with
  | Val _ => False
  | Throw e => ∃ ec, e = system_error ec ∧ echo_end socket ec tail
  | NoFuel => tail = []
  end.

(** A session with error codes: it returns on any error of an operation, and
  throws only when it was cancelled at a [co_await]. *)
Definition quiet_session socket s0 : post W unit := λ r s, ∃ ds tail,
  trace s = trace s0 ++ echoed socket ds ++ tail ∧
  match r with
  | Val _ => ∃ ec, echo_end socket ec tail
  | Throw e => e = system_error Operation_canceled ∧ echo_end socket Operation_canceled tail
  | NoFuel => tail = []
  end.

Ltac session_loop socket s :=
  apply (wp_loop (λ _ s', ∃ ds, trace s' = trace s ++ copied socket socket data_size ds));
  [ intros _ s' [ds Ht]; exists ds, []; by rewrite app_nil_r
  | intros _ [w0 t0] [ds Ht]; simpl in Ht; subst t0; wp_run
  | exists []; by rewrite app_nil_r ].

Lemma coro_session_correct fuel socket s :
  wp (EchoCoro.session fuel socket) (throwing_session socket s) s.
Proof.
  session_loop socket s.
  - copy_exit ds (@nil event).
  - copy_exit ds [EvRead socket data_size Success d].
  - exists (ds ++ [d]). by eapply copied_extend.
  - copy_exit ds [EvRead socket data_size Success d; EvWrite socket d ec n].
  - copy_exit ds [EvRead socket data_size ec d].
Qed.

Lemma tuple_session_correct fuel socket s :
  wp (EchoCoroTuple.session fuel socket) (quiet_session socket s) s.
Proof.
  session_loop socket s.
  - copy_exit ds (@nil event).
  - copy_exit ds [EvRead socket data_size ec d].
  - copy_exit ds [EvRead socket data_size Success d].
  - copy_exit ds [EvRead socket data_size Success d; EvWrite socket d ec n].
  - exists (ds ++ [d]). by eapply copied_extend.
Qed.

(** For a peer that does not send forever, every session ends. *)
Ltac session_total :=
  apply (wp_loop_total (λ _ _, True) (λ _ s', budget (env s'))); [|done];
  intros [] s' _; wp_run; try done;
  split; [done|];
  repeat match goal with
  | H : on_read_some _ _ _ = _ |- _ => apply read_some_budget in H
  | H : on_write _ _ _ = _ |- _ => apply write_budget in H
  end; simpl in *; lia.

Lemma coro_session_total `{!FiniteInput W} fuel socket s :
  budget (env s) < fuel → wp (EchoCoro.session fuel socket) (λ r _, r ≠ NoFuel) s.
Proof. session_total. Qed.

Lemma tuple_session_total `{!FiniteInput W} fuel socket s :
  budget (env s) < fuel → wp (EchoCoroTuple.session fuel socket) (λ r _, r ≠ NoFuel) s.
Proof. session_total. Qed.

Lemma timeout_session_total `{!FiniteInput W} fuel socket s :
  budget (env s) < fuel → wp (EchoCoroTimeout.session fuel socket) (λ r _, r ≠ NoFuel) s.
Proof. session_total. Qed.

(** The session with a deadline: every read is preceded by its deadline. *)
Definition timed_step socket (d : list byte) : list event :=
  EvDeadline (EchoCoroTimeout.seconds 2) :: copy_step socket socket data_size d.
Definition timed_session socket s0 : post W unit := λ r s, ∃ ds tail,
  trace s = trace s0 ++ concat (timed_step socket <$> ds) ++ tail ∧
  match r with
  | Val _ => False
  | Throw e => ∃ ec, e = system_error ec ∧
      (tail = [] ∧ ec = Operation_canceled
       ∨ ∃ t, tail = EvDeadline (EchoCoroTimeout.seconds 2) :: t ∧ t ≠ [] ∧ echo_end socket ec t)
  | NoFuel => tail = []
  end.

Lemma timed_extend socket ds d n t0 (w w' : W) :
  on_write socket d w = (Success, n, w') →
  (((t0 ++ concat (timed_step socket <$> ds)) ++ [EvDeadline (EchoCoroTimeout.seconds 2)]) ++
     [EvRead socket data_size Success d]) ++ [EvWrite socket d Success n] =
  t0 ++ concat (timed_step socket <$> (ds ++ [d])).
Proof.
  intros H%write_complete. subst n.
  by rewrite fmap_app, concat_app, <-!app_assoc.
Qed.

Ltac timed_exit ds t :=
  exists ds, (EvDeadline (EchoCoroTimeout.seconds 2) :: t); cbn [trace];
  rewrite <-!app_assoc; split; [done|]; eexists; split; [done|];
  right; exists t; split_and!; [done|done|eauto with asio_db].

Lemma timeout_session_correct fuel socket s :
  wp (EchoCoroTimeout.session fuel socket) (timed_session socket s) s.
Proof.
  apply (wp_loop (λ _ s', ∃ ds, trace s' = trace s ++ concat (timed_step socket <$> ds))).
  { intros _ s' [ds Ht]. exists ds, []. by rewrite app_nil_r. }
  2: { exists []. by rewrite app_nil_r. }
  intros _ [w0 t0] [ds Ht]; simpl in Ht; subst t0. wp_run.
  - exists ds, []. rewrite app_nil_r. eauto 6.
  - timed_exit ds [EvRead socket data_size Success d].
  - exists (ds ++ [d]). by eapply timed_extend.
  - timed_exit ds [EvRead socket data_size Success d; EvWrite socket d ec n].
  - timed_exit ds [EvRead socket data_size ec d].
Qed.
End Sessions.

(** ** Blocking sessions: a read error other than end-of-file is not noticed *)

Section Rounds.
Context {W : Type} `{!Streams W, !StreamsOk W, !Acceptors W}.
Implicit Types (s : st W) (socket : handle).

(** A round of echo_sync.cpp and echo_corosio.cpp: the read may have failed. *)
Definition sync_round socket (r : error_code * list byte) : list event :=
  [EvRead socket data_size r.1 r.2; EvWrite socket r.2 Success (zlen r.2)].
Definition sync_rounds socket (rs : list (error_code * list byte)) : list event :=
  concat (sync_round socket <$> rs).

(** A round that ended in a failed write. *)
Definition failed_round socket (ec : error_code) (tail : list event) : Prop :=
  ∃ rec d n, rec ≠ Eof ∧ ec ≠ Success ∧
    tail = [EvRead socket data_size rec d; EvWrite socket d ec n].

Definition sync_session socket s0 : post W unit := λ r s, ∃ rs tail,
  Forall (λ r, r.1 ≠ Eof) rs ∧
  trace s = trace s0 ++ sync_rounds socket rs ++ tail ∧
  match r with
  | Val _ => ∃ d, tail = [EvRead socket data_size Eof d]
  | Throw e => ∃ ec, e = system_error ec ∧ failed_round socket ec tail
  | NoFuel => tail = []
  end.

Lemma sync_extend socket rs ec d n t0 (w w' : W) :
  on_write socket d w = (Success, n, w') →
  ((t0 ++ sync_rounds socket rs) ++ [EvRead socket data_size ec d]) ++ [EvWrite socket d Success n] =
  t0 ++ sync_rounds socket (rs ++ [(ec, d)]).
Proof.
  intros H%write_complete. subst n. unfold sync_rounds.
  by rewrite fmap_app, concat_app, <-!app_assoc.
Qed.

Lemma sync_session_correct fuel socket s :
  wp (EchoSync.session fuel socket) (sync_session socket s) s.
Proof.
  apply (wp_loop (λ _ s', ∃ rs, Forall (λ r, r.1 ≠ Eof) rs ∧
    trace s' = trace s ++ sync_rounds socket rs)).
  { intros _ s' (rs & Hrs & Ht). exists rs, []. by rewrite app_nil_r. }
  2: { exists []. by rewrite app_nil_r. }
  intros _ [w0 t0] (rs & Hrs & Ht); simpl in Ht; subst t0. wp_run.
  case_bool_decide as Heof.
  - subst ec. wp_run. exists rs. eexists. cbn. rewrite <-!app_assoc. by eauto.
  - wp_run.
    + exists (rs ++ [(ec, d)]). rewrite Forall_app, Forall_singleton.
      split; [done|]. by eapply sync_extend.
    + exists rs. eexists. cbn. rewrite <-!app_assoc.
      split_and!; [done|done|]. eexists; split; [done|]. by exists ec, d, n.
Qed.

Definition corosio_session socket s0 : post W unit := λ r s, ∃ rs tail,
  Forall (λ r, r.1 ≠ Eof) rs ∧
  match r with
  | Val _ =>
      trace s = trace s0 ++ sync_rounds socket rs ++ tail ++ [EvClose socket] ∧
      ((∃ d, tail = [EvRead socket data_size Eof d]) ∨ ∃ ec, failed_round socket ec tail)
  | Throw _ => False
  | NoFuel => trace s = trace s0 ++ sync_rounds socket rs ∧ tail = []
  end.

Lemma corosio_session_correct fuel socket s :
  wp (EchoCorosio.handle_connection fuel socket) (corosio_session socket s) s.
Proof.
  unfold EchoCorosio.handle_connection. wp_step.
  apply (wp_loop (λ _ s', ∃ rs, Forall (λ r, r.1 ≠ Eof) rs ∧
    trace s' = trace s ++ sync_rounds socket rs)).
  { intros _ s' (rs & Hrs & Ht). by exists rs, []. }
  2: { exists []. by rewrite app_nil_r. }
  intros _ [w0 t0] (rs & Hrs & Ht); simpl in Ht; subst t0. wp_run.
  case_bool_decide as Heof.
  - subst ec. wp_run. exists rs, [EvRead socket data_size Eof d]. cbn. rewrite <-!app_assoc.
    split_and!; [done|done|]. left. by exists d.
  - wp_run.
    + exists rs, [EvRead socket data_size ec d; EvWrite socket d ec0 n].
      cbn. rewrite <-!app_assoc. split_and!; [done|done|].
      right. exists ec0, ec, d, n. done.
    + exists (rs ++ [(ec, d)]). rewrite Forall_app, Forall_singleton.
      split; [done|]. by eapply sync_extend.
Qed.

(** A socket on which every read fails, with something else than end-of-file. *)
Definition broken socket (w : W) : Prop :=
  ∃ ec, ec ≠ Eof ∧ on_read_some socket data_size w = (ec, [], w)
        ∧ on_write socket [] w = (Success, 0%Z, w).

Lemma sync_session_spins fuel socket s :
  broken socket (env s) → ∃ s', EchoSync.session fuel socket s = (NoFuel, s').
Proof.
  intros Hb. unfold EchoSync.session.
  enough (wp (EchoSync.session fuel socket) (λ r _, r = NoFuel) s) as Hwp.
  { unfold wp, EchoSync.session in Hwp. destruct (loop _ _ _ s) as [r s']. simpl in Hwp.
    exists s'. by subst r. }
  apply (wp_loop (λ _ s', env s' = env s)); [done| |done].
  intros _ [w0 t0] Hw; simpl in Hw; subst w0. wp_run.
  destruct Hb as (ec' & Hne & Hr & Hw). rewrite Hr in Hread. simplify_eq.
  rewrite bool_decide_eq_false_2 by done.
  wp_run; rewrite Hw in Hwrite; by simplify_eq.
Qed.
End Rounds.

(** ** Servers: every accepted connection is served, once and in order *)

Section Servers.
Context {W : Type} `{!Cancellation W, !Streams W, !Acceptors W}.
Implicit Types (s : st W) (a : handle).

(** [assign k]: the executor of the [k]th session. *)
Definition assigned (assign : nat → nat) (peers : list handle) : list (nat * handle) :=
  imap (λ k p, (assign k, p)) peers.

(** A server coroutine ends only with the exception of a failed [accept], and
    has then started a session for each of the connections accepted. *)
Definition server_post (assign : nat → nat) s0 : post W unit := λ r s, ∃ tr,
  trace s = trace s0 ++ tr ∧
  spawned tr = assigned assign (accepted tr) ∧
  match r with
  | Val _ => False
  | Throw e => ∃ ec, e = system_error ec ∧ ec ≠ Success
  | NoFuel => True
  end.

Lemma assigned_snoc assign peers p :
  assigned assign (peers ++ [p]) = assigned assign peers ++ [(assign (length peers), p)].
Proof. unfold assigned. rewrite imap_app. simpl. by rewrite Nat.add_0_r. Qed.

(** What an iteration that accepted [p] adds to the trace. *)
Lemma server_extend assign tr mid p :
  spawned tr = assigned assign (accepted tr) →
  spawned mid = [(assign (length (accepted tr)), p)] → accepted mid = [p] →
  spawned (tr ++ mid) = assigned assign (accepted (tr ++ mid)).
Proof. intros H1 H2 H3. by rewrite spawned_app, accepted_app, H1, H2, H3, assigned_snoc. Qed.

Lemma accept_failed_extend assign tr a ec p :
  ec ≠ Success → spawned tr = assigned assign (accepted tr) →
  spawned (tr ++ [EvAccept a ec p]) = assigned assign (accepted (tr ++ [EvAccept a ec p])).
Proof.
  intros Hec H. rewrite spawned_app, accepted_app, H.
  destruct ec; [done|..]; cbn; by rewrite !app_nil_r.
Qed.

Ltac server_cancelled tr := exists tr; eauto.
Ltac server_failed tr a ec p := exists (tr ++ [EvAccept a ec p]); rewrite app_assoc;
  split_and!; [done|by apply accept_failed_extend|eauto].
Ltac server_next tr mid := exists (tr ++ mid); rewrite <-!app_assoc;
  split_and?; [done|by eapply server_extend|..].

Lemma coro_server_correct fuel a s :
  wp (EchoCoro.server fuel a) (server_post (λ _, 0) s) s.
Proof.
  apply (wp_loop (λ _ s', ∃ tr, trace s' = trace s ++ tr ∧
    spawned tr = assigned (λ _, 0) (accepted tr))).
  { intros _ s' (tr & Ht & Hsp). by exists tr. }
  2: { exists []. by rewrite app_nil_r. }
  intros _ [w0 t0] (tr & Ht & Hsp); simpl in Ht; subst t0. wp_run.
  - server_cancelled tr.
  - server_next tr [EvAccept a Success p; EvSpawn 0 p].
  - server_failed tr a ec p.
Qed.

Lemma timeout_server_correct fuel a s :
  wp (EchoCoroTimeout.server fuel a) (server_post (λ _, 0) s) s.
Proof.
  apply (wp_loop (λ _ s', ∃ tr, trace s' = trace s ++ tr ∧
    spawned tr = assigned (λ _, 0) (accepted tr))).
  { intros _ s' (tr & Ht & Hsp). by exists tr. }
  2: { exists []. by rewrite app_nil_r. }
  intros _ [w0 t0] (tr & Ht & Hsp); simpl in Ht; subst t0. wp_run.
  - server_cancelled tr.
  - server_next tr [EvAccept a Success p; EvDeadline (EchoCoroTimeout.seconds 60); EvSpawn 0 p].
  - server_failed tr a ec p.
Qed.

(** The context pool distributes the sessions round-robin. *)
Lemma pool_server_correct threads fuel a s :
  0 < threads →
  wp (EchoCoroContextPool.server threads fuel a) (server_post (λ k, k mod threads) s) s.
Proof.
  intros Hthreads.
  apply (wp_loop (λ i s', ∃ tr, trace s' = trace s ++ tr ∧
    spawned tr = assigned (λ k, k mod threads) (accepted tr) ∧ i = length (accepted tr))).
  { intros i s' (tr & Ht & Hsp & Hi). by exists tr. }
  2: { exists []. by rewrite app_nil_r. }
  intros i [w0 t0] (tr & Ht & Hsp & Hi); simpl in Ht; subst t0 i.
  unfold EchoCoroContextPool.pick. rewrite decide_False by lia. wp_run.
  - server_cancelled tr.
  - server_next tr [EvAccept a Success p; EvRebind (length (accepted tr) mod threads) p;
                    EvSpawn (length (accepted tr) mod threads) p].
    rewrite accepted_app, length_app. simpl. lia.
  - server_failed tr a ec p.
Qed.

Definition is_accept (e : event) : bool := match e with EvAccept _ _ _ => true | _ => false end.

(** The callback server goes on whatever [accept] reports. *)
Lemma do_accept_correct fuel a : ∀ s, ∃ tr s',
  EchoAsync.do_accept fuel a s = (NoFuel, s') ∧ trace s' = trace s ++ tr ∧
  (spawned tr).*2 = accepted tr ∧
  length (filter is_accept tr) = fuel.
Proof.
  induction fuel as [|fuel IH]; intros s; simpl.
  { exists [], s. by rewrite app_nil_r. }
  unfold mbind, awaitable_bind, op_accept.
  destruct (on_accept a (env s)) as [[ec p] w]. destruct (failed ec) eqn:Hf; cbn.
  - destruct (IH (St w (trace s ++ [EvAccept a ec p]))) as (tr & s' & Hrun & Ht & Hsp & Hn).
    exists (EvAccept a ec p :: tr), s'. rewrite Hrun, Ht. cbn [trace]. rewrite <-app_assoc.
    split_and!; [done..| |].
    + apply failed_true in Hf. change (EvAccept a ec p :: tr) with ([EvAccept a ec p] ++ tr).
      rewrite spawned_app, accepted_app, fmap_app, Hsp. by destruct ec.
    + by rewrite filter_cons_True, <-Hn by done.
  - apply failed_false in Hf as ->.
    destruct (IH (St (on_spawn p w) ((trace s ++ [EvAccept a Success p]) ++ [EvSpawn 0 p])))
      as (tr & s' & Hrun & Ht & Hsp & Hn).
    exists (EvAccept a Success p :: EvSpawn 0 p :: tr), s'.
    unfold co_spawn_detached, co_spawn_on, modify, emit, mbind, awaitable_bind. cbn.
    rewrite Hrun, Ht. cbn [trace]. rewrite <-!app_assoc. cbn. split_and!; [done..| |].
    + change (p :: (spawned tr).*2 = p :: accepted tr). by rewrite Hsp.
    + by rewrite decide_True, decide_False, <-Hn by naive_solver.
Qed.
End Servers.

(** ** Callbacks and coroutines *)

(** The cancellation state of a coroutine that nobody cancels. *)
Definition never_cancelled {W : Type} : Cancellation W := {|
  cancelled _ := 0%Z; await_throws _ := false;
  on_reset _ w := w; on_throw_if_cancelled _ w := w
|}.

(** The callback server as a coroutine that is never cancelled; the coroutine of corosio adds a close. *)
Lemma callbacks_as_tuple {W} `{!Streams W} fuel socket : ∀ s : st W,
  EchoAsync.do_read fuel socket s
  = EchoCoroTuple.session (Cancellation0 := never_cancelled) fuel socket s.
Proof.
  unfold EchoCoroTuple.session. induction fuel as [|fuel IH]; intros s; [done|].
  simpl. unfold EchoAsync.do_write, mbind, awaitable_bind,
    async_read_some, async_write, co_await, op_read_some, op_write. cbn.
  destruct (on_read_some socket data_size (env s)) as [[ec d] w].
  destruct (failed ec) eqn:Hr; [done|]. cbn.
  destruct (on_write socket d w) as [[wec n] w']. cbn.
  destruct (failed wec) eqn:Hw; [done|]. apply IH.
Qed.

Lemma corosio_as_callbacks {W} `{!Streams W} fuel socket (s : st W) :
  CorosioEchoServer.do_session fuel socket s = (EchoAsync.start fuel socket;; close socket) s.
Proof.
  unfold EchoAsync.start, CorosioEchoServer.do_session.
  assert (∀ m m' : awaitable W unit, m s = m' s →
    (m;; close socket) s = (m';; close socket) s) as Hcongr.
  { intros m m' E. unfold mbind, awaitable_bind. by rewrite E. }
  apply Hcongr. by rewrite callbacks_as_tuple.
Qed.

(** ** Properties *)

(** C18. Every coroutine session of the echo servers is an echo: its trace is a
    sequence of complete read/write pairs on the socket followed by one incomplete
    round, so at every point the bytes sent are a prefix of the bytes received.  A
    session without error handling ends only with the exception of the operation that failed; the
    [as_tuple] session returns instead; the session of the timeout server also
    arms a deadline before each read. *)
Theorem sessions_echo {W} `{!Cancellation W, !Streams W, !StreamsOk W} fuel socket s :
  wp (EchoCoro.session fuel socket) (throwing_session socket s) s
  ∧ wp (EchoCoroThreaded.session fuel socket) (throwing_session socket s) s
  ∧ wp (EchoCoroContextPool.session fuel socket) (throwing_session socket s) s
  ∧ wp (CancellationEcho.signal_echo fuel socket) (throwing_session socket s) s
  ∧ wp (CancellationEcho.cancellation_session fuel socket) (throwing_session socket s) s
  ∧ wp (CancellationEcho.class_echo fuel socket) (throwing_session socket s) s
  ∧ wp (EchoCoroTuple.session fuel socket) (quiet_session socket s) s
  ∧ wp (EchoCoroTimeout.session fuel socket) (timed_session socket s) s.
Proof.
  split_and!; [apply coro_session_correct..| |].
  - apply tuple_session_correct.
  - apply timeout_session_correct.
Qed.


(** C20. The completion handlers of echo_async.cpp ([start], [do_read], [do_write])
    perform exactly the operations of the [as_tuple] coroutine of echo_coro_tuple.cpp, in the
    same order and with the same end, for a coroutine that is not cancelled; the session of
    corosio_echo_server.cpp is the same, followed by closing the socket. *)
Theorem callbacks_are_tuple_coroutine {W} `{!Streams W} fuel socket (s : st W) :
  EchoAsync.start fuel socket s
    = EchoCoroTuple.session (Cancellation0 := never_cancelled) fuel socket s
  ∧ EchoAsyncThreaded.start fuel socket s = EchoAsync.start fuel socket s
  ∧ CorosioEchoServer.do_session fuel socket s
    = (EchoAsync.start fuel socket;; close socket) s.
Proof.
  split_and!; [apply callbacks_as_tuple|done|apply corosio_as_callbacks].
Qed.

(** C22. The blocking session of echo_sync.cpp, and the one of echo_corosio.cpp,
    return only on end-of-file or on a failed write (which echo_sync.cpp throws); a read that fails otherwise
    is taken for data, and what it left in the buffer is written back.  On a socket whose
    reads keep failing the session never ends, whatever the fuel. *)
Theorem sync_sessions_ignore_read_errors {W} `{!Streams W, !StreamsOk W} fuel socket (s : st W) :
  wp (EchoSync.session fuel socket) (sync_session socket s) s
  ∧ wp (EchoSyncThreaded.session fuel socket) (sync_session socket s) s
  ∧ wp (EchoCorosio.handle_connection fuel socket) (corosio_session socket s) s
  ∧ wp (EchoCorosioThreaded.handle_connection fuel socket) (corosio_session socket s) s
  ∧ (broken socket (env s) → ∃ s', EchoSync.session fuel socket s = (NoFuel, s')).
Proof.
  split_and!; [apply sync_session_correct..|apply corosio_session_correct|
    apply corosio_session_correct|apply sync_session_spins].
Qed.

(** The blocking server does not survive its sessions: what a session throws, for example because its peer is gone
    when it writes, ends the server. *)
Theorem sync_server_ends_with_session {W} `{!Streams W, !Acceptors W} fuel a socket s s1 e s2 :
  op_accept a s = (Val (Success, socket), s1) → EchoSync.session (S fuel) socket s1 = (Throw e, s2) →
  EchoSync.server (S fuel) a s = (Throw e, s2).
Proof.
  intros Ha Hs. unfold EchoSync.server. revert Hs. generalize (S fuel) at 1 3 as n. intros n Hs.
  cbn [loop]. unfold deferred, mbind, awaitable_bind. rewrite Ha. cbn -[EchoSync.session].
  change (failed Success) with false. cbn -[EchoSync.session]. by rewrite Hs.
Qed.


(** The callback server never stops accepting: however many completions there
    are, with or without an error, it issues the next accept, and it has started a session for
    exactly the connections that were accepted. *)
Theorem do_accept_never_stops {W} `{!Acceptors W} fuel a (s : st W) :
  ∃ tr s', EchoAsync.do_accept fuel a s = (NoFuel, s') ∧ trace s' = trace s ++ tr ∧
    (spawned tr).*2 = accepted tr ∧ length (filter is_accept tr) = fuel.
Proof. apply do_accept_correct. Qed.

(** ** Witnesses *)

Definition hello_reads : list (error_code * list byte) :=
  [(Success, bytes_of "hi"); (Success, bytes_of "ho")].

(** A socket on which every read fails with the same error, for ever. *)
Definition reset_streams : Streams unit := {|
  on_read_some _ _ _ := (Other_error 104, [], tt);
  on_read_all _ _ := (Other_error 104, [], tt);
  on_write_some _ d _ := (Success, zlen d, tt);
  on_write _ d _ := (Success, zlen d, tt);
  on_close _ _ := tt;
  on_shutdown _ _ _ := (Success, tt)
|}.
Lemma reset_streams_ok : @StreamsOk unit reset_streams.
Proof.
  split; simpl; intros; simplify_eq; try done; unfold zlen; simpl; lia.
Qed.

Lemma sessions_echo_witness :
  wp (EchoCoro.session 3 7) (throwing_session 7 (start (reading hello_reads)))
    (start (reading hello_reads)).
Proof. exact (proj1 (sessions_echo (W := script) 3 7 (start (reading hello_reads)))). Defined.

Lemma sync_sessions_ignore_read_errors_witness :
  ∃ s', @EchoSync.session unit reset_streams 100 7 (St tt []) = (NoFuel, s').
Proof.
  refine (proj2 (proj2 (proj2 (proj2 (@sync_sessions_ignore_read_errors unit reset_streams reset_streams_ok
    100 7 (St tt []))))) _).
  exists (Other_error 104). split; [discriminate|]. split; reflexivity.
Defined.



Example pool_round_robin :
  spawned (trace (EchoCoroContextPool.server 2 9 0
    (start (Script [] [] [(Success, 10); (Success, 11); (Success, 12)] [] 0 false))).2)
  = [(0, 10); (1, 11); (0, 12)].
Proof. vm_compute. reflexivity. Qed.
Example echo_session_run :
  sent 7 (trace (EchoCoroTuple.session 5 7
    (start (reading hello_reads))).2) = bytes_of "hiho".
Proof. vm_compute. reflexivity. Qed.
