(* ===== verification/Corosio.v ===== *)
(** * corosio/corosio_echo_server.cpp: a server with a pool of workers

    The echo loop of a worker is in Echo.v (Module CorosioEchoServer); here are the workers, the server, and
    [main] with the checks of its arguments.  [corosio::tcp_server], which hands accepted connections to idle
    workers, is the library's. *)
From Stdlib Require Import Ascii.
From S2P Require Import Prelude Decimal Asio Wp Script Echo.

(** ** [std::atoi] *)

Definition int_min : Z := - 2 ^ 31.
Definition int_max : Z := 2 ^ 31 - 1.
Definition is_int (z : Z) : Prop := (int_min <= z <= int_max)%Z.
#[export] Instance is_int_dec z : Decision (is_int z).
Proof. unfold is_int. apply _. Defined.

(** Without digits the value is 0; a value that does not fit an [int] is undefined behaviour, [None]. *)
Definition atoi (s : string) : option Z :=
  let (sign, s) := sign_of (skip_spaces s) in
  let (value, _) := read_digits 0 s in
  if decide (is_int (sign * value)) then Some (sign * value)%Z else None.

Lemma atoi_digits (negative : bool) ds rest :
  ds ≠ [] → Forall (λ d, d < 10) ds → starts_with_digit rest = false →
  let v := ((if negative then -1 else 1) * value_of 0 ds)%Z in
  atoi (signed negative (of_digits ds rest)) = if decide (is_int v) then Some v else None.
Proof. intros Hne Hds Hrest v. unfold atoi. by rewrite scan_signed, read_digits_of. Qed.

(** ** The server *)

(** [corosio::tcp_server]: binding to a port; accepting with a set of workers, each with a socket of its own, until the
    event loop ends. *)
Class TcpServers (W : Type) := {
  on_bind : Z → W → error_code * W;
  on_serve : Z → list handle → W → W
}.

(** An [echo_worker]: its socket, and the capacity of the string it reserves. *)
Record echo_worker := EchoWorker { sock_ : handle; reserved : Z }.

(** Its constructor makes a socket. *)
Definition make_echo_worker (new_socket : nat → handle) (i : nat) : echo_worker :=
  EchoWorker (new_socket i) 4096.

(** [run(launch)] *)
Definition run {W} `{!Streams W} (fuel : nat) (launch : awaitable W unit → awaitable W unit)
    (worker : echo_worker) : awaitable W unit :=
  launch (CorosioEchoServer.do_session fuel (sock_ worker)).

(** [make_echo_workers(ctx, n)]: [reserve(n)] throws for a negative [int], which becomes a huge size. *)
Definition make_echo_workers (new_socket : nat → handle) (n : Z) : option (list echo_worker) :=
  if (n <? 0)%Z then None else Some (make_echo_worker new_socket <$> seq 0 (Z.to_nat n)).

(** The checks of [main]. *)
Inductive arguments :=
| Failure                                  (* a message, and EXIT_FAILURE *)
| Undefined                                (* [atoi] overflows *)
| Arguments_ok (port : Z) (max_workers : Z).

Definition parse_args (argv : list string) : arguments :=
  match argv with
  | [_; port; workers] =>
      match atoi port with
      | None => Undefined
      | Some port_int =>
          if bool_decide (port_int <= 0 ∨ 65535 < port_int)%Z then Failure
          else
            let port := (port_int mod 2 ^ 16)%Z in    (* static_cast<std::uint16_t> *)
            match atoi workers with
            | None => Undefined
            | Some max_workers =>
                if bool_decide (max_workers <= 0)%Z then Failure else Arguments_ok port max_workers
            end
      end
  | _ => Failure
  end.

Section Main.
Context {W : Type} `{!TcpServers W}.

Definition bind (port : Z) : awaitable W error_code := λ s,
  let (ec, w) := on_bind port (env s) in (Val ec, St w (trace s ++ [EvBind port ec])).
Definition serve (port : Z) (workers : list echo_worker) : awaitable W unit :=
  modify (on_serve port (sock_ <$> workers));; emit (EvServe port (sock_ <$> workers)).

(** The exit code of [main]; [None] is undefined behaviour.  A negative number of workers
    would be an exception. *)
Definition main (new_socket : nat → handle) (argv : list string) : awaitable W (option Z) :=
  match parse_args argv with
  | Failure => mret (Some 1%Z)
  | Undefined => mret None
  | Arguments_ok port max_workers =>
      match make_echo_workers new_socket max_workers with
      | None => throw (std_exception "vector::reserve")
      | Some workers =>
          ec ← bind port;
          if failed ec then mret (Some 1%Z)
          else
            serve port workers;;
            mret (Some 0%Z)
      end
  end.
End Main.

(** ** Properties *)

(** The arguments that are accepted. *)
Lemma parse_args_ok argv port workers :
  parse_args argv = Arguments_ok port workers ↔
  (1 <= port <= 65535)%Z ∧ (1 <= workers <= int_max)%Z
  ∧ ∃ prog a b, argv = [prog; a; b] ∧ atoi a = Some port ∧ atoi b = Some workers.
Proof.
  assert (∀ s z, atoi s = Some z → is_int z) as Hint.
  { intros s z. unfold atoi. destruct (sign_of _) as [sign t], (read_digits 0 t) as [v r].
    by case_decide; intros [= <-]. }
  unfold parse_args. split.
  - destruct argv as [|prog [|a [|b [|? ?]]]]; try done.
    destruct (atoi a) as [p|] eqn:Ha; [|done]. case_bool_decide; [done|].
    destruct (atoi b) as [n|] eqn:Hb; [|done]. case_bool_decide; [done|].
    rewrite Z.mod_small by lia. intros [= <- <-].
    destruct (Hint _ _ Hb). split_and!; [lia..|]. by exists prog, a, b.
  - intros (Hp & Hw & prog & a & b & -> & -> & ->).
    rewrite bool_decide_eq_false_2 by lia. rewrite bool_decide_eq_false_2 by lia.
    by rewrite Z.mod_small by lia.
Qed.

(** [main] of corosio_echo_server.cpp serves exactly when it should: it binds a port only if it was given two
    arguments that read as a port in 1..65535, which the cast to [uint16_t] does not change, and a positive
    number of workers; it returns 0 if binding succeeded, after having served that port with that many workers, each with
    a socket of its own; otherwise it returns 1, or overflows an [int] in [atoi], without serving.  It never throws. *)
Theorem corosio_server_main {W} `{!TcpServers W} (new_socket : nat → handle) argv (s : st W) r s' :
  main new_socket argv s = (r, s') →
  (trace s' = trace s ∧ (r = Val (Some 1%Z) ∨ r = Val None) ∧
     ∀ port workers, parse_args argv ≠ Arguments_ok port workers)
  ∨ ∃ port workers prog a b, (1 <= port <= 65535)%Z ∧ (1 <= workers <= int_max)%Z
     ∧ argv = [prog; a; b] ∧ atoi a = Some port ∧ atoi b = Some workers
     ∧ ((∃ ec, ec ≠ Success ∧ r = Val (Some 1%Z) ∧ trace s' = trace s ++ [EvBind port ec])
        ∨ ∃ sockets, r = Val (Some 0%Z) ∧ zlen sockets = workers
            ∧ (∀ i h, sockets !! i = Some h → h = new_socket i)
            ∧ trace s' = trace s ++ [EvBind port Success; EvServe port sockets]).
Proof.
  unfold main. destruct (parse_args argv) as [| |port workers] eqn:Hargs.
  - intros [= <- <-]. left. split_and!; [done|by left|by intros].
  - intros [= <- <-]. left. split_and!; [done|by right|by intros].
  - apply parse_args_ok in Hargs as (Hp & Hw & prog & a & b & Hargv & Ha & Hb).
    unfold make_echo_workers. destruct (Z.ltb_spec workers 0) as [|_]; [lia|].
    intros Hrun. right. exists port, workers, prog, a, b. split_and!; try done; try lia.
    unfold bind, mbind, awaitable_bind in Hrun. destruct (on_bind port (env s)) as [ec w].
    destruct (failed ec) eqn:Hec; simpl in Hrun; injection Hrun as <- <-.
    + left. exists ec. split; [by apply failed_true|done].
    + right. apply failed_false in Hec as ->. eexists. split; [done|]. simpl. rewrite <-app_assoc.
      split_and!; [|  |done].
      * unfold zlen. rewrite !length_fmap, length_seq. lia.
      * intros i h. rewrite !list_lookup_fmap. destruct (seq 0 _ !! i) eqn:Hi; simpl; [|done].
        apply lookup_seq in Hi as [-> _]. by intros [= <-].
Qed.

(** ** Witnesses *)

Example atoi_port : atoi " 8080x" = Some 8080%Z.
Proof. vm_compute. reflexivity. Qed.
Example atoi_overflow : atoi "2147483648" = None ∧ atoi "-2147483648" = Some int_min ∧ atoi "" = Some 0%Z.
Proof. vm_compute. auto. Qed.

#[local] Instance free_ports : TcpServers unit :=
  {| on_bind port w := (if (port <? 1024)%Z then Other_error 13 else Success, w); on_serve _ _ w := w |}.
Example privileged_port :
  (main (λ i, i) ["echo_server"; "80"; "10"]%string (St tt [])).1 = Val (Some 1%Z).
Proof. vm_compute. reflexivity. Qed.

Lemma corosio_server_main_witness :
  ∃ sockets, trace (main (λ i, i) ["echo_server"; "8080"; "2"]%string (St tt [])).2
    = [EvBind 8080 Success; EvServe 8080 sockets].
Proof.
  destruct (corosio_server_main (λ i, i) ["echo_server"; "8080"; "2"]%string (St tt [])
    (Val (Some 0%Z)) (St tt [EvBind 8080 Success; EvServe 8080 [0; 1]])) as [H|H].
  - vm_compute. reflexivity.
  - destruct H as (H & _). vm_compute in H. discriminate.
  - exists [0; 1]. vm_compute. reflexivity.
Defined.
