(* ===== verification/EchoAdvanced.v ===== *)
(** * cancellation/echo_coro_signal_advanced.cpp: a server that shuts down gracefully

    Module Session: the coroutines of one connection ([echo], [shutdown],
    [session]), as programs over the interface of Asio.v.
    Module Server: the accept loop, the map of sessions, the completion handlers
    and the waiting loop, as a step relation whose labels are the events of the
    event loop: an accept completes, a session completes, a signal arrives, the
    receive on the channel is resumed. *)
From S2P Require Import Prelude Asio Wp Copy Script Core.

Module Session.
Section Program.
Context {W : Type} `{!CancellationTypes, !Cancellation W, !Streams W, !Spawning W, !Timers W}.

Definition data_size : Z := 64 * 1024.

Definition echo (fuel : nat) (socket : handle) : awaitable W unit :=
  reset_cancellation_state enable_total_cancellation;;
  loop fuel (λ _,
    data ← deferred (async_read_some socket data_size);
    _ ← deferred (async_write socket data);
    mret (inl tt)) tt.

Definition goodbye : list byte := bytes_of ("goodbye" +:+ String (Ascii.ascii_of_nat 10) EmptyString).
Definition milliseconds (n : Z) : duration := n * 10 ^ 6.

(** [dist] is the number drawn from [uniform_int_distribution(100, 1500)]. *)
Definition shutdown (dist : Z) (socket : handle) : awaitable W unit :=
  _ ← deferred (async_write socket goodbye);
  co_await (sleep (milliseconds dist));;
  ec ← Asio.shutdown socket shutdown_both;
  if failed ec then throw (system_error ec) else mret tt.

(** [session], up to the point where the echo coroutine has ended. *)
Definition echo_phase (fuel : nat) (socket : handle) :
    awaitable W (exception_ptr * option unit) :=
  throw_if_cancelled false;;
  reset_cancellation_state enable_total_cancellation;;
  co_await (as_tuple (op_co_spawn None (echo fuel socket))).

(** [throw system_error{code(ep)}]; [code] itself may let an exception through. *)
Definition throw_code {A} (ep : exception_ptr) : awaitable W A :=
  match code ep with
  | inl e => throw e
  | inr ec => throw (system_error ec)
  end.

(** [ep && code(ep) != error::eof] *)
Definition ended_badly (ep : exception_ptr) : exn + bool :=
  match ep with
  | None => inr false
  | Some _ => match code ep with
              | inl e => inl e
              | inr ec => inr (bool_decide (ec ≠ Eof))
              end
  end.

Definition session (dist : Z) (fuel : nat) (socket : handle) : awaitable W unit :=
  '(ep, _) ← echo_phase fuel socket;
  match ended_badly ep with
  | inl e => throw e
  | inr bad =>
      c ← cs_cancelled;
      if bad && bool_decide (c = none) then throw_code ep
      else if bool_decide (Z.land c terminal ≠ none) then throw (system_error Operation_canceled)
      else
        reset_cancellation_state enable_terminal_cancellation;;
        co_await (shutdown dist socket)
  end.
End Program.

(** ** What a session does *)

Section Proofs.
Context {W : Type} `{!CancellationTypes, !Cancellation W, !Streams W, !StreamsOk W,
  !Spawning W, !Timers W}.
Implicit Types (s : st W) (socket : handle).

Lemma echo_correct fuel socket s :
  wp (echo fuel socket) (λ r s', ∃ ds tail,
    trace s' = trace s ++ EvReset enable_total_cancellation
                 :: copied socket socket data_size ds ++ tail ∧
    match r with
    | Val _ => False
    | Throw e => ∃ ec, e = system_error ec ∧ copy_end socket socket data_size ec tail
    | NoFuel => tail = []
    end) s.
Proof.
  unfold echo. wp_run.
  apply (wp_loop (λ _ s', ∃ ds, trace s' = trace s ++ EvReset enable_total_cancellation
    :: copied socket socket data_size ds)).
  { intros _ s' [ds Ht]. exists ds, []. by rewrite app_nil_r. }
  2: { exists []. done. }
  intros _ [w0 t0] [ds Ht]; simpl in Ht; subst t0. wp_run.
  - copy_exit ds (@nil event).
  - copy_exit ds [EvRead socket data_size Success d].
  - exists (ds ++ [d]). pose proof (write_complete _ _ _ _ _ Hwrite) as ->.
    rewrite copied_snoc, <-!app_assoc. simpl. rewrite <-?app_assoc. done.
  - copy_exit ds [EvRead socket data_size Success d; EvWrite socket d ec n].
  - copy_exit ds [EvRead socket data_size ec d].
Qed.

(** The trace of the echo phase. *)
Definition echo_trace socket (ds : list (list byte)) (tail : list event) : list event :=
  [EvThrowIfCancelled false; EvReset enable_total_cancellation; EvChild None;
   EvReset enable_total_cancellation] ++ copied socket socket data_size ds ++ tail ++ [EvJoin].

Definition echo_phase_post socket s0 : post W (exception_ptr * option unit) := λ r s,
  match r with
  | Val (ep, a) => ∃ ds tail ec, ep = Some (system_error ec) ∧ a = None ∧
      trace s = trace s0 ++ echo_trace socket ds tail ∧ copy_end socket socket data_size ec tail
  | Throw e => e = system_error Operation_canceled ∧
      trace s = trace s0 ++ [EvThrowIfCancelled false; EvReset enable_total_cancellation]
  | NoFuel => True
  end.

Lemma echo_phase_correct fuel socket s :
  wp (echo_phase fuel socket) (echo_phase_post socket s) s.
Proof.
  unfold echo_phase. wp_run.
  { by rewrite <-app_assoc. }
  eapply wp_mono; [|apply echo_correct].
  intros r s' (ds & tail & Ht & Hr). destruct r as [a|e|]; cbn; [done| |done].
  destruct Hr as (ec & -> & Hend). exists ds, tail, ec. split_and!; try done.
  rewrite Ht. cbn [trace]. unfold echo_trace. rewrite <-!app_assoc. cbn [app]. by rewrite <-!app_assoc.
Qed.

(** The farewell: the events of [shutdown], as far as they succeed. *)
Definition farewell (dist : Z) socket : list event :=
  [EvReset enable_terminal_cancellation;
   EvWrite socket goodbye Success (zlen goodbye);
   EvReset enable_total_cancellation;
   EvWait (milliseconds dist) Success;
   EvShutdown socket shutdown_both Success].

(** How it may fail: after some of its steps, with the error of the next. *)
Inductive farewell_end (dist : Z) socket : error_code → list event → Prop :=
| farewell_cancelled k :
    1 <= k <= 3 → farewell_end dist socket Operation_canceled (take k (farewell dist socket))
| farewell_write ec n :
    ec ≠ Success → (0 <= n <= zlen goodbye)%Z →
    farewell_end dist socket ec
      (take 1 (farewell dist socket) ++ [EvWrite socket goodbye ec n])
| farewell_wait ec :
    ec ≠ Success →
    farewell_end dist socket ec
      (take 3 (farewell dist socket) ++ [EvWait (milliseconds dist) ec])
| farewell_shutdown ec :
    ec ≠ Success →
    farewell_end dist socket ec
      (take 4 (farewell dist socket) ++ [EvShutdown socket shutdown_both ec]).

Definition farewell_post (dist : Z) socket s0 : post W unit := λ r s, ∃ rest,
  trace s = trace s0 ++ rest ∧
  match r with
  | Val _ => rest = farewell dist socket
  | Throw e => ∃ ec, e = system_error ec ∧ farewell_end dist socket ec rest
  | NoFuel => False
  end.

Ltac farewell_exit rule :=
  eexists; split; [done|]; eexists; split; [done|];
  first [ apply rule; (done || lia) | apply rule; [done|..] ].

Lemma farewell_correct dist socket s :
  wp (reset_cancellation_state enable_terminal_cancellation;; co_await (shutdown dist socket))
    (farewell_post dist socket s) s.
Proof.
  unfold shutdown, sleep. wp_run;
    try (pose proof (write_complete _ _ _ _ _ Hwrite); subst n);
    unfold farewell_post; cbn [trace]; rewrite <-?app_assoc; cbn [app].
  - farewell_exit (farewell_cancelled dist socket 1).
  - farewell_exit (farewell_cancelled dist socket 1).
  - farewell_exit (farewell_cancelled dist socket 2).
  - farewell_exit (farewell_cancelled dist socket 3).
  - farewell_exit (farewell_shutdown dist socket ec).
  - by eexists.
  - farewell_exit (farewell_wait dist socket ec).
  - farewell_exit (farewell_write dist socket ec n); by eapply write_bound.
Qed.

(** What happens after the echo phase, in terms of the cancellation state and of the
    error that ended it: [Some] is the error thrown, [None] says goodbye. *)
Definition after_echo (c : cancellation_type) (ec : error_code) : option error_code :=
  if bool_decide (ec ≠ Eof ∧ c = none) then Some ec
  else if bool_decide (Z.land c terminal ≠ none) then Some Operation_canceled
  else None.

Definition session_post (dist : Z) (fuel : nat) socket s0 : post W unit := λ r s,
  match echo_phase fuel socket s0 with
  | (Throw e, s1) => r = Throw e ∧ s = s1
  | (Val (ep, _), s1) => ∃ ec, ep = Some (system_error ec) ∧
      match after_echo (cancelled (env s1)) ec with
      | Some ec' => r = Throw (system_error ec') ∧ s = s1
      | None => farewell_post dist socket s1 r s
      end
  | (NoFuel, s1) => r = NoFuel ∧ s = s1
  end.

Lemma session_correct dist fuel socket s :
  wp (session dist fuel socket) (session_post dist fuel socket s) s.
Proof.
  unfold session, session_post. apply wp_bind.
  pose proof (echo_phase_correct fuel socket s) as Hecho. unfold wp in Hecho |- *.
  destruct (echo_phase fuel socket s) as [[[ep a]|e|] s1]; cbn [fst snd post_bind]; [|done..].
  destruct Hecho as (ds & tail & ec & -> & -> & Ht & Hend). cbn [ended_badly code code_exn].
  wp_run. exists ec. split; [done|]. unfold after_echo.
  rewrite bool_decide_and.
  destruct (bool_decide (ec ≠ Eof) && bool_decide (cancelled (env s1) = none)); [by wp_run|].
  case_bool_decide; [by wp_run|]. apply farewell_correct.
Qed.

(** Every run of a session: the echo phase echoes, and a normal end is a complete farewell. *)
Lemma farewell_sent dist socket ec rest :
  farewell_end dist socket ec rest → sent socket rest `prefix_of` goodbye.
Proof.
  destruct 1 as [k Hk|ec n|ec|ec].
  - destruct k as [|[|[|[|k]]]]; try lia; unfold sent; cbn -[ztake zlen goodbye];
      rewrite ?decide_True, ?app_nil_r by done; auto using prefix_nil, ztake_prefix.
  - unfold sent; cbn -[ztake zlen goodbye]. rewrite decide_True, app_nil_r by done.
    apply ztake_prefix.
  - unfold sent; cbn -[ztake zlen goodbye]. rewrite decide_True, app_nil_r by done.
    apply ztake_prefix.
  - unfold sent; cbn -[ztake zlen goodbye]. rewrite decide_True, app_nil_r by done.
    apply ztake_prefix.
Qed.
End Proofs.

(** ** Properties *)

(** A session says goodbye exactly when it should: if the echo coroutine
    ended with an error that is neither end-of-file nor due to cancellation, that error is thrown;
    after terminal cancellation, [operation_aborted] is thrown; otherwise "goodbye" is
    sent, and a normal return means it was sent completely, the delay elapsed and the
    socket was shut down. *)
Theorem session_says_goodbye {W} `{!CancellationTypes, !Cancellation W, !Streams W,
    !StreamsOk W, !Spawning W, !Timers W} dist fuel socket (s : st W) r s' :
  session dist fuel socket s = (r, s') → session_post dist fuel socket s r s'.
Proof. apply wp_intro, session_correct. Qed.

(** During the farewell the coroutine does not react to terminal cancellation only, as the comment
    in [session] says: [sleep] resets the same cancellation state to all types, so
    that the last filter installed before the delay is the total one. *)
Theorem farewell_delay_is_cancellable {W} `{!CancellationTypes, !Cancellation W, !Streams W,
    !StreamsOk W, !Spawning W, !Timers W} dist fuel socket (s : st W) s' :
  session dist fuel socket s = (Val tt, s') →
  ∃ tr, trace s' = tr ++ [EvReset enable_total_cancellation;
                          EvWait (milliseconds dist) Success;
                          EvShutdown socket shutdown_both Success].
Proof.
  intros Hrun. pose proof (wp_intro _ _ _ _ _ (session_correct dist fuel socket s) Hrun) as Hpost.
  unfold session_post in Hpost. destruct (echo_phase fuel socket s) as [[[ep a]|e|] s1].
  - destruct Hpost as (ec & -> & Hpost). destruct (after_echo _ _); [by destruct Hpost|].
    destruct Hpost as (rest & -> & ->).
    exists (trace s1 ++ take 2 (farewell dist socket)). by rewrite <-app_assoc.
  - by destruct Hpost.
  - by destruct Hpost.
Qed.

(** ** Witnesses *)

Definition said (h : handle) (r : result unit * st script) : result unit * list byte :=
  (r.1, sent h (trace r.2)).

Example session_eof :
  said 7 (session 100 5 7 (start (reading [(Success, bytes_of "hi")])))
  = (Val tt, bytes_of "hi" ++ goodbye).
Proof. vm_compute. reflexivity. Qed.

Example session_reset :
  said 7 (session 100 5 7 (start (reading [(Other_error 104, [])])))
  = (Throw (system_error (Other_error 104)), []).
Proof. vm_compute. reflexivity. Qed.

Lemma session_says_goodbye_witness :
  let s := start (reading [(Success, bytes_of "hi")]) in
  ∃ s', session_post 100 5 7 s (Val tt) s'.
Proof.
  eexists. eapply (session_says_goodbye (W := script) 100 5 7). vm_compute. reflexivity.
Defined.

Lemma farewell_delay_is_cancellable_witness :
  ∃ (s' : st script) tr, trace s' = tr ++ [EvReset enable_total_cancellation;
                          EvWait (milliseconds 100) Success;
                          EvShutdown 7 shutdown_both Success].
Proof.
  eexists. eapply (farewell_delay_is_cancellable (W := script) 100 5 7
    (start (reading [(Success, bytes_of "hi")]))).
  vm_compute. reflexivity.
Defined.
End Session.

(** ** The server *)

(** [experimental::channel<void(error_code)>], as the server uses it: a receive
    is initiated, and completes by a send or by cancellation.  Whether the channel buffers
    messages is left open. *)
Class Channel (C : Type) := {
  new_channel : C;
  receive_pending : C → bool;
  async_receive : C → C;
  cancel_receive : C → C;
  try_send : C → bool * C
}.
(** The documented contract: a send completes a pending receive, and so does cancellation. *)
Class ChannelOk (C : Type) `{Channel C} : Prop := {
  new_channel_idle : receive_pending new_channel = false;
  try_send_completes c : receive_pending (try_send c).2 = false;
  cancel_completes c : receive_pending (cancel_receive c) = false
}.

(** How a cancellation state takes up a signal: [deliver filter cancelled ct]. *)
Class CancellationState := {
  deliver : cancellation_filter → cancellation_type → cancellation_type → cancellation_type
}.
(** The total filter lets every type through. *)
Class CancellationStateOk `{CancellationTypes, CancellationState} : Prop := {
  deliver_first ct : ct ∈ [terminal; partial; total] →
    deliver enable_total_cancellation none ct = ct
}.
(** The state is an [unsigned int], as the types are. *)
Definition filter_typed (f : cancellation_filter) : Prop :=
  match f with custom_filter g => ∀ ct, is_uint32 ct → is_uint32 (g ct) | _ => True end.
Class CancellationStateTyped `{CancellationState} : Prop := {
  deliver_uint32 f c ct : filter_typed f → is_uint32 c → is_uint32 ct → is_uint32 (deliver f c ct)
}.

Module Server.
Inductive program_counter :=
| Accepting      (* in async_accept *)
| Receiving      (* in channel.async_receive *)
| Finished.
#[export] Instance program_counter_eq_dec : EqDecision program_counter.
Proof. solve_decision. Defined.

Inductive signum := SIGINT | SIGTERM | SIGTSTP.

Section Model.
Context `{!CancellationTypes, !CancellationState} {C : Type} `{!Channel C}.

(** The frame of the server coroutine, its cancellation state, and (in [live])
    the session coroutines whose completion handlers have not run yet.  The value
    of a session in the map is what was emitted through its signal.
    [created] counts the sessions; it is not a variable of the program. *)
Record state := State {
  pc : program_counter;
  sessions : gmap Z (list cancellation_type);
  id : Z;
  channel : C;
  filter : cancellation_filter;
  cancelled : cancellation_type;
  live : gset Z;
  created : Z
}.

(** [reset_cancellation_state] *)
Definition reset (f : cancellation_filter) (s : state) : state :=
  State (pc s) (sessions s) (id s) (channel s) f none (live s) (created s).

(** [for (auto& session : sessions) session.second->emit(cs.cancelled())] *)
Definition forward (s : state) : state :=
  State (pc s) ((λ emitted, emitted ++ [cancelled s]) <$> sessions s) (id s) (channel s)
    (filter s) (cancelled s) (live s) (created s).

(** [co_spawn(ex, session(...))], [sessions.emplace(id, ...)] (which keeps an
    existing entry) and [++id]. *)
Definition spawn (s : state) : state :=
  State (pc s)
    (match sessions s !! id s with Some _ => sessions s | None => <[id s := []]> (sessions s) end)
    (id s +ₛ 1) (channel s) (filter s) (cancelled s)
    ({[id s]} ∪ live s) (created s + 1).

(** The head of the accept loop. *)
Definition start_accept (s : state) : state :=
  let s := reset enable_total_cancellation s in
  State Accepting (sessions s) (id s) (channel s) (filter s) (cancelled s) (live s) (created s).

(** The head of the waiting loop. *)
Definition wait_for_sessions (s : state) : state :=
  if decide (sessions s = ∅) then
    State Finished (sessions s) (id s) (channel s) (filter s) (cancelled s) (live s) (created s)
  else
    let s := reset enable_terminal_cancellation s in
    State Receiving (sessions s) (id s) (async_receive (channel s)) (filter s) (cancelled s)
      (live s) (created s).

(** The server is resumed from [async_accept]. *)
Definition on_accepted (ec : error_code) (s : state) : state :=
  let s := if failed ec then s else spawn s in
  if decide (cancelled s = total) then start_accept (forward s)
  else if failed ec || bool_decide (cancelled s ≠ none) then wait_for_sessions (forward s)
  else start_accept s.

(** The server is resumed from [channel.async_receive]. *)
Definition on_received (s : state) : state :=
  wait_for_sessions (if decide (cancelled s = none) then s else forward s).

(** The completion handler of session [i]. *)
Definition on_session_finished (i : Z) (s : state) : state :=
  State (pc s) (delete i (sessions s)) (id s) (try_send (channel s)).2 (filter s) (cancelled s)
    (live s ∖ {[i]}) (created s).

(** [signal_handling]: the cancellation type of a signal. *)
Definition signal_type (sig : signum) : cancellation_type :=
  match sig with
  | SIGTSTP => total
  | SIGINT => partial
  | SIGTERM => terminal
  end.

(** [signal.emit(ct)] reaches the server's cancellation state and, if the filter lets it
    through, the pending operation: an [async_accept] may then complete with an error (its
    completion is a step of its own), an [async_receive] completes. *)
Definition on_signal (sig : signum) (s : state) : state :=
  let ct := deliver (filter s) (cancelled s) (signal_type sig) in
  State (pc s) (sessions s) (id s)
    (if decide (ct = none) then channel s else cancel_receive (channel s))
    (filter s) ct (live s) (created s).

Definition initial : state :=
  start_accept (State Accepting ∅ 0 new_channel enable_terminal_cancellation none ∅ 0).

Inductive label :=
| Accepted (ec : error_code)
| SessionFinished (i : Z)
| Signalled (sig : signum)
| Received.

Inductive step : state → label → state → Prop :=
| step_accepted s ec : pc s = Accepting → step s (Accepted ec) (on_accepted ec s)
| step_session s i : i ∈ live s → step s (SessionFinished i) (on_session_finished i s)
| step_signal s sig : pc s ≠ Finished → step s (Signalled sig) (on_signal sig s)
| step_received s :
    pc s = Receiving → receive_pending (channel s) = false → step s Received (on_received s).

(** ** The invariant *)

Record consistent (s : state) : Prop := {
  consistent_id : id s = created s;
  consistent_live : dom (sessions s) = live s;
  consistent_fresh i : i ∈ live s → (0 <= i < created s)%Z
}.

Record inv (s : state) : Prop := {
  inv_created : (0 <= created s)%Z;
  inv_filter : pc s = Accepting → filter s = enable_total_cancellation;
  inv_consistent : (created s < 2 ^ 64)%Z → consistent s;
  (** no completion handler is left that could touch a dead frame *)
  inv_finished : (created s < 2 ^ 64)%Z → pc s = Finished → live s = ∅;
  (** the last session's notification is not lost *)
  inv_wakeup : (created s < 2 ^ 64)%Z → pc s = Receiving → live s = ∅ →
    receive_pending (channel s) = false
}.

Context `{!ChannelOk C}.
Implicit Types s : state.

Lemma cancellation_types_distinct `{!CancellationTypesOk} :
  terminal ≠ none ∧ partial ≠ none ∧ total ≠ none ∧ terminal ≠ total ∧ partial ≠ total.
Proof.
  rewrite none_empty. pose proof terminal_range. pose proof partial_range. pose proof total_range.
  pose proof terminal_total as Htt. pose proof partial_total as Hpt.
  split_and!; try lia; intros Heq; rewrite Heq, Z.land_diag in *; lia.
Qed.

Lemma server_inv_initial : inv initial.
Proof. by split. Qed.

Lemma consistent_empty s : consistent s → sessions s = ∅ ↔ live s = ∅.
Proof. intros [_ Hd _]. by rewrite <-Hd, dom_empty_iff_L. Qed.

(** Forwarding and resetting change neither the ids nor the running sessions. *)
Definition same_sessions (s s' : state) : Prop :=
  id s' = id s ∧ dom (sessions s') = dom (sessions s) ∧ live s' = live s ∧ created s' = created s.

Lemma same_sessions_consistent s s' : same_sessions s s' → consistent s → consistent s'.
Proof.
  intros (Hid & Hdom & Hlive & Hc) [Hc1 Hc2 Hc3]. split; rewrite ?Hid, ?Hdom, ?Hlive, ?Hc; auto.
Qed.

Lemma forward_same s : same_sessions s (forward s).
Proof. split_and!; simpl; try done. apply dom_fmap_L. Qed.

Lemma spawn_consistent s : (0 <= created s)%Z → (created s + 1 < 2 ^ 64)%Z →
  consistent s → consistent (spawn s).
Proof.
  intros Hpos Hmax [Hid Hdom Hfresh].
  assert (sessions s !! id s = None) as Hnone.
  { apply not_elem_of_dom. rewrite Hdom. intros Hin. apply Hfresh in Hin. lia. }
  split; simpl; rewrite ?Hnone.
  - rewrite Hid. apply size_add_small. unfold is_size. lia.
  - rewrite dom_insert_L. by rewrite Hdom.
  - intros i [->%elem_of_singleton|Hi]%elem_of_union; [lia|]. apply Hfresh in Hi. lia.
Qed.

Lemma start_accept_inv s : (0 <= created s)%Z →
  ((created s < 2 ^ 64)%Z → consistent s) → inv (start_accept s).
Proof.
  intros Hpos Hc. split; simpl; try done.
  intros Hmax. destruct (Hc Hmax). by split.
Qed.

Lemma wait_for_sessions_inv s : (0 <= created s)%Z →
  ((created s < 2 ^ 64)%Z → consistent s) → inv (wait_for_sessions s).
Proof.
  intros Hpos Hc. unfold wait_for_sessions. case_decide as Hempty; split; simpl; try done.
  - intros Hmax. destruct (Hc Hmax). by split.
  - intros Hmax _. by apply consistent_empty; [apply Hc|].
  - intros Hmax. destruct (Hc Hmax). by split.
  - intros Hmax _ Hlive. by apply consistent_empty in Hlive; [|apply Hc].
Qed.

Lemma server_on_accepted_inv ec s : inv s → inv (on_accepted ec s).
Proof.
  intros [Hpos _ Hc _ _]. unfold on_accepted.
  set (s1 := if failed ec then s else spawn s).
  assert ((0 <= created s1)%Z ∧ ((created s1 < 2 ^ 64)%Z → consistent s1)) as [Hpos1 Hc1].
  { subst s1. destruct (failed ec); [done|]. simpl. split; [lia|].
    intros Hmax. apply spawn_consistent; [done|done|]. apply Hc. lia. }
  clearbody s1. destruct (forward_same s1) as (Hid & Hdom & Hlive & Hcr).
  assert ((created (forward s1) < 2 ^ 64)%Z → consistent (forward s1)) as Hcf.
  { rewrite Hcr. intros. eapply same_sessions_consistent; [apply forward_same|auto]. }
  case_decide; [by apply start_accept_inv; [rewrite Hcr|]|].
  destruct (_ || _); [by apply wait_for_sessions_inv; [rewrite Hcr|]|by apply start_accept_inv].
Qed.

Lemma on_received_inv s : inv s → inv (on_received s).
Proof.
  intros [Hpos _ Hc _ _]. unfold on_received. case_decide; apply wait_for_sessions_inv; auto.
  intros. eapply same_sessions_consistent; [apply forward_same|auto].
Qed.

Lemma on_session_finished_inv i s : inv s → inv (on_session_finished i s).
Proof.
  intros [Hpos Hfil Hc Hf Hw]. split; simpl; [done|done|..].
  - intros Hmax. destruct (Hc Hmax) as [Hid Hdom Hfresh]. split; simpl; [done| |].
    + by rewrite dom_delete_L, Hdom.
    + intros j [Hj _]%elem_of_difference. auto.
  - intros Hmax Hpc. rewrite (Hf Hmax Hpc). apply subseteq_empty_difference_L, empty_subseteq.
  - intros. apply try_send_completes.
Qed.

Lemma on_signal_inv sig s : inv s → inv (on_signal sig s).
Proof.
  intros [Hpos Hfil Hc Hf Hw]. split; simpl; try done.
  - intros Hmax. destruct (Hc Hmax). by split.
  - intros. case_decide; [by apply Hw|apply cancel_completes].
Qed.

Lemma server_inv_inductive : inductive_invariant step inv.
Proof.
  intros s l s' Hinv Hstep. destruct Hstep;
    eauto using server_on_accepted_inv, on_session_finished_inv, on_signal_inv, on_received_inv.
Qed.

Lemma server_inv_reachable s : reachable step initial s → inv s.
Proof. apply invariant_reachable; [apply server_inv_inductive|apply server_inv_initial]. Qed.

(** ** Draining: the server can always run down once it waits *)

Lemma wait_for_sessions_pc s :
  pc (wait_for_sessions s) = if decide (sessions s = ∅) then Finished else Receiving.
Proof. unfold wait_for_sessions. by case_decide. Qed.

Lemma wait_for_sessions_spec s :
  let s' := wait_for_sessions s in
  sessions s' = sessions s ∧ live s' = live s ∧ id s' = id s ∧ created s' = created s ∧
  pc s' ≠ Accepting ∧ (pc s' = Finished → sessions s' = ∅).
Proof. unfold wait_for_sessions. by case_decide. Qed.

Definition internal (l : label) : Prop :=
  match l with SessionFinished _ | Received => True | _ => False end.

Lemma drain s : inv s → (created s < 2 ^ 64)%Z → pc s = Receiving →
  ∃ ls s', steps step s ls s' ∧ pc s' = Finished ∧ Forall internal ls.
Proof.
  remember (size (live s)) as n eqn:Hn. revert s Hn. induction n as [|n IH]; intros s Hn Hinv Hmax Hpc.
  - symmetry in Hn. apply size_empty_inv in Hn. apply leibniz_equiv in Hn.
    exists [Received], (on_received s). split_and!.
    + apply steps_one. apply step_received; [done|]. by apply (inv_wakeup s Hinv).
    + unfold on_received. rewrite wait_for_sessions_pc, decide_True; [done|].
      pose proof (inv_consistent s Hinv Hmax) as Hc.
      apply (consistent_empty s Hc) in Hn. case_decide; [done|]. simpl. by rewrite Hn, fmap_empty.
    + by repeat constructor.
  - assert (∃ i, i ∈ live s) as [i Hi].
    { apply set_choose_L. intros Hempty. rewrite Hempty, size_empty in Hn. done. }
    destruct (IH (on_session_finished i s)) as (ls & s' & Hls & Hfin & Hint); [|by apply on_session_finished_inv|done..|].
    { simpl. rewrite size_difference by set_solver. rewrite size_singleton. lia. }
    exists ([SessionFinished i] ++ ls), s'. split_and!; [|done|by constructor].
    eapply steps_app; [|done]. by apply steps_one, step_session.
Qed.

Lemma on_accepted_effect `{!CancellationTypesOk} ec s :
  let s1 := if failed ec then s else spawn s in
  let s' := on_accepted ec s in
  live s' = live s1 ∧ created s' = created s1 ∧ id s' = id s1 ∧
  (∀ i, sessions s' !! i =
     if decide (ec = Success ∧ cancelled s = none) then sessions s1 !! i
     else (λ emitted, emitted ++ [cancelled s]) <$> sessions s1 !! i) ∧
  (pc s' = Accepting ↔ cancelled s = total ∨ ec = Success ∧ cancelled s = none) ∧
  (pc s' = Finished → sessions s' = ∅).
Proof.
  intros s1 s'.
  assert (cancelled s1 = cancelled s) as Hc by (subst s1; by destruct (failed ec)).
  assert (none ≠ total) as Hnt by (rewrite none_empty; pose proof total_range; lia).
  subst s'. unfold on_accepted. fold s1. rewrite Hc. clearbody s1.
  destruct (decide (cancelled s = total)) as [Ht|Ht].
  { simpl. rewrite Hc. split_and!; try done; [|by split; auto].
    intros i. rewrite lookup_fmap, decide_False; [done|]. intros [_ Hn]. congruence. }
  destruct (failed ec || bool_decide (cancelled s ≠ none)) eqn:Hleave.
  - assert (¬ (ec = Success ∧ cancelled s = none)) as Hne.
    { intros [-> Hn]. by rewrite bool_decide_eq_false_2 in Hleave by (by intros []). }
    destruct (wait_for_sessions_spec (forward s1)) as (Hs & Hl & Hid & Hcr & Hpc & Hfin).
    rewrite Hs, Hl, Hid, Hcr. simpl. rewrite Hc. split_and!; try done.
    + intros i. by rewrite lookup_fmap, decide_False.
    + by split; [|intros [|]].
    + simpl in Hs. rewrite Hc in Hs. by rewrite <-Hs.
  - apply orb_false_iff in Hleave as [Hec%failed_false Hn%bool_decide_eq_false].
    apply dec_stable in Hn. simpl. split_and!; try done.
    + intros i. by rewrite decide_True.
    + by split; auto.
Qed.

(** ** Properties *)

(** C3. In every reachable state (with fewer than 2^64 sessions so far), the map holds exactly the running sessions,
    under fresh ids, and the server coroutine has finished only when no session runs
    any more: no completion handler can touch the map or the channel after
    the frame that owns them is gone. *)
Theorem server_outlives_sessions s :
  reachable step initial s → (created s < 2 ^ 64)%Z →
  consistent s ∧ (pc s = Finished → live s = ∅).
Proof. intros Hr Hmax. destruct (server_inv_reachable s Hr) as [? ? Hc Hf ?]. auto. Qed.

(** C4. The server never gets stuck, and shutting down completes: in a reachable state
    that is not finished, an accept can complete, or a session still runs, or the
    waiting loop can be resumed (the notification of the last session is not lost); and from the
    waiting loop, the completions of the sessions alone lead to the end of the server. *)
Theorem server_makes_progress s :
  reachable step initial s → (created s < 2 ^ 64)%Z →
  (pc s = Finished ∨ pc s = Accepting ∨ live s ≠ ∅ ∨ ∃ s', step s Received s')
  ∧ (pc s = Receiving → ∃ ls s', steps step s ls s' ∧ pc s' = Finished ∧ Forall internal ls).
Proof.
  intros Hr Hmax. pose proof (server_inv_reachable s Hr) as Hinv. split.
  - destruct (pc s) eqn:Hpc; auto. destruct (decide (live s = ∅)) as [Hl|]; [|auto].
    do 3 right. eexists. apply step_received; [done|]. by apply (inv_wakeup s Hinv).
  - by apply drain.
Qed.

(** What an iteration of the accept loop does, in all cases: a successful accept adds a
    session, whether or not the server was cancelled; total cancellation is forwarded to all sessions, the
    new one included, and the server goes on accepting; any other cancellation, or a failed accept, is
    forwarded to all of them and ends the accept loop; otherwise the server goes on. *)
Theorem on_accepted_spec `{!CancellationTypesOk} ec s :
  let s1 := if failed ec then s else spawn s in
  let s' := on_accepted ec s in
  live s' = live s1 ∧ created s' = created s1 ∧ id s' = id s1 ∧
  (∀ i, sessions s' !! i =
     if decide (ec = Success ∧ cancelled s = none) then sessions s1 !! i
     else (λ emitted, emitted ++ [cancelled s]) <$> sessions s1 !! i) ∧
  (pc s' = Accepting ↔ cancelled s = total ∨ ec = Success ∧ cancelled s = none) ∧
  (pc s' = Finished → sessions s' = ∅).
Proof. apply on_accepted_effect. Qed.

(** Once the accept loop has ended, no session is ever started again. *)
Theorem no_session_after_accept_loop s ls s' :
  pc s ≠ Accepting → steps step s ls s' → pc s' ≠ Accepting ∧ created s' = created s.
Proof.
  intros Hpc. induction 1 as [s|s ls s1 l s2 Hsteps IH Hstep]; [done|].
  destruct (IH Hpc) as [IH1 IH2]. clear IH. destruct Hstep as [s1 ? ?|s1 ? ?|s1 ? ?|s1 ? ?]; simpl; try done.
  unfold on_received. destruct (wait_for_sessions_spec (if decide (cancelled s1 = none)
    then s1 else forward s1)) as (_ & _ & _ & -> & ? & _). by case_decide.
Qed.

(** ** Types: what every variable holds fits its C++ type, however many sessions there were *)

Record well_typed (s : state) : Prop := {
  typed_id : is_size (id s);
  typed_keys i : i ∈ dom (sessions s) ∨ i ∈ live s → is_size i;
  typed_cancelled : is_uint32 (cancelled s);
  typed_filter : filter_typed (filter s);
  typed_emitted : map_Forall (λ _, Forall is_uint32) (sessions s)
}.

Context `{!CancellationTypesOk, !CancellationStateTyped}.

Lemma none_uint32 : is_uint32 none.
Proof. rewrite none_empty. unfold is_uint32. lia. Qed.
Lemma signal_type_uint32 sig : is_uint32 (signal_type sig).
Proof.
  pose proof total_range. pose proof partial_range. pose proof terminal_range.
  destruct sig; simpl; unfold is_uint32; lia.
Qed.

Lemma well_typed_spawn s : well_typed s → well_typed (spawn s).
Proof.
  intros [Hid Hkeys Hc Hf Hem]. split; simpl; [apply size_add_range| |done|done|].
  - intros i [Hi|[->%elem_of_singleton|Hi]%elem_of_union]; [|done|auto].
    destruct (sessions s !! id s); [auto|].
    rewrite dom_insert_L in Hi. apply elem_of_union in Hi as [->%elem_of_singleton|]; auto.
  - destruct (sessions s !! id s); [done|]. apply map_Forall_insert_2; [by constructor|done].
Qed.

Lemma well_typed_forward s : well_typed s → well_typed (forward s).
Proof.
  intros [Hid Hkeys Hc Hf Hem]. split; simpl; [done|by rewrite dom_fmap_L|done|done|].
  intros i em. rewrite lookup_fmap. intros (em' & Hi & ->)%fmap_Some.
  apply Forall_app. split; [by apply (Hem i)|by constructor].
Qed.

Lemma well_typed_reset f s : filter_typed f → well_typed s → well_typed (reset f s).
Proof. intros Hf' [Hid Hkeys Hc Hf Hem]. split; simpl; auto using none_uint32. Qed.

Lemma well_typed_wait s : well_typed s → well_typed (wait_for_sessions s).
Proof.
  intros Ht. unfold wait_for_sessions. case_decide; [by destruct Ht|].
  by destruct (well_typed_reset enable_terminal_cancellation s I Ht).
Qed.

Lemma well_typed_start s : well_typed s → well_typed (start_accept s).
Proof. intros Ht. by destruct (well_typed_reset enable_total_cancellation s I Ht). Qed.

Lemma well_typed_inductive : inductive_invariant step well_typed.
Proof.
  intros s l s' Ht Hstep. destruct Hstep as [s ec Hpc|s i Hi|s sig Hpc|s Hpc Hr].
  - unfold on_accepted. set (s1 := if failed ec then s else spawn s).
    assert (well_typed s1) as Ht1 by (subst s1; destruct (failed ec); auto using well_typed_spawn).
    clearbody s1. case_decide; [by apply well_typed_start, well_typed_forward|].
    destruct (_ || _); [by apply well_typed_wait, well_typed_forward|by apply well_typed_start].
  - destruct Ht as [Hid Hkeys Hc Hf Hem]. split; simpl; [done| |done|done|by apply map_Forall_delete].
    intros j. rewrite dom_delete_L. set_solver.
  - destruct Ht as [Hid Hkeys Hc Hf Hem]. split; simpl; [done|done| |done|done].
    apply deliver_uint32; [done..|apply signal_type_uint32].
  - unfold on_received. apply well_typed_wait. case_decide; auto using well_typed_forward.
Qed.

Lemma well_typed_initial : well_typed initial.
Proof. split; simpl; [done|set_solver|apply none_uint32|done|done]. Qed.


End Model.
Arguments state C : clear implicits.

(** ** Witnesses *)

(** A channel without a buffer: the state is whether a receive is pending. *)
#[local] Instance unbuffered : Channel bool := {|
  new_channel := false;
  receive_pending c := c;
  async_receive _ := true;
  cancel_receive _ := false;
  try_send c := (c, false)
|}.
#[local] Instance unbuffered_ok : ChannelOk bool.
Proof. by split. Qed.

#[local] Instance asio_cancellation_state : CancellationState := {|
  deliver f _ ct :=
    match f with
    | enable_terminal_cancellation => Z.land ct terminal
    | enable_partial_cancellation => Z.land ct (Z.lor terminal partial)
    | enable_total_cancellation => Z.land ct (Z.lor (Z.lor terminal partial) total)
    | custom_filter f => f ct
    end
|}.
#[local] Instance asio_cancellation_state_ok : CancellationStateOk.
Proof. split. intros ct Hct. repeat (apply elem_of_cons in Hct as [->|Hct]; [done|]). set_solver. Qed.

(** Two sessions are accepted, one ends; SIGINT, and the accept fails. *)
Definition two_accepted : state bool := on_accepted Success (on_accepted Success initial).
Definition waiting : state bool :=
  on_accepted Operation_canceled (on_signal SIGINT (on_session_finished 0 two_accepted)).
Definition finished : state bool := on_received (on_session_finished 1 waiting).

Lemma two_accepted_reachable : reachable step initial two_accepted.
Proof.
  exists ([] ++ [Accepted Success] ++ [Accepted Success]). rewrite !app_assoc.
  eapply steps_snoc; [eapply steps_snoc; [constructor|]|]; by constructor.
Qed.
Lemma waiting_reachable : reachable step initial waiting.
Proof.
  destruct two_accepted_reachable as [ls Hls].
  exists (((ls ++ [SessionFinished 0]) ++ [Signalled SIGINT]) ++ [Accepted Operation_canceled]).
  eapply steps_snoc; [eapply steps_snoc; [eapply steps_snoc; [done|]|]|]; constructor;
    by vm_compute.
Qed.
Lemma finished_reachable : reachable step initial finished.
Proof.
  destruct waiting_reachable as [ls Hls].
  exists ((ls ++ [SessionFinished 1]) ++ [Received]).
  eapply steps_snoc; [eapply steps_snoc; [done|]|]; constructor; by vm_compute.
Qed.

Example waiting_state : pc waiting = Receiving ∧ sessions waiting = {[ 1%Z := [partial] ]}.
Proof. vm_compute. split; reflexivity. Qed.
Example finished_state : pc finished = Finished.
Proof. vm_compute. reflexivity. Qed.

Lemma server_outlives_sessions_witness :
  consistent finished ∧ (pc finished = Finished → live finished = ∅).
Proof. apply (server_outlives_sessions (C := bool) finished finished_reachable). reflexivity. Defined.

#[local] Instance asio_cancellation_state_typed : CancellationStateTyped.
Proof.
  split. intros f c ct Hf _ Hct. destruct f; simpl; auto; by apply land_uint32.
Qed.

Lemma server_makes_progress_witness :
  ∃ ls (s' : state bool), steps step waiting ls s' ∧ pc s' = Finished ∧ Forall internal ls.
Proof.
  apply (server_makes_progress (C := bool) waiting waiting_reachable); reflexivity.
Defined.

Lemma on_accepted_spec_witness :
  pc (on_accepted Success two_accepted) = Accepting ↔
    cancelled two_accepted = total ∨ Success = Success ∧ cancelled two_accepted = none.
Proof.
  exact (proj1 (proj2 (proj2 (proj2 (proj2 (on_accepted_spec (C := bool) Success two_accepted)))))).
Defined.

Lemma no_session_after_accept_loop_witness :
  pc waiting ≠ Accepting ∧
  created (on_session_finished 1 waiting) = created waiting.
Proof.
  split; [by vm_compute|].
  refine (proj2 (no_session_after_accept_loop (C := bool) waiting [SessionFinished 1] _ _ _)).
  - by vm_compute.
  - apply steps_one, step_session. vm_compute. done.
Defined.

End Server.
