(* ===== verification/EchoPromise.v ===== *)
(** * cancellation/echo_coro_signal_cancellation.cpp and cancellation/echo_class.cpp

    Both servers keep a map of promises, one per session, and rely on the same
    argument for memory safety: destroying a promise cancels its task, and a task
    that was cancelled does not touch the map.  Module Registry is that map,
    with its tasks and its owner; the two servers are step relations over it. *)
From S2P Require Import Prelude Asio Wp Echo.

(** ** The coroutines of a session

    Their echo loops are in Echo.v. *)
Module Coroutines.
Section Program.
Context {W : Type} `{!CancellationTypes, !Cancellation W, !Streams W, !Spawning W, !Signals W}.
Context (sessions_erase : Z → awaitable W unit).

(** [log_cancellation] prints a cancellation when it happens, and passes it on: the child has a signal of its own. *)
Definition log_cancellation {T} (task : awaitable W T) : awaitable W T :=
  co_await (op_co_spawn None task).

(** [if (cs.cancelled() != none) co_return;] and [sessions.erase(id)] *)
Definition end_of_task (id : Z) : awaitable W unit :=
  c ← cs_cancelled;
  if bool_decide (c ≠ none) then mret tt else sessions_erase id.

(** The coroutine spawned for a connection by echo_coro_signal_cancellation.cpp *)
Definition cancellation_task (fuel : nat) (id : Z) (socket : handle) : awaitable W unit :=
  co_await (as_tuple (op_co_spawn None
    (log_cancellation (CancellationEcho.cancellation_session fuel socket))));;
  end_of_task id.

(** and by echo_class.cpp *)
Definition class_task (fuel : nat) (id : Z) (socket : handle) : awaitable W unit :=
  co_await (as_tuple (op_co_spawn None (CancellationEcho.class_echo fuel socket)));;
  end_of_task id.

Definition SIGINT : Z := 2.
Definition wait_for_signal : awaitable W unit :=
  deferred (async_signal SIGINT).

(** [co_await (std::move(task) || wait_for_signal())]; the operator is the library's. *)
Definition with_signal_handling (op_or : awaitable W unit → awaitable W unit → awaitable W unit)
    (task : awaitable W unit) : awaitable W unit :=
  co_await (op_or task wait_for_signal).

(** [wait_for_signal] of echo_class.cpp: the signal destroys the server; a second one ends the program. *)
Definition wait_and_destroy (server_reset : awaitable W unit) : awaitable W unit :=
  deferred (async_signal SIGINT);;
  server_reset;;
  deferred (async_signal SIGINT).

(** The task of a session ends with a look at its cancellation state, whatever ended the echo: the entry of the
    session is erased if it was not cancelled, and nothing is done if it was. *)
Lemma end_of_task_erases id (s : st W) :
  end_of_task id s = if decide (cancelled (env s) = none) then sessions_erase id s else (Val tt, s).
Proof.
  unfold end_of_task, mbind, awaitable_bind. simpl. case_decide as Hc.
  - rewrite bool_decide_eq_false_2 by auto. done.
  - by rewrite bool_decide_eq_true_2.
Qed.

End Program.
End Coroutines.

(** Destroying or cancelling a promise cancels its task: [on_cancel c] is the task's
    cancellation state afterwards.  The documented contract is that the task sees it. *)
Class Promises := { on_cancel : cancellation_type → cancellation_type }.
Class PromisesOk `{!CancellationTypes, !Promises} : Prop :=
  { on_cancel_seen c : on_cancel c ≠ none }.

Module Registry.
Section Registry.
Context `{!CancellationTypes, !Promises}.

(** [owner]: the map (a local of the server coroutine, or a member of the
    server object) still exists.  [tasks]: the session coroutines that have not ended,
    with their cancellation states.  [dangling]: the map was accessed after it
    was destroyed. *)
Record registry := Registry {
  owner : bool;
  sessions : gset Z;
  tasks : gmap Z cancellation_type;
  dangling : bool
}.

Definition empty : registry := Registry true ∅ ∅ false.

(** [sessions.emplace(id, co_spawn(ex, task, use_promise))]; if the key exists, the
    new promise is destroyed at once. *)
Definition emplace (i : Z) (r : registry) : registry :=
  Registry (owner r) ({[i]} ∪ sessions r)
    (<[i := if decide (i ∈ sessions r) then on_cancel none else none]> (tasks r))
    (dangling r || negb (owner r)).

(** The end of a task: [if (cs.cancelled() != none) co_return;], otherwise
    [sessions.erase(id)]. *)
Definition finish (i : Z) (r : registry) : registry :=
  match tasks r !! i with
  | None => r
  | Some c =>
      if decide (c ≠ none) then
        Registry (owner r) (sessions r) (delete i (tasks r)) (dangling r)
      else
        Registry (owner r) (sessions r ∖ {[i]}) (delete i (tasks r)) (dangling r || negb (owner r))
  end.

(** The map is destroyed: each promise in it cancels its task. *)
Definition destroy (r : registry) : registry :=
  Registry false ∅
    (map_imap (λ i c, Some (if decide (i ∈ sessions r) then on_cancel c else c)) (tasks r))
    (dangling r).

(** As long as the map exists, it holds exactly the promises of the running tasks, none
    of them cancelled; afterwards, every task that is left knows that it was cancelled. *)
Record safe (r : registry) : Prop := {
  safe_dangling : dangling r = false;
  safe_dom : owner r = true → dom (tasks r) = sessions r;
  safe_alive : owner r = true → ∀ i c, tasks r !! i = Some c → c = none;
  safe_dead : owner r = false → ∀ i c, tasks r !! i = Some c → c ≠ none
}.

Lemma safe_empty : safe empty.
Proof. split; simpl; [done|by rewrite dom_empty_L|done|done]. Qed.

Lemma emplace_safe i r : owner r = true → i ∉ sessions r → safe r → safe (emplace i r).
Proof.
  intros Ho Hi [Hd Hdom Ha _]. split; simpl.
  - by rewrite Hd, Ho.
  - intros _. by rewrite dom_insert_L, Hdom.
  - intros _ j c. rewrite decide_False by done. intros [[_ <-]|[_ ?]]%lookup_insert_Some; eauto.
  - congruence.
Qed.

Lemma finish_safe i r : safe r → safe (finish i r).
Proof.
  intros [Hd Hdom Ha Hdead]. unfold finish. destruct (tasks r !! i) as [c|] eqn:Hi; [|done].
  destruct (owner r) eqn:Ho.
  - rewrite decide_False by (intros Hc; apply Hc; eauto). split; simpl.
    + by rewrite Hd.
    + intros _. by rewrite dom_delete_L, Hdom.
    + intros _ j c' [_ ?]%lookup_delete_Some. eauto.
    + congruence.
  - rewrite decide_True by eauto. split; simpl; [done|congruence..|].
    intros _ j c' [_ ?]%lookup_delete_Some. eauto.
Qed.

Lemma destroy_safe `{!PromisesOk} r : safe r → safe (destroy r).
Proof.
  intros [Hd Hdom Ha Hdead]. split; simpl; [done..|].
  intros _ i c. rewrite map_lookup_imap. destruct (tasks r !! i) as [c'|] eqn:Hi; [|done].
  simpl. intros [= <-]. destruct (owner r) eqn:Ho.
  - rewrite decide_True; [apply on_cancel_seen|]. rewrite <-Hdom by done. by eapply elem_of_dom_2.
  - case_decide; [apply on_cancel_seen|]. eauto.
Qed.

Lemma tasks_finish i r : dom (tasks (finish i r)) = dom (tasks r) ∖ {[i]}.
Proof.
  unfold finish. destruct (tasks r !! i) as [c|] eqn:Hi.
  - case_decide; simpl; by rewrite dom_delete_L.
  - apply not_elem_of_dom in Hi. symmetry.
    by apply difference_disjoint_L, disjoint_singleton_r.
Qed.
Lemma tasks_destroy r : dom (tasks (destroy r)) = dom (tasks r).
Proof.
  simpl. apply set_eq. intros i. rewrite !elem_of_dom, map_lookup_imap.
  destruct (tasks r !! i); simpl; by split; intros [? ?].
Qed.
Lemma owner_finish i r : owner (finish i r) = owner r.
Proof. unfold finish. destruct (tasks r !! i); [case_decide|]; done. Qed.
Lemma owner_emplace i r : owner (emplace i r) = owner r.
Proof. done. Qed.
End Registry.
End Registry.

(** A promise that cancels its task with the default (terminal) filter; for the witnesses. *)
#[export] Instance terminal_promises : Promises := { on_cancel _ := terminal }.
#[export] Instance terminal_promises_ok : PromisesOk.
Proof. split. intros c. by vm_compute. Qed.

(** ** echo_coro_signal_cancellation.cpp: the map is a local of the server coroutine *)
Module SignalCancellation.
Import Registry.

Section Model.
Context `{!CancellationTypes, !Promises}.

Inductive program_counter := Accepting | Finished.

Record state := State {
  pc : program_counter;
  frame : registry;
  id : Z;
  cancelled : cancellation_type;
  created : Z    (* number of sessions so far; not in the program *)
}.

(** The server is resumed from [async_accept]: a connection is always stored, then
    the error and the cancellation state end the loop; [sessions.clear()], and
    the end of the coroutine. *)
Definition on_accepted (ec : error_code) (s : state) : state :=
  let s := if failed ec then s
           else State (pc s) (emplace (id s) (frame s)) (id s +ₛ 1) (cancelled s) (created s + 1) in
  if failed ec || bool_decide (cancelled s ≠ none)
  then State Finished (destroy (frame s)) (id s) (cancelled s) (created s)
  else s.

Definition on_task_finished (i : Z) (s : state) : state :=
  State (pc s) (finish i (frame s)) (id s) (cancelled s) (created s).

(** The operator [||] cancels the server when the signal arrives; [ct] is its cancellation
    state afterwards. *)
Definition on_signal (ct : cancellation_type) (s : state) : state :=
  State (pc s) (frame s) (id s) ct (created s).

Definition initial : state := State Accepting empty 0 none 0.

Inductive label :=
| Accepted (ec : error_code)
| TaskFinished (i : Z)
| Signalled (ct : cancellation_type).

Inductive step : state → label → state → Prop :=
| step_accepted s ec : pc s = Accepting → step s (Accepted ec) (on_accepted ec s)
| step_task s i : i ∈ dom (tasks (frame s)) → step s (TaskFinished i) (on_task_finished i s)
| step_signal s ct : pc s = Accepting → step s (Signalled ct) (on_signal ct s).

Record inv (s : state) : Prop := {
  inv_created : (0 <= created s)%Z;
  inv_owner : pc s = Accepting ↔ owner (frame s) = true;
  inv_safe : (created s < 2 ^ 64)%Z →
    safe (frame s) ∧ id s = created s ∧ ∀ i, i ∈ dom (tasks (frame s)) → (0 <= i < created s)%Z
}.

Context `{!PromisesOk}.

Lemma tasks_inv_initial : inv initial.
Proof. split; simpl; [done|done|]. intros _. split_and!; [apply safe_empty|done|set_solver]. Qed.

Lemma spawned_inv s : pc s = Accepting → inv s →
  inv (State (pc s) (emplace (id s) (frame s)) (id s +ₛ 1) (cancelled s) (created s + 1)).
Proof.
  intros Hpc [Hpos Hown Hs]. split; simpl; [lia|by rewrite Hown|]. intros Hmax.
  destruct Hs as (Hsafe & Hid & Hfresh); [lia|]. split_and!.
  - apply emplace_safe; [by apply Hown|rewrite <-safe_dom by (done || by apply Hown)|done].
    intros Hin%Hfresh. lia.
  - rewrite Hid. apply size_add_small. unfold is_size. lia.
  - intros i. rewrite dom_insert_L.
    intros [->%elem_of_singleton|Hin%Hfresh]%elem_of_union; lia.
Qed.

Lemma tasks_inv_inductive : inductive_invariant step inv.
Proof.
  intros s l s' Hinv Hstep. destruct Hstep as [s ec Hpc|s i Hi|s ct Hpc].
  - unfold on_accepted. set (s1 := if failed ec then _ else _).
    assert (inv s1 ∧ pc s1 = Accepting) as [[Hpos Hown Hs] Hpc1].
    { subst s1. destruct (failed ec); [done|]. split; [by apply spawned_inv|done]. }
    clearbody s1. destruct (_ || _); [|by split].
    split; simpl; [done|done|]. intros Hmax. destruct (Hs Hmax) as (Hsafe & Hid & Hfresh).
    split_and!; [by apply destroy_safe|done|].
    intros j Hj. apply Hfresh. by rewrite <-tasks_destroy.
  - destruct Hinv as [Hpos Hown Hs]. split; simpl; [done|by rewrite owner_finish|].
    intros Hmax. destruct (Hs Hmax) as (Hsafe & Hid & Hfresh).
    split_and!; [by apply finish_safe|done|]. intros j. rewrite tasks_finish.
    intros [? _]%elem_of_difference. auto.
  - by destruct Hinv as [Hpos Hown Hs].
Qed.

Lemma tasks_inv_reachable s : reachable step initial s → inv s.
Proof. apply invariant_reachable; [apply tasks_inv_inductive|apply tasks_inv_initial]. Qed.

Lemma tasks_respect_frame_dead s :
  reachable step initial s → (created s < 2 ^ 64)%Z → pc s = Finished →
  ∀ i c, tasks (frame s) !! i = Some c → c ≠ none.
Proof.
  intros Hr Hmax Hpc. destruct (tasks_inv_reachable s Hr) as [_ Hown Hs].
  destruct (Hs Hmax) as ([_ _ _ Hdead] & _).
  apply Hdead. apply not_true_iff_false. intros Ho%Hown. congruence.
Qed.

(** C6. The tasks of echo_coro_signal_cancellation.cpp never access the map of sessions after the
    server coroutine is gone, although they hold a reference to it: while the server accepts, the map holds exactly the
    promises of the running tasks; once it has finished, every task that is left
    has been cancelled, and sees that before it would erase itself. *)
Theorem tasks_respect_frame s :
  reachable step initial s → (created s < 2 ^ 64)%Z →
  dangling (frame s) = false
  ∧ (pc s = Accepting → dom (tasks (frame s)) = sessions (frame s))
  ∧ (pc s = Finished → ∀ i c, tasks (frame s) !! i = Some c → c ≠ none).
Proof.
  intros Hr Hmax. destruct (tasks_inv_reachable s Hr) as [_ Hown Hs].
  destruct (Hs Hmax) as ([Hd Hdom _ _] & _). split_and!; [done| |].
  - intros Hpc. by apply Hdom, Hown.
  - intros Hpc. by apply tasks_respect_frame_dead.
Qed.

(** Cancellation is never missed, even when an accept completes at the same time: if the
    server was cancelled, then whatever the pending accept reports, the server finishes,
    and the tasks of all sessions, the one just accepted included, have been cancelled. *)
Theorem cancellation_not_missed ct ec s :
  reachable step initial s → (created s + 1 < 2 ^ 64)%Z → pc s = Accepting → ct ≠ none →
  let s' := on_accepted ec (on_signal ct s) in
  pc s' = Finished
  ∧ (∀ i c, tasks (frame s') !! i = Some c → c ≠ none)
  ∧ (ec = Success → id s ∈ dom (tasks (frame s'))).
Proof.
  intros Hr Hmax Hpc Hct s'.
  assert (reachable step initial s') as Hr'.
  { destruct Hr as [ls Hls]. exists ((ls ++ [Signalled ct]) ++ [Accepted ec]).
    eapply steps_snoc; [eapply steps_snoc; [done|by constructor]|by constructor]. }
  assert (pc s' = Finished) as Hfin.
  { subst s'. unfold on_accepted. destruct (failed ec); simpl; [done|].
    by rewrite bool_decide_eq_true_2. }
  assert (created s' <= created s + 1)%Z as Hcr.
  { subst s'. unfold on_accepted. destruct (failed ec); simpl; [lia|].
    rewrite bool_decide_eq_true_2 by done. simpl. lia. }
  split_and!; [done| |].
  - apply (tasks_respect_frame_dead s'); [done|lia|done].
  - intros ->. subst s'. unfold on_accepted. simpl. rewrite bool_decide_eq_true_2 by done.
    unfold frame at 1. rewrite tasks_destroy. simpl. rewrite dom_insert_L. set_solver.
Qed.
End Model.

Definition one_session : state := on_accepted Success initial.
Lemma tasks_one_session_reachable : reachable step initial one_session.
Proof. eexists. apply steps_one. by constructor. Qed.
(** Cancelled while the second connection was being accepted. *)
Definition raced : state := on_accepted Success (on_signal terminal one_session).
Lemma raced_reachable : reachable step initial raced.
Proof.
  destruct tasks_one_session_reachable as [ls Hls].
  eexists. eapply steps_snoc; [eapply steps_snoc; [done|by constructor]|by constructor].
Qed.
Example raced_state : pc raced = Finished ∧ tasks (frame raced) = {[0%Z := terminal; 1%Z := terminal]}.
Proof. vm_compute. split; reflexivity. Qed.

Lemma tasks_respect_frame_witness :
  dangling (frame raced) = false
  ∧ (pc raced = Accepting → dom (tasks (frame raced)) = sessions (frame raced))
  ∧ (pc raced = Finished → ∀ i c, tasks (frame raced) !! i = Some c → c ≠ none).
Proof. apply (tasks_respect_frame raced raced_reachable). reflexivity. Defined.

Lemma cancellation_not_missed_witness :
  pc (on_accepted Success (on_signal terminal one_session)) = Finished.
Proof.
  refine (proj1 (cancellation_not_missed terminal Success one_session tasks_one_session_reachable _ _ _));
    [reflexivity|reflexivity|by vm_compute].
Defined.
End SignalCancellation.

(** ** echo_class.cpp: the map is a member of the server object *)
Module EchoClass.
Import Registry.

Section Model.
Context `{!CancellationTypes, !Promises}.

Inductive program_counter :=
| Accepting
| Cancelled                   (* left the loop: "accept: cancelled" *)
| Failed (ec : error_code).   (* the exception of [async_accept], kept in [promise_] *)

(** [object] is the registry of the [EchoServer]; its [owner] bit says whether the
    object exists.  [run] is the coroutine of the accept loop, with its cancellation state. *)
Record state := State {
  run : program_counter;
  cancelled : cancellation_type;
  object : registry;
  id : Z;
  created : Z
}.

(** [run] is resumed from [async_accept]. *)
Definition on_accepted (ec : error_code) (s : state) : state :=
  if failed ec then State (Failed ec) (cancelled s) (object s) (id s) (created s)
  else if bool_decide (cancelled s ≠ none) then
    State Cancelled (cancelled s) (object s) (id s) (created s)
  else State Accepting (cancelled s) (emplace (id s) (object s)) (id s +ₛ 1) (created s + 1).

Definition on_task_finished (i : Z) (s : state) : state :=
  State (run s) (cancelled s) (finish i (object s)) (id s) (created s).

(** [server.reset()]: the destructor cancels [promise_], then the members are destroyed. *)
Definition on_reset (s : state) : state :=
  State (run s) (on_cancel (cancelled s)) (destroy (object s)) (id s) (created s).

Definition initial : state := State Accepting none empty 0 0.

Inductive label :=
| Accepted (ec : error_code)
| TaskFinished (i : Z)
| Destroyed.

Inductive step : state → label → state → Prop :=
| step_accepted s ec : run s = Accepting → step s (Accepted ec) (on_accepted ec s)
| step_task s i : i ∈ dom (tasks (object s)) → step s (TaskFinished i) (on_task_finished i s)
| step_destroyed s : owner (object s) = true → step s Destroyed (on_reset s).

Record inv (s : state) : Prop := {
  inv_created : (0 <= created s)%Z;
  inv_cancelled : owner (object s) = false → cancelled s ≠ none;
  inv_safe : (created s < 2 ^ 64)%Z →
    safe (object s) ∧ id s = created s ∧ ∀ i, i ∈ dom (tasks (object s)) → (0 <= i < created s)%Z
}.

Context `{!PromisesOk}.

Lemma object_inv_initial : inv initial.
Proof. split; simpl; [done|done|]. intros _. split_and!; [apply safe_empty|done|set_solver]. Qed.

Lemma object_inv_inductive : inductive_invariant step inv.
Proof.
  intros s l s' [Hpos Hcan Hs] Hstep. destruct Hstep as [s ec Hrun|s i Hi|s Ho].
  - unfold on_accepted. destruct (failed ec); [by split|]. case_bool_decide as Hc; [by split|].
    assert (owner (object s) = true) as Ho.
    { apply not_false_iff_true. by intros ?%Hcan. }
    split; simpl; [lia|congruence|]. intros Hmax.
    destruct Hs as (Hsafe & Hid & Hfresh); [lia|]. split_and!.
    + apply emplace_safe; [done|rewrite <-safe_dom by done|done]. intros Hin%Hfresh. lia.
    + rewrite Hid. apply size_add_small. unfold is_size. lia.
    + intros i. rewrite dom_insert_L.
      intros [->%elem_of_singleton|Hin%Hfresh]%elem_of_union; lia.
  - split; simpl; [done|by rewrite owner_finish|]. intros Hmax.
    destruct (Hs Hmax) as (Hsafe & Hid & Hfresh).
    split_and!; [by apply finish_safe|done|]. intros j. rewrite tasks_finish.
    intros [? _]%elem_of_difference. auto.
  - split; simpl; [done|intros _; apply on_cancel_seen|]. intros Hmax.
    destruct (Hs Hmax) as (Hsafe & Hid & Hfresh).
    split_and!; [by apply destroy_safe|done|]. intros j Hj. apply Hfresh.
    by rewrite <-tasks_destroy.
Qed.

(** C7. Destroying the [EchoServer] while its coroutines are running is safe: neither the accept
    loop nor any task accesses the members of the object after its destruction, at whatever
    moment it happens; the accept loop has been cancelled, and so has every task that is left. *)
Theorem destruction_is_safe s :
  reachable step initial s → (created s < 2 ^ 64)%Z →
  dangling (object s) = false
  ∧ (owner (object s) = false → cancelled s ≠ none
     ∧ ∀ i c, tasks (object s) !! i = Some c → c ≠ none).
Proof.
  intros Hr Hmax.
  destruct (invariant_reachable step inv _ _ object_inv_inductive object_inv_initial Hr) as [_ Hcan Hs].
  destruct (Hs Hmax) as ([Hd _ _ Hdead] & _). split; [done|].
  intros Ho. split; [by apply Hcan|by apply Hdead].
Qed.
End Model.

(** Destroyed with one session running. *)
Definition destroyed : state := on_reset (on_accepted Success initial).
Lemma destroyed_reachable : reachable step initial destroyed.
Proof.
  eexists. eapply steps_snoc; [apply steps_one; by constructor|]. constructor. by vm_compute.
Qed.

Lemma destruction_is_safe_witness :
  dangling (object destroyed) = false
  ∧ (owner (object destroyed) = false → cancelled destroyed ≠ none
     ∧ ∀ i c, tasks (object destroyed) !! i = Some c → c ≠ none).
Proof. apply (destruction_is_safe destroyed destroyed_reachable). reflexivity. Defined.
End EchoClass.
