(* ===== verification/EchoSignal.v ===== *)
(** * cancellation/echo_coro_signal.cpp: shutting sockets down from a signal handler

    The server keeps the sockets of its sessions in a map; a signal handler cancels
    the acceptor and shuts every socket down.  The model separates the moment an
    operation completes (its handler is queued) from the moment its
    handler runs, because the program's behaviour depends on that difference. *)
From S2P Require Import Prelude Asio Wp.

Inductive socket_state := Open | Shut.

Inductive program_counter :=
| Accepting
| Draining      (* the busy-waiting loop: [while (!sockets.empty()) co_await post] *)
| Finished.

(** The pending [async_accept]. *)
Inductive accept_operation :=
| Waiting
| Completed (ec : error_code).   (* its completion is queued *)

(** The handler of [signals.async_wait]. *)
Inductive signal_handler :=
| Armed
| Queued      (* the signal arrived; the handler has not run yet *)
| Done.       (* it ran, or the signal set was destroyed before a signal arrived *)

(** [sockets], [id]: the frame of the server coroutine.  [live]: the echo coroutines
    whose completion handlers have not run.  [dangling]: something accessed the
    frame after its end.  [crashed]: an exception left [context.run()].  [created] counts the sessions. *)
Record state := State {
  pc : program_counter;
  sockets : gmap Z socket_state;
  id : Z;
  accept : accept_operation;
  handler : signal_handler;
  live : gset Z;
  dangling : bool;
  crashed : bool;
  created : Z
}.

Definition frame_gone (s : state) : bool :=
  match pc s with Finished => true | _ => false end.

(** The busy-waiting loop; at the end of the coroutine its locals are destroyed, the
    signal set among them: a handler that is still armed is called with
    [operation_canceled] and returns at once, one that is queued stays queued. *)
Definition drain (s : state) : state :=
  if decide (sockets s = ∅) then
    State Finished ∅ (id s) (accept s)
      (match handler s with Armed => Done | h => h end)
      (live s) (dangling s) (crashed s) (created s)
  else State Draining (sockets s) (id s) (accept s) (handler s) (live s) (dangling s) (crashed s)
         (created s).

(** The server is resumed from [async_accept]: [sockets.emplace], [co_spawn],
    and the next [async_accept]. *)
Definition on_accepted (ec : error_code) (s : state) : state :=
  if failed ec then drain s
  else
    State Accepting
      (match sockets s !! id s with Some _ => sockets s | None => <[id s := Open]> (sockets s) end)
      (id s +ₛ 1) Waiting (handler s) ({[id s]} ∪ live s) (dangling s) (crashed s) (created s + 1).

(** The signal handler.  [shutdown_result] gives what [shutdown] reports for each
    socket; an error is thrown out of the handler, and of [main]. *)
Definition on_signal (shutdown_result : Z → error_code) (s : state) : state :=
  State (pc s) ((λ _, Shut) <$> sockets s) (id s)
    (match accept s with Waiting => Completed Operation_canceled | done => done end)
    Done (live s)
    (dangling s || frame_gone s)
    (crashed s || existsb (λ i, failed (shutdown_result i)) (elements (dom (sockets s))))
    (created s).

(** The completion handler of an echo coroutine: [sockets.erase(id)]. *)
Definition on_session_finished (i : Z) (s : state) : state :=
  State (pc s) (delete i (sockets s)) (id s) (accept s) (handler s) (live s ∖ {[i]})
    (dangling s || frame_gone s) (crashed s) (created s).

Definition initial : state := State Accepting ∅ 0 Waiting Armed ∅ false false 0.

Inductive label :=
| AcceptCompletes (ec : error_code)      (* the operation completes *)
| Accepted (ec : error_code)             (* the server is resumed *)
| SignalArrives
| SignalHandled (shutdown_result : Z → error_code)
| SessionFinished (i : Z)
| Posted.

Inductive step : state → label → state → Prop :=
| step_accept_completes s ec :
    crashed s = false → pc s = Accepting → accept s = Waiting → ec ≠ Operation_canceled →
    step s (AcceptCompletes ec)
      (State (pc s) (sockets s) (id s) (Completed ec) (handler s) (live s) (dangling s)
         (crashed s) (created s))
| step_accepted s ec :
    crashed s = false → pc s = Accepting → accept s = Completed ec →
    step s (Accepted ec) (on_accepted ec s)
| step_signal_arrives s :
    crashed s = false → handler s = Armed →
    step s SignalArrives
      (State (pc s) (sockets s) (id s) (accept s) Queued (live s) (dangling s) (crashed s)
         (created s))
| step_signal_handled s f :
    crashed s = false → handler s = Queued → step s (SignalHandled f) (on_signal f s)
| step_session s i :
    crashed s = false → i ∈ live s → step s (SessionFinished i) (on_session_finished i s)
| step_posted s :
    crashed s = false → pc s = Draining → step s Posted (drain s).

(** ** Sessions and the map *)

Record inv (s : state) : Prop := {
  inv_created : (0 <= created s)%Z;
  inv_sockets : (created s < 2 ^ 64)%Z →
    id s = created s ∧ dom (sockets s) = live s ∧ ∀ i, i ∈ live s → (0 <= i < created s)%Z;
  inv_finished : (created s < 2 ^ 64)%Z → pc s = Finished → live s = ∅
}.

Lemma sockets_inv_initial : inv initial.
Proof. by split. Qed.

Lemma drain_inv s : inv s → inv (drain s).
Proof.
  intros [Hpos Hs Hf]. unfold drain. case_decide as Hem; split; simpl; try done.
  - intros Hmax. destruct (Hs Hmax) as (Hid & Hdom & Hfr). split_and!; [done| |done].
    by rewrite <-Hdom, Hem.
  - intros Hmax _. destruct (Hs Hmax) as (_ & <- & _). by rewrite Hem, dom_empty_L.
Qed.

Lemma sockets_on_accepted_inv ec s : pc s = Accepting → inv s → inv (on_accepted ec s).
Proof.
  intros Hpc Hinv. unfold on_accepted. destruct (failed ec); [by apply drain_inv|].
  destruct Hinv as [Hpos Hs Hf]. split; simpl; [lia| |done].
  intros Hmax. destruct Hs as (Hid & Hdom & Hfr); [lia|].
  assert (sockets s !! id s = None) as ->.
  { apply not_elem_of_dom. rewrite Hdom. intros Hin%Hfr. lia. }
  split_and!.
  - rewrite Hid. apply size_add_small. unfold is_size. lia.
  - by rewrite dom_insert_L, Hdom.
  - intros i [->%elem_of_singleton|Hi%Hfr]%elem_of_union; lia.
Qed.

Lemma sockets_inv_inductive : inductive_invariant step inv.
Proof.
  intros s l s' Hinv Hstep.
  destruct Hstep as [s ec|s ec|s|s f|s i|s]; eauto using sockets_on_accepted_inv, drain_inv;
    destruct Hinv as [Hpos Hs Hf]; split; simpl; try done.
  - intros Hmax. by rewrite dom_fmap_L; auto.
  - intros Hmax. destruct (Hs Hmax) as (Hid & Hdom & Hfr). split_and!; [done| |].
    + by rewrite dom_delete_L, Hdom.
    + intros j [Hj _]%elem_of_difference. auto.
  - intros Hmax Hpc. rewrite (Hf Hmax Hpc). apply subseteq_empty_difference_L, empty_subseteq.
Qed.

(** C15. In every reachable state of echo_coro_signal.cpp (with fewer than 2^64 sessions so far), the map holds exactly the
    sockets of the running sessions, and the server coroutine has ended only when
    no session runs any more, so that no session is left with a dangling socket reference. *)
Theorem sockets_of_sessions s :
  reachable step initial s → (created s < 2 ^ 64)%Z →
  dom (sockets s) = live s ∧ (pc s = Finished → live s = ∅).
Proof.
  intros Hr Hmax.
  destruct (invariant_reachable step inv _ _ sockets_inv_inductive sockets_inv_initial Hr) as [_ Hs Hf].
  split; [by apply Hs|by apply Hf].
Qed.

(** ** The signal handler *)

(** What holds after the handler ran in time. *)
Record interrupted (n : Z) (s : state) : Prop := {
  interrupted_created : created s = n;
  interrupted_sockets : map_Forall (λ _ x, x = Shut) (sockets s);
  interrupted_accept : pc s = Accepting → accept s = Completed Operation_canceled
}.

Lemma interrupted_drain n s : interrupted n s → interrupted n (drain s).
Proof.
  intros [Hn Hs Ha]. unfold drain. by case_decide; split.
Qed.

Lemma interrupted_inductive n : inductive_invariant step (interrupted n).
Proof.
  intros s l s' Hint Hstep.
  destruct Hstep as [s ec _ Hpc Hacc|s ec _ Hpc Hacc|s|s f|s i|s]; eauto using interrupted_drain.
  - destruct Hint as [_ _ Ha]. rewrite Ha in Hacc by done. done.
  - assert (ec = Operation_canceled) as ->.
    { destruct Hint as [_ _ Ha]. rewrite Ha in Hacc by done. congruence. }
    unfold on_accepted. simpl. by apply interrupted_drain.
  - destruct Hint as [Hn Hs Ha]. by split.
  - destruct Hint as [Hn Hs Ha]. split; simpl; [done| |].
    + intros i x. rewrite lookup_fmap. intros (y & _ & ->)%fmap_Some. done.
    + intros Hpc. by rewrite (Ha Hpc).
  - destruct Hint as [Hn Hs Ha]. split; simpl; [done| |done]. by apply map_Forall_delete.
Qed.


(** If a connection is accepted just before the signal handler runs (the completion of
    the accept is queued), [acceptor.cancel()] cancels nothing: the server goes on accepting,
    with a session whose socket was not shut down, and no handler is armed any more. *)
Lemma signal_too_late :
  ∃ s, reachable step initial s ∧ handler s = Done ∧ pc s = Accepting ∧ accept s = Waiting
       ∧ sockets s = {[0%Z := Open]} ∧ crashed s = false.
Proof.
  eexists. split.
  { eexists. eapply steps_snoc; [eapply steps_snoc; [eapply steps_snoc; [apply steps_one|]|]|].
    - by apply step_signal_arrives.
    - by apply (step_accept_completes _ Success).
    - by apply (step_signal_handled _ (λ _, Success)).
    - by apply (step_accepted _ Success). }
  vm_compute. split_and!; reflexivity.
Qed.

(** The signal handler can run after the server coroutine has ended: when accepting fails while
    the signal is already queued, the handler accesses the acceptor and the map, which
    are gone. *)
Lemma handler_may_dangle :
  ∃ s, reachable step initial s ∧ dangling s = true.
Proof.
  eexists. split.
  { eexists. eapply steps_snoc; [eapply steps_snoc; [eapply steps_snoc; [apply steps_one|]|]|].
    - by apply step_signal_arrives.
    - by apply (step_accept_completes _ (Other_error 24)).
    - by apply (step_accepted _ (Other_error 24)).
    - by apply (step_signal_handled _ (λ _, Success)). }
  reflexivity.
Qed.


(** ** Witnesses *)

Definition one_session : state := on_accepted Success
  (State Accepting ∅ 0 (Completed Success) Armed ∅ false false 0).
Lemma sockets_one_session_reachable : reachable step initial one_session.
Proof.
  exists ([AcceptCompletes Success] ++ [Accepted Success]).
  eapply steps_snoc; [apply steps_one; by apply step_accept_completes|]. by constructor.
Qed.

Lemma sockets_of_sessions_witness :
  dom (sockets one_session) = live one_session
  ∧ (pc one_session = Finished → live one_session = ∅).
Proof. apply (sockets_of_sessions one_session sockets_one_session_reachable). reflexivity. Defined.

