(* ===== verification/ServerSpec.v ===== *)
(** * What a server with a graceful shutdown promises

    The specification is an abstract transition system: a server starts sessions under fresh numbers,
    sessions end, it tells all of its sessions to stop, closes (starts no session any more), and leaves
    (its memory goes away).  The class [GracefulServer] is the interface through which a program implements
    it: its step relation, and what its steps do in terms of the specification.  The theorems about the shutdown are proved
    once, against that interface; Servers.v has the four programs of cancellation/ as instances. *)
From S2P Require Import Prelude.

(** ** The specification *)

Inductive phase := Open | Closing | Gone.
#[export] Instance phase_eq_dec : EqDecision phase.
Proof. solve_decision. Defined.

(** [live]: the sessions that run.  [told]: those of them that were told to stop.  [started]: how many
    were started. *)
Record abstract := Abstract { phase_of : phase; live : gset Z; told : gset Z; started : Z }.
Definition nothing_started : abstract := Abstract Open ∅ ∅ 0.

(** [Closes asked]: the server closes because it was asked to, or ([false]) because accepting failed. *)
Inductive action := Starts (i : Z) | Ends (i : Z) | Tells | Closes (asked : bool) | Leaves.
#[export] Instance action_eq_dec : EqDecision action.
Proof. solve_decision. Defined.

(** A server that is asked to close tells its sessions first; no server leaves sessions behind that were not
    told; one that [joins] leaves none. *)
Inductive spec_step (joins : bool) : abstract → action → abstract → Prop :=
| spec_starts a : phase_of a = Open →
    spec_step joins a (Starts (started a))
      (Abstract Open ({[started a]} ∪ live a) (told a) (started a + 1))
| spec_ends a i : i ∈ live a →
    spec_step joins a (Ends i) (Abstract (phase_of a) (live a ∖ {[i]}) (told a ∖ {[i]}) (started a))
| spec_tells a : phase_of a ≠ Gone →
    spec_step joins a Tells (Abstract (phase_of a) (live a) (live a) (started a))
| spec_closes a asked : phase_of a = Open → (asked = true → live a ⊆ told a) →
    spec_step joins a (Closes asked) (Abstract Closing (live a) (told a) (started a))
| spec_leaves a : phase_of a = Closing → (joins = true → live a = ∅) → live a ⊆ told a →
    spec_step joins a Leaves (Abstract Gone (live a) (told a) (started a)).

(** ** What the specification guarantees *)

Definition starts (acts : list action) : list Z :=
  omap (λ a, match a with Starts i => Some i | _ => None end) acts.
Definition ends (acts : list action) : list Z :=
  omap (λ a, match a with Ends i => Some i | _ => None end) acts.

Lemma starts_app l k : starts (l ++ k) = starts l ++ starts k.
Proof. apply omap_app. Qed.
Lemma ends_app l k : ends (l ++ k) = ends l ++ ends k.
Proof. apply omap_app. Qed.
Create Rewrite HintDb servers.
#[local] Hint Rewrite starts_app ends_app : servers.

(** Session [i] was told to stop, some time after its start. *)
Definition was_told (acts : list action) (i : Z) : Prop :=
  ∃ pre post, acts = pre ++ Tells :: post ∧ i ∈ starts pre.
Lemma was_told_app acts ks i : was_told acts i → was_told (acts ++ ks) i.
Proof. intros (pre & post & -> & Hi). exists pre, (post ++ ks). by rewrite <-app_assoc. Qed.

Section Guarantees.
Context (joins : bool).

(** The sessions so far, in terms of the actions so far. *)
Record accounted (acts : list action) (a : abstract) : Prop := {
  accounted_started : (0 <= started a)%Z;
  accounted_starts : starts acts = seqZ 0 (started a);
  accounted_ends : NoDup (ends acts);
  accounted_ended i : i ∈ ends acts → i ∈ starts acts;
  accounted_live i : i ∈ live a ↔ i ∈ starts acts ∧ i ∉ ends acts;
  accounted_told i : i ∈ told a → was_told acts i
}.

Lemma accounted_initial : accounted [] nothing_started.
Proof. split; simpl; try done; try set_solver. constructor. Qed.

Ltac snoc_actions := simpl; autorewrite with servers; simpl; rewrite ?app_nil_r.

Lemma accounted_starts_step acts a : accounted acts a →
  accounted (acts ++ [Starts (started a)])
    (Abstract Open ({[started a]} ∪ live a) (told a) (started a + 1)).
Proof.
  intros [Hpos Hst Hen Hsub Hlive Htold].
  assert (started a ∉ starts acts) as Hnew by (rewrite Hst, elem_of_seqZ; lia).
  assert (started a ∉ ends acts) as Hnew' by auto.
  split; snoc_actions; try done; try lia.
  - by rewrite seqZ_app, Hst by lia.
  - intros i Hi. apply elem_of_app. auto.
  - intros i. rewrite elem_of_union, elem_of_singleton, Hlive, elem_of_app, list_elem_of_singleton.
    naive_solver.
  - intros i Hi. by apply was_told_app, Htold.
Qed.

Lemma accounted_ends_step acts a i : accounted acts a → i ∈ live a →
  accounted (acts ++ [Ends i]) (Abstract (phase_of a) (live a ∖ {[i]}) (told a ∖ {[i]}) (started a)).
Proof.
  intros [Hpos Hst Hen Hsub Hlive Htold] Hi.
  assert (Hi' := proj1 (Hlive i) Hi).
  split; snoc_actions; try done.
  - apply NoDup_app. split_and!; [done|set_solver +Hi'|apply NoDup_singleton].
  - intros j. rewrite elem_of_app, list_elem_of_singleton. intros [?| ->]; [auto|apply Hi'].
  - intros j. rewrite elem_of_difference, elem_of_singleton, Hlive, elem_of_app, list_elem_of_singleton.
    naive_solver.
  - intros j [Hj _]%elem_of_difference. by apply was_told_app, Htold.
Qed.

Lemma accounted_tells_step acts a : accounted acts a →
  accounted (acts ++ [Tells]) (Abstract (phase_of a) (live a) (live a) (started a)).
Proof.
  intros [Hpos Hst Hen Hsub Hlive Htold]. split; snoc_actions; try done.
  intros i [Hi _]%Hlive. by exists acts, [].
Qed.

Lemma accounted_step acts a x a' :
  accounted acts a → spec_step joins a x a' → accounted (acts ++ [x]) a'.
Proof.
  intros Hacc Hstep. destruct Hstep as [a Hph|a i Hi|a Hph|a asked Hph Hcl|a Hph Hj Hcl];
    [by apply accounted_starts_step|by apply accounted_ends_step|by apply accounted_tells_step|..];
    destruct Hacc as [Hpos Hst Hen Hsub Hlive Htold]; split; snoc_actions; try done;
    intros i Hi; by apply was_told_app, Htold.
Qed.

Lemma accounted_steps acts a : steps (spec_step joins) nothing_started acts a → accounted acts a.
Proof.
  intros Hrun. remember nothing_started as a0. induction Hrun as [|a0 acts a x a' Hrun IH Hstep]; subst.
  - apply accounted_initial.
  - by eapply accounted_step; [apply IH|].
Qed.

Lemma not_open_steps acts a a' :
  phase_of a ≠ Open → steps (spec_step joins) a acts a' → phase_of a' ≠ Open ∧ starts acts = [].
Proof.
  intros Hph Hrun. induction Hrun as [|a acts a1 x a2 Hrun IH Hstep]; [done|].
  destruct (IH Hph) as [IH1 IH2]. rewrite starts_app, IH2. by destruct Hstep.
Qed.

(** A graceful shutdown, as a fact about the actions of a run. *)
Record graceful (acts : list action) : Prop := {
  (** sessions have unique numbers, in order; a session ends at most once *)
  graceful_numbers : ∃ n, starts acts = seqZ 0 n;
  graceful_ends : NoDup (ends acts) ∧ ends acts ⊆ starts acts;
  (** no session is started once the server is closed *)
  graceful_closed pre asked post : acts = pre ++ Closes asked :: post → starts post = [];
  (** when a server that joins leaves, all of its sessions have ended *)
  graceful_joined pre post : acts = pre ++ Leaves :: post → joins = true → starts acts ⊆ ends pre;
  (** when a server leaves, or closes because it was asked to, every session that has not ended was told *)
  graceful_told pre post : acts = pre ++ Leaves :: post ∨ acts = pre ++ Closes true :: post →
    ∀ i, i ∈ starts acts → i ∈ ends pre ∨ was_told pre i
}.

Lemma split_run acts a pre x post :
  steps (spec_step joins) nothing_started acts a → acts = pre ++ x :: post →
  ∃ a1 a2, accounted pre a1 ∧ spec_step joins a1 x a2 ∧ steps (spec_step joins) a2 post a.
Proof.
  intros Hrun ->. apply steps_split in Hrun as (a1 & a2 & Hpre & Hx & Hpost).
  exists a1, a2. split_and!; try done. by apply accounted_steps.
Qed.

Lemma steps_graceful acts a : steps (spec_step joins) nothing_started acts a → graceful acts.
Proof.
  intros Hrun. pose proof (accounted_steps _ _ Hrun) as Hacc. split.
  - exists (started a). apply Hacc.
  - split; [apply Hacc|]. intros i. apply Hacc.
  - intros pre asked post Heq. destruct (split_run _ _ _ _ _ Hrun Heq) as (a1 & a2 & _ & Hx & Hpost).
    eapply not_open_steps; [|done]. by inversion Hx; subst.
  - intros pre post Heq. destruct (split_run _ _ _ _ _ Hrun Heq) as (a1 & a2 & H1 & Hx & Hpost).
    inversion Hx as [| | | |? Hph Hlive Htold]; subst. intros Hj.
    assert (starts post = []) as Hnone by (by eapply not_open_steps; [|done]).
    rewrite starts_app. simpl. rewrite Hnone, app_nil_r. intros i Hi.
    destruct (decide (i ∈ ends pre)) as [|Hn]; [done|].
    assert (i ∈ live a1) as Hin by (by apply (accounted_live _ _ H1)).
    rewrite Hlive in Hin by done. by apply not_elem_of_empty in Hin.
  - intros pre post Hor.
    assert (∃ a1, accounted pre a1 ∧ live a1 ⊆ told a1 ∧ starts acts = starts pre)
      as (a1 & H1 & Htold & ->).
    { destruct Hor as [Heq|Heq]; destruct (split_run _ _ _ _ _ Hrun Heq) as (a1 & a2 & H1 & Hx & Hpost);
        exists a1; (split_and!; [done|inversion Hx; auto|]); subst; rewrite starts_app; simpl;
        (assert (starts post = []) as -> by (by eapply not_open_steps; [|done]; inversion Hx; subst));
        by rewrite app_nil_r. }
    intros i Hi. destruct (decide (i ∈ ends pre)) as [|Hn]; [by left|].
    right. apply (accounted_told _ _ H1), Htold. by apply (accounted_live _ _ H1).
Qed.
End Guarantees.

(** ** The interface *)

(** A server, as its clients see it: [server_actions s l] is what the step [l] from [s] does in terms of
    the specification; the server is [bounded] while its session numbers have not wrapped around. *)
Class GracefulServer (S L : Type) := {
  server_step : S → L → S → Prop;
  server_initial : S;
  server_actions : S → L → list action;
  server_abstract : S → abstract;
  server_joins : bool
}.
Definition bounded {S L : Type} `{!GracefulServer S L} (s : S) : Prop := (started (server_abstract s) < 2 ^ 64)%Z.

Class GracefulServerOk (S L : Type) `{!GracefulServer S L} := {
  server_invariant : S → Prop;
  server_invariant_initial : server_invariant server_initial;
  server_invariant_step : inductive_invariant server_step server_invariant;
  server_initial_abstract : server_abstract server_initial = nothing_started;
  server_bounded_back s l s' :
    server_invariant s → server_step s l s' → bounded s' → bounded s;
  server_simulates s l s' :
    server_invariant s → server_step s l s' → bounded s' →
    steps (spec_step server_joins) (server_abstract s) (server_actions s l) (server_abstract s')
}.

Section Clients.
Context {S L : Type} `{!GracefulServer S L, !GracefulServerOk S L}.

Lemma server_refines_spec acts s :
  performs server_step server_actions server_initial acts s → bounded s →
  steps (spec_step server_joins) nothing_started acts (server_abstract s).
Proof.
  rewrite <-server_initial_abstract.
  eapply (simulation _ _ _ _ server_invariant bounded);
    [exact server_invariant_step|exact server_bounded_back|exact server_simulates|].
  apply server_invariant_initial.
Qed.

Lemma server_is_graceful acts s :
  performs server_step server_actions server_initial acts s → bounded s →
  graceful server_joins acts.
Proof. intros Hrun Hb. by eapply steps_graceful, server_refines_spec. Qed.
End Clients.

(** Runs of the specification, action by action. *)
Section Runs.
Context (joins : bool).

Lemma spec_run a x acts a1 a2 :
  spec_step joins a x a1 → steps (spec_step joins) a1 acts a2 →
  steps (spec_step joins) a (x :: acts) a2.
Proof. intros Hx. apply (steps_app _ _ [x]). by apply steps_one. Qed.
Lemma spec_run_one a x a1 : spec_step joins a x a1 → steps (spec_step joins) a [x] a1.
Proof. apply steps_one. Qed.
End Runs.

(** ** Sessions in a map

    Each of the servers keeps a map, in which the value of a session tells whether it was told to stop. *)
Section Told.
Context {A : Type} (P : A → Prop) `{!∀ x, Decision (P x)}.
Implicit Types m : gmap Z A.

Definition told_in m : gset Z := dom (base.filter (λ p : Z * A, P p.2) m).

Lemma elem_of_told_in m i : i ∈ told_in m ↔ ∃ x, m !! i = Some x ∧ P x.
Proof.
  unfold told_in. rewrite elem_of_dom. unfold is_Some. by setoid_rewrite map_lookup_filter_Some.
Qed.
Lemma told_in_empty : told_in ∅ = ∅.
Proof. unfold told_in. by rewrite map_filter_empty, dom_empty_L. Qed.
Lemma told_in_insert m i x : m !! i = None → ¬ P x → told_in (<[i := x]> m) = told_in m.
Proof.
  intros Hi Hx. apply set_eq. intros j. rewrite !elem_of_told_in.
  destruct (decide (i = j)) as [<-|Hj].
  - rewrite lookup_insert_eq, Hi. naive_solver.
  - by rewrite lookup_insert_ne.
Qed.
Lemma told_in_delete m i : told_in (delete i m) = told_in m ∖ {[i]}.
Proof.
  apply set_eq. intros j. rewrite elem_of_difference, elem_of_singleton, !elem_of_told_in.
  destruct (decide (i = j)) as [->|Hi].
  - rewrite lookup_delete_eq. naive_solver.
  - rewrite lookup_delete_ne by done. naive_solver.
Qed.
Lemma told_in_fmap_same (f : A → A) m : (∀ x, P (f x) ↔ P x) → told_in (f <$> m) = told_in m.
Proof.
  intros Hf. apply set_eq. intros j. rewrite !elem_of_told_in, lookup_fmap.
  destruct (m !! j); simpl; naive_solver.
Qed.
Lemma told_in_all m : map_Forall (λ _, P) m → told_in m = dom m.
Proof.
  intros Hm. apply set_eq. intros j. rewrite elem_of_told_in, elem_of_dom. unfold is_Some.
  split; [naive_solver|]. intros [x Hx]. exists x. split; [done|]. by apply (Hm j).
Qed.
End Told.
