(* ===== verification/Servers.v ===== *)
(** * The four servers of cancellation/ implement the specification

    A Module per program: its state in terms of ServerSpec.v, what each of its steps does there, the simulation,
    and the instance of the interface; Module Promised is shared by the two programs that keep promises. *)
From S2P Require Import Prelude Asio EchoAdvanced EchoPromise EchoSignal ServerSpec.

(** ** echo_coro_signal_advanced.cpp *)
Module Advanced.
Import EchoAdvanced.Server.
Section Model.
Context `{!CancellationTypes, !CancellationState} {C : Type} `{!Channel C}.

(** A session was told to stop when a cancellation type other than [none] was emitted to it. *)
Definition told_to_stop (emitted : list cancellation_type) : Prop := Exists (λ ct, ct ≠ none) emitted.
#[export] Instance told_to_stop_dec emitted : Decision (told_to_stop emitted).
Proof. apply _. Defined.
Lemma told_to_stop_snoc emitted ct :
  told_to_stop (emitted ++ [ct]) ↔ told_to_stop emitted ∨ ct ≠ none.
Proof. unfold told_to_stop. rewrite Exists_app, Exists_cons, Exists_nil. tauto. Qed.

Definition informed (s : state C) : gset Z := told_in told_to_stop (sessions s).

Definition phase_of_pc (pc : program_counter) : phase :=
  match pc with Accepting => Open | Receiving => Closing | Finished => Gone end.
Definition abstraction (s : state C) : abstract :=
  Abstract (phase_of_pc (pc s)) (live s) (informed s) (created s).

Definition leaves (s' : state C) : list action := if decide (pc s' = Finished) then [Leaves] else [].
Definition tells (s : state C) : list action := if decide (cancelled s = none) then [] else [Tells].

Definition actions (s : state C) (l : label) : list action :=
  match l with
  | Accepted ec =>
      (if failed ec then [] else [Starts (id s)]) ++ tells s ++
      (if decide (pc (on_accepted ec s) = Accepting) then []
       else Closes (bool_decide (cancelled s ≠ none)) :: leaves (on_accepted ec s))
  | SessionFinished i => [Ends i]
  | Signalled _ => []
  | Received => tells s ++ leaves (on_received s)
  end.

Context `{!CancellationTypesOk, !ChannelOk C}.
Implicit Types s : state C.

Lemma informed_forward_none s : cancelled s = none → informed (forward s) = informed s.
Proof.
  intros Hc. apply told_in_fmap_same. intros em. rewrite told_to_stop_snoc, Hc. naive_solver.
Qed.

Lemma informed_forward s : cancelled s ≠ none → dom (sessions s) = live s →
  informed (forward s) = live s.
Proof.
  intros Hc <-. unfold informed. rewrite told_in_all; simpl; [by rewrite dom_fmap_L|].
  intros i em. rewrite lookup_fmap. intros (em' & _ & ->)%fmap_Some.
  apply told_to_stop_snoc. by right.
Qed.

Lemma informed_spawn s : sessions s !! id s = None → informed (spawn s) = informed s.
Proof.
  intros Hn. unfold informed. simpl. rewrite Hn. apply told_in_insert; [done|].
  intros Ht. by inversion Ht.
Qed.

Lemma simulates_spawn s :
  pc s = Accepting → (0 <= created s)%Z → (created s < 2 ^ 64)%Z → consistent s →
  spec_step true (abstraction s) (Starts (id s)) (abstraction (spawn s)).
Proof.
  intros Hpc Hpos Hmax [Hid Hdom Hfresh]. unfold abstraction. rewrite informed_spawn.
  - rewrite Hid. simpl. rewrite Hpc, Hid. by apply (spec_starts true (Abstract Open _ _ _)).
  - apply not_elem_of_dom. rewrite Hdom. intros Hin%Hfresh. lia.
Qed.

Lemma simulates_forward s :
  pc s ≠ Finished → dom (sessions s) = live s →
  steps (spec_step true) (abstraction s) (tells s) (abstraction (forward s)).
Proof.
  intros Hpc Hdom. unfold tells, abstraction. destruct (decide (cancelled s = none)) as [Hc|Hc].
  - rewrite informed_forward_none by done. constructor.
  - rewrite informed_forward by done. apply spec_run_one.
    apply (spec_tells true (Abstract _ _ _ _)). simpl. by destruct (pc s).
Qed.

Lemma simulates_wait s :
  pc s ≠ Finished → dom (sessions s) = live s →
  (pc s = Receiving →
   steps (spec_step true) (abstraction s) (leaves (wait_for_sessions s)) (abstraction (wait_for_sessions s)))
  ∧ (∀ asked, pc s = Accepting → (asked = true → live s ⊆ informed s) →
   steps (spec_step true) (abstraction s) (Closes asked :: leaves (wait_for_sessions s))
     (abstraction (wait_for_sessions s))).
Proof.
  intros Hpc Hdom. unfold leaves, wait_for_sessions, abstraction, informed.
  destruct (decide (sessions s = ∅)) as [Hem|Hem]; simpl.
  - assert (live s = ∅) as Hlive by (by rewrite <-Hdom, Hem, dom_empty_L).
    split; [intros ->|intros asked -> Hinf; eapply spec_run; [by constructor|]];
      apply spec_run_one; (apply (spec_leaves true (Abstract Closing _ _ _)); simpl; [done|done|]);
      rewrite Hlive; apply empty_subseteq.
  - split; [intros ->; constructor|intros asked -> Hinf].
    apply spec_run_one. by apply (spec_closes true (Abstract Open _ _ _)).
Qed.

Lemma abstraction_start_accept s : pc s = Accepting → abstraction (start_accept s) = abstraction s.
Proof. intros Hpc. unfold abstraction, informed. simpl. by rewrite Hpc. Qed.

Lemma advanced_simulates_accepted ec s :
  pc s = Accepting → inv s → (created (on_accepted ec s) < 2 ^ 64)%Z →
  steps (spec_step true) (abstraction s) (actions s (Accepted ec)) (abstraction (on_accepted ec s)).
Proof.
  intros Hpc Hinv. destruct (on_accepted_effect ec s) as (_ & -> & _). simpl.
  set (s1 := if failed ec then s else spawn s). intros Hmax.
  assert (pc s1 = Accepting ∧ cancelled s1 = cancelled s) as [Hpc1 Hc1]
    by (subst s1; by destruct (failed ec)).
  assert (consistent s1 ∧ steps (spec_step true) (abstraction s)
    (if failed ec then [] else [Starts (id s)]) (abstraction s1)) as [Hcons Hspawn].
  { destruct Hinv as [Hpos _ Hc _ _]. subst s1. destruct (failed ec); simpl in *.
    - split; [by apply Hc|constructor].
    - split; [apply spawn_consistent; [done..|apply Hc; lia]|].
      apply spec_run_one, simulates_spawn; [done..|lia|apply Hc; lia]. }
  eapply steps_app; [exact Hspawn|].
  assert (tells s = tells s1) as -> by (unfold tells; by rewrite Hc1).
  eapply steps_app; [apply simulates_forward; [by rewrite Hpc1|apply Hcons]|].
  assert (dom (sessions (forward s1)) = live (forward s1)) as Hdom.
  { simpl. rewrite dom_fmap_L. apply Hcons. }
  unfold on_accepted. fold s1. rewrite Hc1. destruct (decide (cancelled s = total)) as [Ht|Ht].
  { rewrite abstraction_start_accept by done. rewrite decide_True by done. constructor. }
  destruct (failed ec || bool_decide (cancelled s ≠ none)) eqn:Hleave.
  - destruct (wait_for_sessions_spec (forward s1)) as (_ & _ & _ & _ & Hna & _).
    rewrite decide_False by done.
    apply (simulates_wait (forward s1)); [simpl; by rewrite Hpc1|done|done|].
    intros Hasked%bool_decide_eq_true. rewrite informed_forward; [done|by rewrite Hc1|apply Hcons].
  - apply orb_false_iff in Hleave as [_ Hn%bool_decide_eq_false]. apply dec_stable in Hn.
    rewrite decide_True by done. rewrite abstraction_start_accept by done.
    unfold abstraction. rewrite informed_forward_none by (by rewrite Hc1). constructor.
Qed.

Lemma simulates_received s :
  pc s = Receiving → consistent s →
  steps (spec_step true) (abstraction s) (actions s Received) (abstraction (on_received s)).
Proof.
  intros Hpc Hcons. simpl. unfold on_received.
  set (s1 := if decide (cancelled s = none) then s else forward s).
  assert (steps (spec_step true) (abstraction s) (tells s) (abstraction s1)) as Htells.
  { pose proof (simulates_forward s) as Hf. unfold tells in *. subst s1.
    destruct (decide (cancelled s = none)); [constructor|]. apply Hf; [by rewrite Hpc|apply Hcons]. }
  assert (pc s1 = Receiving ∧ dom (sessions s1) = live s1) as [Hpc1 Hdom1].
  { subst s1. destruct (decide (cancelled s = none)); simpl; rewrite ?dom_fmap_L; (split; [done|apply Hcons]). }
  eapply steps_app; [exact Htells|]. apply simulates_wait; [by rewrite Hpc1|done|done].
Qed.

#[global] Instance advanced_server : GracefulServer (state C) label := {|
  server_step := step;
  server_initial := initial;
  server_actions := actions;
  server_abstract := abstraction;
  server_joins := true
|}.

#[global] Instance advanced_server_ok : GracefulServerOk (state C) label.
Proof.
  refine {| server_invariant := inv |}.
  - apply server_inv_initial.
  - apply server_inv_inductive.
  - unfold server_abstract. simpl. unfold abstraction, informed. simpl.
    by rewrite told_in_empty.
  - intros s l s' _ Hstep. unfold bounded. simpl. destruct Hstep as [s ec Hpc|s i Hi|s sig Hpc|s Hpc Hr]; simpl.
    + destruct (on_accepted_effect ec s) as (_ & -> & _). destruct (failed ec); simpl; lia.
    + done.
    + done.
    + unfold on_received. destruct (wait_for_sessions_spec
        (if decide (cancelled s = none) then s else forward s)) as (_ & _ & _ & -> & _).
      by case_decide.
  - intros s l s' Hinv Hstep Hb. unfold bounded in Hb. simpl in *.
    destruct Hstep as [s ec Hpc|s i Hi|s sig Hpc|s Hpc Hr].
    + by apply advanced_simulates_accepted.
    + apply spec_run_one. unfold abstraction.
      unfold informed. simpl. rewrite told_in_delete. by apply (spec_ends true (Abstract _ _ _ _)).
    + change (abstraction (on_signal sig s)) with (abstraction s). constructor.
    + apply simulates_received; [done|]. apply (inv_consistent s Hinv).
      revert Hb. unfold on_received. destruct (wait_for_sessions_spec
        (if decide (cancelled s = none) then s else forward s)) as (_ & _ & _ & -> & _).
      by case_decide.
Qed.
End Model.
End Advanced.

(** ** echo_coro_signal.cpp *)
Module Sockets.
Import EchoSignal.

Definition is_shut (x : socket_state) : bool := match x with Shut => true | Open => false end.
Definition informed (s : state) : gset Z := told_in is_shut (sockets s).
Definition phase_of_pc (pc : program_counter) : phase :=
  match pc with Accepting => ServerSpec.Open | Draining => Closing | Finished => Gone end.
Definition abstraction (s : state) : abstract :=
  Abstract (phase_of_pc (pc s)) (live s) (informed s) (created s).

Definition leaves (s : state) : list action := if decide (sockets s = ∅) then [Leaves] else [].
Definition actions (s : state) (l : label) : list action :=
  match l with
  | Accepted ec =>
      if failed ec then Closes (bool_decide (ec = Operation_canceled)) :: leaves s
      else [Starts (id s)]
  | SessionFinished i => [Ends i]
  | SignalHandled _ => if frame_gone s then [] else [Tells]
  | Posted => leaves s
  | AcceptCompletes _ | SignalArrives => []
  end.

(** The accept is cancelled by the signal handler only, which shuts all sockets. *)
Definition invariant (s : state) : Prop :=
  inv s ∧ (pc s = Accepting → accept s = Completed Operation_canceled →
           map_Forall (λ _, is_shut) (sockets s)).

Lemma shut_all (m : gmap Z socket_state) : map_Forall (λ _, is_shut) ((λ _, Shut) <$> m).
Proof. intros i x. rewrite lookup_fmap. by intros (y & _ & ->)%fmap_Some. Qed.

Lemma drain_pc s : pc (drain s) ≠ Accepting.
Proof. unfold drain. by destruct (decide (sockets s = ∅)). Qed.

Lemma sockets_invariant_step : inductive_invariant step invariant.
Proof.
  intros s l s' [Hinv Hshut] Hstep. split; [by eapply sockets_inv_inductive|].
  destruct Hstep as [s ec _ Hpc Hacc Hec|s ec _ Hpc Hacc|s|s f|s i|s]; simpl; try done.
  - congruence.
  - unfold on_accepted. destruct (failed ec); [|done]. intros Hd. by destruct (drain_pc s).
  - intros _ _. apply shut_all.
  - intros Hpc Hacc. by apply map_Forall_delete, Hshut.
  - intros Hd. by destruct (drain_pc s).
Qed.

Lemma simulates_drain s :
  pc s ≠ Finished → dom (sockets s) = live s →
  (pc s = Draining → steps (spec_step true) (abstraction s) (leaves s) (abstraction (drain s)))
  ∧ (∀ asked, pc s = Accepting → (asked = true → live s ⊆ informed s) →
     steps (spec_step true) (abstraction s) (Closes asked :: leaves s) (abstraction (drain s))).
Proof.
  intros Hpc Hdom. unfold leaves, drain, abstraction, informed.
  destruct (decide (sockets s = ∅)) as [Hem|Hem]; simpl.
  - rewrite Hem, told_in_empty in *. rewrite dom_empty_L in Hdom. rewrite <-Hdom.
    split; [intros ->|intros asked -> Hinf; eapply spec_run; [by constructor|]];
      apply spec_run_one; by apply (spec_leaves true (Abstract Closing _ _ _)).
  - split; [intros ->; constructor|intros asked -> Hinf].
    apply spec_run_one. by apply (spec_closes true (Abstract ServerSpec.Open _ _ _)).
Qed.

Lemma sockets_simulates_accepted s ec :
  pc s = Accepting → accept s = Completed ec → invariant s → (created (on_accepted ec s) < 2 ^ 64)%Z →
  steps (spec_step true) (abstraction s) (actions s (Accepted ec)) (abstraction (on_accepted ec s)).
Proof.
  intros Hpc Hacc [[Hpos Hs Hf] Hshut]. unfold on_accepted. simpl. destruct (failed ec) eqn:Hec.
  - replace (created (drain s)) with (created s) by (unfold drain; by case_decide).
    intros Hmax. destruct (Hs Hmax) as (Hid & Hdom & Hfr).
    apply simulates_drain; [by rewrite Hpc|done|done|]. intros Hasked%bool_decide_eq_true.
    unfold informed. rewrite told_in_all; [by rewrite Hdom|]. apply Hshut; congruence.
  - simpl. intros Hmax. destruct Hs as (Hid & Hdom & Hfr); [lia|].
    assert (sockets s !! id s = None) as Hnew.
    { apply not_elem_of_dom. rewrite Hdom. intros Hin%Hfr. lia. }
    apply spec_run_one. unfold abstraction, informed. simpl. rewrite Hnew, Hpc, told_in_insert by (done || intros []).
    rewrite Hid. by apply (spec_starts true (Abstract ServerSpec.Open _ _ _)).
Qed.

#[global] Instance sockets_server : GracefulServer state label := {|
  server_step := step;
  server_initial := initial;
  server_actions := actions;
  server_abstract := abstraction;
  server_joins := true
|}.

#[global] Instance sockets_server_ok : GracefulServerOk state label.
Proof.
  refine {| server_invariant := invariant |}.
  - split; [apply sockets_inv_initial|done].
  - apply sockets_invariant_step.
  - done.
  - intros s l s' _ Hstep. unfold bounded. simpl.
    destruct Hstep as [s ec|s ec|s|s f|s i|s]; simpl; try done; unfold on_accepted, drain;
      try destruct (failed ec); try case_decide; simpl; lia.
  - intros s l s' Hinv Hstep Hb. unfold bounded in Hb. simpl in *.
    destruct Hstep as [s ec|s ec|s|s f Hc Hq|s i Hc Hi|s Hc Hpc].
    + constructor.
    + by apply sockets_simulates_accepted.
    + constructor.
    + destruct Hinv as [[Hpos Hs Hf] _]. destruct (Hs Hb) as (_ & Hdom & _). simpl. unfold frame_gone.
      unfold abstraction, informed. simpl. rewrite (told_in_all _ (_ <$> _)) by apply shut_all.
      rewrite dom_fmap_L, Hdom. destruct (pc s) eqn:Hpc.
      1, 2: apply spec_run_one; by apply (spec_tells true (Abstract _ _ _ _)).
      assert (sockets s = ∅) as -> by (apply dom_empty_inv_L; rewrite Hdom; auto).
      rewrite told_in_empty, Hf by done. constructor.
    + apply spec_run_one. unfold abstraction, informed. simpl. rewrite told_in_delete.
      by apply (spec_ends true (Abstract _ _ _ _)).
    + destruct Hinv as [[Hpos Hs Hf] _]. apply simulates_drain; [by rewrite Hpc| |done].
      apply Hs. revert Hb. unfold drain. by case_decide.
Qed.
End Sockets.

(** ** The map of promises *)
Module Promised.
Import Registry.
Section Map.
Context `{!CancellationTypes, !Promises}.
Implicit Types r : registry.

Definition informed r : gset Z := told_in (λ c, c ≠ none) (tasks r).
Definition abstraction (ph : phase) r (created : Z) : abstract :=
  Abstract ph (dom (tasks r)) (informed r) created.

Lemma finish_deletes i r : tasks (finish i r) = delete i (tasks r).
Proof.
  unfold finish. destruct (tasks r !! i) eqn:Hi; [by case_decide|]. by rewrite delete_id.
Qed.

Lemma simulates_finish ph i r n : i ∈ dom (tasks r) →
  steps (spec_step false) (abstraction ph r n) [Ends i] (abstraction ph (finish i r) n).
Proof.
  intros Hi. apply spec_run_one. unfold abstraction, informed.
  rewrite finish_deletes, dom_delete_L, told_in_delete. by apply (spec_ends false (Abstract _ _ _ _)).
Qed.

Lemma simulates_emplace i r :
  i ∉ dom (tasks r) → i ∉ sessions r →
  spec_step false (abstraction Open r i) (Starts i) (abstraction Open (emplace i r) (i + 1)).
Proof.
  intros Hi Hs. unfold abstraction, informed. simpl.
  rewrite decide_False, dom_insert_L, told_in_insert; [|by apply not_elem_of_dom|tauto|done].
  by apply (spec_starts false (Abstract Open _ _ _)).
Qed.

Context `{!PromisesOk}.

(** The map is destroyed: every task is told, then the memory goes away. *)
Lemma simulates_destroy ph r n : owner r = true → safe r → ph ≠ Gone →
  spec_step false (abstraction ph r n) Tells (abstraction ph (destroy r) n)
  ∧ live (abstraction ph (destroy r) n) ⊆ told (abstraction ph (destroy r) n).
Proof.
  intros Ho Hsafe Hph. pose proof (destroy_safe r Hsafe) as [_ _ _ Hdead].
  unfold abstraction, informed.
  rewrite (told_in_all _ (tasks (destroy r))), tasks_destroy by (intros i c; by apply Hdead).
  split; [|done]. by apply (spec_tells false (Abstract _ _ _ _)).
Qed.
End Map.
End Promised.

(** ** echo_coro_signal_cancellation.cpp *)
Module Tasks.
Import Registry SignalCancellation.
Section Model.
Context `{!CancellationTypes, !Promises}.

Definition phase_of_pc (pc : program_counter) : phase :=
  match pc with Accepting => Open | Finished => Gone end.
Definition abstraction (s : state) : abstract :=
  Promised.abstraction (phase_of_pc (pc s)) (frame s) (created s).

Definition actions (s : state) (l : label) : list action :=
  match l with
  | Accepted ec =>
      (if failed ec then [] else [Starts (id s)]) ++
      (if failed ec || bool_decide (cancelled s ≠ none)
       then [Tells; Closes (bool_decide (cancelled s ≠ none)); Leaves] else [])
  | TaskFinished i => [Ends i]
  | Signalled _ => []
  end.

#[global] Instance tasks_server : GracefulServer state label := {|
  server_step := step;
  server_initial := initial;
  server_actions := actions;
  server_abstract := abstraction;
  server_joins := false
|}.

Context `{!PromisesOk}.

Lemma simulates_clear (r : registry) (n : Z) (asked : bool) : owner r = true → safe r →
  steps (spec_step false) (Promised.abstraction Open r n) [Tells; Closes asked; Leaves]
    (Promised.abstraction Gone (destroy r) n).
Proof.
  intros Ho Hsafe. destruct (Promised.simulates_destroy Open r n Ho Hsafe) as [Htells Htold]; [done|].
  eapply spec_run; [exact Htells|]. eapply spec_run.
  - by apply (spec_closes false (Abstract Open _ _ _)).
  - apply spec_run_one. by apply (spec_leaves false (Abstract Closing _ _ _)).
Qed.

Lemma tasks_simulates_accepted s ec :
  pc s = Accepting → inv s → (created (on_accepted ec s) < 2 ^ 64)%Z →
  steps (spec_step false) (abstraction s) (actions s (Accepted ec)) (abstraction (on_accepted ec s)).
Proof.
  intros Hpc Hinv. unfold on_accepted. simpl. set (s1 := if failed ec then s else _).
  intros Hmax. assert (created s1 < 2 ^ 64)%Z as Hmax1.
  { revert Hmax. by destruct (failed ec || _). }
  assert (inv s1 ∧ pc s1 = Accepting ∧ cancelled s1 = cancelled s ∧
    steps (spec_step false) (abstraction s) (if failed ec then [] else [Starts (id s)]) (abstraction s1))
    as (Hinv1 & Hpc1 & Hc1 & Hstart).
  { subst s1. destruct (failed ec); [split_and!; try done; constructor|].
    split_and!; [by apply spawned_inv|done|done|]. apply spec_run_one.
    destruct Hinv as [_ Hown Hs]. destruct Hs as (Hsafe & Hid & Hfresh); [simpl in Hmax1; lia|].
    unfold abstraction. simpl. rewrite Hpc, <-Hid. simpl.
    assert (id s ∉ dom (tasks (frame s))) as Hnew by (intros Hin%Hfresh; lia).
    apply Promised.simulates_emplace; [done|].
    rewrite <-safe_dom; [done|done|by apply Hown]. }
  clearbody s1. rewrite Hc1. eapply steps_app; [exact Hstart|].
  destruct (failed ec || bool_decide (cancelled s ≠ none)); [|constructor].
  destruct Hinv1 as [_ Hown Hs]. destruct (Hs Hmax1) as (Hsafe & _ & _).
  unfold abstraction. rewrite Hpc1. apply simulates_clear; [by apply Hown|done].
Qed.

#[global] Instance tasks_server_ok : GracefulServerOk state label.
Proof.
  refine {| server_invariant := inv |}.
  - apply tasks_inv_initial.
  - apply tasks_inv_inductive.
  - unfold server_abstract. simpl. unfold abstraction, Promised.abstraction, Promised.informed.
    simpl. by rewrite told_in_empty, dom_empty_L.
  - intros s l s' _ Hstep. unfold bounded. simpl. destruct Hstep as [s ec|s i|s ct]; simpl; try done.
    unfold on_accepted. destruct (failed ec); simpl; [done|]. case_bool_decide; simpl; lia.
  - intros s l s' Hinv Hstep Hb. unfold bounded in Hb. simpl in *.
    destruct Hstep as [s ec Hpc|s i Hi|s ct Hpc].
    + by apply tasks_simulates_accepted.
    + by apply Promised.simulates_finish.
    + constructor.
Qed.
End Model.
End Tasks.

(** ** echo_class.cpp *)
Module Object.
Import Registry EchoClass.
Section Model.
Context `{!CancellationTypes, !Promises}.

(** The object is gone when it was destroyed, whatever its accept loop is doing; an accept loop that has
    ended leaves the object, and its sessions, alone. *)
Definition phase_of_object (s : state) : phase :=
  if owner (object s) then match run s with Accepting => Open | _ => Closing end else Gone.
Definition abstraction (s : state) : abstract :=
  Promised.abstraction (phase_of_object s) (object s) (created s).

Definition actions (s : state) (l : label) : list action :=
  match l with
  | Accepted ec =>
      if failed ec || bool_decide (cancelled s ≠ none) then
        if owner (object s) then [Closes (bool_decide (cancelled s ≠ none))] else []
      else [Starts (id s)]
  | TaskFinished i => [Ends i]
  | Destroyed => match run s with Accepting => [Tells; Closes true; Leaves] | _ => [Tells; Leaves] end
  end.

(** Only the destructor cancels the accept loop. *)
Definition invariant (s : state) : Prop :=
  inv s ∧ (owner (object s) = true → cancelled s = none).

#[global] Instance object_server : GracefulServer state label := {|
  server_step := step;
  server_initial := initial;
  server_actions := actions;
  server_abstract := abstraction;
  server_joins := false
|}.

Context `{!PromisesOk}.

Lemma object_invariant_step : inductive_invariant step invariant.
Proof.
  intros s l s' [Hinv Hc] Hstep. split; [by eapply object_inv_inductive|].
  destruct Hstep as [s ec Hrun|s i Hi|s Ho]; simpl; [|by rewrite owner_finish|done].
  unfold on_accepted. destruct (failed ec); [done|]. by case_bool_decide.
Qed.

Lemma object_simulates_accepted s ec :
  run s = Accepting → invariant s → (created (on_accepted ec s) < 2 ^ 64)%Z →
  steps (spec_step false) (abstraction s) (actions s (Accepted ec)) (abstraction (on_accepted ec s)).
Proof.
  intros Hrun [[Hpos Hcan Hs] Hc] Hmax. unfold on_accepted in *. simpl.
  destruct (owner (object s)) eqn:Ho.
  - rewrite Hc in * by done. rewrite (bool_decide_eq_false_2 (none ≠ none)) in * by naive_solver.
    unfold abstraction, phase_of_object. destruct (failed ec); simpl in *; rewrite Ho, Hrun.
    + apply spec_run_one. by apply (spec_closes false (Abstract Open _ _ _)).
    + destruct Hs as (Hsafe & Hid & Hfresh); [lia|]. apply spec_run_one. rewrite <-Hid.
      assert (id s ∉ dom (tasks (object s))) as Hnew by (intros Hin%Hfresh; lia).
      apply Promised.simulates_emplace; [done|]. by rewrite <-safe_dom.
  - rewrite (bool_decide_eq_true_2 (cancelled s ≠ none)) in * by auto. rewrite orb_true_r.
    unfold abstraction, phase_of_object.
    destruct (failed ec); simpl; rewrite Ho; constructor.
Qed.

Lemma simulates_reset s :
  owner (object s) = true → safe (object s) →
  steps (spec_step false) (abstraction s) (actions s Destroyed) (abstraction (on_reset s)).
Proof.
  intros Ho Hsafe. unfold abstraction, phase_of_object. simpl. rewrite Ho.
  destruct (run s); [by apply Tasks.simulates_clear|..].
  all: destruct (Promised.simulates_destroy Closing (object s) (created s) Ho Hsafe) as [Htells Htold];
    [done|]; eapply spec_run; [exact Htells|]; apply spec_run_one;
    by apply (spec_leaves false (Abstract Closing _ _ _)).
Qed.

#[global] Instance object_server_ok : GracefulServerOk state label.
Proof.
  refine {| server_invariant := invariant |}.
  - split; [apply object_inv_initial|done].
  - apply object_invariant_step.
  - unfold server_abstract. simpl. unfold abstraction, Promised.abstraction, Promised.informed.
    simpl. by rewrite told_in_empty, dom_empty_L.
  - intros s l s' _ Hstep. unfold bounded. simpl. destruct Hstep as [s ec|s i|s]; simpl; try done.
    unfold on_accepted. destruct (failed ec); simpl; [done|]. case_bool_decide; simpl; lia.
  - intros s l s' Hinv Hstep Hb. unfold bounded in Hb. simpl in *.
    destruct Hstep as [s ec Hrun|s i Hi|s Ho].
    + by apply object_simulates_accepted.
    + unfold abstraction, phase_of_object. simpl. rewrite owner_finish. by apply Promised.simulates_finish.
    + apply simulates_reset; [done|]. destruct Hinv as [[_ _ Hs] _]. by apply Hs.
Qed.
End Model.
End Object.

(** ** Properties *)

(** The state of [S] after a run of the server from its start, with at most 2^64 - 1 sessions so far, and
    the actions performed. *)
Definition server_run {S L : Type} `{!GracefulServer S L} (acts : list action) (s : S) : Prop :=
  performs server_step server_actions server_initial acts s ∧ bounded s.



(** ** Witnesses *)

(** One session of echo_coro_signal_advanced.cpp is accepted and interrupted by SIGINT; the server waits for it. *)
#[local] Instance unbuffered : Channel bool := {|
  new_channel := false;
  receive_pending c := c;
  async_receive _ := true;
  cancel_receive _ := false;
  try_send c := (c, false)
|}.
#[local] Instance unbuffered_ok : ChannelOk bool.
Proof. by split. Qed.
#[local] Instance every_signal : CancellationState := {| deliver _ _ ct := ct |}.

Module Example_run.
Import EchoAdvanced.Server.
Definition s1 : state bool := on_accepted Success initial.
Definition s2 : state bool := on_signal SIGINT s1.
Definition s3 : state bool := on_accepted Operation_canceled s2.
Definition s4 : state bool := on_session_finished 0 s3.
Definition s5 : state bool := on_received s4.
Definition acts : list action := [Starts 0; Tells; Closes true; Ends 0; Leaves].

Lemma runs : server_run acts s5.
Proof.
  split; [|by vm_compute].
  change acts with (((((([] ++ [Starts 0]) ++ []) ++ [Tells; Closes true]) ++ [Ends 0]) ++ [Leaves])).
  eapply (performs_one_more _ _ _ _ s4 Received); [|by constructor|by vm_compute].
  eapply (performs_one_more _ _ _ _ s3 (SessionFinished 0)); [|by constructor; vm_compute|by vm_compute].
  eapply (performs_one_more _ _ _ _ s2 (Accepted Operation_canceled)); [|by constructor|by vm_compute].
  eapply (performs_one_more _ _ _ _ s1 (Signalled SIGINT)); [|by constructor|by vm_compute].
  eapply (performs_one_more _ _ _ _ initial (Accepted Success)); [constructor|by constructor|by vm_compute].
Qed.
End Example_run.


