(* ===== verification/Client.v ===== *)
(** * bin/client.cpp and bin/corosio_client.cpp: the load generators

    Both write a test pattern as fast as they can, up to a limit, and count what
    comes back.  Module Client is the Boost.Asio program, Module CorosioClient the
    corosio one; they differ in how the size of the next chunk is computed. *)
From stdpp Require Import pretty.
From S2P Require Import Prelude Asio Wp Copy Script Core.

(** [0..255, 0..255, ...]: a [uint8_t] that is incremented. *)
Definition pattern_byte (i : nat) : byte := default x00 (Byte.of_nat (i mod 256)).
Definition pattern (n : Z) : list byte := pattern_byte <$> seq 0 (Z.to_nat n).

Lemma zlen_pattern n : (0 <= n)%Z → zlen (pattern n) = n.
Proof. intros. unfold zlen, pattern. rewrite length_fmap, length_seq. lia. Qed.

Module Client.
Record ClientConfig := {
  buffer_size : Z;
  size : option Z;
  duration : option Asio.duration
}.
(** The default member initializers. *)
Definition default_config : ClientConfig :=
  {| buffer_size := operator_k 64; size := None; duration := Some (10 ^ 9)%Z |}.

Section Program.
Context {W : Type} `{!CancellationTypes, !Cancellation W, !Streams W, !Spawning W, !Networking W,
  !WhenAll W}.

(** [std::min(total - size, data.size())], on [size_t]. *)
Definition chunk_size (total size len : Z) : Z := Z.min (total -ₛ size) len.

Definition write_loop (config : ClientConfig) (fuel : nat) (socket : handle) : awaitable W Z :=
  let size := default size_max (size config) in
  let data := pattern (buffer_size config) in
  total ← loop fuel (λ total,
    if (total <? size)%Z then
      try_catch
        (let n := chunk_size total size (zlen data) in
         k ← deferred (async_write_some socket (ztake n data));
         mret (inl (total +ₛ k)))
        (λ ex, match ex with
               | system_error ec =>
                   if bool_decide (ec = Operation_canceled) then mret (inr total) else throw ex
               | _ => throw ex
               end)
    else mret (inr total)) 0%Z;
  _ ← shutdown socket shutdown_send;
  mret total.

Definition write (config : ClientConfig) (fuel : nat) (socket : handle) : awaitable W Z :=
  match duration config with
  | Some d => co_spawn (Some d) (write_loop config fuel socket)
  | None => co_await (write_loop config fuel socket)
  end.

Definition read (config : ClientConfig) (fuel : nat) (socket : handle) : awaitable W Z :=
  loop fuel (λ total,
    try_catch
      (data ← deferred (async_read_some socket (buffer_size config));
       mret (inl (total +ₛ zlen data)))
      (λ ex, match ex with
             | system_error ec =>
                 if bool_decide (ec = Eof) || bool_decide (ec = Operation_canceled)
                 then mret (inr total) else throw ex
             | _ => throw ex
             end)) 0%Z.

(** An address is used as it is, anything else is resolved. *)
Definition find_endpoints (host : string) (port : Z) : awaitable W (list endpoint) :=
  match make_address host with
  | Some addr => mret [(addr, port)]
  | None => deferred (async_resolve host (pretty port))
  end.

(** [write(socket) && read(socket)] is the library's. *)
Definition run (config : ClientConfig) (fuel : nat) (socket : handle) (host : string) (port : Z) :
    awaitable W Z :=
  endpoints ← find_endpoints host port;
  _ ← deferred (async_connect socket endpoints);
  '(nwrite, nread) ← co_await (when_all (write config fuel socket) (read config fuel socket));
  mret nread.
End Program.

(** The checks and settings of [main], after parsing: the number of contexts, or an
    error. *)
Record Config := {
  connections : Z;
  threads : Z;
  run_duration : seconds
}.
Definition main_threads (config : Config) (debug : bool) : option Z :=
  if (threads config =? 0)%Z then None
  else if seconds_negative (run_duration config) then None
  else Some (Z.min (if debug then 1 else threads config) (connections config)).

(** [main], after the parsing of the command line ([None] is a [po::error]): an exit code, or the
    contexts to run, the connections to open on them, their time limit, and whether debugging is on. *)
Record options := Options { help : bool; debug : bool; config : Config }.
Inductive action := Exit (code : Z) | Connect (contexts clients : Z) (limit : Asio.duration) (debug : bool).
Definition main (parsed : option options) : action :=
  match parsed with
  | None => Exit 1
  | Some o =>
      if help o then Exit 1
      else
        match main_threads (config o) (debug o) with
        | None => Exit 1
        | Some n => Connect n (connections (config o)) (seconds_cast (run_duration (config o))) (debug o)
        end
  end.

(** [io_contexts[i % io_contexts.size()]] *)
Definition context_of (i threads : Z) : Z := (i mod threads)%Z.

(** The results of the clients: the errors to print, and the total. *)
Fixpoint collect (total : Z) (futures : list (exception_ptr * Z)) : list exn * Z :=
  match futures with
  | [] => ([], total)
  | (ep, bytes) :: futures =>
      let (errors, total) := collect (total +ₛ bytes) futures in
      (match ep with Some e => e :: errors | None => errors end, total)
  end.

(** [total * 1000 / 1024 / 1024 / dt.count()], on [size_t]. *)
Definition mib_per_second (total elapsed_ms : Z) : Z :=
  let dt := Z.max 1 elapsed_ms in
  ((total *ₛ 1000) / 1024 / 1024 / dt)%Z.
End Client.

Module CorosioClient.
Record ClientConfig := {
  buffer_size : Z;
  size : option Z;
  duration : option Asio.duration
}.

Section Program.
Context {W : Type} `{!Streams W, !Networking W, !Clock W, !WhenAll W}.

Definition chunk_size (total limit len : Z) : Z := Z.min (limit -ₛ total) len.

Definition write_loop (fuel : nat) (socket : handle) (config : ClientConfig) : awaitable W Z :=
  let payload := pattern (buffer_size config) in
  let limit := default size_max (size config) in
  start ← gets now;
  let deadline := (λ d, (start + d)%Z) <$> duration config in
  total ← loop fuel (λ total,
    if (total <? limit)%Z then
      t ← gets now;
      if match deadline with Some d => (d <=? t)%Z | None => false end then mret (inr total)
      else
        '(wec, wn) ← op_write socket (ztake (chunk_size total limit (zlen payload)) payload);
        if failed wec then mret (inr total) else mret (inl (total +ₛ wn))
    else mret (inr total)) 0%Z;
  _ ← shutdown socket shutdown_send;
  mret total.

Definition read_loop (fuel : nat) (socket : handle) (buffer_size : Z) : awaitable W Z :=
  loop fuel (λ total,
    '(rec, data) ← op_read_some socket buffer_size;
    if failed rec then mret (inr total) else mret (inl (total +ₛ zlen data))) 0%Z.

Record SessionStats := {
  written : Z;
  read : Z;
  elapsed : Asio.duration;
  connected : bool
}.
Definition no_stats : SessionStats :=
  {| written := 0; read := 0; elapsed := 0; connected := false |}.

(** The [for] loop over the resolver's results, giving [last_ec]. *)
Fixpoint connect_loop (socket : handle) (results : list endpoint) (last_ec : error_code) :
    awaitable W error_code :=
  match results with
  | [] => mret last_ec
  | entry :: results =>
      ec ← op_connect socket entry;
      if failed ec then
        close socket;;
        open socket;;
        connect_loop socket results ec
      else mret Success
  end.

Definition run_session (fuel : nat) (socket : handle) (config : ClientConfig) (host : string)
    (port : Z) : awaitable W SessionStats :=
  '(resolve_ec, results) ← op_resolve host (pretty port);
  if failed resolve_ec then mret no_stats
  else
    match results with
    | [] => mret no_stats
    | _ =>
        open socket;;
        last_ec ← connect_loop socket results Success;
        if failed last_ec then mret no_stats
        else
          start ← gets now;
          '(total_written, total_read) ←
            when_all (write_loop fuel socket config) (read_loop fuel socket (buffer_size config));
          close socket;;
          stop ← gets now;
          mret {| written := total_written; read := total_read; elapsed := stop - start;
                  connected := true |}
    end.

(** [total_bytes.fetch_add(stats.read)] on the shared counter. *)
Definition client_task (fuel : nat) (socket : handle) (config : ClientConfig) (host : string)
    (port : Z) (total_bytes : Z) : awaitable W Z :=
  stats ← run_session fuel socket config host port;
  mret (total_bytes +ₛ read stats).
End Program.

(** The checks of [main]: the number of contexts and the client's duration, or an error. *)
Record Config := {
  connections : Z;
  threads : Z;
  run_duration : seconds
}.
Definition main_config (config : Config) : option (Z * option Asio.duration) :=
  if (threads config =? 0)%Z then None
  else if (connections config =? 0)%Z then None
  else if seconds_negative (run_duration config) then None
  else Some (Z.min (threads config) (connections config),
             if seconds_positive (run_duration config) then Some (seconds_cast (run_duration config)) else None).
(** [main], after the parsing of the command line ([None] is a [po::error]): an exit code, or the
    contexts to run, the clients to start on them, and their time limit. *)
Record options := Options { help : bool; config : Config }.
Inductive action := Exit (code : Z) | Connect (contexts clients : Z) (limit : option Asio.duration).
Definition main (parsed : option options) : action :=
  match parsed with
  | None => Exit 1
  | Some o =>
      if help o then Exit 1
      else
        match main_config (config o) with
        | None => Exit 1
        | Some (n, limit) => Connect n (connections (config o)) limit
        end
  end.

(** [io_contexts[i % io_contexts.size()]] *)
Definition context_of (i threads : Z) : Z := (i mod threads)%Z.
End CorosioClient.

(** ** Boost.Asio client *)

Section ClientProofs.
Import Client.
Context {W : Type} `{!CancellationTypes, !Cancellation W, !Streams W, !Spawning W, !Networking W,
  !WhenAll W}.
Implicit Types (s : st W) (socket : handle) (ns : list Z).

(** The writes of [write_loop] when the [k]-th transfers [n_k] bytes, from [total] on. *)
Fixpoint client_writes (chunk : Z → Z) socket (data : list byte) (total : Z) ns : list event :=
  match ns with
  | [] => []
  | n :: ns => EvWriteSome socket (ztake (chunk total) data) Success n
                 :: client_writes chunk socket data (total +ₛ n) ns
  end.
Definition total_of (total : Z) ns : Z := foldl size_add total ns.

Lemma client_writes_snoc chunk socket data n ns : ∀ total,
  client_writes chunk socket data total (ns ++ [n]) =
  client_writes chunk socket data total ns
    ++ [EvWriteSome socket (ztake (chunk (total_of total ns)) data) Success n].
Proof. induction ns as [|n' ns IH]; intros total; simpl; [done|]. by rewrite IH. Qed.
Lemma total_of_snoc total ns n : total_of total (ns ++ [n]) = total_of total ns +ₛ n.
Proof. unfold total_of. by rewrite foldl_app. Qed.

Definition limit_of (config : ClientConfig) : Z := default size_max (size config).
Definition chunk_of (config : ClientConfig) (total : Z) : Z :=
  chunk_size total (limit_of config) (zlen (pattern (buffer_size config))).
Abbreviation writes config socket ns :=
  (client_writes (chunk_of config) socket (pattern (buffer_size config)) 0 ns).

(** The error that may end the loop. *)
Definition failed_write config socket ns ec (tail : list event) : Prop :=
  ec ≠ Success ∧ ∃ n, tail = [EvWriteSome socket
    (ztake (chunk_of config (total_of 0 ns)) (pattern (buffer_size config))) ec n].

Definition write_loop_post config socket s0 : post W Z := λ r s, ∃ ns tail,
  match r with
  | Val total => total = total_of 0 ns ∧
      (∃ ec, trace s = trace s0 ++ writes config socket ns ++ tail
                         ++ [EvShutdown socket shutdown_send ec]) ∧
      (tail = [] ∨ failed_write config socket ns Operation_canceled tail)
  | Throw e => trace s = trace s0 ++ writes config socket ns ++ tail ∧
      ∃ ec, e = system_error ec ∧ ec ≠ Operation_canceled ∧ failed_write config socket ns ec tail
  | NoFuel => trace s = trace s0 ++ writes config socket ns ∧ tail = []
  end.

Lemma write_loop_correct config fuel socket s :
  wp (write_loop config fuel socket) (write_loop_post config socket s) s.
Proof.
  unfold write_loop. wp_step.
  apply (wp_loop (λ total s', ∃ ns, total = total_of 0 ns ∧
    trace s' = trace s ++ writes config socket ns)).
  { intros total s' (ns & _ & Ht). by exists ns, []. }
  2: { exists []. by rewrite app_nil_r. }
  intros total [w0 t0] (ns & -> & Ht); simpl in Ht; subst t0.
  change (default size_max (size config)) with (limit_of config).
  fold (chunk_of config (total_of 0 ns)).
  destruct (_ <? _)%Z; wp_run.
  - rewrite bool_decide_eq_true_2 by done. wp_run. exists ns, []. cbn.
    split_and!; [done| |by left]. eexists. by rewrite <-app_assoc.
  - exists (ns ++ [n]). by rewrite total_of_snoc, client_writes_snoc, app_assoc.
  - case_bool_decide as Hc; [subst ec; wp_run|wp_run].
    + exists ns. eexists. cbn. rewrite <-!app_assoc.
      split_and!; [done|by eexists|right; split; [done|by eexists]].
    + exists ns. eexists. cbn. rewrite <-!app_assoc. split; [done|].
      exists ec. split_and!; [done|done|]. split; [done|by eexists].
  - exists ns, []. cbn. split_and!; [done| |by left]. eexists. by rewrite <-app_assoc.
Qed.

(** A limit that is far enough from 2^64 does not shorten any chunk. *)
Lemma chunk_ignores_limit config limit total :
  size config = Some limit → (0 <= buffer_size config)%Z →
  (limit + buffer_size config <= 2 ^ 64)%Z → (0 <= total < limit)%Z →
  chunk_of config total = buffer_size config.
Proof.
  intros Hsize Hb Hmax Ht. unfold chunk_of, limit_of, chunk_size. rewrite Hsize. simpl.
  rewrite zlen_pattern by done.
  assert (total -ₛ limit = total - limit + 2 ^ 64)%Z as ->; [|lia].
  unfold size_sub, wrap64. symmetry. apply Z.mod_unique with (-1)%Z; lia.
Qed.

Lemma total_of_nonneg total ns : (0 <= total)%Z → (0 <= total_of total ns)%Z.
Proof.
  revert total. induction ns as [|n ns IH]; intros total Ht; simpl; [done|].
  apply IH. destruct (size_add_range total n). lia.
Qed.

Definition whole_buffer config (e : event) : Prop :=
  match e with EvWriteSome _ d _ _ => d = pattern (buffer_size config) | _ => True end.

Lemma write_loop_whole_buffers config limit fuel socket s :
  size config = Some limit → (0 <= buffer_size config)%Z →
  (limit + buffer_size config <= 2 ^ 64)%Z →
  wp (write_loop config fuel socket)
    (λ _ s', ∃ tr, trace s' = trace s ++ tr ∧ Forall (whole_buffer config) tr) s.
Proof.
  intros Hsize Hb Hmax. unfold write_loop. wp_step.
  apply (wp_loop (λ total s', (0 <= total)%Z ∧
    ∃ tr, trace s' = trace s ++ tr ∧ Forall (whole_buffer config) tr)).
  { by intros total s' [_ Htr]. }
  2: { split; [done|]. exists []. by rewrite app_nil_r. }
  intros total [w0 t0] (Hpos & tr & Ht & Htr); simpl in Ht; subst t0.
  change (default size_max (size config)) with (limit_of config).
  destruct (Z.ltb_spec total (limit_of config)) as [Hlt|_];
    [|wp_run; exists (tr ++ [EvShutdown socket shutdown_send ec]); rewrite app_assoc, Forall_app;
      by repeat constructor].
  fold (chunk_of config total). unfold limit_of in Hlt. rewrite Hsize in Hlt. simpl in Hlt.
  rewrite (chunk_ignores_limit config limit) by done.
  rewrite ztake_all by (rewrite zlen_pattern by done; lia).
  wp_run.
  - rewrite bool_decide_eq_true_2 by done. wp_run.
    exists (tr ++ [EvShutdown socket shutdown_send ec]). rewrite app_assoc, Forall_app.
    by repeat constructor.
  - split; [apply size_add_range|].
    eexists (tr ++ [_]). rewrite app_assoc, Forall_app. by repeat constructor.
  - case_bool_decide; wp_run.
    + eexists ((tr ++ [_]) ++ [_]). rewrite !app_assoc, !Forall_app. by repeat constructor.
    + eexists (tr ++ [_]). rewrite app_assoc, Forall_app. by repeat constructor.
Qed.

Definition read_events (cap : Z) socket (ds : list (list byte)) : list event :=
  (λ d, EvRead socket cap Success d) <$> ds.
Lemma read_events_snoc cap socket ds d :
  read_events cap socket (ds ++ [d]) = read_events cap socket ds ++ [EvRead socket cap Success d].
Proof. unfold read_events. by rewrite fmap_app. Qed.

(** [read] returns, at the end of the stream or when cancelled, the number of bytes
    read; any other error is thrown. *)
Definition read_post config socket s0 : post W Z := λ r s, ∃ ds tail,
  trace s = trace s0 ++ read_events (buffer_size config) socket ds ++ tail ∧
  match r with
  | Val total => total = wrap64 (zlen (concat ds)) ∧
      (tail = [] ∨ ∃ ec d, ec ∈ [Eof; Operation_canceled] ∧
                           tail = [EvRead socket (buffer_size config) ec d])
  | Throw e => ∃ ec d, e = system_error ec ∧ (ec ∉ [Success; Eof; Operation_canceled]) ∧
                       tail = [EvRead socket (buffer_size config) ec d]
  | NoFuel => tail = []
  end.

Lemma read_correct config fuel socket s :
  wp (read config fuel socket) (read_post config socket s) s.
Proof.
  apply (wp_loop (λ total s', ∃ ds, total = wrap64 (zlen (concat ds)) ∧
    trace s' = trace s ++ read_events (buffer_size config) socket ds)).
  { intros total s' (ds & _ & Ht). exists ds, []. by rewrite app_nil_r. }
  2: { exists []. by rewrite app_nil_r. }
  intros total [w0 t0] (ds & -> & Ht); simpl in Ht; subst t0. wp_run.
  - rewrite orb_true_r. wp_run. exists ds, []. cbn. rewrite app_nil_r. auto.
  - exists (ds ++ [d]). by rewrite size_add_concat, read_events_snoc, app_assoc.
  - destruct (bool_decide (ec = Eof) || bool_decide (ec = Operation_canceled)) eqn:Hend; wp_run;
      exists ds; eexists; cbn; rewrite <-app_assoc; (split; [done|]).
    + split; [done|]. right. exists ec, d. split; [|done].
      apply orb_true_iff in Hend as [->%bool_decide_eq_true| ->%bool_decide_eq_true]; set_solver.
    + exists ec, d. apply orb_false_iff in Hend as [H1%bool_decide_eq_false H2%bool_decide_eq_false].
      split_and!; [done| |done]. rewrite !not_elem_of_cons. split_and!; try done. apply not_elem_of_nil.
Qed.
End ClientProofs.

(** ** Corosio client *)

Section CorosioProofs.
Import CorosioClient.
Context {W : Type} `{!Streams W, !StreamsOk W, !Networking W, !Clock W, !WhenAll W}.
Implicit Types (s : st W) (socket : handle) (ns : list Z).

Definition corosio_limit (config : ClientConfig) : Z := default size_max (size config).
Definition corosio_chunk config (total : Z) : list byte :=
  ztake (chunk_size total (corosio_limit config) (zlen (pattern (buffer_size config))))
    (pattern (buffer_size config)).

(** The complete writes of the loop, one per chunk. *)
Fixpoint corosio_writes config socket (total : Z) (k : nat) : list event :=
  match k with
  | O => []
  | S k =>
      let d := corosio_chunk config total in
      EvWrite socket d Success (zlen d) :: corosio_writes config socket (total + zlen d) k
  end.
Fixpoint corosio_total config (total : Z) (k : nat) : Z :=
  match k with
  | O => total
  | S k => corosio_total config (total + zlen (corosio_chunk config total)) k
  end.
Lemma corosio_writes_snoc config socket k : ∀ total,
  corosio_writes config socket total (S k) = corosio_writes config socket total k
    ++ [EvWrite socket (corosio_chunk config (corosio_total config total k)) Success
          (zlen (corosio_chunk config (corosio_total config total k)))].
Proof. induction k as [|k IH]; intros total; [done|]. simpl. f_equal. apply IH. Qed.
Lemma corosio_total_snoc config k : ∀ total,
  corosio_total config total (S k) = (corosio_total config total k
    + zlen (corosio_chunk config (corosio_total config total k)))%Z.
Proof. induction k as [|k IH]; intros total; [done|]. apply IH. Qed.

Definition valid_config (config : ClientConfig) : Prop :=
  (0 <= buffer_size config)%Z ∧ (0 <= corosio_limit config < 2 ^ 64)%Z.

Lemma corosio_chunk_length config total :
  valid_config config → (0 <= total <= corosio_limit config)%Z →
  zlen (corosio_chunk config total) = Z.min (corosio_limit config - total) (buffer_size config).
Proof.
  intros [Hb Hl] Ht. unfold corosio_chunk, chunk_size. rewrite zlen_pattern by done.
  unfold size_sub. rewrite wrap64_small by (unfold is_size; lia).
  apply zlen_ztake. rewrite zlen_pattern by done. lia.
Qed.

(** [write_loop] never exceeds the limit, and reaches it exactly unless a write
    fails or the deadline passes. *)
Definition corosio_write_post config socket s0 : post W Z := λ r s, ∃ k tail,
  match r with
  | Val total => total = corosio_total config 0 k ∧ (0 <= total <= corosio_limit config)%Z ∧
      (∃ ec, trace s = trace s0 ++ corosio_writes config socket 0 k ++ tail
                         ++ [EvShutdown socket shutdown_send ec]) ∧
      (tail = [] ∧ (total = corosio_limit config ∨ duration config ≠ None)
       ∨ ∃ d ec n, ec ≠ Success ∧ tail = [EvWrite socket d ec n])
  | Throw _ => False
  | NoFuel => trace s = trace s0 ++ corosio_writes config socket 0 k ∧ tail = []
  end.

Lemma corosio_write_correct config fuel socket s :
  valid_config config →
  wp (write_loop fuel socket config) (corosio_write_post config socket s) s.
Proof.
  intros Hvalid. destruct Hvalid as [Hb Hl] eqn:Hv. clear Hv.
  assert (valid_config config) as Hvalid' by done.
  unfold write_loop. wp_run.
  apply (wp_loop (λ total s', (0 <= total <= corosio_limit config)%Z ∧ ∃ k,
    total = corosio_total config 0 k ∧
    trace s' = trace s ++ corosio_writes config socket 0 k)).
  { intros total s' (_ & k & _ & Ht). by exists k, []. }
  2: { split; [lia|]. exists 0. by rewrite app_nil_r. }
  intros total [w0 t0] (Hle & k & Htotal & Ht); simpl in Ht; subst t0.
  change (default size_max (size config)) with (corosio_limit config).
  destruct (Z.ltb_spec total (corosio_limit config)) as [Hlt|Hge]; wp_run.
  - destruct (match (λ d, (now (env s) + d)%Z) <$> duration config with
              | Some d => (d <=? now w0)%Z | None => false end) eqn:Hdead; wp_run.
    + exists k, []. cbn. split_and!; [done|lia|lia| |left; split; [done|right]].
      * eexists. by rewrite <-app_assoc.
      * intros Hnone. by rewrite Hnone in Hdead.
    + exists k. eexists. cbn. rewrite <-!app_assoc.
      split_and!; [done|lia|lia|by eexists|right]. by eexists _, ec, _.
    + pose proof (write_complete _ _ _ _ _ Hwrite) as ->.
      fold (corosio_chunk config total). rewrite corosio_chunk_length by done.
      rewrite size_add_small by (unfold is_size; lia).
      split; [lia|]. exists (S k). rewrite corosio_total_snoc, corosio_writes_snoc, <-Htotal.
      rewrite corosio_chunk_length by done. split; [lia|]. by rewrite app_assoc.
  - exists k, []. cbn. split_and!; [done|lia|lia| |left; split; [done|left; lia]].
    eexists. by rewrite <-app_assoc.
Qed.

(** With a buffer, the loop ends: every chunk is non-empty. *)
Lemma corosio_write_total config fuel socket s :
  valid_config config → (0 < buffer_size config)%Z →
  Z.to_nat (corosio_limit config) < fuel →
  wp (write_loop fuel socket config) (λ r _, r ≠ NoFuel) s.
Proof.
  intros Hvalid Hb Hfuel. unfold write_loop. wp_run.
  apply (wp_loop_total (λ total _, (0 <= total <= corosio_limit config)%Z)
    (λ total _, Z.to_nat (corosio_limit config - total))).
  2: { destruct Hvalid. lia. }
  2: { by rewrite Z.sub_0_r. }
  intros total [w0 t0] Hle.
  change (default size_max (size config)) with (corosio_limit config).
  destruct (Z.ltb_spec total (corosio_limit config)) as [Hlt|Hge]; wp_run; [|done].
  destruct (match _ <$> duration config with Some d => _ | None => false end); wp_run; try done.
  pose proof (write_complete _ _ _ _ _ Hwrite) as ->.
  fold (corosio_chunk config total). rewrite corosio_chunk_length by done.
  destruct Hvalid as [_ Hl].
  rewrite size_add_small by (unfold is_size; lia). split; lia.
Qed.

(** The loop over the resolved endpoints. *)
Definition connect_failures socket (fs : list (endpoint * error_code)) : list event :=
  concat ((λ f, [EvConnect socket f.1 f.2; EvClose socket; EvOpen socket]) <$> fs).

Lemma corosio_connect_correct socket results : ∀ last_ec s,
  wp (connect_loop socket results last_ec) (λ r s', ∃ fs,
    Forall (λ f, f.2 ≠ Success) fs ∧
    ((fs.*1 = results ∧ r = Val (default last_ec (last fs.*2))
      ∧ trace s' = trace s ++ connect_failures socket fs)
     ∨ ∃ ep rest, results = fs.*1 ++ ep :: rest ∧ r = Val Success
         ∧ trace s' = trace s ++ connect_failures socket fs ++ [EvConnect socket ep Success])) s.
Proof.
  induction results as [|entry results IH]; intros last_ec s; simpl.
  { wp_run. exists []. split; [done|]. left. by rewrite app_nil_r. }
  wp_run.
  - eapply wp_mono; [|apply IH]. cbn [trace].
    intros r s' (fs & Hfs & Hend). exists ((entry, ec) :: fs). split; [by constructor|].
    destruct Hend as [(Hres & -> & Ht)|(ep & rest & Hres & -> & Ht)].
    + left. split_and!; [by rewrite <-Hres| |].
      * f_equal. rewrite fmap_cons, last_cons. by destruct (last fs.*2).
      * rewrite Ht. by rewrite <-!app_assoc.
    + right. exists ep, rest. split_and!; [by rewrite Hres|done|]. rewrite Ht.
      by rewrite <-!app_assoc.
  - exists []. split; [done|]. right. by exists entry, results.
Qed.
End CorosioProofs.

(** ** Properties *)

(** [Client::write_loop] hands the socket the configured chunk of the test pattern again and
    again, adds up what was transferred, and shuts the sending side down exactly when it returns: when the limit is reached
    or the coroutine is cancelled; every other error is thrown. *)
Theorem client_write_loop {W} `{!Cancellation W, !Streams W} config fuel socket (s : st W) r s' :
  Client.write_loop config fuel socket s = (r, s') → write_loop_post config socket s r s'.
Proof. apply wp_intro, write_loop_correct. Qed.

(** C38. The limit [size] of the client does not limit anything: since [total - size] wraps around,
    every chunk is the whole buffer for any limit up to 2^64 minus the size of the buffer, and
    a client told to write 10 bytes writes 64; without a limit, the first chunk is
    a single byte. *)
Theorem client_limit_ignored :
  (∀ W (HC : Cancellation W) (HS : Streams W) config limit fuel socket (s : st W),
     Client.size config = Some limit → (0 <= Client.buffer_size config)%Z →
     (limit + Client.buffer_size config <= 2 ^ 64)%Z →
     wp (Client.write_loop config fuel socket)
       (λ _ s', ∃ tr, trace s' = trace s ++ tr ∧ Forall (whole_buffer config) tr) s)
  ∧ (let config := {| Client.buffer_size := 64; Client.size := Some 10%Z; Client.duration := None |} in
     zlen (sent 0 (trace (Client.write_loop config 5 0 (start idle)).2)) = 64%Z)
  ∧ Client.chunk_size 0 size_max (64 * 1024) = 1%Z.
Proof.
  split; [intros; by eapply write_loop_whole_buffers|]. split; vm_compute; reflexivity.
Qed.

(** [Client::read] returns the number of bytes read until the end of the stream or until it was
    cancelled (modulo 2^64), and throws every other error. *)
Theorem client_read {W} `{!Cancellation W, !Streams W} config fuel socket (s : st W) r s' :
  Client.read config fuel socket s = (r, s') → read_post config socket s r s'.
Proof. apply wp_intro, read_correct. Qed.

(** C37. [write_loop] of the corosio client respects its limit: it never writes more, returns the number
    of bytes written without wrap-around, reaches the limit exactly unless a write failed or a deadline was set, shuts
    the sending side down in every case, and ends. *)
Theorem corosio_write_within_limit {W} `{!Streams W, !StreamsOk W, !Clock W} config fuel socket
    (s : st W) r s' :
  valid_config config → (0 < CorosioClient.buffer_size config)%Z →
  CorosioClient.write_loop fuel socket config s = (r, s') →
  corosio_write_post config socket s r s'
  ∧ (Z.to_nat (corosio_limit config) < fuel → r ≠ NoFuel).
Proof.
  intros Hvalid Hb Hrun. split.
  - by eapply wp_intro; [apply corosio_write_correct|].
  - intros Hfuel.
    by apply (wp_intro _ _ _ _ _ (corosio_write_total config fuel socket s Hvalid Hb Hfuel) Hrun).
Qed.

(** [run_session] tries the resolved endpoints in order, closes and opens the socket again after each
    failure, stops at the first that accepts, and otherwise reports the error of the last. *)
Theorem connects_to_first {W} `{!Streams W, !Networking W} socket results last_ec (s : st W) :
  wp (CorosioClient.connect_loop socket results last_ec) (λ r s', ∃ fs,
    Forall (λ f, f.2 ≠ Success) fs ∧
    ((fs.*1 = results ∧ r = Val (default last_ec (last fs.*2))
      ∧ trace s' = trace s ++ connect_failures socket fs)
     ∨ ∃ ep rest, results = fs.*1 ++ ep :: rest ∧ r = Val Success
         ∧ trace s' = trace s ++ connect_failures socket fs ++ [EvConnect socket ep Success])) s.
Proof. apply corosio_connect_correct. Qed.

(** Both load generators run every client on one of the contexts they created: for the number of
    contexts [main] computes, the index of the [i]-th client's context is in range. *)
Theorem contexts_in_range i connections threads d debug n :
  (0 <= threads)%Z → (0 <= i < connections)%Z →
  (Client.main_threads (Client.Build_Config connections threads d) debug = Some n →
     (0 <= Client.context_of i n < n)%Z)
  ∧ (∀ cd, CorosioClient.main_config (CorosioClient.Build_Config connections threads d) = Some (n, cd) →
     (0 <= CorosioClient.context_of i n < n)%Z).
Proof.
  intros Ht Hi. unfold Client.main_threads, CorosioClient.main_config, Client.context_of,
    CorosioClient.context_of. simpl. split.
  - destruct (Z.eqb_spec threads 0); [done|]. destruct (seconds_negative d); [done|].
    intros [= <-]. apply Z.mod_pos_bound. destruct debug; lia.
  - intros cd. destruct (Z.eqb_spec threads 0); [done|].
    destruct (Z.eqb_spec connections 0); [done|]. destruct (seconds_negative d); [done|].
    intros [= <- _]. apply Z.mod_pos_bound. lia.
Qed.

(** With [--connections 0], [main] of client.cpp creates no context, which with [--debug] it then runs the first
    of; corosio_client.cpp reports an error instead. *)
Theorem debug_without_connections threads d :
  (0 < threads)%Z → seconds_negative d = false →
  Client.main (Some (Client.Options false true (Client.Build_Config 0 threads d)))
    = Client.Connect 0 0 (seconds_cast d) true
  ∧ CorosioClient.main (Some (CorosioClient.Options false (CorosioClient.Build_Config 0 threads d)))
    = CorosioClient.Exit 1.
Proof.
  intros Ht Hd. unfold Client.main, CorosioClient.main, Client.main_threads, CorosioClient.main_config. simpl.
  destruct (Z.eqb_spec threads 0); [lia|]. by rewrite Hd.
Qed.

Lemma foldr_add_init (l : list Z) a b : foldr Z.add (a + b)%Z l = (b + foldr Z.add a l)%Z.
Proof. induction l as [|m l IH]; simpl; lia. Qed.

(** The total of client.cpp is the sum of what the clients report, modulo 2^64. *)
Lemma collect_total futures : ∀ total,
  (Client.collect (wrap64 total) futures).2 = wrap64 (foldr Z.add total futures.*2)
  ∧ (Client.collect total futures).1 = omap fst futures.
Proof.
  induction futures as [|[ep n] futures IH]; intros total; [done|]. simpl. split.
  - rewrite size_add_wrap. destruct (IH (total + n)%Z) as [IHt _].
    destruct (Client.collect _ futures) as [errors t]. simpl in *. by rewrite IHt, foldr_add_init.
  - destruct (IH (total +ₛ n)) as [_ IHe]. destruct (Client.collect _ futures) as [errors t].
    simpl in *. rewrite IHe. by destruct ep.
Qed.

(** ** Witnesses *)

Definition small_client : Client.ClientConfig :=
  {| Client.buffer_size := 4; Client.size := Some 6%Z; Client.duration := None |}.
Definition small_corosio : CorosioClient.ClientConfig :=
  {| CorosioClient.buffer_size := 4; CorosioClient.size := Some 6%Z; CorosioClient.duration := None |}.

(** The same configuration writes 8 bytes with one program and 6 with the other. *)
Example small_client_writes :
  (Client.write_loop small_client 5 0 (start idle)).1 = Val 8%Z
  ∧ (CorosioClient.write_loop 8 0 small_corosio (start idle)).1 = Val 6%Z.
Proof. vm_compute. split; reflexivity. Qed.

Lemma client_write_loop_witness :
  ∃ s', write_loop_post small_client 0 (start idle) (Val 8%Z) s'.
Proof.
  eexists. eapply (client_write_loop (W := script) small_client 5 0 (start idle)).
  vm_compute; reflexivity.
Defined.

Lemma client_read_witness :
  ∃ s', read_post small_client 0 (start (reading [(Success, bytes_of "abc")])) (Val 3%Z) s'.
Proof.
  eexists. eapply (client_read (W := script) small_client 5 0
    (start (reading [(Success, bytes_of "abc")]))).
  vm_compute; reflexivity.
Defined.

Lemma corosio_write_within_limit_witness :
  ∃ s', corosio_write_post small_corosio 0 (start idle) (Val 6%Z) s'.
Proof.
  eexists. refine (proj1 (corosio_write_within_limit (W := script) small_corosio 8 0 (start idle)
    _ _ _ _ _)).
  - vm_compute. intuition congruence.
  - vm_compute. reflexivity.
  - vm_compute; reflexivity.
Defined.

Lemma contexts_in_range_witness : (0 <= Client.context_of 5 2 < 2)%Z.
Proof. apply (contexts_in_range 5 10 2 (Seconds false true 1) false 2); [lia|lia|reflexivity]. Defined.
