(* ===== verification/LoadThreads.v ===== *)
(** * bin/client.cpp and bin/corosio_client.cpp: the threads of the load generators

    [main] of both programs distributes its clients over several contexts, each of them run by a thread.  client.cpp detaches the
    threads and waits for the result of every client; corosio_client.cpp runs the first context itself, lets the
    clients add to an atomic counter, and joins the other threads when it is left.  The step relations interleave
    [main] with the threads: what is reported, that the programs end, and which thread outlives what it uses.
    [clients.reserve(n)] of client.cpp is taken to give the capacity [n], which is the number of clients it starts. *)
From S2P Require Import Prelude Asio Client.

Inductive thread_phase := NotStarted | Started | Running | Left.
#[export] Instance thread_phase_eq_dec : EqDecision thread_phase.
Proof. solve_decision. Defined.

(** ** The contexts, their threads and their clients *)

(** [results]: what the clients that have ended have reported.  [late]: a thread has accessed its context after [main],
    which owns the contexts, had returned. *)
Record pool A := Pool {
  threads : list thread_phase;      (* one per context *)
  results : gmap nat A;
  late : bool
}.
Arguments Pool {A} _ _ _.
Arguments threads {A} _.
Arguments results {A} _.
Arguments late {A} _.

Inductive pool_label A :=
| ThreadRuns (k : nat)                (* it enters [run()] *)
| ClientEnds (i : nat) (result : A)
| ThreadLeaves (k : nat).             (* [run()] has nothing left to do *)
Arguments ThreadRuns {A} _.
Arguments ClientEnds {A} _ _.
Arguments ThreadLeaves {A} _.

Section Pool.
Context {A : Type} (contexts connections : nat).
Implicit Types (p : pool A) (m : gmap nat A) (r : A).

(** [io_contexts[i % io_contexts.size()]] *)
Definition context_index (i : nat) : nat := Z.to_nat (Client.context_of (Z.of_nat i) (Z.of_nat contexts)).

Definition context_done (k : nat) m : Prop :=
  Forall (λ i, context_index i = k → is_Some (m !! i)) (seq 0 connections).
#[export] Instance context_done_dec k m : Decision (context_done k m).
Proof. unfold context_done. apply _. Defined.

Definition initial_pool : pool A := Pool (replicate contexts NotStarted) ∅ false.

Definition set_thread (k : nat) (t : thread_phase) p : pool A :=
  Pool (<[k := t]> (threads p)) (results p) (late p).
(** A step of a thread, which accesses its context. *)
Definition access (gone : bool) p : pool A := Pool (threads p) (results p) (late p || gone).
Definition end_client (i : nat) r p : pool A := Pool (threads p) (<[i := r]> (results p)) (late p).

(** The steps of the threads; [gone]: [main] has returned. *)
Inductive pool_step (gone : bool) : pool A → pool_label A → pool A → Prop :=
| thread_runs p k : threads p !! k = Some Started →
    pool_step gone p (ThreadRuns k) (access gone (set_thread k Running p))
| client_ends p i r : i < connections → results p !! i = None →
    threads p !! context_index i = Some Running →
    pool_step gone p (ClientEnds i r) (access gone (end_client i r p))
| thread_leaves p k : threads p !! k = Some Running → context_done k (results p) →
    pool_step gone p (ThreadLeaves k) (access gone (set_thread k Left p)).

Definition pool_next (gone : bool) p (x : pool_label A) : option (pool A) :=
  match x with
  | ThreadRuns k =>
      guard (threads p !! k = Some Started);; Some (access gone (set_thread k Running p))
  | ClientEnds i r =>
      guard (i < connections);; guard (results p !! i = None);;
      guard (threads p !! context_index i = Some Running);; Some (access gone (end_client i r p))
  | ThreadLeaves k =>
      guard (threads p !! k = Some Running);; guard (context_done k (results p));;
      Some (access gone (set_thread k Left p))
  end.

Lemma pool_next_sound gone p x p' : pool_next gone p x = Some p' → pool_step gone p x p'.
Proof. destruct x; simpl; intros Hn; simplify_option_eq; by constructor. Qed.

(** *** The invariant *)

Record pool_inv p : Prop := {
  pool_length : length (threads p) = contexts;
  pool_results i r : results p !! i = Some r → i < connections;
  pool_left k : threads p !! k = Some Left → context_done k (results p)
}.

Lemma context_index_lt i : 0 < contexts → context_index i < contexts.
Proof.
  intros Hn. unfold context_index, Client.context_of.
  pose proof (Z.mod_pos_bound (Z.of_nat i) (Z.of_nat contexts) ltac:(lia)). lia.
Qed.

Lemma context_done_spec k m :
  context_done k m ↔ ∀ i, i < connections → context_index i = k → is_Some (m !! i).
Proof.
  unfold context_done. rewrite Forall_forall. split; intros H i Hi; [apply H, elem_of_seq; lia|].
  apply H. apply elem_of_seq in Hi. lia.
Qed.

Lemma context_done_mono k m m' : m ⊆ m' → context_done k m → context_done k m'.
Proof.
  rewrite !context_done_spec. intros Hm H i Hi Hk. destruct (H i Hi Hk) as [r Hr]. exists r.
  by eapply lookup_weaken.
Qed.

(** When all threads have left, all clients have ended. *)
Lemma all_left_done p i :
  pool_inv p → (connections = 0 ∨ 0 < contexts) → Forall (.= Left) (threads p) → i < connections →
  is_Some (results p !! i).
Proof.
  intros Hinv Hn Hall Hi. assert (context_index i < contexts) as Hk by (apply context_index_lt; lia).
  rewrite <-(pool_length p Hinv) in Hk. destruct (lookup_lt_is_Some_2 _ _ Hk) as [t Ht].
  pose proof (Forall_lookup_1 _ _ _ _ Hall Ht) as ->.
  pose proof (pool_left p Hinv _ Ht) as Hdone. rewrite context_done_spec in Hdone. auto.
Qed.

Lemma load_pool_inv_initial : pool_inv initial_pool.
Proof.
  split; simpl; [by rewrite length_replicate|done|]. intros k Hk.
  apply lookup_replicate_1 in Hk as [? _]. done.
Qed.

Lemma set_thread_inv k t p :
  (t = Left → context_done k (results p)) → pool_inv p → pool_inv (set_thread k t p).
Proof.
  intros Ht [Hl Hr Hleft]. split; simpl; [by rewrite length_insert|done|].
  intros j [(-> & -> & _)|[_ Hj]]%list_lookup_insert_Some; auto.
Qed.

Lemma pool_step_inv gone p x p' : pool_inv p → pool_step gone p x p' → pool_inv p'.
Proof.
  assert (∀ q, pool_inv q → pool_inv (access gone q)) as Haccess by (by intros q []).
  intros Hinv Hstep. destruct Hstep as [p k Hk|p i r Hi Hr Hk|p k Hk Hdone]; apply Haccess.
  - by apply set_thread_inv.
  - destruct Hinv as [Hl Hres Hleft]. split; simpl; [done| |].
    + intros j r' [(<- & _)|[_ Hj]]%lookup_insert_Some; [done|by eapply Hres].
    + intros k' Hk'. eapply context_done_mono; [by apply insert_subseteq|auto].
  - by apply set_thread_inv.
Qed.

Lemma pool_step_results gone p x p' : pool_step gone p x p' → results p ⊆ results p'.
Proof. destruct 1; simpl; [done|by apply insert_subseteq|done]. Qed.

(** A thread that has started does not go back. *)
Lemma pool_step_started gone p x p' k :
  pool_step gone p x p' → threads p !! k ≠ Some NotStarted → threads p' !! k ≠ Some NotStarted.
Proof.
  destruct 1 as [p k' Hk|p i r Hi Hr Hk|p k' Hk Hdone]; simpl; try done;
    by intros ? [(_ & ? & _)|[_ Hj]]%list_lookup_insert_Some.
Qed.

Lemma pool_step_unstarted gone p x p' k :
  pool_step gone p x p' → threads p !! k = Some NotStarted → threads p' !! k = Some NotStarted.
Proof.
  destruct 1 as [p k' Hk|p i r Hi Hr Hk|p k' Hk Hdone]; simpl; try done;
    intros Hk2; rewrite list_lookup_insert_ne; congruence.
Qed.

(** *** Termination *)

Definition thread_work (t : thread_phase) : nat :=
  match t with NotStarted => 3 | Started => 2 | Running => 1 | Left => 0 end.
Definition pool_work p : nat := sum_list_with thread_work (threads p) + (connections - size (results p)).

Lemma set_thread_work k t t' p :
  threads p !! k = Some t → pool_work (set_thread k t' p) + thread_work t = pool_work p + thread_work t'.
Proof.
  intros Hk. pose proof (sum_list_insert thread_work _ _ _ t' Hk). unfold pool_work, set_thread. simpl. lia.
Qed.

Lemma pool_room p i :
  pool_inv p → i < connections → results p !! i = None → size (results p) < connections.
Proof.
  intros Hinv Hi Hr. rewrite <-size_dom. rewrite <-(size_set_seq (C := gset nat) 0 connections).
  apply subset_size. split.
  - intros j Hj. apply elem_of_dom in Hj as [r Hj]. apply (pool_results _ Hinv) in Hj. apply elem_of_set_seq. lia.
  - intros Hsub. assert (i ∈ dom (results p)) as Hin by (apply Hsub, elem_of_set_seq; lia).
    by apply elem_of_dom in Hin as [r ?]; simplify_eq.
Qed.

Lemma pool_step_work gone p x p' : pool_inv p → pool_step gone p x p' → pool_work p' < pool_work p.
Proof.
  intros Hinv Hstep. destruct Hstep as [p k Hk|p i r Hi Hr Hk|p k Hk Hdone];
    match goal with |- pool_work (access _ ?q) < _ => change (pool_work q < pool_work p) end.
  - pose proof (set_thread_work k _ Running p Hk). simpl in *. lia.
  - pose proof (pool_room p i Hinv Hi Hr). unfold pool_work, end_client. simpl.
    rewrite map_size_insert_None by done. lia.
  - pose proof (set_thread_work k _ Left p Hk). simpl in *. lia.
Qed.

Lemma pool_work_initial : pool_work initial_pool = 3 * contexts + connections.
Proof.
  unfold pool_work, initial_pool. simpl. rewrite map_size_empty, Nat.sub_0_r. f_equal.
  induction contexts as [|n IH]; [done|]. simpl in *. lia.
Qed.

(** A thread that has started, and has not left, can go on, or one of its clients can. *)
Lemma pool_progress gone p k t r :
  threads p !! k = Some t → t ≠ NotStarted → t ≠ Left → ∃ x p', pool_step gone p x p'.
Proof.
  intros Hk Hn Hl. destruct t; try done.
  - eexists (ThreadRuns k), _. by constructor.
  - destruct (decide (context_done k (results p))) as [Hdone|Hdone].
    + eexists (ThreadLeaves k), _. by constructor.
    + apply not_Forall_Exists in Hdone; [|apply _]. apply Exists_exists in Hdone as (i & Hi & Hnot).
      apply elem_of_seq in Hi. eexists (ClientEnds i r), _. constructor; [lia| |].
      * apply eq_None_not_Some. intros Hs. by apply Hnot.
      * destruct (decide (context_index i = k)) as [->|Hne]; [done|]. by destruct Hnot.
Qed.

(** A client whose result is missing is waited for by a thread. *)
Lemma client_progress gone p i r :
  pool_inv p → 0 < contexts → (∀ k, threads p !! k ≠ Some NotStarted) → i < connections →
  results p !! i = None → ∃ x p', pool_step gone p x p'.
Proof.
  intros Hinv Hn Hstarted Hi Hr. pose proof (context_index_lt i Hn) as Hk.
  rewrite <-(pool_length p Hinv) in Hk. destruct (lookup_lt_is_Some_2 _ _ Hk) as [t Ht].
  apply (pool_progress gone p (context_index i) t r); [done| |].
  - intros ->. by apply (Hstarted (context_index i)).
  - intros ->. pose proof (pool_left p Hinv _ Ht) as Hdone. rewrite context_done_spec in Hdone.
    destruct (Hdone i Hi eq_refl) as [r' ?]. congruence.
Qed.
End Pool.

(** ** client.cpp *)
Module Detached.
Section Program.
Context (contexts connections : nat).

Inductive program_counter :=
| Starting (k : nat)                                       (* the loop over the contexts *)
| Collecting (i : nat) (errors : list exn) (total : Z)     (* the loop over the futures *)
| Returned (errors : list exn) (total : Z).                (* what was printed *)
Record state := State { pc : program_counter; clients : pool (exception_ptr * Z) }.
Definition initial : state := State (Starting 0) (initial_pool contexts).

Definition has_returned (s : state) : bool := match pc s with Returned _ _ => true | _ => false end.

(** An iteration of the loop over the futures. *)
Definition collect_one (i : nat) (errors : list exn) (total : Z) (future : exception_ptr * Z) : program_counter :=
  let (ec, bytes) := future in
  Collecting (S i) (errors ++ match ec with Some e => [e] | None => [] end) (total +ₛ bytes).

Inductive label :=
| StartsThread          (* [std::jthread(...).detach()] *)
| StartsCollecting
| Collects              (* [future.get()] returns *)
| Returns
| Threads (x : pool_label (exception_ptr * Z)).

Inductive step : state → label → state → Prop :=
| starts_thread s k : pc s = Starting k → k < contexts →
    step s StartsThread (State (Starting (S k)) (set_thread k Started (clients s)))
| starts_collecting s : pc s = Starting contexts →
    step s StartsCollecting (State (Collecting 0 [] 0) (clients s))
| collects s i errors total future : pc s = Collecting i errors total → results (clients s) !! i = Some future →
    step s Collects (State (collect_one i errors total future) (clients s))
| returns s errors total : pc s = Collecting connections errors total →
    step s Returns (State (Returned errors total) (clients s))
| threads_step s x p : pool_step contexts connections (has_returned s) (clients s) x p →
    step s (Threads x) (State (pc s) p).

Definition next (s : state) (x : label) : option state :=
  match x, pc s with
  | StartsThread, Starting k =>
      guard (k < contexts);; Some (State (Starting (S k)) (set_thread k Started (clients s)))
  | StartsCollecting, Starting k => guard (k = contexts);; Some (State (Collecting 0 [] 0) (clients s))
  | Collects, Collecting i errors total =>
      future ← results (clients s) !! i;
      Some (State (collect_one i errors total future) (clients s))
  | Returns, Collecting i errors total =>
      guard (i = connections);; Some (State (Returned errors total) (clients s))
  | Threads x, _ =>
      p ← pool_next contexts connections (has_returned s) (clients s) x; Some (State (pc s) p)
  | _, _ => None
  end.

Lemma detached_next_sound s x s' : next s x = Some s' → step s x s'.
Proof.
  destruct x; simpl; destruct (pc s) eqn:Hpc; intros Hn; try done; simplify_option_eq;
    try (by econstructor; eauto).
  all: rewrite <-Hpc; constructor; by apply pool_next_sound.
Qed.

(** *** The invariant *)

(** The results of the first [i] clients. *)
Definition first_results (i : nat) (m : gmap nat (exception_ptr * Z)) (rs : list (exception_ptr * Z)) : Prop :=
  length rs = i ∧ ∀ j, j < i → rs !! j = m !! j.

(** What the loop over the futures has computed is [Client.collect]. *)
Definition collected (i : nat) (errors : list exn) (total : Z) (s : state) : Prop :=
  ∃ rs, first_results i (results (clients s)) rs ∧ (errors, total) = Client.collect 0 rs.

Definition main_inv (s : state) : Prop :=
  match pc s with
  | Starting k => k <= contexts ∧ ∀ j, j < contexts → threads (clients s) !! j = Some NotStarted ↔ k <= j
  | Collecting i errors total => i <= connections ∧ collected i errors total s
      ∧ ∀ j, threads (clients s) !! j ≠ Some NotStarted
  | Returned errors total => collected connections errors total s
  end.
Definition detached_inv (s : state) : Prop := pool_inv contexts connections (clients s) ∧ main_inv s.

Lemma collect_snoc rs ec bytes : ∀ total,
  Client.collect total (rs ++ [(ec, bytes)]) =
    ((Client.collect total rs).1 ++ match ec with Some e => [e] | None => [] end,
     (Client.collect total rs).2 +ₛ bytes).
Proof.
  induction rs as [|[ec' b'] rs IH]; intros total; simpl; [by destruct ec|]. rewrite IH.
  destruct (Client.collect (total +ₛ b') rs) as [es t]. simpl. by destruct ec'.
Qed.

Lemma first_results_snoc i m rs r :
  first_results i m rs → m !! i = Some r → first_results (S i) m (rs ++ [r]).
Proof.
  intros [Hlen Hrs] Hi. split; [rewrite length_app; simpl; lia|]. intros j Hj.
  destruct (decide (j = i)) as [->|].
  - by rewrite Hi, <-Hlen, list_lookup_middle by done.
  - rewrite lookup_app_l by lia. apply Hrs. lia.
Qed.

Lemma first_results_mono i m m' rs : m ⊆ m' → first_results i m rs → first_results i m' rs.
Proof.
  intros Hm [Hlen Hrs]. split; [done|]. intros j Hj. rewrite Hrs by done.
  destruct (lookup_lt_is_Some_2 rs j ltac:(lia)) as [r Hr]. rewrite Hrs in Hr by done.
  rewrite Hr. symmetry. by eapply lookup_weaken.
Qed.

Lemma detached_inv_initial : detached_inv initial.
Proof.
  split; [apply load_pool_inv_initial|]. split; [lia|]. intros j Hj. simpl. rewrite lookup_replicate.
  intuition lia.
Qed.

Lemma main_inv_pool s x p :
  pool_step contexts connections (has_returned s) (clients s) x p → main_inv s → main_inv (State (pc s) p).
Proof.
  intros Hstep. pose proof (pool_step_results _ _ _ _ _ _ Hstep) as Hsub.
  assert (∀ i errors total, collected i errors total s → collected i errors total (State (pc s) p)) as Hcol.
  { intros i errors total (rs & Hrs & Hc). exists rs. split; [by eapply first_results_mono|done]. }
  unfold main_inv. simpl. destruct (pc s).
  - intros [Hk Hj]. split; [done|]. intros j Hlt. rewrite <-Hj by done. split; intros Hn.
    + destruct (decide (threads (clients s) !! j = Some NotStarted)); [done|].
      exfalso. by eapply pool_step_started.
    + by eapply pool_step_unstarted.
  - intros (Hi & Hc & Hn). split_and!; [done|by apply Hcol|]. intros j. by eapply pool_step_started.
  - apply Hcol.
Qed.

Lemma detached_inv_inductive : inductive_invariant step detached_inv.
Proof.
  intros s x s' [Hpool Hmain] Hstep.
  destruct Hstep as [s k Hpc Hk|s Hpc|s i errors total [ec bytes] Hpc Hr|s errors total Hpc|s x p Hp].
  - split; simpl; [by apply set_thread_inv|]. unfold main_inv in *. rewrite Hpc in Hmain. simpl.
    destruct Hmain as [_ Hmain]. split; [lia|]. intros j Hj. destruct (decide (j = k)) as [->|Hne].
    + rewrite list_lookup_insert_eq by by rewrite (pool_length _ _ _ Hpool). split; [done|lia].
    + rewrite list_lookup_insert_ne by done. rewrite Hmain by done. lia.
  - split; [done|]. unfold main_inv in *. rewrite Hpc in Hmain. simpl. destruct Hmain as [_ Hmain].
    split_and!; [lia| |].
    + exists []. split; [|done]. split; [done|lia].
    + intros j Hj. pose proof (lookup_lt_Some _ _ _ Hj) as Hlt. rewrite (pool_length _ _ _ Hpool) in Hlt.
      apply Hmain in Hj; lia.
  - split; [done|]. unfold main_inv in *. rewrite Hpc in Hmain. destruct Hmain as (Hi & (rs & Hrs & Hc) & Hn).
    simpl. split_and!; [|exists (rs ++ [(ec, bytes)]); split|done].
    + pose proof (pool_results _ _ _ Hpool _ _ Hr). lia.
    + by apply first_results_snoc.
    + by rewrite collect_snoc, <-Hc.
  - split; [done|]. unfold main_inv in *. rewrite Hpc in Hmain. by apply Hmain.
  - split; [by eapply pool_step_inv|by eapply main_inv_pool].
Qed.

Lemma detached_inv_reachable s : reachable step initial s → detached_inv s.
Proof. apply invariant_reachable; [apply detached_inv_inductive|apply detached_inv_initial]. Qed.

(** *** Termination *)

Definition remaining (s : state) : nat :=
  pool_work connections (clients s) +
  match pc s with
  | Starting _ => connections + 2
  | Collecting i _ _ => connections - i + 1
  | Returned _ _ => 0
  end.

Lemma detached_remaining s x s' : detached_inv s → step s x s' → remaining s' < remaining s.
Proof.
  intros [Hpool Hmain] Hstep. unfold remaining.
  destruct Hstep as [s k Hpc Hk|s Hpc|s i errors total [ec bytes] Hpc Hr|s errors total Hpc|s x p Hp]; simpl;
    try rewrite Hpc.
  - unfold main_inv in Hmain. rewrite Hpc in Hmain. destruct Hmain as [_ Hmain].
    pose proof (set_thread_work connections k NotStarted Started (clients s) ltac:(by apply Hmain)).
    simpl in *. lia.
  - lia.
  - pose proof (pool_results _ _ _ Hpool _ _ Hr). lia.
  - lia.
  - pose proof (pool_step_work _ _ _ _ _ _ Hpool Hp). lia.
Qed.

Lemma detached_progress s :
  (connections = 0 ∨ 0 < contexts) → detached_inv s → has_returned s = false → ∃ x s', step s x s'.
Proof.
  intros Hn [Hpool Hmain] Hret. unfold main_inv, has_returned in *. destruct (pc s) as [k|i errors total|] eqn:Hpc.
  - destruct (decide (k = contexts)) as [->|]; [by eexists _, _; apply starts_collecting|].
    eexists _, _. apply (starts_thread s k Hpc). lia.
  - destruct (decide (i = connections)) as [->|]; [by eexists _, _; apply (returns s errors total)|].
    destruct (results (clients s) !! i) as [future|] eqn:Hr; [by eexists _, _; apply (collects s i errors total)|].
    destruct Hmain as (Hi & _ & Hstarted).
    destruct (client_progress contexts connections (has_returned s) (clients s) i (None, 0%Z))
      as (x & p & Hp); [done|lia|done|lia|done|]. eexists _, _. by apply threads_step.
  - done.
Qed.
End Program.
End Detached.

(** ** corosio_client.cpp *)
Module Joined.
Section Program.
Context (contexts connections : nat).

Inductive program_counter :=
| Starting (k : nat)                          (* the loop that creates the threads *)
| InRun                                       (* [io_contexts[0].run()] *)
| Measured (rate_of : Z)                      (* the counter was read for the rate *)
| Joining (rate_of total : Z) (k : nat)       (* printed; the destructor of [threads] *)
| Returned (rate_of total : Z).
Record state := State { pc : program_counter; clients : pool Z; total_bytes : Z }.
Definition initial : state := State (Starting 1) (initial_pool contexts) 0.

Definition has_returned (s : state) : bool := match pc s with Returned _ _ => true | _ => false end.

(** [client_task] adds what its session has read to the counter. *)
Definition count_bytes (x : pool_label Z) (total_bytes : Z) : Z :=
  match x with ClientEnds _ read => total_bytes +ₛ read | _ => total_bytes end.

Inductive label :=
| StartsThread
| RunsFirst            (* [main] calls [io_contexts[0].run()] *)
| ReadsRate | Prints   (* the two loads of the counter *)
| Joins | Returns
| Threads (x : pool_label Z).

Inductive step : state → label → state → Prop :=
| starts_thread s k : pc s = Starting k → k < contexts →
    step s StartsThread (State (Starting (S k)) (set_thread k Started (clients s)) (total_bytes s))
| runs_first s : pc s = Starting contexts →
    step s RunsFirst (State InRun (set_thread 0 Started (clients s)) (total_bytes s))
| reads_rate s : pc s = InRun → threads (clients s) !! 0 = Some Left →
    step s ReadsRate (State (Measured (total_bytes s)) (clients s) (total_bytes s))
| prints s rate_of : pc s = Measured rate_of →
    step s Prints (State (Joining rate_of (total_bytes s) 1) (clients s) (total_bytes s))
| joins s rate_of total k : pc s = Joining rate_of total k → threads (clients s) !! k = Some Left →
    step s Joins (State (Joining rate_of total (S k)) (clients s) (total_bytes s))
| returns s rate_of total : pc s = Joining rate_of total contexts →
    step s Returns (State (Returned rate_of total) (clients s) (total_bytes s))
| threads_step s x p : pool_step contexts connections (has_returned s) (clients s) x p →
    step s (Threads x) (State (pc s) p (count_bytes x (total_bytes s))).

Definition next (s : state) (x : label) : option state :=
  match x, pc s with
  | StartsThread, Starting k =>
      guard (k < contexts);; Some (State (Starting (S k)) (set_thread k Started (clients s)) (total_bytes s))
  | RunsFirst, Starting k =>
      guard (k = contexts);; Some (State InRun (set_thread 0 Started (clients s)) (total_bytes s))
  | ReadsRate, InRun =>
      guard (threads (clients s) !! 0 = Some Left);;
      Some (State (Measured (total_bytes s)) (clients s) (total_bytes s))
  | Prints, Measured rate_of => Some (State (Joining rate_of (total_bytes s) 1) (clients s) (total_bytes s))
  | Joins, Joining rate_of total k =>
      guard (threads (clients s) !! k = Some Left);;
      Some (State (Joining rate_of total (S k)) (clients s) (total_bytes s))
  | Returns, Joining rate_of total k =>
      guard (k = contexts);; Some (State (Returned rate_of total) (clients s) (total_bytes s))
  | Threads x, _ =>
      p ← pool_next contexts connections (has_returned s) (clients s) x;
      Some (State (pc s) p (count_bytes x (total_bytes s)))
  | _, _ => None
  end.

Lemma joined_next_sound s x s' : next s x = Some s' → step s x s'.
Proof.
  destruct x; simpl; destruct (pc s) eqn:Hpc; intros Hn; try done; simplify_option_eq;
    try (by econstructor; eauto).
  all: rewrite <-Hpc; constructor; by apply pool_next_sound.
Qed.

(** *** The invariant *)

(** What the clients of [m] have read. *)
Definition sum_of (m : gmap nat Z) : Z := map_fold (λ _ read sum, (sum + read)%Z) 0%Z m.

Lemma sum_of_insert m i read : m !! i = None → sum_of (<[i := read]> m) = (sum_of m + read)%Z.
Proof. intros Hi. unfold sum_of. rewrite map_fold_insert_L; [done|intros; lia|done]. Qed.

(** A value [t] of the counter, read when the clients in [m] had ended, among them those of the first context. *)
Definition counted (t : Z) (m : gmap nat Z) : Prop :=
  t = wrap64 (sum_of m) ∧ context_done contexts connections 0 m.

Definition counted_twice (rate_of total : Z) (m : gmap nat Z) : Prop :=
  ∃ m1 m2, m1 ⊆ m2 ∧ m2 ⊆ m ∧ counted rate_of m1 ∧ counted total m2.

Definition main_inv (s : state) : Prop :=
  match pc s with
  | Starting k => 1 <= k <= contexts
      ∧ ∀ j, j < contexts → threads (clients s) !! j = Some NotStarted ↔ j = 0 ∨ k <= j
  | p => (∀ j, threads (clients s) !! j ≠ Some NotStarted) ∧
      match p with
      | Measured rate_of => threads (clients s) !! 0 = Some Left
          ∧ ∃ m, m ⊆ results (clients s) ∧ counted rate_of m
      | Joining rate_of total k => 1 <= k <= contexts ∧ counted_twice rate_of total (results (clients s))
          ∧ ∀ j, j < k → threads (clients s) !! j = Some Left
      | Returned rate_of total => counted_twice rate_of total (results (clients s))
          ∧ ∀ j, j < contexts → threads (clients s) !! j = Some Left
      | _ => True
      end
  end.
Record joined_inv (s : state) : Prop := {
  inv_pool : pool_inv contexts connections (clients s);
  inv_total : total_bytes s = wrap64 (sum_of (results (clients s)));
  inv_late : late (clients s) = false;
  inv_main : main_inv s
}.

Lemma joined_inv_initial : 0 < contexts → joined_inv initial.
Proof.
  intros Hn. split; [apply load_pool_inv_initial|done|done|]. split; [lia|]. intros j Hj. simpl.
  rewrite lookup_replicate. intuition lia.
Qed.

(** A thread that has left does nothing more. *)
Lemma pool_step_left gone p x p' k :
  pool_step contexts connections gone p x p' → threads p !! k = Some Left → threads (A := Z) p' !! k = Some Left.
Proof.
  destruct 1 as [p k' Hk|p i r Hi Hr Hk|p k' Hk Hdone]; simpl; try done;
    intros Hk2; rewrite list_lookup_insert_ne; congruence.
Qed.

Lemma pool_step_index gone p x p' :
  0 < contexts → pool_step contexts connections gone p x p' → pool_inv contexts connections (A := Z) p →
  ∃ k t, k < contexts ∧ threads p !! k = Some t ∧ t ≠ Left.
Proof.
  intros Hn Hstep Hinv. rewrite <-(pool_length _ _ _ Hinv).
  destruct Hstep as [p k Hk|p i r Hi Hr Hk|p k Hk Hdone]; eexists _, _;
    (split; [by eapply lookup_lt_Some|done]).
Qed.

Lemma pool_step_total gone p x p' :
  pool_step contexts connections gone p x p' →
  count_bytes x (wrap64 (sum_of (results p))) = wrap64 (sum_of (results p')).
Proof.
  destruct 1 as [p k Hk|p i r Hi Hr Hk|p k Hk Hdone]; simpl; try done.
  by rewrite sum_of_insert, size_add_wrap.
Qed.

Lemma counted_twice_mono t1 t2 m m' : m ⊆ m' → counted_twice t1 t2 m → counted_twice t1 t2 m'.
Proof. intros Hm (m1 & m2 & H1 & H2 & H). exists m1, m2. split_and!; [done|by etrans|apply H..]. Qed.

Lemma joined_main_pool s x p t :
  pool_step contexts connections (has_returned s) (clients s) x p → main_inv s → main_inv (State (pc s) p t).
Proof.
  intros Hstep. pose proof (pool_step_results _ _ _ _ _ _ Hstep) as Hsub.
  assert ((∀ j, threads (clients s) !! j ≠ Some NotStarted) → ∀ j, threads p !! j ≠ Some NotStarted) as Hns.
  { intros Hn j. by eapply pool_step_started. }
  assert (∀ n : nat, (∀ j, j < n → threads (clients s) !! j = Some Left) → ∀ j, j < n → threads p !! j = Some Left)
    as Hleft by (intros n Hn j Hj; eapply pool_step_left; eauto).
  unfold main_inv. simpl. destruct (pc s).
  - intros [Hk Hj]. split; [done|]. intros j Hlt. rewrite <-Hj by done. split; intros Hn.
    + destruct (decide (threads (clients s) !! j = Some NotStarted)); [done|].
      exfalso. by eapply pool_step_started.
    + by eapply pool_step_unstarted.
  - intros [Hn _]. auto.
  - intros (Hn & H0 & m & Hm & Hc). split_and!; [auto|by eapply pool_step_left|].
    exists m. split; [by etrans|done].
  - intros (Hn & Hk & Hc & Hl). split_and!; [by apply Hns|lia|lia|by eapply counted_twice_mono|by apply Hleft].
  - intros (Hn & Hc & Hl). split_and!; [by apply Hns|by eapply counted_twice_mono|by apply Hleft].
Qed.

(** An operation of [main] that leaves the threads and the counter alone. *)
Lemma joined_main s p :
  joined_inv s → main_inv (State p (clients s) (total_bytes s)) → joined_inv (State p (clients s) (total_bytes s)).
Proof. by intros [? ? ? _] Hmain. Qed.

Lemma started_main s p k :
  joined_inv s → main_inv (State p (set_thread k Started (clients s)) (total_bytes s)) →
  joined_inv (State p (set_thread k Started (clients s)) (total_bytes s)).
Proof. intros [? ? ? _] Hmain. split; [by apply set_thread_inv|done..]. Qed.

Lemma joined_inv_inductive : 0 < contexts → inductive_invariant step joined_inv.
Proof.
  intros Hn s x s' Hinv Hstep. pose proof (inv_main s Hinv) as Hmain. unfold main_inv in Hmain.
  pose proof (pool_length _ _ _ (inv_pool s Hinv)) as Hlen.
  destruct Hstep as [s k Hpc Hk|s Hpc|s Hpc H0|s rate_of Hpc|s rate_of total k Hpc Hl|s rate_of total Hpc|s x p Hp];
    try rewrite Hpc in Hmain.
  - apply started_main; [done|]. destruct Hmain as [H1 Hmain]. split; [lia|]. intros j Hj. simpl.
    destruct (decide (j = k)) as [->|Hne].
    + rewrite list_lookup_insert_eq by lia. split; [done|lia].
    + rewrite list_lookup_insert_ne by done. rewrite Hmain by done. lia.
  - apply started_main; [done|]. destruct Hmain as [H1 Hmain]. split; [|done]. intros j Hj. simpl in Hj.
    apply list_lookup_insert_Some in Hj as [(_ & ? & _)|[Hne Hj]]; [done|].
    pose proof (lookup_lt_Some _ _ _ Hj). apply Hmain in Hj; lia.
  - apply joined_main; [done|]. destruct Hmain as [Hstarted _]. split_and!; [done..|].
    exists (results (clients s)). split; [done|]. split; [apply inv_total, Hinv|].
    by apply (pool_left _ _ _ (inv_pool s Hinv)).
  - apply joined_main; [done|]. destruct Hmain as (Hstarted & H0 & m & Hm & Hc). split_and!; [done|lia|lia| |].
    + exists m, (results (clients s)). split_and!; [done..|]. split; [apply inv_total, Hinv|].
      by apply (pool_left _ _ _ (inv_pool s Hinv)).
    + intros j Hj. by replace j with 0 by lia.
  - apply joined_main; [done|]. destruct Hmain as (Hstarted & Hk & Hc & Hleft).
    pose proof (lookup_lt_Some _ _ _ Hl). split_and!; [done|lia|lia|done|].
    intros j Hj. destruct (decide (j = k)) as [->|]; [done|apply Hleft; lia].
  - apply joined_main; [done|]. destruct Hmain as (Hstarted & Hk & Hc & Hleft). by split_and!.
  - destruct Hinv as [Hpool Htotal Hlate _]. split; simpl.
    + by eapply pool_step_inv.
    + rewrite Htotal. by eapply pool_step_total.
    + assert (late p = late (clients s) || has_returned s) as ->.
      { destruct Hp; done. }
      rewrite Hlate. simpl. unfold has_returned. destruct (pc s) eqn:Hpc; try done. exfalso.
      destruct Hmain as (_ & _ & Hleft). destruct (pool_step_index _ _ _ _ Hn Hp Hpool) as (k & t & Hk & Ht & Hne).
      rewrite Hleft in Ht by done. congruence.
    + by eapply joined_main_pool.
Qed.

Lemma joined_inv_reachable s : 0 < contexts → reachable step initial s → joined_inv s.
Proof.
  intros Hn. apply invariant_reachable; [by apply joined_inv_inductive|by apply joined_inv_initial].
Qed.

(** *** Termination *)

Definition remaining (s : state) : nat :=
  pool_work connections (clients s) +
  match pc s with
  | Starting _ | InRun => contexts + 2
  | Measured _ => contexts + 1
  | Joining _ _ k => contexts - k + 1
  | Returned _ _ => 0
  end.

Lemma joined_remaining s x s' : 0 < contexts → joined_inv s → step s x s' → remaining s' < remaining s.
Proof.
  intros Hn Hinv Hstep. pose proof (inv_main s Hinv) as Hmain. pose proof (inv_pool s Hinv) as Hpool.
  unfold main_inv, remaining in *.
  destruct Hstep as [s k Hpc Hk|s Hpc|s Hpc H0|s rate_of Hpc|s rate_of total k Hpc Hl|s rate_of total Hpc|s x p Hp];
    simpl; try rewrite Hpc in *.
  - destruct Hmain as [_ Hmain].
    pose proof (set_thread_work connections k NotStarted Started (clients s) ltac:(apply Hmain; [done|lia])).
    simpl in *. lia.
  - destruct Hmain as [_ Hmain].
    pose proof (set_thread_work connections 0 NotStarted Started (clients s) ltac:(apply Hmain; [done|lia])).
    simpl in *. lia.
  - lia.
  - lia.
  - pose proof (lookup_lt_Some _ _ _ Hl) as Hk. rewrite (pool_length _ _ _ Hpool) in Hk. lia.
  - lia.
  - pose proof (pool_step_work _ _ _ _ _ _ Hpool Hp). lia.
Qed.

Lemma joined_progress s : 0 < contexts → joined_inv s → has_returned s = false → ∃ x s', step s x s'.
Proof.
  intros Hn Hinv Hret. pose proof (inv_main s Hinv) as Hmain. pose proof (inv_pool s Hinv) as Hpool.
  assert (∀ k, k < contexts → (∀ j, threads (clients s) !! j ≠ Some NotStarted) →
    threads (clients s) !! k = Some Left ∨ ∃ x s', step s x s') as Hthread.
  { intros k Hk Hstarted. rewrite <-(pool_length _ _ _ Hpool) in Hk.
    destruct (lookup_lt_is_Some_2 _ _ Hk) as [t Ht]. destruct (decide (t = Left)) as [->|Hl]; [by left|right].
    destruct (pool_progress contexts connections (has_returned s) (clients s) k t 0%Z) as (x & p & Hp);
      [done|intros ->; by eapply Hstarted|done|]. eexists _, _. by apply threads_step. }
  unfold main_inv, has_returned in *. destruct (pc s) as [k| |rate_of|rate_of total k|] eqn:Hpc; [| | | |done].
  - destruct (decide (k = contexts)) as [->|]; [by eexists _, _; apply runs_first|].
    eexists _, _. apply (starts_thread s k Hpc). lia.
  - destruct (Hthread 0 Hn (proj1 Hmain)) as [H0|]; [|done]. by eexists _, _; apply reads_rate.
  - eexists _, _. by eapply prints.
  - destruct (decide (k = contexts)) as [->|]; [by eexists _, _; apply (returns s rate_of total)|].
    destruct (Hthread k ltac:(lia) (proj1 Hmain)) as [H0|]; [|done]. eexists _, _. by eapply joins.
Qed.
End Program.
End Joined.

(** ** Properties *)

(** The numbers with which [main] goes on. *)
Lemma client_connects o n c limit :
  (0 <= Client.threads (Client.config o))%Z → (0 <= Client.connections (Client.config o))%Z →
  Client.main (Some o) = Client.Connect n c limit false → Z.to_nat c = 0 ∨ 0 < Z.to_nat n.
Proof.
  intros Ht Hc. simpl. destruct (Client.help o); [done|]. unfold Client.main_threads.
  destruct (Z.eqb_spec (Client.threads (Client.config o)) 0); [done|].
  destruct (seconds_negative (Client.run_duration (Client.config o))); [done|].
  intros [= <- <- _ Hd]. rewrite Hd. lia.
Qed.

Lemma corosio_connects o n c limit :
  (0 <= CorosioClient.threads (CorosioClient.config o))%Z →
  (0 <= CorosioClient.connections (CorosioClient.config o))%Z →
  CorosioClient.main (Some o) = CorosioClient.Connect n c limit → 0 < Z.to_nat n.
Proof.
  intros Ht Hc. simpl. destruct (CorosioClient.help o); [done|]. unfold CorosioClient.main_config.
  destruct (Z.eqb_spec (CorosioClient.threads (CorosioClient.config o)) 0); [done|].
  destruct (Z.eqb_spec (CorosioClient.connections (CorosioClient.config o)) 0); [done|].
  destruct (seconds_negative (CorosioClient.run_duration (CorosioClient.config o))); [done|].
  intros [= <- <- <-]. lia.
Qed.



(** ** Witnesses *)

Definition two_clients : Client.options := Client.Options false false (Client.Build_Config 2 8 (Seconds false true 1)).
Definition two_corosio : CorosioClient.options :=
  CorosioClient.Options false (CorosioClient.Build_Config 2 8 (Seconds false true 1)).

(** Both contexts are run, the second client ends first, with an error. *)
Definition client_labels : list Detached.label :=
  [Detached.StartsThread; Detached.StartsThread; Detached.Threads (ThreadRuns 1);
   Detached.Threads (ClientEnds 1 (Some (system_error Eof), 0%Z)); Detached.StartsCollecting;
   Detached.Threads (ThreadRuns 0); Detached.Threads (ClientEnds 0 (None, 5%Z));
   Detached.Collects; Detached.Collects; Detached.Returns].
Definition client_end : Detached.state :=
  default (Detached.initial 2) (execute_labels (Detached.next 2 2) (Detached.initial 2) client_labels).

Lemma client_run : steps (Detached.step 2 2) (Detached.initial 2) client_labels client_end.
Proof. apply (execute_labels_sound _ (Detached.next 2 2)); [apply Detached.detached_next_sound|reflexivity]. Qed.


(** The threads are detached: when the last future is ready, the thread that made it so is still in [run()],
    and accesses its context after [main] has destroyed it. *)
Theorem detached_thread_outlives_context :
  ∃ ls s, steps (Detached.step 2 2) (Detached.initial 2) ls s
    ∧ Detached.has_returned s = true ∧ late (Detached.clients s) = true.
Proof.
  exists (client_labels ++ [Detached.Threads (ThreadLeaves 0)]). eexists. split.
  - apply (execute_labels_sound _ (Detached.next 2 2)); [apply Detached.detached_next_sound|].
    vm_compute. reflexivity.
  - split; reflexivity.
Qed.

(** The first context is left while the client of the second is still reading. *)
Definition corosio_labels : list Joined.label :=
  [Joined.StartsThread; Joined.RunsFirst; Joined.Threads (ThreadRuns 0); Joined.Threads (ClientEnds 0 3%Z);
   Joined.Threads (ThreadLeaves 0); Joined.ReadsRate; Joined.Prints; Joined.Threads (ThreadRuns 1);
   Joined.Threads (ClientEnds 1 5%Z); Joined.Threads (ThreadLeaves 1); Joined.Joins; Joined.Returns].
Definition corosio_end : Joined.state :=
  default (Joined.initial 2) (execute_labels (Joined.next 2 2) (Joined.initial 2) corosio_labels).

Lemma corosio_run : steps (Joined.step 2 2) (Joined.initial 2) corosio_labels corosio_end.
Proof. apply (execute_labels_sound _ (Joined.next 2 2)); [apply Joined.joined_next_sound|reflexivity]. Qed.


(** [main] prints the total when it has left the first context, and joins the other threads only
    afterwards: the bytes of the clients that are still running are missing. *)
Theorem corosio_prints_too_little :
  CorosioClient.main (Some two_corosio) = CorosioClient.Connect 2 2 (Some 1%Z)
  ∧ ∃ ls s, steps (Joined.step 2 2) (Joined.initial 2) ls s
      ∧ Joined.pc s = Joined.Returned 3 3 ∧ Joined.total_bytes s = 8%Z.
Proof.
  split; [reflexivity|]. exists corosio_labels, corosio_end. split; [apply corosio_run|]. split; reflexivity.
Qed.
