(* ===== verification/Context.v ===== *)
(** * An io_context and the threads that run it

    [echo/*_threaded.cpp], lib/program_options.cpp ([run]) and issues/boost_process_fork.cpp run one context with
    several threads: [main] creates them, runs the context itself, and joins them.  A process is a chain of handlers (a
    coroutine, or callbacks that initiate each other); the class [Program] says what the handlers of a program
    do.  The step relation interleaves the threads and the completions.  Proved for every program: no process is run by
    two threads at once, no handler uses an object that was destroyed, the handlers of a strand do not overlap, no
    object is left, [main] returns exactly when all is done.

    What the relation assumes of Boost.Asio is documented: [run] executes queued handlers, in any order here, and returns
    when there is no work left (no operation in progress, no handler queued or being run); a strand executes one
    handler at a time; an operation completes with one of its results ([fits]). *)
From S2P Require Import Prelude.

(** What keeps the object of a process alive: the [shared_ptr]s in its handlers; the coroutine frame that the
    pending operation owns; the stack of [main]. *)
Inductive lifetime := Shared | Frame | Stack.

(** [P]: the operation a process is waiting for; [R]: a result. *)
Class Program (P R : Type) := {
  lifetime_of : P → lifetime;
  strand_of : P → option nat;              (* of a process's first operation: the strand it runs on, if any *)
  fits : P → R → bool;                     (* a result of this operation *)
  resume : P → R → option P * list P       (* the next operation; the processes that were started *)
}.

Section Model.
Context {P R : Type} `{!Program P R} (threads_count : nat).

(** [origin], [history]: its first operation, and all its results (not in the program). *)
Record process := Process {
  life : lifetime;
  origin : P;
  history : list R;
  now : option P;
  refs : nat;
  destroyed : bool
}.

(** A handler: of an operation in progress; queued with its result; run by a thread, which has not resumed the process
    yet, or has; destroyed. *)
Inductive place := Pending | Queued (r : R) | Running (t : nat) (r : R) | Finishing (t : nat) | Gone.
Record handler := Handler { owner : nat; at_ : place }.

(** The thread that runs it. *)
Definition runs_on (l : place) : option nat :=
  match l with Running t _ | Finishing t => Some t | _ => None end.

Inductive thread_phase := NotStarted | Looking | Busy (h : nat) | Left.

(** [main]: creates the threads [k], ...; runs the context; joins the threads [k], ... *)
Inductive program_counter := Starting (k : nat) | InRun | Joining (k : nat) | Returned.

(** [dangling]: a destroyed object was accessed.  [late]: a thread did something after [main] had returned. *)
Record state := State {
  pc : program_counter;
  threads : list thread_phase;
  processes : list process;
  handlers : list handler;
  dangling : bool;
  late : bool
}.

Definition start_process (p : P) : process := Process (lifetime_of p) p [] (Some p) 1 false.

(** The first handlers of new processes. *)
Definition begin_at (i : nat) (ps : list P) : list handler := (λ j, Handler j Pending) <$> seq i (length ps).

(** The processes [main] has started before it creates the threads. *)
Definition initial (ps : list P) : state :=
  State (Starting 1) (replicate threads_count NotStarted) (start_process <$> ps) (begin_at 0 ps) false false.

Definition has_returned (s : state) : bool := match pc s with Returned => true | _ => false end.

(** A [shared_ptr] is copied; one is destroyed, and with the last one the object. *)
Definition copy_ref (pr : process) : process :=
  Process (life pr) (origin pr) (history pr) (now pr) (S (refs pr)) (destroyed pr).
Definition drop_ref (pr : process) : process :=
  let n := pred (refs pr) in
  Process (life pr) (origin pr) (history pr) (now pr) n (destroyed pr || bool_decide (n = 0)).

(** What the process does when it is resumed: its next operation, if any, has a handler of its own, which holds a
    copy of [self], or the frame. *)
Definition advance (r : R) (next : option P) (pr : process) : process :=
  let pr := Process (life pr) (origin pr) (history pr ++ [r]) next (refs pr) (destroyed pr) in
  match life pr, next with
  | Shared, Some _ => drop_ref (copy_ref (copy_ref pr))   (* the local [self], its copy in the handler *)
  | Frame, None => drop_ref pr                            (* the coroutine ends *)
  | _, _ => pr
  end.

(** The handler is destroyed: a callback has kept its [self]. *)
Definition finish (pr : process) : process :=
  match life pr with Shared => drop_ref pr | _ => pr end.

Definition access (pr : process) (s : state) : state :=
  State (pc s) (threads s) (processes s) (handlers s) (dangling s || destroyed pr) (late s).
Definition by_thread (s : state) : state :=
  State (pc s) (threads s) (processes s) (handlers s) (dangling s) (late s || has_returned s).
Definition move (h i : nat) (l : place) (s : state) : state :=
  State (pc s) (threads s) (processes s) (<[h := Handler i l]> (handlers s)) (dangling s) (late s).
Definition set_thread (t : nat) (ph : thread_phase) (s : state) : state :=
  State (pc s) (<[t := ph]> (threads s)) (processes s) (handlers s) (dangling s) (late s).
Definition set_process (i : nat) (pr : process) (s : state) : state :=
  State (pc s) (threads s) (<[i := pr]> (processes s)) (handlers s) (dangling s) (late s).
Definition set_pc (p : program_counter) (s : state) : state :=
  State p (threads s) (processes s) (handlers s) (dangling s) (late s).

(** A new operation is initiated; new processes are started. *)
Definition pending (i : nat) (next : option P) : list handler :=
  match next with Some _ => [Handler i Pending] | None => [] end.
Definition initiate (i : nat) (next : option P) (s : state) : state :=
  State (pc s) (threads s) (processes s) (handlers s ++ pending i next) (dangling s) (late s).
Definition spawn (new : list P) (s : state) : state :=
  State (pc s) (threads s) (processes s ++ (start_process <$> new))
    (handlers s ++ begin_at (length (processes s)) new) (dangling s) (late s).

(** The thread [t] resumes the process [i] from its handler [h]. *)
Definition on_resume (t h i : nat) (pr : process) (p : P) (r : R) (s : state) : state :=
  let '(next, new) := resume p r in
  spawn new (initiate i next (set_process i (advance r next pr) (move h i (Finishing t) (access pr s)))).

Inductive label :=
| StartsThread | Runs | RunReturns | Joins | Returns        (* [main] *)
| Completes (h : nat) (r : R)
| Takes (t h : nat) | Resumes (t : nat) | Finishes (t : nat) | Leaves (t : nat).

(** A strand runs one handler at a time. *)
Definition strand_at (s : state) (i : nat) : option nat := pr ← processes s !! i; strand_of (origin pr).
Definition running_on (k : nat) (s : state) (h : handler) : Prop :=
  runs_on (at_ h) ≠ None ∧ strand_at s (owner h) = Some k.
#[local] Instance running_on_dec k s h : Decision (running_on k s h).
Proof.
  unfold running_on. destruct (runs_on (at_ h)); [|right; by intros []].
  destruct (decide (strand_at s (owner h) = Some k)); [left; by split|right; by intros []].
Defined.
Definition strand_free (s : state) (i : nat) : Prop :=
  match strand_at s i with Some k => ¬ Exists (running_on k s) (handlers s) | None => True end.
#[local] Instance strand_free_dec s i : Decision (strand_free s i).
Proof. unfold strand_free. destruct (strand_at s i); apply _. Defined.

(** [run] returns when there is no work left. *)
Definition no_work (s : state) : Prop := Forall (λ h, at_ h = Gone) (handlers s).

Inductive step : state → label → state → Prop :=
| starts_thread s k : pc s = Starting k → k < threads_count →
    step s StartsThread (set_pc (Starting (S k)) (set_thread k Looking s))
| runs s : pc s = Starting threads_count → step s Runs (set_pc InRun (set_thread 0 Looking s))
| run_returns s : pc s = InRun → threads s !! 0 = Some Left → step s RunReturns (set_pc (Joining 1) s)
| joins s k : pc s = Joining k → threads s !! k = Some Left → step s Joins (set_pc (Joining (S k)) s)
| returns s : pc s = Joining threads_count → step s Returns (set_pc Returned s)
| completes s h i pr p r : handlers s !! h = Some (Handler i Pending) → processes s !! i = Some pr →
    now pr = Some p → fits p r = true →
    step s (Completes h r) (move h i (Queued r) (access pr s))
| takes s t h i r : threads s !! t = Some Looking → handlers s !! h = Some (Handler i (Queued r)) →
    strand_free s i →
    step s (Takes t h) (by_thread (set_thread t (Busy h) (move h i (Running t r) s)))
| resumes s t h i pr p r : threads s !! t = Some (Busy h) → handlers s !! h = Some (Handler i (Running t r)) →
    processes s !! i = Some pr → now pr = Some p →
    step s (Resumes t) (by_thread (on_resume t h i pr p r s))
| finishes s t h i pr : threads s !! t = Some (Busy h) → handlers s !! h = Some (Handler i (Finishing t)) →
    processes s !! i = Some pr →
    step s (Finishes t) (by_thread (set_thread t Looking (set_process i (finish pr) (move h i Gone s))))
| leaves s t : threads s !! t = Some Looking → no_work s →
    step s (Leaves t) (by_thread (set_thread t Left s)).

(** The step relation, as a function. *)
Definition next (s : state) (x : label) : option state :=
  match x with
  | StartsThread =>
      match pc s with
      | Starting k => guard (k < threads_count);; Some (set_pc (Starting (S k)) (set_thread k Looking s))
      | _ => None
      end
  | Runs =>
      match pc s with
      | Starting k => guard (k = threads_count);; Some (set_pc InRun (set_thread 0 Looking s))
      | _ => None
      end
  | RunReturns =>
      match pc s, threads s !! 0 with InRun, Some Left => Some (set_pc (Joining 1) s) | _, _ => None end
  | Joins =>
      match pc s with
      | Joining k => match threads s !! k with Some Left => Some (set_pc (Joining (S k)) s) | _ => None end
      | _ => None
      end
  | Returns =>
      match pc s with Joining k => guard (k = threads_count);; Some (set_pc Returned s) | _ => None end
  | Completes h r =>
      match handlers s !! h with
      | Some (Handler i Pending) =>
          pr ← processes s !! i; p ← now pr; guard (fits p r = true);; Some (move h i (Queued r) (access pr s))
      | _ => None
      end
  | Takes t h =>
      match threads s !! t, handlers s !! h with
      | Some Looking, Some (Handler i (Queued r)) =>
          guard (strand_free s i);; Some (by_thread (set_thread t (Busy h) (move h i (Running t r) s)))
      | _, _ => None
      end
  | Resumes t =>
      match threads s !! t with
      | Some (Busy h) =>
          match handlers s !! h with
          | Some (Handler i (Running t' r)) =>
              guard (t = t');; pr ← processes s !! i; p ← now pr; Some (by_thread (on_resume t h i pr p r s))
          | _ => None
          end
      | _ => None
      end
  | Finishes t =>
      match threads s !! t with
      | Some (Busy h) =>
          match handlers s !! h with
          | Some (Handler i (Finishing t')) =>
              guard (t = t');; pr ← processes s !! i;
              Some (by_thread (set_thread t Looking (set_process i (finish pr) (move h i Gone s))))
          | _ => None
          end
      | _ => None
      end
  | Leaves t =>
      match threads s !! t with
      | Some Looking =>
          if forallb (λ h, match at_ h with Gone => true | _ => false end) (handlers s)
          then Some (by_thread (set_thread t Left s)) else None
      | _ => None
      end
  end.

Lemma context_next_sound s x s' : next s x = Some s' → step s x s'.
Proof.
  destruct x; simpl; intros Hn; repeat case_match; simplify_option_eq; try done;
    try (by econstructor; eauto).
  apply leaves; [done|]. apply Forall_forall. intros h Hh.
  match goal with H : forallb _ _ = true |- _ =>
    rewrite forallb_forall in H; specialize (H h (proj1 (list_elem_of_In _ _) Hh)) end.
  by destruct (at_ h).
Qed.

(** ** The invariant *)

(** The places in which a handler is to resume its process; in which it holds the process's object. *)
Definition active (l : place) : nat := match l with Pending | Queued _ | Running _ _ => 1 | _ => 0 end.
Definition held (l : place) : nat := match l with Gone => 0 | _ => 1 end.
Definition result_of (l : place) : option R := match l with Queued r | Running _ r => Some r | _ => None end.

Definition count (w : place → nat) (i : nat) (hs : list handler) : nat :=
  sum_list_with (λ h, if decide (owner h = i) then w (at_ h) else 0) hs.

(** The operations a process initiates one after the other, given their results. *)
Inductive runs_from (p : P) : list R → option P → Prop :=
| runs_nil : runs_from p [] (Some p)
| runs_snoc rs q r : runs_from p rs (Some q) → fits q r = true → runs_from p (rs ++ [r]) (resume q r).1.

Definition one_if (o : option P) : nat := match o with Some _ => 1 | None => 0 end.

Record process_ok (hs : list handler) (i : nat) (pr : process) : Prop := {
  ok_active : count active i hs = one_if (now pr);
  ok_history : runs_from (origin pr) (history pr) (now pr);
  ok_life : match life pr with
            | Shared => refs pr = count held i hs ∧ destroyed pr = bool_decide (refs pr = 0)
            | Frame => refs pr = one_if (now pr) ∧ destroyed pr = bool_decide (refs pr = 0)
            | Stack => destroyed pr = false
            end
}.

Definition main_inv (s : state) : Prop :=
  match pc s with
  | Starting k => 1 <= k <= threads_count
      ∧ ∀ j, j < threads_count → threads s !! j = Some NotStarted ↔ j = 0 ∨ k <= j
  | p => (∀ j, threads s !! j ≠ Some NotStarted) ∧
      match p with
      | Joining k => 1 <= k <= threads_count ∧ ∀ j, j < k → threads s !! j = Some Left
      | Returned => ∀ j, j < threads_count → threads s !! j = Some Left
      | _ => True
      end
  end.

(** A thread is busy with a handler that is run by it. *)
Definition agree (ths : list thread_phase) (hs : list handler) : Prop :=
  ∀ t h, ths !! t = Some (Busy h) ↔ ∃ hd, hs !! h = Some hd ∧ runs_on (at_ hd) = Some t.

Record inv (s : state) : Prop := {
  inv_threads : length (threads s) = threads_count;
  inv_owner h hd : handlers s !! h = Some hd → owner hd < length (processes s);
  inv_process i pr : processes s !! i = Some pr → process_ok (handlers s) i pr;
  inv_fits h i l r pr p : handlers s !! h = Some (Handler i l) → result_of l = Some r →
    processes s !! i = Some pr → now pr = Some p → fits p r = true;
  inv_busy : agree (threads s) (handlers s);
  inv_left t : threads s !! t = Some Left → no_work s;
  inv_dangling : dangling s = false;
  inv_late : late s = false;
  inv_main : main_inv s
}.

Implicit Types (s : state) (pr : process) (hs : list handler).

Lemma count_app w i hs ks : count w i (hs ++ ks) = count w i hs + count w i ks.
Proof. unfold count. by rewrite sum_list_with_app. Qed.

Lemma count_move w i hs h j l l' :
  hs !! h = Some (Handler j l) →
  count w i (<[h := Handler j l']> hs) + (if decide (j = i) then w l else 0)
    = count w i hs + (if decide (j = i) then w l' else 0).
Proof.
  intros Hh. exact (sum_list_insert (λ h, if decide (owner h = i) then w (at_ h) else 0) hs h _ (Handler j l') Hh).
Qed.

Lemma count_none w i hs : (∀ h hd, hs !! h = Some hd → owner hd ≠ i) → count w i hs = 0.
Proof.
  induction hs as [|hd hs IH]; intros Hne; [done|]. unfold count in *. simpl.
  rewrite decide_False by exact (Hne 0 hd eq_refl). apply IH. intros h. exact (Hne (S h)).
Qed.

Lemma count_elem w i hs h l : hs !! h = Some (Handler i l) → w l <= count w i hs.
Proof.
  intros Hh. unfold count. rewrite <-(take_drop_middle hs h _ Hh), sum_list_with_app. simpl.
  rewrite decide_True by done. lia.
Qed.

(** Two handlers that are to resume the same process are one. *)
Lemma active_unique hs i h1 h2 l1 l2 :
  count active i hs <= 1 → hs !! h1 = Some (Handler i l1) → hs !! h2 = Some (Handler i l2) →
  active l1 = 1 → active l2 = 1 → h1 = h2.
Proof.
  intros Hc H1 H2 Ha1 Ha2. destruct (decide (h1 = h2)) as [|Hne]; [done|].
  pose proof (count_move active i hs h1 i l1 Gone H1) as Hm. rewrite !decide_True in Hm by done.
  pose proof (count_elem active i (<[h1:=Handler i Gone]> hs) h2 l2) as He.
  rewrite list_lookup_insert_ne in He by done. specialize (He H2). simpl in *. lia.
Qed.

(** ** The steps preserve it *)

(** A handler that only changes its place, neither ending nor beginning to hold or to resume its process. *)
Lemma count_same w i hs h j l l' :
  hs !! h = Some (Handler j l) → w l = w l' → count w i (<[h := Handler j l']> hs) = count w i hs.
Proof. intros Hh Hw. pose proof (count_move w i hs h j l l' Hh). destruct (decide (j = i)); lia. Qed.

Lemma process_ok_same hs h j l l' i pr :
  hs !! h = Some (Handler j l) → active l = active l' → held l = held l' →
  process_ok hs i pr → process_ok (<[h := Handler j l']> hs) i pr.
Proof.
  intros Hh Ha Hl [H1 H2 H3]. split; [by rewrite (count_same _ _ _ _ _ _ _ Hh Ha)|done|].
  by rewrite (count_same _ _ _ _ _ _ _ Hh Hl).
Qed.

Lemma process_active s i pr h l :
  inv s → processes s !! i = Some pr → handlers s !! h = Some (Handler i l) → active l = 1 → now pr ≠ None.
Proof.
  intros Hinv Hp Hh Ha Hn. pose proof (ok_active _ _ _ (inv_process s Hinv i pr Hp)) as Hc.
  pose proof (count_elem active i _ _ _ Hh). rewrite Hn in Hc. simpl in Hc. lia.
Qed.

(** An object in use is alive. *)
Lemma process_alive s i pr :
  inv s → processes s !! i = Some pr → now pr ≠ None → destroyed pr = false.
Proof.
  intros Hinv Hp Hn. destruct (inv_process s Hinv i pr Hp) as [Ha _ Hl].
  destruct (now pr) as [p|]; [|done]. simpl in *.
  assert (∀ hs, count active i hs <= count held i hs) as Hle.
  { intros hs. unfold count. induction hs as [|hd hs IH]; simpl; [done|].
    destruct (decide (owner hd = i)); [|lia]. destruct (at_ hd); simpl; lia. }
  specialize (Hle (handlers s)).
  destruct (life pr); destruct_and?; [..|done]; (etrans; [done|]); apply bool_decide_eq_false; lia.
Qed.

(** The owner of a handler. *)
Lemma owner_process s h i l :
  inv s → handlers s !! h = Some (Handler i l) → ∃ pr, processes s !! i = Some pr.
Proof. intros Hinv Hh. by apply lookup_lt_is_Some_2, (inv_owner s Hinv _ _ Hh). Qed.

Lemma process_ok_other hs h j l l' i pr :
  hs !! h = Some (Handler j l) → i ≠ j → process_ok hs i pr → process_ok (<[h := Handler j l']> hs) i pr.
Proof.
  intros Hh Hne [H1 H2 H3].
  assert (∀ w, count w i (<[h := Handler j l']> hs) = count w i hs) as Hc.
  { intros w. pose proof (count_move w i hs h j l l' Hh) as Hm. rewrite !decide_False in Hm by done. lia. }
  split; [by rewrite Hc|done|by rewrite Hc].
Qed.

Lemma count_pending w i j next :
  count w i (pending j next) = if decide (j = i) then one_if next * w Pending else 0.
Proof. unfold count. destruct next; simpl; case_decide; simpl; lia. Qed.

Lemma count_begin w i a ps :
  count w i (begin_at a ps) = if decide (a <= i < a + length ps) then w Pending else 0.
Proof.
  unfold begin_at. generalize (length ps). intros n.
  induction n as [|n IH]; [rewrite decide_False by lia; done|]. rewrite seq_S, fmap_app, count_app, IH. unfold count. simpl.
  repeat case_decide; subst; try lia.
Qed.

Lemma begin_lookup a ps h hd :
  begin_at a ps !! h = Some hd → hd = Handler (a + h) Pending ∧ h < length ps.
Proof.
  unfold begin_at. rewrite list_lookup_fmap. destruct (seq a (length ps) !! h) as [k|] eqn:Hk; [|done].
  apply lookup_seq in Hk as [-> Hk]. by intros [= <-].
Qed.

(** A handler of another process makes no difference. *)
Lemma process_ok_pending hs i j next pr : i ≠ j → process_ok hs i pr → process_ok (hs ++ pending j next) i pr.
Proof.
  intros Hne [H1 H2 H3].
  assert (∀ w, count w i (hs ++ pending j next) = count w i hs) as Hc.
  { intros w. rewrite count_app, count_pending, decide_False by done. lia. }
  split; [by rewrite Hc|done|by rewrite Hc].
Qed.

Lemma process_ok_begin hs i j ps pr : i < j → process_ok hs i pr → process_ok (hs ++ begin_at j ps) i pr.
Proof.
  intros Hlt [H1 H2 H3].
  assert (∀ w, count w i (hs ++ begin_at j ps) = count w i hs) as Hc.
  { intros w. rewrite count_app, count_begin, decide_False by lia. lia. }
  split; [by rewrite Hc|done|by rewrite Hc].
Qed.

Lemma finish_ok hs h i t pr :
  hs !! h = Some (Handler i (Finishing t)) → process_ok hs i pr →
  process_ok (<[h := Handler i Gone]> hs) i (finish pr).
Proof.
  intros Hh [H1 H2 H3]. pose proof (count_move active i hs h i _ Gone Hh) as Ha.
  pose proof (count_move held i hs h i _ Gone Hh) as Hl. rewrite !decide_True in Ha, Hl by done. simpl in Ha, Hl.
  unfold finish. destruct (life pr) eqn:Hlife; split; rewrite ?Hlife; simpl; try done; try lia.
  rewrite Hlife. destruct H3 as [Hr Hd]. split; [lia|].
  rewrite Hd, Hr. rewrite bool_decide_eq_false_2 by lia. done.
Qed.

Lemma advance_ok hs h i t pr p r :
  hs !! h = Some (Handler i (Running t r)) → now pr = Some p → fits p r = true → process_ok hs i pr →
  process_ok (<[h := Handler i (Finishing t)]> hs ++ pending i (resume p r).1) i (advance r (resume p r).1 pr).
Proof.
  intros Hh Hp Hfits [H1 H2 H3]. pose proof (count_move active i hs h i _ (Finishing t) Hh) as Ha.
  pose proof (count_move held i hs h i _ (Finishing t) Hh) as Hl. rewrite !decide_True in Ha, Hl by done.
  rewrite Hp in *. simpl in Ha, Hl, H1, H3.
  assert (runs_from (origin pr) (history pr ++ [r]) (resume p r).1) as Hruns by by constructor.
  assert (∀ w, count w i (<[h := Handler i (Finishing t)]> hs ++ pending i (resume p r).1)
    = count w i (<[h := Handler i (Finishing t)]> hs) + one_if (resume p r).1 * w Pending) as Hc.
  { intros w. by rewrite count_app, count_pending, decide_True. }
  split; rewrite ?Hc; clear Hc; unfold advance; destruct (life pr) eqn:Hlife, (resume p r).1 as [q|] eqn:Hq; simpl;
    rewrite ?Hlife; simpl; try done; try lia.
  - destruct H3 as [Hr Hd]. pose proof (count_elem held i hs h _ Hh) as He. simpl in He.
    split; [lia|]. by rewrite Hd, bool_decide_eq_false_2 by lia.
  - destruct H3 as [Hr Hd]. split; [lia|done].
  - destruct H3 as [Hr Hd]. rewrite Hd, Hr. done.
Qed.

(** A process that has just been started. *)
Lemma start_ok hs a ps k q :
  (∀ h hd, hs !! h = Some hd → owner hd < a) → ps !! k = Some q →
  process_ok (hs ++ begin_at a ps) (a + k) (start_process q).
Proof.
  intros Hold Hk%lookup_lt_Some. assert (∀ w, count w (a + k) (hs ++ begin_at a ps) = w Pending) as Hc.
  { intros w. rewrite count_app, count_begin, decide_True, count_none; [done| |lia].
    intros h hd Hh. specialize (Hold h hd Hh). lia. }
  split; rewrite ?Hc; simpl; [done|constructor|]. by destruct (lifetime_of q).
Qed.

Lemma agree_move ths hs h i l l' :
  hs !! h = Some (Handler i l) → runs_on l = runs_on l' → agree ths hs → agree ths (<[h := Handler i l']> hs).
Proof.
  unfold agree. intros Hh Hl Hagree t h'. rewrite Hagree. destruct (decide (h' = h)) as [->|Hne].
  - rewrite list_lookup_insert_eq by by eapply lookup_lt_Some. rewrite Hh.
    split; intros (hd & [= <-] & Hr); eexists; (split; [done|]); simpl in *; congruence.
  - by rewrite list_lookup_insert_ne by done.
Qed.

Lemma agree_pending ths hs i next : agree ths hs → agree ths (hs ++ pending i next).
Proof.
  unfold agree. intros Hagree t h. rewrite Hagree. split.
  - intros (hd & Hh & Hr). exists hd. split; [by apply lookup_app_l_Some|done].
  - intros (hd & [Hh|[_ Hh]]%lookup_app_Some & Hr); [by exists hd|].
    destruct next; [|done]. apply list_lookup_singleton_Some in Hh as [_ <-]. done.
Qed.

Lemma agree_begin ths hs a ps : agree ths hs → agree ths (hs ++ begin_at a ps).
Proof.
  unfold agree. intros Hagree t h. rewrite Hagree. split.
  - intros (hd & Hh & Hr). exists hd. split; [by apply lookup_app_l_Some|done].
  - by intros (hd & [Hh|[_ [-> _]%begin_lookup]]%lookup_app_Some & Hr); [exists hd|].
Qed.

Lemma agree_take ths hs t h i r :
  ths !! t = Some Looking → hs !! h = Some (Handler i (Queued r)) → agree ths hs →
  agree (<[t := Busy h]> ths) (<[h := Handler i (Running t r)]> hs).
Proof.
  unfold agree. intros Ht Hh Hagree t' h'. pose proof (lookup_lt_Some _ _ _ Ht). pose proof (lookup_lt_Some _ _ _ Hh).
  destruct (decide (t' = t)) as [->|Htne]; destruct (decide (h' = h)) as [->|Hhne];
    rewrite ?list_lookup_insert_eq, ?list_lookup_insert_ne by done.
  - split; [intros _; by eexists|done].
  - split; [intros [= ->]; done|]. intros Hr. apply Hagree in Hr. congruence.
  - split; [|intros (hd & [= <-] & [= ->]); done]. rewrite Hagree, Hh. intros (hd & [= <-] & ?). done.
  - apply Hagree.
Qed.

Lemma agree_finish ths hs t h i l :
  ths !! t = Some (Busy h) → hs !! h = Some (Handler i l) → agree ths hs →
  agree (<[t := Looking]> ths) (<[h := Handler i Gone]> hs).
Proof.
  unfold agree. intros Ht Hh Hagree t' h'. pose proof (lookup_lt_Some _ _ _ Ht). pose proof (lookup_lt_Some _ _ _ Hh).
  pose proof (proj1 (Hagree t h) Ht) as (hd & Hhd & Hr). rewrite Hh in Hhd. injection Hhd as <-. simpl in Hr.
  destruct (decide (t' = t)) as [->|Htne]; destruct (decide (h' = h)) as [->|Hhne];
    rewrite ?list_lookup_insert_eq, ?list_lookup_insert_ne by done.
  - split; [done|]. by intros (hd & [= <-] & ?).
  - split; [done|]. intros Hr'. apply Hagree in Hr'. congruence.
  - split; [|by intros (hd & [= <-] & ?)]. rewrite Hagree, Hh. intros (hd & [= <-] & Hr'). simpl in Hr'. congruence.
  - apply Hagree.
Qed.

Lemma agree_thread ths hs t ph ph' :
  ths !! t = Some ph → (∀ h, ph ≠ Busy h) → (∀ h, ph' ≠ Busy h) → agree ths hs → agree (<[t := ph']> ths) hs.
Proof.
  unfold agree. intros Ht Hph Hph' Hagree t' h. rewrite <-Hagree. destruct (decide (t' = t)) as [->|Hne].
  - rewrite list_lookup_insert_eq by by eapply lookup_lt_Some. rewrite Ht. split; intros [= Heq]; naive_solver.
  - by rewrite list_lookup_insert_ne by done.
Qed.

(** The threads and [main]. *)
Lemma nobody_left s t h hd : inv s → handlers s !! h = Some hd → at_ hd ≠ Gone → threads s !! t ≠ Some Left.
Proof. intros Hinv Hh Hg Ht. apply Hg. exact (Forall_lookup_1 _ _ _ _ (inv_left s Hinv t Ht) Hh). Qed.

Lemma thread_not_returned s t ph : inv s → threads s !! t = Some ph → ph ≠ Left → has_returned s = false.
Proof.
  intros Hinv Ht Hph. unfold has_returned. destruct (pc s) eqn:Hpc; try done.
  pose proof (inv_main s Hinv) as Hmain. unfold main_inv in Hmain. rewrite Hpc in Hmain.
  destruct Hmain as [_ Hleft]. pose proof (lookup_lt_Some _ _ _ Ht) as Hlt.
  rewrite (inv_threads s Hinv) in Hlt. specialize (Hleft t Hlt). congruence.
Qed.

Lemma main_inv_thread s s' t ph ph' :
  main_inv s → threads s !! t = Some ph → ph ≠ NotStarted → ph ≠ Left → ph' ≠ NotStarted →
  pc s' = pc s → threads s' = <[t := ph']> (threads s) → main_inv s'.
Proof.
  intros Hmain Ht Hn Hl Hn' Hpc Hths. unfold main_inv in *. rewrite Hpc, Hths.
  assert (∀ j, <[t:=ph']> (threads s) !! j = Some NotStarted ↔ threads s !! j = Some NotStarted) as Hns.
  { intros j. rewrite list_lookup_insert_Some. destruct (decide (t = j)) as [->|Hne]; [|naive_solver].
    rewrite Ht. split; [naive_solver|congruence]. }
  assert (∀ n, (∀ j, j < n → threads s !! j = Some Left) → ∀ j, j < n → <[t:=ph']> (threads s) !! j = Some Left)
    as Hleft.
  { intros n Hall j Hj. rewrite list_lookup_insert_ne; [auto|]. intros ->. specialize (Hall _ Hj). congruence. }
  destruct (pc s); setoid_rewrite Hns; naive_solver.
Qed.

(** The handlers in progress stay with a fitting result. *)
Definition fitting (hs : list handler) (ps : list process) : Prop :=
  ∀ h i l r pr p, hs !! h = Some (Handler i l) → result_of l = Some r → ps !! i = Some pr → now pr = Some p →
    fits p r = true.

Lemma fitting_move hs ps h i l l' :
  hs !! h = Some (Handler i l) → (∀ r, result_of l' = Some r → result_of l = Some r) → fitting hs ps →
  fitting (<[h := Handler i l']> hs) ps.
Proof.
  intros Hh Hr Hfit h' i' l1 r pr p [(-> & [= -> ->] & _)|[_ Hh']]%list_lookup_insert_Some Hl; [|by eapply Hfit].
  by eapply Hfit; [exact Hh|apply Hr].
Qed.

(** What [main] does. *)
Lemma inv_main_step s ths p :
  inv s → length ths = threads_count → agree ths (handlers s) →
  (∀ t, ths !! t = Some Left → threads s !! t = Some Left) →
  main_inv (State p ths (processes s) (handlers s) (dangling s) (late s)) →
  inv (State p ths (processes s) (handlers s) (dangling s) (late s)).
Proof. intros [] ? ? Hleft ?. split; simpl; try done. intros t Ht. by eapply inv_left0, Hleft. Qed.

Lemma main_keeps s p :
  inv s → main_inv (set_pc p s) → inv (set_pc p s).
Proof. intros Hinv Hmain. apply inv_main_step; [done|apply Hinv|apply Hinv|done|done]. Qed.

Lemma main_starts s p k :
  inv s → threads s !! k = Some NotStarted → main_inv (set_pc p (set_thread k Looking s)) →
  inv (set_pc p (set_thread k Looking s)).
Proof.
  intros Hinv Hk Hmain. apply (inv_main_step s (<[k := Looking]> (threads s)) p); [done|..|done].
  - by rewrite length_insert, (inv_threads s Hinv).
  - eapply agree_thread; [exact Hk|done|done|apply Hinv].
  - intros t [(_ & ? & _)|[_ Ht]]%list_lookup_insert_Some; done.
Qed.

Lemma completes_inv s h i pr p r :
  inv s → handlers s !! h = Some (Handler i Pending) → processes s !! i = Some pr → now pr = Some p →
  fits p r = true → inv (move h i (Queued r) (access pr s)).
Proof.
  intros Hinv Hh Hp Hnow Hfits. pose proof (process_alive s i pr Hinv Hp ltac:(by rewrite Hnow)) as Halive.
  pose proof (nobody_left s) as Hleft.
  split; simpl.
  - apply Hinv.
  - intros h' hd [(_ & <- & _)|[_ Hh']]%list_lookup_insert_Some; [by apply (inv_owner s Hinv h _ Hh)|].
    by apply (inv_owner s Hinv h').
  - intros j pr' Hj. eapply process_ok_same; [exact Hh|done|done|by apply Hinv].
  - intros h' i' l r' pr' p' [(_ & [= -> <-] & _)|[_ Hh']]%list_lookup_insert_Some; [|by apply (inv_fits s Hinv h')].
    intros [= ->] Hp' Hnow'. congruence.
  - eapply agree_move; [exact Hh|done|apply Hinv].
  - intros t Ht. exfalso. by apply (Hleft t h _ Hinv Hh).
  - by rewrite Halive, (inv_dangling s Hinv).
  - apply Hinv.
  - apply Hinv.
Qed.

Lemma takes_inv s t h i r :
  inv s → threads s !! t = Some Looking → handlers s !! h = Some (Handler i (Queued r)) →
  inv (by_thread (set_thread t (Busy h) (move h i (Running t r) s))).
Proof.
  intros Hinv Ht Hh. pose proof (thread_not_returned s t _ Hinv Ht ltac:(done)) as Hret.
  split; simpl.
  - by rewrite length_insert, (inv_threads s Hinv).
  - intros h' hd [(_ & <- & _)|[_ Hh']]%list_lookup_insert_Some; [by apply (inv_owner s Hinv h _ Hh)|].
    by apply (inv_owner s Hinv h').
  - intros j pr' Hj. eapply process_ok_same; [exact Hh|done|done|by apply Hinv].
  - eapply fitting_move; [exact Hh|done|exact (inv_fits s Hinv)].
  - eapply agree_take; [done|done|apply Hinv].
  - intros t' [(_ & ? & _)|[_ Ht']]%list_lookup_insert_Some; [done|].
    exfalso. by apply (nobody_left s t' h _ Hinv Hh).
  - apply Hinv.
  - unfold has_returned in *. simpl. by rewrite Hret, (inv_late s Hinv).
  - by apply (main_inv_thread s _ t _ (Busy h) (inv_main s Hinv) Ht).
Qed.

Lemma finishes_inv s t h i pr :
  inv s → threads s !! t = Some (Busy h) → handlers s !! h = Some (Handler i (Finishing t)) →
  processes s !! i = Some pr →
  inv (by_thread (set_thread t Looking (set_process i (finish pr) (move h i Gone s)))).
Proof.
  intros Hinv Ht Hh Hp. pose proof (thread_not_returned s t _ Hinv Ht ltac:(done)) as Hret.
  split; simpl.
  - by rewrite length_insert, (inv_threads s Hinv).
  - intros h' hd. rewrite length_insert. intros [(_ & <- & _)|[_ Hh']]%list_lookup_insert_Some;
      [by apply (inv_owner s Hinv h _ Hh)|by apply (inv_owner s Hinv h')].
  - intros j pr' [(<- & <- & _)|[Hne Hj]]%list_lookup_insert_Some.
    + eapply finish_ok; [exact Hh|by apply Hinv].
    + eapply process_ok_other; [exact Hh|done|by apply Hinv].
  - intros h' i' l r pr' p' Hh' Hl Hp' Hnow'.
    assert (∃ pr0, processes s !! i' = Some pr0 ∧ now pr0 = now pr') as (pr0 & Hp0 & Hnow0).
    { apply list_lookup_insert_Some in Hp' as [(<- & <- & _)|[_ Hp']]; [exists pr; split; [done|]|by exists pr'].
      unfold finish. by destruct (life pr). }
    eapply (fitting_move (handlers s) (processes s));
      [exact Hh| |exact (inv_fits s Hinv)|exact Hh'|exact Hl|exact Hp0|congruence].
    done.
  - eapply agree_finish; [done|done|apply Hinv].
  - intros t' [(_ & ? & _)|[_ Ht']]%list_lookup_insert_Some; [done|].
    exfalso. by apply (nobody_left s t' h _ Hinv Hh).
  - apply Hinv.
  - unfold has_returned in *. simpl. by rewrite Hret, (inv_late s Hinv).
  - by apply (main_inv_thread s _ t _ Looking (inv_main s Hinv) Ht).
Qed.

Lemma leaves_inv s t :
  inv s → threads s !! t = Some Looking → no_work s → inv (by_thread (set_thread t Left s)).
Proof.
  intros Hinv Ht Hwork. pose proof (thread_not_returned s t _ Hinv Ht ltac:(done)) as Hret.
  split; simpl; try apply Hinv.
  - by rewrite length_insert, (inv_threads s Hinv).
  - eapply agree_thread; [exact Ht|done|done|apply Hinv].
  - intros t' _. exact Hwork.
  - unfold has_returned in *. simpl. by rewrite Hret, (inv_late s Hinv).
  - by apply (main_inv_thread s _ t _ Left (inv_main s Hinv) Ht).
Qed.

Lemma pending_lookup hs i next h hd :
  (hs ++ pending i next) !! h = Some hd → hs !! h = Some hd ∨ hd = Handler i Pending ∧ next ≠ None.
Proof.
  intros [Hh|[_ Hh]]%lookup_app_Some; [by left|right].
  destruct next; [|done]. by apply list_lookup_singleton_Some in Hh as [_ <-].
Qed.

Lemma advance_now r next pr : now (advance r next pr) = next.
Proof. unfold advance. by destruct (life pr), next. Qed.

(** The processes and handlers after a process was resumed. *)
Lemma resumed_processes s t h i pr p r j pr' :
  inv s → handlers s !! h = Some (Handler i (Running t r)) → processes s !! i = Some pr → now pr = Some p →
  let s' := on_resume t h i pr p r s in
  processes s' !! j = Some pr' → process_ok (handlers s') j pr'.
Proof.
  intros Hinv Hh Hp Hnow. unfold on_resume. destruct (resume p r) as [next new] eqn:Hres. simpl.
  pose proof (inv_fits s Hinv _ _ _ _ _ _ Hh eq_refl Hp Hnow) as Hfits. rewrite length_insert. intros Hj.
  assert (∀ h' hd, (<[h:=Handler i (Finishing t)]> (handlers s) ++ pending i next) !! h' = Some hd →
    owner hd < length (processes s)) as Howner.
  { intros h' hd [Hh'|[-> _]]%pending_lookup; [|by eapply lookup_lt_Some].
    apply list_lookup_insert_Some in Hh' as [(_ & <- & _)|[_ Hh']]; [by eapply lookup_lt_Some|].
    by apply (inv_owner s Hinv h'). }
  apply lookup_app_Some in Hj as [Hj|[Hlen Hj]].
  - apply process_ok_begin.
    { apply lookup_lt_Some in Hj. by rewrite length_insert in Hj. }
    apply list_lookup_insert_Some in Hj as [(<- & <- & _)|[Hne Hj]].
    + pose proof (advance_ok _ _ _ _ _ _ _ Hh Hnow Hfits (inv_process s Hinv i pr Hp)) as Hok.
      by rewrite Hres in Hok.
    + apply process_ok_pending; [done|]. eapply process_ok_other; [exact Hh|done|by apply Hinv].
  - rewrite length_insert in *. apply list_lookup_fmap_Some in Hj as (q & -> & Hq).
    replace j with (length (processes s) + (j - length (processes s))) by lia. by apply start_ok.
Qed.

Lemma resumes_inv s t h i pr p r :
  inv s → threads s !! t = Some (Busy h) → handlers s !! h = Some (Handler i (Running t r)) →
  processes s !! i = Some pr → now pr = Some p → inv (by_thread (on_resume t h i pr p r s)).
Proof.
  intros Hinv Ht Hh Hp Hnow. pose proof (thread_not_returned s t _ Hinv Ht ltac:(done)) as Hret.
  pose proof (process_alive s i pr Hinv Hp ltac:(by rewrite Hnow)) as Halive.
  pose proof (λ j pr', resumed_processes s t h i pr p r j pr' Hinv Hh Hp Hnow) as Hok.
  pose proof (inv_process s Hinv i pr Hp) as Hpr.
  unfold on_resume in *. destruct (resume p r) as [next new] eqn:Hres. split; simpl in *; [| |exact Hok|..].
  - apply Hinv.
  - intros h' hd. rewrite length_app, !length_insert.
    intros [[Hh'|[-> _]]%pending_lookup|[_ [-> Hnew]%begin_lookup]]%lookup_app_Some; rewrite length_fmap.
    + apply list_lookup_insert_Some in Hh' as [(_ & <- & _)|[_ Hh']]; simpl;
        [apply (inv_owner s Hinv) in Hh; simpl in Hh; lia|apply (inv_owner s Hinv) in Hh'; lia].
    + apply lookup_lt_Some in Hp. simpl. lia.
    + simpl. lia.
  - intros h' i' l r' pr' p' [[Hh'|[[= -> ->] _]]%pending_lookup|[_ [[= -> ->] _]%begin_lookup]]%lookup_app_Some; try done.
    apply list_lookup_insert_Some in Hh' as [(_ & [= <- <-] & _)|[Hne Hh']]; [done|]. intros Hl Hp' Hnow'.
    assert (i' < length (processes s)) as Hi' by exact (inv_owner s Hinv _ _ Hh').
    rewrite lookup_app_l in Hp' by (by rewrite length_insert).
    apply list_lookup_insert_Some in Hp' as [(-> & _ & _)|[_ Hp']]; [|by eapply (inv_fits s Hinv)].
    exfalso. apply Hne. apply (active_unique (handlers s) i' h h' (Running t r) l); try done.
    + rewrite (ok_active _ _ _ Hpr). by destruct (now pr).
    + by destruct l.
  - apply agree_begin, agree_pending. eapply agree_move; [exact Hh|done|apply Hinv].
  - intros t' Ht'. exfalso. by apply (nobody_left s t' h _ Hinv Hh).
  - by rewrite Halive, (inv_dangling s Hinv).
  - unfold has_returned in *. simpl. by rewrite Hret, (inv_late s Hinv).
  - pose proof (inv_main s Hinv) as Hmain. exact Hmain.
Qed.

Lemma inv_inductive : 0 < threads_count → inductive_invariant step inv.
Proof.
  intros Hn s x s' Hinv Hstep. pose proof (inv_main s Hinv) as Hmain. unfold main_inv in Hmain.
  pose proof (inv_threads s Hinv) as Hlen.
  destruct Hstep as [s k Hpc Hk|s Hpc|s Hpc H0|s k Hpc Hk|s Hpc|s h i pr p r Hh Hp Hnow Hfits|s t h i r Ht Hh Hfree
                    |s t h i pr p r Ht Hh Hp Hnow|s t h i pr Ht Hh Hp|s t Ht Hwork]; try rewrite Hpc in Hmain.
  - destruct Hmain as [H1 Hns]. apply main_starts; [done|apply Hns; [done|lia]|].
    split; [lia|]. simpl. intros j Hj. destruct (decide (j = k)) as [->|Hne].
    + rewrite list_lookup_insert_eq by lia. split; [done|lia].
    + rewrite list_lookup_insert_ne by done. rewrite Hns by done. lia.
  - destruct Hmain as [H1 Hns]. apply main_starts; [done|apply Hns; [done|lia]|].
    split; [|done]. simpl. intros j [(_ & ? & _)|[Hne Hj]]%list_lookup_insert_Some; [done|].
    pose proof (lookup_lt_Some _ _ _ Hj). apply Hns in Hj; lia.
  - apply main_keeps; [done|]. destruct Hmain as [Hns _]. split_and!; [done|lia|lia|].
    intros j Hj. by replace j with 0 by lia.
  - apply main_keeps; [done|]. destruct Hmain as (Hns & H1 & Hleft).
    pose proof (lookup_lt_Some _ _ _ Hk). split_and!; [done|lia|lia|]. intros j Hj.
    destruct (decide (j = k)) as [->|]; [done|apply Hleft; lia].
  - apply main_keeps; [done|]. destruct Hmain as (Hns & H1 & Hleft). by split.
  - by eapply completes_inv.
  - by apply takes_inv.
  - by apply resumes_inv.
  - by apply finishes_inv.
  - by apply leaves_inv.
Qed.

Lemma inv_initial ps : 0 < threads_count → inv (initial ps).
Proof.
  intros Hn.
  assert (∀ h hd, handlers (initial ps) !! h = Some hd → hd = Handler h Pending ∧ h < length ps) as Hh.
  { intros h hd Hh. by apply begin_lookup in Hh. }
  assert (∀ t ph, threads (initial ps) !! t = Some ph → ph = NotStarted) as Ht.
  { intros t ph. simpl. by intros [-> _]%lookup_replicate_1. }
  split; simpl; try done.
  - apply length_replicate.
  - intros h hd [-> Hlt]%Hh. by rewrite length_fmap.
  - intros i pr Hi. rewrite list_lookup_fmap in Hi. destruct (ps !! i) as [p|] eqn:Hp; [|done]. injection Hi as <-.
    apply lookup_lt_Some in Hp. split; rewrite ?count_begin, ?decide_True by lia; simpl; [done|constructor|].
    by destruct (lifetime_of p).
  - intros h i l r pr p [[= -> ->] _]%Hh. done.
  - intros t h. split; [by intros ?%Ht|]. by intros (hd & [-> _]%Hh & ?).
  - by intros t ?%Ht.
  - split; [lia|]. intros j Hj. simpl. rewrite lookup_replicate. intuition lia.
Qed.

Lemma inv_reachable ps s : 0 < threads_count → reachable step (initial ps) s → inv s.
Proof. intros Hn. apply invariant_reachable; [by apply inv_inductive|by apply inv_initial]. Qed.

(** ** Strands *)

Definition runner (s : state) (k h : nat) : Prop :=
  ∃ hd, handlers s !! h = Some hd ∧ running_on k s hd.
Definition serial (s : state) : Prop := ∀ k h1 h2, runner s k h1 → runner s k h2 → h1 = h2.

Lemma strand_at_same s s' i : origin <$> processes s !! i = origin <$> processes s' !! i → strand_at s i = strand_at s' i.
Proof. unfold strand_at. destruct (processes s !! i), (processes s' !! i); intros [=]; simpl; congruence. Qed.

(** A step that keeps the origins of the processes, and in which no handler begins to run. *)
Lemma serial_same s s' :
  (∀ h hd, handlers s' !! h = Some hd → runs_on (at_ hd) ≠ None →
     origin <$> processes s' !! owner hd = origin <$> processes s !! owner hd
     ∧ ∃ hd0, handlers s !! h = Some hd0 ∧ owner hd0 = owner hd ∧ runs_on (at_ hd0) ≠ None) →
  serial s → serial s'.
Proof.
  intros Hsame Hserial k h1 h2.
  assert (∀ h, runner s' k h → runner s k h) as Hrun.
  { intros h (hd & Hh & Hr & Hk). destruct (Hsame h hd Hh Hr) as (Ho & hd0 & Hh0 & How & Hr0).
    exists hd0. split; [done|]. split; [done|]. rewrite How. by rewrite <-(strand_at_same s' s). }
  intros H1 H2. by apply (Hserial k); apply Hrun.
Qed.

Lemma serial_handlers s s' :
  processes s' = processes s → handlers s' = handlers s → serial s → serial s'.
Proof. intros Hp Hh. apply serial_same. intros h hd. rewrite Hp, Hh. intros ? ?. split; [done|by exists hd]. Qed.

Lemma takes_serial s t h i r :
  handlers s !! h = Some (Handler i (Queued r)) → strand_free s i → serial s →
  serial (by_thread (set_thread t (Busy h) (move h i (Running t r) s))).
Proof.
  intros Hh Hfree Hserial k.
  assert (∀ h', runner (by_thread (set_thread t (Busy h) (move h i (Running t r) s))) k h' →
    h' = h ∧ strand_at s i = Some k ∨ runner s k h') as Hrun.
  { intros h' (hd & Hh' & Hr & Hk). simpl in Hh'.
    apply list_lookup_insert_Some in Hh' as [(-> & <- & _)|[_ Hh']]; [by left|right]. by exists hd. }
  assert (∀ h', strand_at s i = Some k → ¬ runner s k h') as Hnone.
  { intros h' Hk (hd & Hh' & Hr). unfold strand_free in Hfree. rewrite Hk in Hfree. apply Hfree, Exists_exists.
    exists hd. split; [by eapply list_elem_of_lookup_2|done]. }
  intros h1 h2 [[-> Hk]|H1]%Hrun [[-> Hk']|H2]%Hrun; [done|by edestruct Hnone|by edestruct Hnone|by apply (Hserial k)].
Qed.

Lemma resumes_serial s t h i pr p r :
  inv s → handlers s !! h = Some (Handler i (Running t r)) → processes s !! i = Some pr →
  serial s → serial (by_thread (on_resume t h i pr p r s)).
Proof.
  intros Hinv Hh Hp. apply serial_same. unfold on_resume. destruct (resume p r) as [next new]. simpl.
  intros h' hd [[Hh'|[-> _]]%pending_lookup|[_ [-> _]%begin_lookup]]%lookup_app_Some Hr; [|done|done].
  assert (∃ hd0, handlers s !! h' = Some hd0 ∧ owner hd0 = owner hd ∧ runs_on (at_ hd0) ≠ None)
    as (hd0 & Hh0 & How & Hr0).
  { apply list_lookup_insert_Some in Hh' as [(<- & <- & _)|[_ Hh']]; [by eexists|by exists hd]. }
  split; [|by exists hd0]. rewrite <-How. pose proof (inv_owner s Hinv _ _ Hh0) as Hlt.
  rewrite lookup_app_l by (by rewrite length_insert).
  destruct (decide (owner hd0 = i)) as [->|]; [|by rewrite list_lookup_insert_ne].
  rewrite list_lookup_insert_eq, Hp by by eapply lookup_lt_Some. simpl. unfold advance. by destruct (life pr), next.
Qed.

Lemma serial_inductive : 0 < threads_count → inductive_invariant step (λ s, inv s ∧ serial s).
Proof.
  intros Hn s x s' [Hinv Hserial] Hstep. split; [by eapply inv_inductive|].
  destruct Hstep as [s k Hpc Hk|s Hpc|s Hpc H0|s k Hpc Hk|s Hpc|s h i pr p r Hh Hp Hnow Hfits|s t h i r Ht Hh Hfree
                    |s t h i pr p r Ht Hh Hp Hnow|s t h i pr Ht Hh Hp|s t Ht Hwork];
    try (by eapply serial_handlers; [..|exact Hserial]).
  - eapply serial_same; [|exact Hserial]. simpl. intros h' hd Hh' Hr. split; [done|].
    apply list_lookup_insert_Some in Hh' as [(_ & <- & _)|[_ Hh']]; [done|by exists hd].
  - by apply takes_serial with (r := r).
  - by apply resumes_serial.
  - eapply serial_same; [|exact Hserial]. simpl. intros h' hd Hh' Hr.
    apply list_lookup_insert_Some in Hh' as [(_ & <- & _)|[_ Hh']]; [done|]. split; [|by exists hd].
    destruct (decide (owner hd = i)) as [->|]; [|by rewrite list_lookup_insert_ne].
    rewrite list_lookup_insert_eq, Hp by by eapply lookup_lt_Some. simpl. unfold finish. by destruct (life pr).
Qed.

Lemma serial_initial ps : serial (initial ps).
Proof.
  intros k h1 h2 (hd & Hh & Hr & _). by apply begin_lookup in Hh as [-> _].
Qed.

Lemma serial_reachable ps s : 0 < threads_count → reachable step (initial ps) s → serial s.
Proof.
  intros Hn Hr. refine (proj2 (invariant_reachable step (λ s, inv s ∧ serial s) _ _ (serial_inductive Hn) _ Hr)).
  split; [by apply inv_initial|apply serial_initial].
Qed.

(** ** Termination *)

Definition place_work (l : place) : nat :=
  match l with Queued _ => 3 | Running _ _ => 2 | Finishing _ => 1 | _ => 0 end.
Definition thread_work (ph : thread_phase) : nat := match ph with NotStarted => 2 | Left => 0 | _ => 1 end.
Definition remaining (s : state) : nat :=
  sum_list_with (λ h, place_work (at_ h)) (handlers s) + sum_list_with thread_work (threads s)
  + match pc s with
    | Starting _ => threads_count + 3
    | InRun => threads_count + 2
    | Joining k => threads_count - k + 1
    | Returned => 0
    end.
Definition is_completion (x : label) : bool := match x with Completes _ _ => true | _ => false end.

Lemma work_thread s t ph ph' :
  threads s !! t = Some ph →
  sum_list_with thread_work (<[t := ph']> (threads s)) + thread_work ph
    = sum_list_with thread_work (threads s) + thread_work ph'.
Proof. apply sum_list_insert. Qed.

Lemma work_move s h i l l' :
  handlers s !! h = Some (Handler i l) →
  sum_list_with (λ h, place_work (at_ h)) (<[h := Handler i l']> (handlers s)) + place_work l
    = sum_list_with (λ h, place_work (at_ h)) (handlers s) + place_work l'.
Proof. intros Hh. exact (sum_list_insert (λ h, place_work (at_ h)) _ _ _ (Handler i l') Hh). Qed.

Lemma work_pending i o : sum_list_with (λ h, place_work (at_ h)) (pending i o) = 0.
Proof. by destruct o. Qed.

Lemma work_begin i ps : sum_list_with (λ h, place_work (at_ h)) (begin_at i ps) = 0.
Proof.
  unfold begin_at. generalize (seq i (length ps)). intros l. induction l as [|x l IH]; [done|exact IH].
Qed.

Lemma context_remaining s x s' :
  0 < threads_count → inv s → step s x s' →
  remaining s' < remaining s + (if is_completion x then 4 else 0).
Proof.
  intros Hn Hinv Hstep. pose proof (inv_main s Hinv) as Hmain. unfold main_inv, remaining in *.
  destruct Hstep as [s k Hpc Hk|s Hpc|s Hpc H0|s k Hpc Hk|s Hpc|s h i pr p r Hh Hp Hnow Hfits|s t h i r Ht Hh Hfree
                    |s t h i pr p r Ht Hh Hp Hnow|s t h i pr Ht Hh Hp|s t Ht Hwork];
    try rewrite Hpc in *; cbn [is_completion].
  - pose proof (work_thread s k NotStarted Looking ltac:(apply Hmain; [done|lia])). simpl in *. lia.
  - pose proof (work_thread s 0 NotStarted Looking ltac:(apply Hmain; [done|lia])). simpl in *. lia.
  - simpl. lia.
  - pose proof (lookup_lt_Some _ _ _ Hk) as Hlt. rewrite (inv_threads s Hinv) in Hlt. simpl. lia.
  - simpl. lia.
  - pose proof (work_move s h i _ (Queued r) Hh). simpl in *. lia.
  - pose proof (work_thread s t _ (Busy h) Ht). pose proof (work_move s h i _ (Running t r) Hh). simpl in *. lia.
  - pose proof (work_move s h i _ (Finishing t) Hh). unfold on_resume.
    destruct (resume p r) as [nxt new]. simpl in *. rewrite !sum_list_with_app, work_pending, work_begin. lia.
  - pose proof (work_thread s t _ Looking Ht). pose proof (work_move s h i _ Gone Hh). simpl in *. lia.
  - pose proof (work_thread s t _ Left Ht). simpl in *. lia.
Qed.

Lemma work_initial ps : remaining (initial ps) = 3 * threads_count + 3.
Proof.
  unfold remaining. simpl.
  rewrite work_begin.
  assert (sum_list_with thread_work (replicate threads_count NotStarted) = 2 * threads_count) as ->.
  { clear. induction threads_count as [|n IH]; [done|]. simpl in *. lia. }
  lia.
Qed.

(** ** Progress *)

Definition can_go_on (s : state) : Prop := ∃ x s', is_completion x = false ∧ step s x s'.
Definition waits (s : state) : Prop := ∃ h i, handlers s !! h = Some (Handler i Pending).

Lemma busy_progress s t h : inv s → threads s !! t = Some (Busy h) → can_go_on s.
Proof.
  intros Hinv Ht. pose proof (proj1 (inv_busy s Hinv t h) Ht) as ([i l] & Hh & Hr). simpl in Hr.
  destruct (owner_process s h i l Hinv Hh) as [pr Hp]. destruct l as [| |t' r|t'|]; simplify_eq/=.
  - destruct (now pr) as [p|] eqn:Hnow.
    + eexists (Resumes t), _. split; [done|]. by eapply resumes.
    + exfalso. by eapply process_active.
  - eexists (Finishes t), _. split; [done|]. by eapply finishes.
Qed.

(** A handler in the queue can be taken, unless its strand is busy with another one. *)
Lemma queued_progress s t h i r :
  inv s → threads s !! t = Some Looking → handlers s !! h = Some (Handler i (Queued r)) → can_go_on s.
Proof.
  intros Hinv Ht Hh. destruct (decide (strand_free s i)) as [Hfree|Hbusy].
  - eexists (Takes t h), _. split; [done|]. by eapply takes.
  - unfold strand_free in Hbusy. destruct (strand_at s i) as [k|]; [|done].
    apply dec_stable, Exists_exists in Hbusy as (hd & Hin & Hrun & _).
    apply list_elem_of_lookup in Hin as [h' Hh']. destruct (runs_on (at_ hd)) as [t'|] eqn:Hon; [|done].
    apply (busy_progress s t' h'); [done|]. apply (inv_busy s Hinv). by exists hd.
Qed.

Lemma thread_progress s t ph :
  inv s → threads s !! t = Some ph → ph ≠ NotStarted → ph = Left ∨ can_go_on s ∨ waits s.
Proof.
  intros Hinv Ht Hns. destruct ph as [| |h|]; [done| |right; left; by eapply busy_progress|by left].
  right. destruct (decide (Forall (λ h, active (at_ h) + held (at_ h) = 0) (handlers s))) as [Hall|Hnot].
  - left. eexists (Leaves t), _. split; [done|]. apply leaves; [done|].
    eapply Forall_impl; [exact Hall|]. intros [i l]. simpl. by destruct l.
  - apply not_Forall_Exists in Hnot; [|apply _]. apply Exists_exists in Hnot as ([i l] & Hin & Hl).
    apply list_elem_of_lookup in Hin as [h Hh]. simpl in Hl. destruct l as [|r|t' r|t'|]; [right; by exists h, i|..|done].
    + left. by eapply queued_progress.
    + left. apply (busy_progress s t' h); [done|]. apply (inv_busy s Hinv). by eexists.
    + left. apply (busy_progress s t' h); [done|]. apply (inv_busy s Hinv). by eexists.
Qed.

Lemma context_progress s :
  0 < threads_count → inv s → has_returned s = false → can_go_on s ∨ waits s.
Proof.
  intros Hn Hinv Hret. pose proof (inv_main s Hinv) as Hmain.
  assert (∀ k, k < threads_count → (∀ j, threads s !! j ≠ Some NotStarted) →
    threads s !! k = Some Left ∨ can_go_on s ∨ waits s) as Hthread.
  { intros k Hk Hstarted. rewrite <-(inv_threads s Hinv) in Hk.
    destruct (lookup_lt_is_Some_2 _ _ Hk) as [ph Hph].
    destruct (thread_progress s k ph Hinv Hph) as [->|]; [|by left|by right].
    intros ->. by eapply Hstarted. }
  unfold main_inv, has_returned in *. destruct (pc s) as [k| |k|] eqn:Hpc; [| | |done].
  - left. destruct (decide (k = threads_count)) as [->|].
    + eexists Runs, _. split; [done|]. by apply runs.
    + eexists StartsThread, _. split; [done|]. apply (starts_thread s k Hpc). lia.
  - destruct (Hthread 0 Hn (proj1 Hmain)) as [H0|]; [|done]. left.
    eexists RunReturns, _. split; [done|]. by apply run_returns.
  - destruct (decide (k = threads_count)) as [->|].
    + left. eexists Returns, _. split; [done|]. by apply returns.
    + destruct (Hthread k ltac:(lia) (proj1 Hmain)) as [H0|]; [|done]. left.
      eexists Joins, _. split; [done|]. by eapply joins.
Qed.

(** ** What holds for every program *)

Lemma no_work_count w i hs : w Gone = 0 → Forall (λ h, at_ h = Gone) hs → count w i hs = 0.
Proof.
  intros Hw Hall. unfold count. induction Hall as [|h hs Hh _ IH]; [done|]. simpl. rewrite IH, Hh, Hw. by case_decide.
Qed.

(** When [main] has returned, all processes have ended, and their objects are gone. *)
Lemma returned_done s i pr :
  0 < threads_count → inv s → pc s = Returned → processes s !! i = Some pr →
  now pr = None ∧ (life pr ≠ Stack → destroyed pr = true).
Proof.
  intros Hn Hinv Hpc Hp. pose proof (inv_main s Hinv) as Hmain. unfold main_inv in Hmain. rewrite Hpc in Hmain.
  destruct Hmain as [_ Hleft]. pose proof (inv_left s Hinv 0 (Hleft 0 Hn)) as Hwork.
  destruct (inv_process s Hinv i pr Hp) as [Ha _ Hl].
  rewrite no_work_count in Ha by done. destruct (now pr); [done|]. split; [done|].
  rewrite no_work_count in Hl by done. destruct (life pr); [..|done]; destruct Hl as [-> ->]; done.
Qed.

(** With a single thread, handlers run one after the other. *)
Lemma single_thread s h1 h2 i1 i2 l1 l2 t1 t2 :
  inv s → threads_count = 1 → handlers s !! h1 = Some (Handler i1 l1) → handlers s !! h2 = Some (Handler i2 l2) →
  runs_on l1 = Some t1 → runs_on l2 = Some t2 → h1 = h2.
Proof.
  intros Hinv Hn H1 H2 Hr1 Hr2.
  assert (threads s !! t1 = Some (Busy h1)) as Hb1 by (apply (inv_busy s Hinv); by eexists).
  assert (threads s !! t2 = Some (Busy h2)) as Hb2 by (apply (inv_busy s Hinv); by eexists).
  pose proof (lookup_lt_Some _ _ _ Hb1). pose proof (lookup_lt_Some _ _ _ Hb2).
  rewrite (inv_threads s Hinv) in *. assert (t1 = t2) as -> by lia. congruence.
Qed.
End Model.

(** The history of a process, read from its beginning. *)
Section Histories.
Context {P R : Type} `{!Program P R}.

Fixpoint follows (p : P) (rs : list R) (q : option P) : Prop :=
  match rs with
  | [] => q = Some p
  | r :: rs => fits p r = true ∧
      match (resume p r).1 with Some p' => follows p' rs q | None => rs = [] ∧ q = None end
  end.

Lemma follows_snoc rs q r : ∀ p,
  follows p rs (Some q) → fits q r = true → follows p (rs ++ [r]) (resume q r).1.
Proof.
  induction rs as [|r' rs IH]; intros p; simpl.
  - intros [= ->] Hf. split; [done|]. by destruct (resume p r).1.
  - intros [Hf Hrs] Hq. split; [done|]. destruct (resume p r').1; [by apply IH|]. by destruct Hrs.
Qed.

Lemma runs_from_follows p rs q : runs_from p rs q → follows p rs q.
Proof. induction 1; [done|by apply follows_snoc]. Qed.

(** What holds for all operations a process can come to. *)
Lemma runs_from_inv (I : P → Prop) p rs q :
  (∀ p r p', I p → fits p r = true → (resume p r).1 = Some p' → I p') →
  I p → runs_from p rs (Some q) → I q.
Proof.
  intros HI Hp Hrun. remember (Some q) as o eqn:Ho. revert q Ho.
  induction Hrun as [|rs q' r Hrun IH Hf]; intros q Ho; [by injection Ho as <-|].
  apply (HI q' r q); [by apply IH|done|done].
Qed.
End Histories.

(** ** Properties *)

(** C24. Threads that run one context share it safely, whatever the program, the number of threads and their
    interleaving: the handlers of a process form a chain, at most one of which is in progress, queued or being run, so that
    no two threads resume the same process at once and its operations follow each other as the program says; no handler
    accesses an object that was destroyed; no thread does anything after [main] has returned; the handlers of the processes
    of one strand run one after the other, and with a single thread all handlers do. *)
Theorem threads_share_context {P R} `{!Program P R} n (ps : list P) s :
  0 < n → reachable (step n) (initial n ps) s →
  dangling s = false ∧ late s = false
  ∧ (∀ h1 h2 i l1 l2, handlers s !! h1 = Some (Handler i l1) → handlers s !! h2 = Some (Handler i l2) →
       active l1 = 1 → active l2 = 1 → h1 = h2)
  ∧ (∀ i pr, processes s !! i = Some pr → runs_from (origin pr) (history pr) (now pr))
  ∧ (∀ h1 h2 i1 i2 l1 l2 k, handlers s !! h1 = Some (Handler i1 l1) → handlers s !! h2 = Some (Handler i2 l2) →
       runs_on l1 ≠ None → runs_on l2 ≠ None → strand_at s i1 = Some k → strand_at s i2 = Some k → h1 = h2)
  ∧ (n = 1 → ∀ h1 h2 i1 i2 l1 l2 t1 t2, handlers s !! h1 = Some (Handler i1 l1) →
       handlers s !! h2 = Some (Handler i2 l2) → runs_on l1 = Some t1 → runs_on l2 = Some t2 → h1 = h2).
Proof.
  intros Hn Hr. pose proof (inv_reachable n ps s Hn Hr) as Hinv. split_and!; [apply Hinv|apply Hinv| | | |].
  - intros h1 h2 i l1 l2 H1 H2. destruct (owner_process n s h1 i l1 Hinv H1) as [pr Hp].
    eapply active_unique; [|exact H1|exact H2].
    rewrite (ok_active _ _ _ (inv_process n s Hinv i pr Hp)). by destruct (now pr); simpl; lia.
  - intros i pr Hp. apply (ok_history _ _ _ (inv_process n s Hinv i pr Hp)).
  - intros h1 h2 i1 i2 l1 l2 k H1 H2 Hr1 Hr2 Hk1 Hk2.
    apply (serial_reachable n ps s Hn Hr k); eexists; (split; [eassumption|done]).
  - intros H1 h1 h2 i1 i2 l1 l2 t1 t2. by eapply single_thread.
Qed.

(** C27. Threads that run one context neither block nor spin: a run has at most four steps for each operation that
    has completed,
    and 3 n + 3 for the n threads; as long as [main] has not returned, a step is possible, or an operation is in
    progress; and when it has returned, every process has ended, and every object that is owned by handlers is destroyed. *)
Theorem context_runs_to_the_end {P R} `{!Program P R} n (ps : list P) ls s :
  0 < n → steps (step n) (initial n ps) ls s →
  length ls <= 3 * n + 3 + sum_list_with (λ x, if is_completion x then 4 else 0) ls
  ∧ (has_returned s = true ∨ can_go_on n s ∨ waits s)
  ∧ (pc s = Returned → ∀ i pr, processes s !! i = Some pr →
       now pr = None ∧ (life pr ≠ Stack → destroyed pr = true)).
Proof.
  intros Hn Hrun. pose proof (inv_reachable n ps s Hn (ex_intro _ ls Hrun)) as Hinv. split_and!.
  - pose proof (steps_credit _ _ (remaining n) (λ x, if is_completion x then 4 else 0) _ _ _ (inv_inductive n Hn)
      (λ s x s', context_remaining n s x s' Hn) (inv_initial n ps Hn) Hrun) as Hlen.
    rewrite work_initial in Hlen. lia.
  - destruct (has_returned s) eqn:Hret; [by left|right]. by apply context_progress.
  - intros Hpc i pr. by apply (returned_done n).
Qed.

(** ** issues/boost_process_fork.cpp *)
Module BoostProcessFork.

(** The coroutine [execute]: not started yet; in [child.async_wait()]. *)
Inductive operation := Begin | Waiting.
(** The coroutine was started, and the child could be created, or not; the child has ended. *)
Inductive result := Begun (created : bool) | Exited (ec : Z) (exit_code : Z).

Definition result_fits (p : operation) (r : result) : bool :=
  match p, r with Begin, Begun _ | Waiting, Exited _ _ => true | _, _ => false end.
Definition execute (p : operation) (r : result) : option operation * list operation :=
  (match p, r with Begin, Begun true => Some Waiting | _, _ => None end, []).
#[export] Instance program : Program operation result :=
  {| lifetime_of _ := Frame; strand_of _ := None; fits := result_fits; resume := execute |}.

(** [main] starts a hundred of them; [hardware_concurrency()] threads, at least one, and its own run the context. *)
Definition threads (hardware_concurrency : nat) : nat := S (Nat.max 1 hardware_concurrency).
Definition main (hardware_concurrency : nat) : state :=
  initial (threads hardware_concurrency) (replicate 100 Begin).

(** All hundred processes have ended when [main] returns; one whose child was created has waited for it. *)
Lemma fork_waits_for_all hw s i pr :
  reachable (step (threads hw)) (main hw) s → pc s = Returned → processes s !! i = Some pr →
  now pr = None ∧ (origin pr = Begin →
    history pr = [Begun false] ∨ ∃ ec code, history pr = [Begun true; Exited ec code]).
Proof.
  intros Hr Hpc Hp. pose proof (inv_reachable (threads hw) _ s ltac:(unfold threads; lia) Hr) as Hinv.
  destruct (returned_done (threads hw) s i pr ltac:(unfold threads; lia) Hinv Hpc Hp) as [Hnow _].
  split; [done|]. intros Ho.
  pose proof (runs_from_follows _ _ _ (ok_history _ _ _ (inv_process _ s Hinv i pr Hp))) as Hf.
  rewrite Hnow, Ho in Hf. destruct (history pr) as [|r rs]; [done|]. destruct Hf as [Hfits Hf].
  destruct r as [[|]|]; simpl in *; [|left; by destruct Hf as [-> _]|done]. right.
  destruct rs as [|r rs]; [done|]. destruct Hf as [Hfits' Hf]. destruct r as [|ec code]; [done|].
  destruct Hf as [-> _]. by exists ec, code.
Qed.
End BoostProcessFork.

(** ** Witnesses *)

Section Witnesses.
Import BoostProcessFork.

(** Two children and two threads, which resume them at the same time. *)
Definition two_children : state := initial 2 [Begin; Begin].
Definition parallel_labels : list label :=
  [StartsThread; Runs; Completes 0 (Begun true); Completes 1 (Begun true); Takes 0 1; Takes 1 0].
Definition parallel : state := default two_children (execute_labels (next 2) two_children parallel_labels).

Lemma parallel_run : steps (step 2) two_children parallel_labels parallel.
Proof. apply (execute_labels_sound _ (next 2)); [apply context_next_sound|reflexivity]. Qed.

Lemma threads_share_context_witness : dangling parallel = false ∧ late parallel = false.
Proof.
  destruct (threads_share_context 2 [Begin; Begin] parallel) as (Hd & Hl & _);
    [lia|by exists parallel_labels; apply parallel_run|]. by split.
Defined.

Lemma context_runs_to_the_end_witness : length parallel_labels <= 17.
Proof. apply (proj1 (context_runs_to_the_end 2 [Begin; Begin] parallel_labels parallel ltac:(lia) parallel_run)). Defined.

(** Two threads resume two processes at the same time: state that the processes share needs a lock or a strand. *)
Theorem processes_run_in_parallel :
  ∃ s, reachable (step 2) two_children s
    ∧ handlers s = [Handler 0 (Running 1 (Begun true)); Handler 1 (Running 0 (Begun true))].
Proof. exists parallel. split; [by exists parallel_labels; apply parallel_run|reflexivity]. Qed.
End Witnesses.
