(* ===== verification/EchoThreads.v ===== *)
(** * echo/*_threaded.cpp: the sessions, run by several threads

    The callbacks of echo_async_threaded.cpp, and the coroutines of echo_coro_threaded.cpp and
    echo_corosio_threaded.cpp, as programs of Context.v, with [main] and its threads.  Every session does what its
    function in Echo.v does, whatever the threads. *)
From S2P Require Import Prelude Asio Wp Copy Echo Context.

(** What a process waits for: the first resumption of a coroutine; the acceptor; the socket of a session. *)
Inductive operation :=
| Begin (next : handle)                              (* [co_spawn]: the coroutine of this socket *)
| BeginServer
| Accepting
| Reading (socket : handle)
| Writing (socket : handle) (data : list byte).
Inductive completion :=
| Begun
| Accepted (ec : error_code) (peer : handle)
| ReadSome (ec : error_code) (data : list byte)
| Wrote (ec : error_code) (n : Z).

(** The documented results of the operations: [async_read_some] does not exceed the buffer, [async_write] writes
    everything, or fails. *)
Definition result_fits (p : operation) (r : completion) : bool :=
  match p, r with
  | Begin _, Begun | BeginServer, Begun | Accepting, Accepted _ _ => true
  | Reading _, ReadSome _ data => (zlen data <=? data_size)%Z
  | Writing _ data, Wrote ec n =>
      (0 <=? n)%Z && (n <=? zlen data)%Z && (failed ec || bool_decide (n = zlen data))
  | _, _ => false
  end.

(** *** echo_async_threaded.cpp *)
Module AsyncThreaded.

(** The handler of [do_read] holds a [shared_ptr] to the session, that of [do_accept] a pointer to
    the server, a local variable of [main]. *)
Definition lifetime_of (p : operation) : lifetime :=
  match p with Reading _ | Writing _ _ => Shared | _ => Stack end.
Definition resume (p : operation) (r : completion) : option operation * list operation :=
  match p, r with
  | Accepting, Accepted ec socket => (Some Accepting, if failed ec then [] else [Reading socket])
  | Reading socket, ReadSome ec data => (if failed ec then None else Some (Writing socket data), [])
  | Writing socket _, Wrote ec _ => (if failed ec then None else Some (Reading socket), [])
  | _, _ => (None, [])
  end.
#[export] Instance program : Program operation completion :=
  {| Context.lifetime_of := lifetime_of; strand_of _ := None; fits := result_fits; Context.resume := resume |}.

(** The threads of [main], and its own. *)
Definition threads (hardware_concurrency : nat) : nat := S hardware_concurrency.
Definition main (hardware_concurrency : nat) : state := initial (threads hardware_concurrency) [Accepting].
End AsyncThreaded.

(** *** echo_coro_threaded.cpp *)
Module CoroThreaded.
Definition resume (p : operation) (r : completion) : option operation * list operation :=
  match p, r with
  | Begin socket, Begun => (Some (Reading socket), [])
  | BeginServer, Begun => (Some Accepting, [])
  | Accepting, Accepted ec socket =>
      if failed ec then (None, []) else (Some Accepting, [Begin socket])
  | Reading socket, ReadSome ec data => (if failed ec then None else Some (Writing socket data), [])
  | Writing socket _, Wrote ec _ => (if failed ec then None else Some (Reading socket), [])
  | _, _ => (None, [])
  end.
#[export] Instance program : Program operation completion :=
  {| Context.lifetime_of _ := Frame; strand_of _ := None; fits := result_fits; Context.resume := resume |}.

(** [threads.capacity()] threads, at least as many as the hardware's, and the one of [main]. *)
Definition threads (capacity : nat) : nat := S capacity.
Definition main (capacity : nat) : state := initial (threads capacity) [BeginServer].
End CoroThreaded.

(** *** echo_corosio_threaded.cpp *)
Module CorosioThreaded.
Definition resume (p : operation) (r : completion) : option operation * list operation :=
  match p, r with
  | Begin socket, Begun => (Some (Reading socket), [])
  | BeginServer, Begun => (Some Accepting, [])
  | Accepting, Accepted _ peer => (Some Accepting, [Begin peer])
  | Reading socket, ReadSome ec data =>
      (if bool_decide (ec = Eof) then None else Some (Writing socket data), [])
  | Writing socket _, Wrote ec _ => (if failed ec then None else Some (Reading socket), [])
  | _, _ => (None, [])
  end.
#[export] Instance program : Program operation completion :=
  {| Context.lifetime_of _ := Frame; strand_of _ := None; fits := result_fits; Context.resume := resume |}.

(** [threads.capacity()] threads, at least as many as the hardware's, and the one of [main]. *)
Definition threads (capacity : nat) : nat := S capacity.
Definition main (capacity : nat) : state := initial (threads capacity) [BeginServer].
End CorosioThreaded.

(** ** A world that replays the results of a process

    When there are none left, reads find the end of the file, and writes are cancelled. *)
Definition replay_read (cap : Z) (w : list completion) : error_code * list byte * list completion :=
  match w with
  | ReadSome ec data :: w => (ec, ztake (Z.max 0 cap) data, w)
  | _ => (Eof, [], [])
  end.
Definition replay_write (data : list byte) (w : list completion) : error_code * Z * list completion :=
  match w with
  | Wrote ec n :: w =>
      (ec, if failed ec then Z.max 0 (Z.min n (zlen data)) else zlen data, w)
  | _ => (Operation_canceled, 0%Z, [])
  end.
#[export] Instance replay_streams : Streams (list completion) := {|
  on_read_some _ cap w := replay_read cap w;
  on_read_all _ w := (Eof, [], w);
  on_write_some _ data w := replay_write data w;
  on_write _ data w := replay_write data w;
  on_close _ w := w;
  on_shutdown _ _ w := (Success, w)
|}.

Lemma replay_write_bound d w ec n w' : replay_write d w = (ec, n, w') → (0 <= n <= zlen d)%Z.
Proof.
  pose proof (zlen_nonneg d). unfold replay_write.
  destruct w as [|[] w]; try (intros [= <- <- <-]; lia). destruct (failed _); intros [= <- <- <-]; lia.
Qed.

#[export] Instance replay_streams_ok : StreamsOk (list completion).
Proof.
  split; simpl.
  - intros _ cap w ec d w'. unfold replay_read.
    destruct w as [|[] w]; intros [= <- <- <-]; rewrite ?zlen_nil; try lia.
    unfold zlen, ztake. rewrite length_take. lia.
  - intros _. apply replay_write_bound.
  - intros _. apply replay_write_bound.
  - intros _ d w n w'. unfold replay_write. destruct w as [|[] w]; try done.
    destruct (failed ec) eqn:Hf; intros [= -> <- <-]; done.
Qed.

(** A fitting result is replayed as it is. *)
Lemma replay_read_fits socket ec d w :
  result_fits (Reading socket) (ReadSome ec d) = true → replay_read data_size (ReadSome ec d :: w) = (ec, d, w).
Proof. simpl. intros Hf%Z.leb_le. rewrite ztake_all; [done|]. lia. Qed.

Lemma replay_write_fits socket d ec n w :
  result_fits (Writing socket d) (Wrote ec n) = true → replay_write d (Wrote ec n :: w) = (ec, n, w).
Proof.
  simpl. intros [[H1%Z.leb_le H2%Z.leb_le]%andb_true_iff H3]%andb_true_iff. destruct (failed ec); simpl in *.
  - f_equal. f_equal. lia.
  - apply bool_decide_eq_true in H3. by rewrite H3.
Qed.

(** ** The sessions replay *)

Lemma read_replays socket ec d rs tr :
  result_fits (Reading socket) (ReadSome ec d) = true →
  op_read_some socket data_size (St (ReadSome ec d :: rs) tr)
    = (Val (ec, d), St rs (tr ++ [EvRead socket data_size ec d])).
Proof.
  intros Hf. unfold op_read_some. change (on_read_some socket data_size) with (replay_read data_size). simpl env.
  by rewrite (replay_read_fits socket).
Qed.

Lemma write_replays socket d ec n rs tr :
  result_fits (Writing socket d) (Wrote ec n) = true →
  op_write socket d (St (Wrote ec n :: rs) tr) = (Val (ec, n), St rs (tr ++ [EvWrite socket d ec n])).
Proof.
  intros Hf. unfold op_write. change (on_write socket d) with (replay_write d). simpl env.
  by rewrite (replay_write_fits socket).
Qed.

(** The operations of a process with their results; the operation it waits for, as it ends when nothing is left
    to replay. *)
Definition event_of (p : operation) (r : completion) : list event :=
  match p, r with
  | Reading socket, ReadSome ec data => [EvRead socket data_size ec data]
  | Writing socket data, Wrote ec n => [EvWrite socket data ec n]
  | _, _ => []
  end.
Fixpoint performed `{!Program operation completion} (p : operation) (rs : list completion) : list event :=
  match rs with
  | [] => []
  | r :: rs => event_of p r ++ match (resume p r).1 with Some p' => performed p' rs | None => [] end
  end.
Definition unfinished (q : option operation) : list event :=
  match q with
  | Some (Reading socket) => [EvRead socket data_size Eof []]
  | Some (Writing socket data) => [EvWrite socket data Operation_canceled 0]
  | _ => []
  end.

(** A run that ends, has used up the results, and has made the same operations. *)
Definition replays `{!Program operation completion} (ends : Asio.result unit → Prop)
    (run : Asio.result unit * st (list completion))
    (tr : list event) (p : operation) (rs : list completion) (q : option operation) : Prop :=
  ends run.1 ∧ env run.2 = [] ∧ trace run.2 = tr ++ performed p rs ++ unfinished q.

Definition returns_void (r : Asio.result unit) : Prop := r = Val tt.
Definition throws_error (r : Asio.result unit) : Prop := ∃ ec, r = Throw (system_error ec).

Ltac replay_cases := repeat match goal with
  | H : failed _ = _ |- _ => rewrite H; simpl
  | H : bool_decide _ = _ |- _ => rewrite H; simpl
  end.
Ltac replay_end :=
  unfold replays; simpl;
  replay_cases;
  rewrite ?app_nil_r, <-?app_assoc; split_and!; [by (done || eexists)|done..].

Lemma replays_more `{!Program operation completion} ends run tr tr' p p' rs rs' q :
  replays ends run tr' p' rs' q → tr' ++ performed p' rs' = tr ++ performed p rs → replays ends run tr p rs q.
Proof. intros (? & ? & Ht) Htr. split_and!; [done|done|]. by rewrite Ht, !app_assoc, Htr. Qed.

Ltac replay_next IH :=
  eapply replays_more; [apply IH; [eassumption|simpl in *; lia]|];
  simpl; replay_cases;
  by rewrite <-!app_assoc.

Lemma async_replays n : ∀ socket rs q tr,
  follows (Program0 := AsyncThreaded.program) (Reading socket) rs q → length rs < n →
  replays (Program0 := AsyncThreaded.program) returns_void
    (EchoAsyncThreaded.do_read n socket (St rs tr)) tr (Reading socket) rs q.
Proof.
  induction n as [|n IH]; intros socket rs q tr Hf Hlen; [lia|].
  cbn [EchoAsyncThreaded.do_read]. unfold EchoAsyncThreaded.do_write, mbind, awaitable_bind.
  destruct rs as [|r rs]; [simpl in Hf; subst q; replay_end|].
  destruct Hf as [Hfits Hf]. destruct r as [|ec peer|ec d|ec k]; try done.
  rewrite read_replays by done. simpl in Hf. destruct (failed ec) eqn:?; [destruct Hf as [-> ->]; replay_end|].
  destruct rs as [|r rs]; [simpl in Hf; subst q; replay_end|].
  destruct Hf as [Hfits2 Hf]. destruct r as [|ec2 peer|ec2 d2|ec2 k]; try done.
  rewrite write_replays by done. simpl in Hf. destruct (failed ec2) eqn:?; [destruct Hf as [-> ->]; replay_end|].
  replay_next IH.
Qed.

#[local] Existing Instance never_cancelled.

Lemma coro_replays n : ∀ socket rs q tr,
  follows (Program0 := CoroThreaded.program) (Reading socket) rs q → length rs < n →
  replays (Program0 := CoroThreaded.program) throws_error
    (EchoCoroThreaded.session n socket (St rs tr)) tr (Reading socket) rs q.
Proof.
  unfold EchoCoroThreaded.session.
  induction n as [|n IH]; intros socket rs q tr Hf Hlen; [lia|].
  cbn [loop]. unfold mbind, awaitable_bind at 1. unfold mbind, awaitable_bind at 1.
  unfold deferred at 1, async_read_some, co_await at 1. cbn [await_throws never_cancelled].
  unfold mbind, awaitable_bind at 1.
  destruct rs as [|r rs]; [simpl in Hf; subst q; replay_end|].
  destruct Hf as [Hfits Hf]. destruct r as [|ec peer|ec d|ec k]; try done.
  rewrite read_replays by done. simpl in Hf. destruct (failed ec) eqn:?; [destruct Hf as [-> ->]; replay_end|].
  cbn [mret awaitable_ret]. unfold awaitable_ret at 1. unfold awaitable_bind at 1, deferred, async_write, co_await.
  cbn [await_throws never_cancelled]. unfold mbind, awaitable_bind at 1.
  destruct rs as [|r rs]; [simpl in Hf; subst q; replay_end|].
  destruct Hf as [Hfits2 Hf]. destruct r as [|ec2 peer|ec2 d2|ec2 k]; try done.
  rewrite write_replays by done. simpl in Hf. destruct (failed ec2) eqn:?; [destruct Hf as [-> ->]; replay_end|].
  simpl. replay_next IH.
Qed.

(** [handle_connection] without the call of [close]. *)
Lemma corosio_replays n : ∀ socket rs q tr,
  follows (Program0 := CorosioThreaded.program) (Reading socket) rs q → length rs < n →
  replays (Program0 := CorosioThreaded.program) returns_void (loop n (λ _,
    '(ec, data) ← op_read_some socket data_size;
    if bool_decide (ec = Eof) then mret (inr tt)
    else
      '(wec, wn) ← op_write socket data;
      if failed wec then mret (inr tt)
      else mret (inl tt)) tt (St rs tr)) tr (Reading socket) rs q.
Proof.
  induction n as [|n IH]; intros socket rs q tr Hf Hlen; [lia|].
  cbn [loop]. unfold mbind, awaitable_bind at 1. unfold mbind, awaitable_bind at 1.
  destruct rs as [|r rs]; [simpl in Hf; subst q; replay_end|].
  destruct Hf as [Hfits Hf]. destruct r as [|ec peer|ec d|ec k]; try done.
  rewrite read_replays by done. simpl in Hf. destruct (bool_decide (ec = Eof)) eqn:?; [destruct Hf as [-> ->]; replay_end|].
  unfold awaitable_bind at 1.
  destruct rs as [|r rs]; [simpl in Hf; subst q; replay_end|].
  destruct Hf as [Hfits2 Hf]. destruct r as [|ec2 peer|ec2 d2|ec2 k]; try done.
  rewrite write_replays by done. simpl in Hf. destruct (failed ec2) eqn:?; [destruct Hf as [-> ->]; replay_end|].
  simpl. replay_next IH.
Qed.

Lemma handle_connection_replays n socket rs q :
  follows (Program0 := CorosioThreaded.program) (Reading socket) rs q → length rs < n →
  ∃ s1, EchoCorosioThreaded.handle_connection n socket (St rs []) = close socket s1
    ∧ env s1 = []
    ∧ trace s1 = performed (Program0 := CorosioThreaded.program) (Reading socket) rs ++ unfinished q.
Proof.
  intros Hf Hlen. destruct (corosio_replays n socket rs q [] Hf Hlen) as (Hr & He & Ht).
  unfold EchoCorosioThreaded.handle_connection, mbind at 1, awaitable_bind at 1.
  destruct (loop _ _ _ _) as [r s1]. simpl in Hr, He, Ht. unfold returns_void in Hr. rewrite Hr. by exists s1.
Qed.

(** ** The processes of a server *)

Definition is_session (p : operation) : bool :=
  match p with Begin _ | Reading _ | Writing _ _ => true | _ => false end.

(** The connections for which the server has started a session. *)
Definition served_by (accepts : error_code → bool) (r : completion) : list handle :=
  match r with Accepted ec peer => if accepts ec then [peer] else [] | _ => [] end.
Definition served (accepts : error_code → bool) (rs : list completion) : list handle :=
  concat (served_by accepts <$> rs).

Section Servers.
Context `{!Program operation completion} (n : nat).
Context (session_op : handle → operation) (accepts : error_code → bool) (server_op : operation).
Hypothesis session_op_session : ∀ h, is_session (session_op h) = true.
Hypothesis server_op_server : is_session server_op = false.
Hypothesis server_resumes : ∀ p r, is_session p = false → fits p r = true →
  (∀ p', (resume p r).1 = Some p' → is_session p' = false)
  ∧ (resume p r).2 = session_op <$> served_by accepts r.
Hypothesis session_resumes : ∀ p r, is_session p = true →
  (∀ p', (resume p r).1 = Some p' → is_session p' = true) ∧ (resume p r).2 = [].

(** The first process is the server; the others are the sessions, in the order in which they were accepted. *)
Record server_inv (s : state) : Prop := {
  si_server : ∃ pr, processes s !! 0 = Some pr ∧ origin pr = server_op
    ∧ origin <$> drop 1 (processes s) = session_op <$> served accepts (history pr);
  si_kind i pr p : processes s !! i = Some pr → now pr = Some p → is_session p = bool_decide (i ≠ 0)
}.

Lemma served_snoc rs r : served accepts (rs ++ [r]) = served accepts rs ++ served_by accepts r.
Proof. unfold served. rewrite fmap_app, concat_app. simpl. by rewrite app_nil_r. Qed.

Lemma threaded_server_initial : server_inv (initial n [server_op]).
Proof.
  split; simpl.
  - by eexists.
  - intros [|i] pr p; simpl; [|done]. intros [= <-] [= <-]. by rewrite server_op_server.
Qed.

Lemma drop_insert_above {A} (l : list A) i x : i ≠ 0 → drop 1 (<[i := x]> l) = <[pred i := x]> (drop 1 l).
Proof. destruct l, i; done. Qed.

(** Replacing a process by one that differs in what keeps it alive. *)
Lemma server_inv_same s s' i pr pr' :
  server_inv s → processes s !! i = Some pr → processes s' = <[i := pr']> (processes s) →
  origin pr' = origin pr → history pr' = history pr → now pr' = now pr → server_inv s'.
Proof.
  intros [(pr0 & H0 & Ho & Hs) Hkind] Hi Heq Horigin Hhistory Hnow. split; rewrite Heq; clear Heq.
  - exists (if decide (i = 0) then pr' else pr0). rewrite list_lookup_insert. destruct (decide (i = 0)) as [->|Hne].
    + assert (pr0 = pr) as -> by congruence. rewrite Horigin, Hhistory. split_and!; [|done|].
      * rewrite decide_True; [done|]. split; [done|by eapply lookup_lt_Some].
      * by destruct (processes s).
    + split_and!; [by rewrite decide_False by naive_solver|done|]. rewrite drop_insert_above by done. rewrite <-Hs.
      rewrite list_fmap_insert. apply list_insert_id. rewrite Horigin.
      rewrite list_lookup_fmap, lookup_drop. replace (1 + pred i) with i by lia. by rewrite Hi.
  - intros j pr1 p [(-> & -> & _)|[_ Hj]]%list_lookup_insert_Some Hp; [|by eapply Hkind].
    eapply Hkind; [exact Hi|congruence].
Qed.

Lemma advance_history (r : completion) (next : option operation) (pr : process) :
  history (advance r next pr) = history pr ++ [r] ∧ origin (advance r next pr) = origin pr.
Proof. unfold advance. by destruct (life pr), next. Qed.

Lemma drop_app_one {A} (l k : list A) i x : l !! i = Some x → drop 1 (l ++ k) = drop 1 l ++ k.
Proof. by destruct l. Qed.

(** A process is resumed. *)
Lemma server_inv_resumes s s' i pr p r :
  server_inv s → processes s !! i = Some pr → now pr = Some p → fits p r = true →
  processes s' = <[i := advance r (resume p r).1 pr]> (processes s)
    ++ (start_process <$> (resume p r).2) →
  server_inv s'.
Proof.
  intros [(pr0 & H0 & Ho & Hs) Hkind] Hi Hnow Hfits Heq.
  pose proof (Hkind i pr p Hi Hnow) as Hp. destruct (advance_history r (resume p r).1 pr) as [Hhist Horigin].
  pose proof (lookup_lt_Some _ _ _ Hi) as Hlt.
  assert (0 < length (processes s)) as Hpos by lia.
  assert (∀ q, q ∈ (resume p r).2 → is_session q = true) as Hnew.
  { intros q Hq. destruct (is_session p) eqn:Hps.
    - rewrite (proj2 (session_resumes p r Hps)) in Hq. by apply not_elem_of_nil in Hq.
    - rewrite (proj2 (server_resumes p r Hps Hfits)) in Hq.
      apply list_elem_of_fmap in Hq as (h & -> & _). apply session_op_session. }
  split; rewrite Heq.
  - destruct (decide (i = 0)) as [->|Hne].
    + assert (pr0 = pr) as -> by congruence. rewrite bool_decide_eq_false_2 in Hp by naive_solver.
      exists (advance r (resume p r).1 pr). rewrite lookup_app_l by (rewrite length_insert; lia).
      rewrite list_lookup_insert_eq by done. rewrite Horigin, Hhist. split_and!; [done|done|].
      rewrite (drop_app_one _ _ 0 (advance r (resume p r).1 pr)) by (by apply list_lookup_insert_eq).
      rewrite fmap_app, served_snoc, fmap_app, (proj2 (server_resumes p r Hp Hfits)). f_equal.
      * rewrite <-Hs. by destruct (processes s).
      * rewrite <-!list_fmap_compose. done.
    + exists pr0. rewrite bool_decide_eq_true_2 in Hp by done.
      rewrite (proj2 (session_resumes p r Hp)), app_nil_r, list_lookup_insert_ne by done. split_and!; [done|done|].
      rewrite drop_insert_above, <-Hs, list_fmap_insert by done. apply list_insert_id.
      rewrite Horigin, list_lookup_fmap, lookup_drop. replace (1 + pred i) with i by lia. by rewrite Hi.
  - intros j pr1 p1 [Hj|[Hlen Hj]]%lookup_app_Some Hp1.
    + apply list_lookup_insert_Some in Hj as [(<- & <- & _)|[_ Hj]]; [|by eapply Hkind].
      rewrite advance_now in Hp1. rewrite <-Hp. destruct (is_session p) eqn:Hps.
      * by apply (proj1 (session_resumes p r Hps)).
      * by apply (proj1 (server_resumes p r Hps Hfits)).
    + rewrite length_insert in *. apply list_lookup_fmap_Some in Hj as (q & -> & Hq). injection Hp1 as <-.
      rewrite (Hnew q) by (by eapply list_elem_of_lookup_2). rewrite bool_decide_eq_true_2; [done|lia].
Qed.

Lemma threaded_server_inductive : 0 < n → inductive_invariant (step n) (λ s, inv n s ∧ server_inv s).
Proof.
  intros Hn s x s' [Hinv Hserver] Hstep. split; [by eapply inv_inductive|].
  destruct Hstep as [s k Hpc Hk|s Hpc|s Hpc H0|s k Hpc Hk|s Hpc|s h i pr p r Hh Hp Hnow Hfits|s t h i r Ht Hh
                    |s t h i pr p r Ht Hh Hp Hnow|s t h i pr Ht Hh Hp|s t Ht Hwork];
    try (by destruct Hserver).
  - eapply (server_inv_resumes s _ i pr p r); [done..| |].
    + by eapply inv_fits.
    + unfold on_resume. by destruct (resume p r).
  - eapply (server_inv_same s _ i pr (finish pr)); [done|done|done|..]; unfold finish; by destruct (life pr).
Qed.

Lemma threaded_server_reachable s :
  0 < n → reachable (step n) (initial n [server_op]) s → inv n s ∧ server_inv s.
Proof.
  intros Hn. apply (invariant_reachable (step n) (λ s, inv n s ∧ server_inv s)); [by apply threaded_server_inductive|].
  split; [by apply inv_initial|apply threaded_server_initial].
Qed.
End Servers.

(** ** The three servers *)

Definition not_failed (ec : error_code) : bool := negb (failed ec).
Definition reaches_async capacity (s : state) : Prop :=
  reachable (step (Program0 := AsyncThreaded.program) (AsyncThreaded.threads capacity)) (AsyncThreaded.main capacity) s.
Definition reaches_coro capacity (s : state) : Prop :=
  reachable (step (Program0 := CoroThreaded.program) (CoroThreaded.threads capacity)) (CoroThreaded.main capacity) s.
Definition reaches_corosio capacity (s : state) : Prop :=
  reachable (step (Program0 := CorosioThreaded.program) (CorosioThreaded.threads capacity))
    (CorosioThreaded.main capacity) s.

Lemma async_inv capacity s : reaches_async capacity s →
  inv (Program0 := AsyncThreaded.program) (AsyncThreaded.threads capacity) s ∧ server_inv Reading not_failed Accepting s.
Proof.
  apply threaded_server_reachable; [done|done| | |unfold AsyncThreaded.threads; lia].
  - intros [| | | |] []; simpl; unfold not_failed; try done. destruct (failed _); naive_solver.
  - intros [| | | |] []; simpl; try done; destruct (failed _); naive_solver.
Qed.

Lemma coro_inv capacity s : reaches_coro capacity s →
  inv (Program0 := CoroThreaded.program) (CoroThreaded.threads capacity) s ∧ server_inv Begin not_failed BeginServer s.
Proof.
  apply threaded_server_reachable; [done|done| | |unfold CoroThreaded.threads; lia].
  - intros [| | | |] []; simpl; unfold not_failed; try done; [naive_solver|]. destruct (failed _); naive_solver.
  - intros [| | | |] []; simpl; try done; try destruct (failed _); naive_solver.
Qed.

Lemma corosio_inv capacity s : reaches_corosio capacity s →
  inv (Program0 := CorosioThreaded.program) (CorosioThreaded.threads capacity) s
  ∧ server_inv Begin (λ _, true) BeginServer s.
Proof.
  apply threaded_server_reachable; [done|done| | |unfold CorosioThreaded.threads; lia].
  - intros [| | | |] []; simpl; try done; naive_solver.
  - intros [| | | |] []; simpl; try done; try destruct (failed _); try case_bool_decide; naive_solver.
Qed.

(** A process that is not the server's is a session's. *)
Lemma session_process `{!Program operation completion} n so acc sv s i pr :
  inv n s → server_inv so acc sv s → processes s !! S i = Some pr →
  ∃ socket, origin pr = so socket ∧ follows (so socket) (history pr) (now pr).
Proof.
  intros Hinv [(pr0 & _ & _ & Hs) _] Hp.
  assert ((origin <$> drop 1 (processes s)) !! i = Some (origin pr)) as Ho.
  { by rewrite list_lookup_fmap, lookup_drop, Nat.add_1_l, Hp. }
  rewrite Hs in Ho. apply list_lookup_fmap_Some in Ho as (socket & Ho & _). exists socket. split; [done|].
  rewrite <-Ho. apply runs_from_follows. by apply (ok_history _ _ _ (inv_process n s Hinv (S i) pr Hp)).
Qed.

(** The run [m] of a session makes the operations of a process, then [closing], and meets its specification. *)
Definition behaves `{!Program operation completion} (m : awaitable (list completion) unit)
    (ends : Asio.result unit → Prop) (spec : st (list completion) → post (list completion) unit)
    (p : operation) (rs : list completion) (q : option operation) (closing : list event) : Prop :=
  ends (m (St rs [])).1
  ∧ trace (m (St rs [])).2 = performed p rs ++ unfinished q ++ closing
  ∧ wp m (spec (St rs [])) (St rs []).

(** A coroutine that was not resumed yet has done nothing. *)
Definition not_begun (socket : handle) (pr : process (P:=operation) (R:=completion)) : Prop :=
  history pr = [] ∧ now pr = Some (Begin socket).

Lemma begin_follows `{!Program operation completion} socket (pr : process) :
  (∀ r, fits (Begin socket) r = true → r = Begun ∧ (resume (Begin socket) r).1 = Some (Reading socket)) →
  follows (Begin socket) (history pr) (now pr) →
  not_begun socket pr ∨ ∃ rs, history pr = Begun :: rs ∧ follows (Reading socket) rs (now pr).
Proof.
  intros Hbegin Hf. unfold not_begun. destruct (history pr) as [|r rs]; [by left|right]. destruct Hf as [Hfits Hf].
  destruct (Hbegin r Hfits) as [-> Hr]. rewrite Hr in Hf. by exists rs.
Qed.

(** C25. With any number of threads and whatever their interleaving, every session of the three threaded servers makes
    exactly the operations of its function in Echo.v, given the same results ([do_read] and [do_write];
    [session]; [handle_connection]), and meets its specification: what it has read is written back, in order, and nothing
    else. *)
Theorem threaded_sessions_echo capacity i s pr :
  processes s !! S i = Some pr →
  (reaches_async capacity s → ∃ socket, origin pr = Reading socket
    ∧ behaves (Program0 := AsyncThreaded.program)
        (EchoAsyncThreaded.start (S (length (history pr))) socket) returns_void (quiet_session socket)
        (Reading socket) (history pr) (now pr) [])
  ∧ (reaches_coro capacity s → ∃ socket, origin pr = Begin socket
    ∧ (not_begun socket pr ∨ ∃ rs, history pr = Begun :: rs
      ∧ behaves (Program0 := CoroThreaded.program)
          (EchoCoroThreaded.session (S (length rs)) socket) throws_error (throwing_session socket)
          (Reading socket) rs (now pr) []))
  ∧ (reaches_corosio capacity s → ∃ socket, origin pr = Begin socket
    ∧ (not_begun socket pr ∨ ∃ rs, history pr = Begun :: rs
      ∧ behaves (Program0 := CorosioThreaded.program)
          (EchoCorosioThreaded.handle_connection (S (length rs)) socket) returns_void (corosio_session socket)
          (Reading socket) rs (now pr) [EvClose socket])).
Proof.
  intros Hp. split_and!; intros Hr.
  - destruct (async_inv capacity s Hr) as [Hinv Hserver].
    destruct (session_process _ _ _ _ s i pr Hinv Hserver Hp) as (socket & Ho & Hf). exists socket. split; [done|].
    destruct (async_replays (S (length (history pr))) socket _ _ [] Hf ltac:(lia)) as (He & _ & Ht).
    split_and!; [exact He|by rewrite app_nil_r|]. unfold wp, EchoAsyncThreaded.start.
    change (@EchoAsyncThreaded.do_read) with (@EchoAsync.do_read). rewrite callbacks_as_tuple.
    apply tuple_session_correct.
  - destruct (coro_inv capacity s Hr) as [Hinv Hserver].
    destruct (session_process _ _ _ _ s i pr Hinv Hserver Hp) as (socket & Ho & Hf). exists socket. split; [done|].
    destruct (begin_follows (Program0 := CoroThreaded.program) socket pr) as [|(rs & Hh & Hf')];
      [by intros []|done|by left|right].
    exists rs. split; [done|]. destruct (coro_replays (S (length rs)) socket _ _ [] Hf' ltac:(lia)) as (He & _ & Ht).
    split_and!; [exact He|by rewrite app_nil_r|]. apply coro_session_correct.
  - destruct (corosio_inv capacity s Hr) as [Hinv Hserver].
    destruct (session_process _ _ _ _ s i pr Hinv Hserver Hp) as (socket & Ho & Hf). exists socket. split; [done|].
    destruct (begin_follows (Program0 := CorosioThreaded.program) socket pr) as [|(rs & Hh & Hf')];
      [by intros []|done|by left|right].
    exists rs. split; [done|].
    destruct (handle_connection_replays (S (length rs)) socket _ _ Hf' ltac:(lia)) as (s1 & He & _ & Ht).
    split_and!; [by rewrite He|rewrite He; simpl; by rewrite Ht, <-app_assoc|]. apply corosio_session_correct.
Qed.

(** The server's process, and the sessions it has started. *)
Definition serves (session_op : handle → operation) (accepts : error_code → bool) (s : state)
    (pr : process (P:=operation) (R:=completion)) : Prop :=
  processes s !! 0 = Some pr ∧ origin <$> drop 1 (processes s) = session_op <$> served accepts (history pr).

Lemma server_process `{!Program operation completion} n so acc sv s :
  inv n s → server_inv so acc sv s →
  ∃ pr, serves so acc s pr ∧ follows sv (history pr) (now pr).
Proof.
  intros Hinv [(pr & Hp & Ho & Hs) _]. exists pr. split; [done|]. rewrite <-Ho. apply runs_from_follows.
  by apply (ok_history _ _ _ (inv_process n s Hinv 0 pr Hp)).
Qed.

(** A process that never ends keeps [main] from returning. *)
Lemma endless `{!Program operation completion} (I : operation → Prop) rs q : ∀ p,
  (∀ p r, I p → fits p r = true → ∃ p', (resume p r).1 = Some p' ∧ I p') →
  I p → follows p rs q → ∃ p', q = Some p' ∧ I p'.
Proof.
  induction rs as [|r rs IH]; intros p HI Hp; simpl; [intros ->; by exists p|]. intros [Hf Hrs].
  destruct (HI p r Hp Hf) as (p' & Hr & Hp'). rewrite Hr in Hrs. by apply (IH p').
Qed.

Lemma endless_not_returned `{!Program operation completion} n s i pr :
  0 < n → inv n s → processes s !! i = Some pr → now pr ≠ None → pc s ≠ Returned.
Proof. intros Hn Hinv Hp Hnow Hpc. by destruct (returned_done n s i pr Hn Hinv Hpc Hp). Qed.

Lemma returned_ended `{!Program operation completion} n (s : state) :
  0 < n → inv n s → pc s = Returned → Forall (λ pr, now pr = None) (processes s).
Proof. intros Hn Hinv Hpc. apply Forall_lookup_2. intros i pr Hp. by destruct (returned_done n s i pr Hn Hinv Hpc Hp). Qed.

(** The coroutine of echo_coro_threaded.cpp ends with the exception of a failed accept. *)
Lemma coro_server_ends rs :
  (follows (Program0 := CoroThreaded.program) BeginServer rs None
   ∨ follows (Program0 := CoroThreaded.program) Accepting rs None) →
  ∃ rs' ec peer, rs = rs' ++ [Accepted ec peer] ∧ failed ec = true.
Proof.
  induction rs as [|r rs IH]; [by intros []|]. intros [[Hfits Hf]|[Hfits Hf]]; destruct r as [|ec peer|ec d|ec k]; try done.
  - destruct IH as (rs' & ec & peer & -> & Hec); [by right|]. by exists (Begun :: rs'), ec, peer.
  - simpl in Hf. destruct (failed ec) eqn:Hec; [destruct Hf as [-> _]; by exists [], ec, peer|].
    destruct IH as (rs' & ec' & peer' & -> & Hec'); [by right|]. by exists (Accepted ec peer :: rs'), ec', peer'.
Qed.

(** C28. Each threaded server starts one session per connection it has accepted, in the order of the accepts, whatever
    the threads do (corosio's also when the accept has failed).  The server with callbacks and that of corosio accept
    forever, so that their [main]s never return; that with coroutines ends with a failed accept only, and
    its [main] returns only when it, and every session, has ended. *)
Theorem threaded_servers capacity s :
  (reaches_async capacity s → ∃ pr, serves Reading not_failed s pr ∧ now pr = Some Accepting ∧ pc s ≠ Returned)
  ∧ (reaches_coro capacity s → ∃ pr, serves Begin not_failed s pr
      ∧ (now pr = None → ∃ rs ec peer, history pr = rs ++ [Accepted ec peer] ∧ failed ec = true)
      ∧ (pc s = Returned → Forall (λ pr, now pr = None) (processes s)))
  ∧ (reaches_corosio capacity s → ∃ pr, serves Begin (λ _, true) s pr ∧ now pr ≠ None ∧ pc s ≠ Returned).
Proof.
  split_and!; intros Hr.
  - destruct (async_inv capacity s Hr) as [Hinv Hserver].
    destruct (server_process _ _ _ _ s Hinv Hserver) as (pr & Hs & Hf). exists pr.
    destruct (endless (Program0 := AsyncThreaded.program) (λ p, p = Accepting)
      (history pr) (now pr) Accepting) as (p & Hnow & ->); [|done|done|].
    { intros p [] -> Hfits; try done; by eexists. }
    split_and!; [done|done|]. eapply endless_not_returned; [|exact Hinv|apply Hs|by rewrite Hnow]. unfold AsyncThreaded.threads. lia.
  - destruct (coro_inv capacity s Hr) as [Hinv Hserver].
    destruct (server_process _ _ _ _ s Hinv Hserver) as (pr & Hs & Hf). exists pr. split_and!; [done| |].
    + intros Hnow. rewrite Hnow in Hf. apply coro_server_ends. by left.
    + intros Hpc. eapply returned_ended; [|exact Hinv|done]. unfold CoroThreaded.threads. lia.
  - destruct (corosio_inv capacity s Hr) as [Hinv Hserver].
    destruct (server_process _ _ _ _ s Hinv Hserver) as (pr & Hs & Hf). exists pr.
    destruct (endless (Program0 := CorosioThreaded.program) (λ p, p = BeginServer ∨ p = Accepting)
      (history pr) (now pr) BeginServer) as (p & Hnow & _); [|by left|done|].
    { intros p [] [->| ->] Hfits; try done; eexists; (split; [done|]); naive_solver. }
    split_and!; [done|by rewrite Hnow|]. eapply endless_not_returned; [|exact Hinv|apply Hs|by rewrite Hnow].
    unfold CorosioThreaded.threads. lia.
Qed.

(** *** A session that is served by two threads *)
Section Witnesses.
Let connection_labels (op : completion) : list label :=
  [StartsThread; Runs; Completes 0 op; Takes 0 0; Resumes 0; Finishes 0].

(** A connection is accepted; the next accept, and the first read of the session, complete, and are handled at once. *)
Definition async_labels : list label :=
  connection_labels (Accepted Success 7)
    ++ [Completes 2 (ReadSome Success [Byte.x61]); Completes 1 (Accepted Success 8); Takes 0 1; Takes 1 2;
        Resumes 1; Resumes 0].
Definition async_state : state := default (AsyncThreaded.main 1)
  (execute_labels (next (Program0 := AsyncThreaded.program) 2) (AsyncThreaded.main 1) async_labels).
Lemma async_reached : reaches_async 1 async_state.
Proof.
  exists async_labels. apply (execute_labels_sound _ (next (Program0 := AsyncThreaded.program) 2));
    [apply context_next_sound|vm_compute; reflexivity].
Qed.

Definition async_session : process (P:=operation) (R:=completion) :=
  Process Shared (Reading 7) [ReadSome Success [Byte.x61]] (Some (Writing 7 [Byte.x61])) 2 false.

Lemma threaded_sessions_echo_witness : ∃ socket, origin async_session = Reading socket.
Proof.
  destruct (proj1 (threaded_sessions_echo 1 0 async_state async_session eq_refl) async_reached) as (socket & Ho & _).
  by exists socket.
Defined.

Lemma threaded_servers_witness : ∃ pr, serves Reading not_failed async_state pr ∧ pc async_state ≠ Returned.
Proof. destruct (proj1 (threaded_servers 1 async_state) async_reached) as (pr & Hs & _ & Hpc). by exists pr. Defined.
End Witnesses.
