(* ===== verification/Net.v ===== *)
(** * net/proxy.cpp, net/happy_eyeballs.cpp and bin/wait_for_port.cpp

    Module Proxy: the two directions of a forwarded connection, which implement the
    copy protocol.  Module WaitForPort: connecting again and again.  Module
    HappyEyeballs: the choice of endpoints, and the race of two connection attempts
    as a step relation. *)
From stdpp Require Import pretty.
From S2P Require Import Prelude Asio Wp Copy Script Core.

(** ** net/proxy.cpp *)
Module Proxy.
Definition data_size : Z := 64 * 1024.

Section Program.
Context {W : Type} `{!Cancellation W, !Streams W, !Networking W, !WhenAll W, !Acceptors W}.

(** [if (ex.code() != error::eof) throw;] *)
Definition unless_eof {A} (a : A) (ex : exn) : awaitable W A :=
  match ex with
  | system_error ec => if bool_decide (ec ≠ Eof) then throw ex else mret a
  | _ => throw ex
  end.

Definition forward (fuel : nat) (from to : handle) : awaitable W Z :=
  total ← loop fuel (λ total,
    r ← try_catch
          (data ← deferred (async_read_some from data_size); mret (inl data))
          (unless_eof (inr total));
    match r with
    | inr total => mret (inr total)
    | inl data =>
        let total := total +ₛ zlen data in
        try_catch
          (_ ← deferred (async_write to data); mret (inl total))
          (unless_eof (inr total))
    end) 0%Z;
  ec ← shutdown to shutdown_send;
  if failed ec then throw (system_error ec) else mret total.

Definition session (fuel : nat) (downstream upstream : handle) : awaitable W (Z * Z) :=
  endpoints ← deferred (async_resolve "localhost" "55555");
  _ ← deferred (async_connect upstream endpoints);
  co_await (when_all (forward fuel downstream upstream) (forward fuel upstream downstream)).

Definition server (fuel : nat) (a : handle) : awaitable W unit :=
  loop fuel (λ _,
    socket ← deferred (async_accept a);
    co_spawn_detached socket;;
    mret (inl tt)) tt.
End Program.

Section Proofs.
Context {W : Type} `{!Cancellation W, !Streams W, !StreamsOk W}.
Implicit Types (s : st W).

(** One direction of the proxy: it copies until the source ends, then shuts the
    sending side of the target down, and returns the number of bytes copied.  Any other error is
    thrown, and leaves the target open. *)
Definition forward_post (from to : handle) (s0 : st W) : post W Z := λ r s, ∃ ds tail,
  match r with
  | Val total =>
      trace s = trace s0 ++ copied from to data_size ds ++ tail
                  ++ [EvShutdown to shutdown_send Success]
      ∧ copy_end from to data_size Eof tail
      ∧ total = wrap64 (zlen (concat ds ++ unsent tail))
  | Throw e => ∃ ec, e = system_error ec ∧
      (trace s = trace s0 ++ copied from to data_size ds ++ tail
         ∧ copy_end from to data_size ec tail ∧ ec ≠ Eof
       ∨ trace s = trace s0 ++ copied from to data_size ds ++ tail
                     ++ [EvShutdown to shutdown_send ec]
         ∧ copy_end from to data_size Eof tail ∧ ec ≠ Success)
  | NoFuel => trace s = trace s0 ++ copied from to data_size ds ∧ tail = []
  end.

Lemma size_add_total (ds : list (list byte)) d :
  wrap64 (zlen (concat ds)) +ₛ zlen d = wrap64 (zlen (concat ds ++ d)).
Proof. by rewrite size_add_wrap, zlen_app. Qed.

(** The three ways out of [forward]. *)
Ltac forward_throws ds tail :=
  exists ds, tail; cbn [trace]; rewrite <-?app_assoc; cbn [app]; rewrite ?app_nil_r;
  eexists; split; [done|]; left; split_and!; [done|eauto with asio_db|congruence].
Ltac forward_unshut ds tail :=
  exists ds, tail; cbn [trace]; rewrite <-?app_assoc; cbn [app];
  eexists; split; [done|]; right; split_and!; [done|eauto with asio_db|congruence].
Ltac forward_returns ds tail :=
  exists ds, tail; cbn [trace]; rewrite <-?app_assoc; cbn [app];
  split_and!; [done|eauto with asio_db|].

Lemma forward_correct fuel from to s :
  wp (forward fuel from to) (forward_post from to s) s.
Proof.
  unfold forward. wp_step.
  apply (wp_loop (λ total s', ∃ ds, total = wrap64 (zlen (concat ds)) ∧
    trace s' = trace s ++ copied from to data_size ds)).
  { intros total s' (ds & _ & Ht). by exists ds, []. }
  2: { exists []. by rewrite app_nil_r. }
  intros total [w0 t0] (ds & -> & Ht); simpl in Ht; subst t0. unfold unless_eof. wp_run.
  - forward_throws ds (@nil event).
  - forward_throws ds [EvRead from data_size Success d].
  - exists (ds ++ [d]). rewrite size_add_concat. split; [done|]. by eapply copied_extend.
  - forward_throws ds [EvRead from data_size Success d; EvWrite to d ec n].
  - forward_unshut ds [EvRead from data_size Success d; EvWrite to d Eof n].
  - forward_returns ds [EvRead from data_size Success d; EvWrite to d Eof n].
    apply size_add_total.
  - forward_throws ds [EvRead from data_size ec d].
  - forward_unshut ds [EvRead from data_size Eof d].
  - forward_returns ds [EvRead from data_size Eof d]. by rewrite app_nil_r.
Qed.
End Proofs.
End Proxy.

(** ** bin/wait_for_port.cpp *)
Module WaitForPort.
Section Program.
Context {W : Type} `{!CancellationTypes, !Cancellation W, !Streams W, !Networking W, !Timers W}.

Definition ten_ms : duration := 10 * 10 ^ 6.

Definition find_endpoints (host : string) (port : Z) : awaitable W (list endpoint) :=
  match make_address host with
  | Some addr => mret [(addr, port)]
  | None => deferred (async_resolve host (pretty port))
  end.

Definition connect_loop (fuel : nat) (socket : handle) (endpoints : list endpoint) :
    awaitable W unit :=
  loop fuel (λ _,
    '(ec, _) ← async_connect socket endpoints;
    if failed ec then
      co_await (sleep ten_ms);;
      mret (inl tt)
    else mret (inr tt)) tt.

(** The coroutine of [main]. *)
Definition wait_for_port (fuel : nat) (host : string) (port : Z) (socket : handle) :
    awaitable W unit :=
  endpoints ← find_endpoints host port;
  connect_loop fuel socket endpoints.
End Program.

(** [exit(ep ? 1 : 0)] *)
Definition exit_code (ep : exception_ptr) : Z := match ep with Some _ => 1 | None => 0 end.

(** [main], after the parsing of the command line ([None] is a [po::error]): an exit code, or the time
    limit of the coroutine ([cancel_after(timeout)]). *)
Record options := Options { help : bool; host : string; port : Z; timeout_seconds : seconds }.
Inductive action := Exit (code : Z) | Wait (host : string) (port : Z) (timeout : duration).
Definition main (parsed : option options) : action :=
  match parsed with
  | None => Exit 1
  | Some o =>
      if help o then Exit 1
      else if seconds_negative (timeout_seconds o) then Exit 1
      else Wait (host o) (port o) (seconds_cast (timeout_seconds o))
  end.

(** The completion handler, applied to how the coroutine ended. *)
Definition status {A} (r : result A) : option Z :=
  match r with
  | Val _ => Some (exit_code None)
  | Throw e => Some (exit_code (Some e))
  | NoFuel => None
  end.

Section Proofs.
Context {W : Type} `{!CancellationTypes, !Cancellation W, !Streams W, !Networking W, !Timers W}.
Implicit Types (s : st W).

(** A failed attempt, and the pause after it. *)
Definition attempt socket endpoints (ec : error_code) : list event :=
  [EvConnectRange socket endpoints ec; EvReset enable_total_cancellation; EvWait ten_ms Success].
Definition attempts socket endpoints (ecs : list error_code) : list event :=
  concat (attempt socket endpoints <$> ecs).

(** A run without a successful connect at its end is not one with. *)
Lemma attempts_no_success socket endpoints ecs ecs' tail :
  Forall (.≠ Success) ecs → EvConnectRange socket endpoints Success ∉ tail →
  attempts socket endpoints ecs ++ tail
    ≠ attempts socket endpoints ecs' ++ [EvConnectRange socket endpoints Success].
Proof.
  intros Hecs Hnot Heq.
  assert (EvConnectRange socket endpoints Success ∈ attempts socket endpoints ecs ++ tail) as Hin.
  { rewrite Heq. apply elem_of_app. right. by constructor. }
  apply elem_of_app in Hin as [Hin|]; [|done]. clear Heq Hnot.
  induction Hecs as [|ec ecs Hec _ IH]; [by apply elem_of_nil in Hin|].
  change (attempts socket endpoints (ec :: ecs))
    with (attempt socket endpoints ec ++ attempts socket endpoints ecs) in Hin.
  apply elem_of_app in Hin as [Hin|]; [|by apply IH].
  unfold attempt in Hin. rewrite !elem_of_cons, elem_of_nil in Hin. intuition congruence.
Qed.

Lemma wait_connect_correct fuel socket endpoints s :
  wp (connect_loop fuel socket endpoints) (λ r s', ∃ ecs,
    Forall (.≠ Success) ecs ∧ ∃ tail,
    trace s' = trace s ++ attempts socket endpoints ecs ++ tail ∧
    match r with
    | Val _ => tail = [EvConnectRange socket endpoints Success]
    | Throw e => (∃ ec, e = system_error ec) ∧ EvConnectRange socket endpoints Success ∉ tail
    | NoFuel => tail = []
    end) s.
Proof.
  apply (wp_loop (λ _ s', ∃ ecs, Forall (.≠ Success) ecs ∧
    trace s' = trace s ++ attempts socket endpoints ecs)).
  { intros _ s' (ecs & Hecs & Ht). exists ecs. split; [done|]. exists []. by rewrite app_nil_r. }
  2: { exists []. by rewrite app_nil_r. }
  intros _ [w0 t0] (ecs & Hecs & Ht); simpl in Ht; subst t0. unfold sleep. wp_run;
    try (exists ecs; split; [done|]; eexists; cbn [trace]; rewrite <-?app_assoc; cbn [app];
         split; [reflexivity|]; split; [by eexists|];
         rewrite ?not_elem_of_cons; split_and?; (congruence || apply not_elem_of_nil)).
  - exists ecs. split; [done|]. exists []. rewrite app_nil_r. split; [done|].
    split; [by eexists|apply not_elem_of_nil].
  - exists (ecs ++ [ec]). rewrite Forall_app, Forall_singleton. split; [done|].
    unfold attempts. by rewrite fmap_app, concat_app, <-!app_assoc.
  - exists ecs. split; [done|]. eexists. cbn. by rewrite <-!app_assoc.
Qed.
End Proofs.
End WaitForPort.

(** ** net/happy_eyeballs.cpp *)
Module HappyEyeballs.

(** [filter]: the endpoints of one family, in order. *)
Definition in_family (af : AddressFamily) (ep : endpoint) : bool :=
  match af, ep.1 with
  | IPv4, V4 _ => true
  | IPv6, V6 _ => true
  | _, _ => false
  end.
Fixpoint keep {A} (p : A → bool) (l : list A) : list A :=
  match l with
  | [] => []
  | x :: l => if p x then x :: keep p l else keep p l
  end.
(** A result set is its endpoints with the host and service name they were
    resolved from; the filtered set takes the names of the first entry. *)
Record results := Results { endpoints : list endpoint; names : string * string }.
Definition no_results : results := Results [] (EmptyString, EmptyString).
Definition filter (rs : results) (af : AddressFamily) : results :=
  match endpoints rs with
  | [] => no_results
  | _ => Results (keep (in_family af) (endpoints rs)) (names rs)
  end.

Section Program.
Context {W : Type} `{!Cancellation W, !Networking W, !Timers W}.

(** [connect]: gives the socket it was connected with. *)
Definition connect (socket : handle) (rs : results) : awaitable W handle :=
  try_catch
    (_ ← deferred (async_connect socket (endpoints rs)); mret socket)
    (λ err, throw err).

(** [connect_ipv4], whose wait on the timer may end in any way. *)
Definition connect_ipv4 (socket : handle) (rs : results) (timeout : duration) : awaitable W handle :=
  _ ← async_wait timeout;
  co_await (connect socket (filter rs IPv4)).

(** [connect_ipv6]; [cancel_timer] is the scope guard, which runs however it ends. *)
Definition connect_ipv6 (cancel_timer : awaitable W unit) (socket : handle) (rs : results) :
    awaitable W handle := λ s,
  let (r, s) := co_await (connect socket (filter rs IPv6)) s in
  match cancel_timer s with
  | (Val _, s) => (r, s)
  | (Throw e, s) => (Throw e, s)
  | (NoFuel, s) => (NoFuel, s)
  end.
End Program.

(** [happy_eyeballs(endpoints)]: [op_or] is the library's operator on awaitables, modelled below; the
    two coroutines share the timer of 200 ms, which ends the wait of the second when the first cancels it. *)
Section Main.
Context {W : Type} `{!Cancellation W, !Networking W, !Timers W}.
Context (op_or : awaitable W handle → awaitable W handle → awaitable W (handle + handle)).
Context (cancel_timer : awaitable W unit) (socket6 socket4 : handle).
Context (remote_endpoint : handle → awaitable W endpoint).

Definition happy_eyeballs (rs : results) : awaitable W handle :=
  variant ← co_await (op_or (connect_ipv6 cancel_timer socket6 rs) (connect_ipv4 socket4 rs (200 * 10 ^ 6)));
  mret (match variant with inl socket => socket | inr socket => socket end).

Definition happy_eyeballs_resolve (host service : string) : awaitable W handle :=
  eps ← deferred (async_resolve host service);
  co_await (happy_eyeballs (Results eps (host, service))).

Definition test_happy_eyeballs (host service : string) : awaitable W unit :=
  socket ← co_await (happy_eyeballs_resolve host service);
  _ ← remote_endpoint socket;
  mret tt.

(** [main]: a usage error, or the coroutine, limited to one second; its exception is only printed. *)
Definition main (argv : list string) : option (awaitable W unit) :=
  match argv with
  | [_; host; service] => Some (cancel_after (10 ^ 9) (test_happy_eyeballs host service))
  | _ => None
  end.
End Main.

(** *** The race

    [connect_ipv6(...) || connect_ipv4(...)]: two coroutines and a timer.  [Ended ok]
    is a coroutine whose frame has ended (its scope guard has run) but whose
    completion the operator has not seen yet. *)
Inductive ipv6_state := Connecting6 | Ended6 (ok : bool) | Seen6 (ok : bool).
Inductive ipv4_state := Waiting4 | Connecting4 | Ended4 (ok : bool) | Seen4 (ok : bool).
Inductive timer_state := Running | Over.    (* expired or cancelled *)

Inductive attempt := Attempt6 | Attempt4.

Record race := Race {
  v6 : ipv6_state;
  v4 : ipv4_state;
  timer : timer_state;
  expired : bool;              (* it ran for 200 ms; not in the program *)
  v4_cancelled : bool;
  winner : option attempt
}.
Definition start : race := Race Connecting6 Waiting4 Running false false None.

(** The first success wins, and cancels the other. *)
Definition see6 (ok : bool) (r : race) : race :=
  Race (Seen6 ok) (v4 r) (timer r) (expired r)
    (v4_cancelled r || (ok && bool_decide (winner r = None)))
    (match winner r with None => if ok then Some Attempt6 else None | w => w end).
Definition see4 (ok : bool) (r : race) : race :=
  Race (v6 r) (Seen4 ok) (timer r) (expired r) (v4_cancelled r)
    (match winner r with None => if ok then Some Attempt4 else None | w => w end).

Inductive label :=
| TimerExpires
| Ends6 (ok : bool) | Sees6
| Resumes4 | Ends4 (ok : bool) | Sees4.

Inductive step : race → label → race → Prop :=
(** the 200 ms are over *)
| timer_expires r :
    timer r = Running →
    step r TimerExpires (Race (v6 r) (v4 r) Over true (v4_cancelled r) (winner r))
(** [connect_ipv6] ends: [timer.cancel()] *)
| ends6 r ok :
    v6 r = Connecting6 →
    step r (Ends6 ok) (Race (Ended6 ok) (v4 r) Over (expired r) (v4_cancelled r) (winner r))
| sees6 r ok : v6 r = Ended6 ok → step r Sees6 (see6 ok r)
(** [connect_ipv4] is resumed from the timer, and throws if it was cancelled; cancellation
    also ends its wait *)
| resumes4 r :
    v4 r = Waiting4 → timer r = Over ∨ v4_cancelled r = true →
    step r Resumes4 (Race (v6 r) (if v4_cancelled r then Ended4 false else Connecting4)
                       (timer r) (expired r) (v4_cancelled r) (winner r))
| ends4 r ok :
    v4 r = Connecting4 →
    step r (Ends4 ok) (Race (v6 r) (Ended4 ok) (timer r) (expired r) (v4_cancelled r) (winner r))
| sees4 r ok : v4 r = Ended4 ok → step r Sees4 (see4 ok r).

(** The operator completes when both coroutines have. *)
Definition finished (r : race) : Prop := ∃ ok6 ok4, v6 r = Seen6 ok6 ∧ v4 r = Seen4 ok4.

Record inv (r : race) : Prop := {
  (** the IPv4 attempt starts only when the timer is over *)
  inv_start4 : v4 r ≠ Waiting4 → timer r = Over ∨ v4_cancelled r = true;
  inv_timer : timer r = Over → expired r = true ∨ v6 r ≠ Connecting6;
  inv_ended6 : v6 r ≠ Connecting6 → timer r = Over;
  inv_cancelled : v4_cancelled r = true → winner r = Some Attempt6;
  inv_winner6 : winner r = Some Attempt6 → v6 r = Seen6 true;
  inv_winner4 : winner r = Some Attempt4 → v4 r = Seen4 true;
  inv_nobody6 : winner r = None → v6 r ≠ Seen6 true;
  inv_nobody4 : winner r = None → v4 r ≠ Seen4 true
}.

Lemma race_inv_inductive : inductive_invariant step inv.
Proof.
  intros r l r' Hinv Hstep. destruct Hstep as [r Ht|r ok H6|r ok H6|r H4 Ht|r ok H4|r ok H4];
    destruct Hinv as [Hs4 Ht' He6 Hc Hw6 Hw4 Hn6 Hn4]; unfold see6, see4; simpl in *;
    destruct (winner r) as [[]|] eqn:Hwin; try destruct ok; split; simpl;
    try rewrite orb_false_r; try rewrite orb_true_r; intros.
  all: try solve [intuition congruence].
  all: try solve [destruct (v4_cancelled r) eqn:?; intuition congruence].
Qed.

Lemma inv_start : inv start.
Proof. split; simpl; intros; congruence. Qed.

Lemma race_inv_reachable r : reachable step start r → inv r.
Proof. apply invariant_reachable; [apply race_inv_inductive|apply inv_start]. Qed.

(** How many steps are left at most. *)
Definition rank (r : race) : nat :=
  match v6 r with Connecting6 => 2 | Ended6 _ => 1 | Seen6 _ => 0 end
  + match v4 r with Waiting4 => 3 | Connecting4 => 2 | Ended4 _ => 1 | Seen4 _ => 0 end
  + match timer r with Running => 1 | Over => 0 end.

Lemma step_rank r l r' : step r l r' → rank r' < rank r.
Proof.
  destruct 1 as [r Ht|r ok H6|r ok H6|r H4 Ht|r ok H4|r ok H4]; unfold rank; simpl.
  - rewrite Ht. lia.
  - rewrite H6. destruct (timer r); lia.
  - rewrite H6. lia.
  - rewrite H4. destruct (v4_cancelled r); lia.
  - rewrite H4. lia.
  - rewrite H4. lia.
Qed.

Lemma steps_rank r ls r' : steps step r ls r' → length ls + rank r' <= rank r.
Proof.
  apply (steps_measure step (λ _, True)); [done| |done]. intros r1 l r2 _ Hstep%step_rank. lia.
Qed.

(** IPv6 is preferred: the IPv4 attempt starts only when 200 ms are over or the IPv6 attempt has
    ended; and when the IPv6 attempt ends early, the IPv4 attempt need not
    wait for the timer. *)
Theorem ipv6_preferred r :
  reachable step start r →
  (v4 r ≠ Waiting4 → expired r = true ∨ v6 r ≠ Connecting6)
  ∧ (v6 r ≠ Connecting6 → v4 r = Waiting4 → ∃ r', step r Resumes4 r').
Proof.
  intros Hr. destruct (race_inv_reachable r Hr) as [Hs4 Ht He6 Hc Hw6 Hw4 _ _]. split.
  - intros [|Hcan]%Hs4; [auto|]. right. rewrite Hw6; auto.
  - intros H6 H4. eexists. apply resumes4; auto.
Qed.

(** C30. The race of [happy_eyeballs] always ends, after at most six events: as long as it has not, one of
    them can happen; it is decided correctly: a socket is returned exactly if an attempt
    succeeded, and it is one that did; and IPv6 is preferred: the IPv4 attempt starts only when 200 ms are over or the
    IPv6 attempt has ended, and when that ends early, the IPv4 attempt need not wait for the timer. *)
Theorem race_decided r ls :
  steps step start ls r →
  length ls <= 6
  ∧ (finished r ∨ ∃ l r', step r l r')
  ∧ match winner r with
    | Some Attempt6 => v6 r = Seen6 true
    | Some Attempt4 => v4 r = Seen4 true
    | None => v6 r ≠ Seen6 true ∧ v4 r ≠ Seen4 true
    end
  ∧ (v4 r ≠ Waiting4 → expired r = true ∨ v6 r ≠ Connecting6)
  ∧ (v6 r ≠ Connecting6 → v4 r = Waiting4 → ∃ r', step r Resumes4 r').
Proof.
  intros Hsteps. pose proof (race_inv_reachable r (ex_intro _ ls Hsteps)) as Hinv.
  pose proof (ipv6_preferred r (ex_intro _ ls Hsteps)) as [Hlate Hearly].
  split_and!; [| | |exact Hlate|exact Hearly].
  - apply steps_rank in Hsteps. change (rank start) with 6 in Hsteps. lia.
  - destruct (v6 r) as [|ok6|ok6] eqn:H6; [right; eexists _, _; by apply (ends6 r true)
      |right; eexists _, _; by apply sees6|].
    destruct (v4 r) as [| |ok4|ok4] eqn:H4; [|right; eexists _, _; by apply (ends4 r true)
      |right; eexists _, _; by apply sees4|left; by exists ok6, ok4].
    right. eexists _, _. apply resumes4; [done|]. left.
    apply (inv_ended6 r Hinv). by rewrite H6.
  - destruct Hinv as [_ _ _ _ Hw6 Hw4 Hn6 Hn4]. destruct (winner r) as [[]|]; auto.
Qed.

Lemma keep_spec {A} (p : A → bool) l : keep p l = base.filter (λ x, p x = true) l.
Proof. induction l as [|x l IH]; [done|]. rewrite filter_cons, <-IH. simpl. by destruct (p x). Qed.

(** [filter] keeps exactly the endpoints of the given family, in their order, so that the two
    attempts together try every endpoint, each in one of them. *)
Theorem filter_partitions rs :
  (∀ af, endpoints (filter rs af) = base.filter (λ ep, in_family af ep = true) (endpoints rs))
  ∧ (∀ ep, ep ∈ endpoints rs ↔ ep ∈ endpoints (filter rs IPv4) ∨ ep ∈ endpoints (filter rs IPv6))
  ∧ length (endpoints rs) =
      length (endpoints (filter rs IPv4)) + length (endpoints (filter rs IPv6)).
Proof.
  assert (∀ af, endpoints (filter rs af) = base.filter (λ ep, in_family af ep = true) (endpoints rs))
    as Hf.
  { intros af. unfold filter. rewrite <-keep_spec. by destruct (endpoints rs). }
  split_and!; [done| |].
  - intros ep. rewrite !Hf, !list_elem_of_filter. destruct ep as [[] ?]; simpl; intuition congruence.
  - rewrite !Hf, <-!keep_spec. clear Hf.
    induction (endpoints rs) as [|[[] ?] l IH]; simpl; lia.
Qed.

(** *** Witnesses *)

(** IPv6 fails at once, IPv4 connects. *)
Definition after_failure : race := Race (Seen6 false) (Seen4 true) Over false false (Some Attempt4).
Lemma early_failure :
  steps step start [Ends6 false; Sees6; Resumes4; Ends4 true; Sees4] after_failure.
Proof.
  eapply (steps_snoc step _ [Ends6 false; Sees6; Resumes4; Ends4 true] _ Sees4);
    [|by apply (sees4 (Race (Seen6 false) (Ended4 true) Over false false None))].
  eapply (steps_snoc step _ [Ends6 false; Sees6; Resumes4] _ (Ends4 true));
    [|by apply (ends4 (Race (Seen6 false) Connecting4 Over false false None))].
  eapply (steps_snoc step _ [Ends6 false; Sees6] _ Resumes4);
    [|by apply (resumes4 (Race (Seen6 false) Waiting4 Over false false None)); [|left]].
  eapply (steps_snoc step _ [Ends6 false] _ Sees6);
    [|by apply (sees6 (Race (Ended6 false) Waiting4 Over false false None))].
  by apply steps_one, (ends6 start).
Qed.

Lemma race_decided_witness :
  length [Ends6 false; Sees6; Resumes4; Ends4 true; Sees4] <= 6 ∧ v4 after_failure = Seen4 true.
Proof.
  destruct (race_decided after_failure _ early_failure) as (Hlen & _ & Hwin & _). split; [done|exact Hwin].
Defined.

Lemma ipv6_preferred_witness :
  expired after_failure = true ∨ v6 after_failure ≠ Connecting6.
Proof.
  refine (proj1 (ipv6_preferred after_failure
    (ex_intro (λ ls, steps step start ls after_failure) _ early_failure)) _). discriminate.
Defined.
End HappyEyeballs.

(** ** Properties of the other programs *)

(** C33. One direction of the proxy copies until its source ends, shuts down the sending side of its
    target exactly then, and returns the number of bytes received; every other error is thrown and
    leaves the target open; what was sent is at every point a prefix of what was received. *)
Theorem forward_copies {W} `{!Cancellation W, !Streams W, !StreamsOk W} fuel from to (s : st W) r s' :
  Proxy.forward fuel from to s = (r, s') → Proxy.forward_post from to s r s'.
Proof. apply wp_intro, Proxy.forward_correct. Qed.

(** wait_for_port exits with status 0 exactly if a connection was established: a
    normal end of its coroutine follows a successful connect after failed attempts, each followed by a pause
    of 10 ms; if it is cancelled by the timeout, or resolving fails, the status is 1. *)
Theorem wait_for_port_status {W} `{!CancellationTypes, !Cancellation W, !Networking W, !Timers W}
    fuel socket endpoints (s : st W) r s' :
  WaitForPort.connect_loop fuel socket endpoints s = (r, s') →
  (WaitForPort.status r = Some 0%Z ↔
     ∃ ecs, Forall (.≠ Success) ecs ∧ trace s' = trace s
       ++ WaitForPort.attempts socket endpoints ecs ++ [EvConnectRange socket endpoints Success])
  ∧ (∀ e, r = Throw e → WaitForPort.status r = Some 1%Z).
Proof.
  intros Hrun. split; [|by intros e ->].
  pose proof (wp_intro _ _ _ _ _ (WaitForPort.wait_connect_correct fuel socket endpoints s) Hrun)
    as (ecs & Hecs & tail & Ht & Htail).
  destruct r as [a|e|]; simpl.
  - subst tail. split; [|done]. intros _. by exists ecs.
  - destruct Htail as [_ Hnot]. split; [done|]. intros (ecs' & Hecs' & Ht'). exfalso.
    rewrite Ht in Ht'. apply app_inv_head in Ht'.
    by apply (WaitForPort.attempts_no_success socket endpoints ecs ecs' tail).
  - subst tail. split; [done|]. intros (ecs' & Hecs' & Ht'). exfalso.
    rewrite Ht in Ht'. apply app_inv_head in Ht'.
    apply (WaitForPort.attempts_no_success socket endpoints ecs ecs' []); [done| |done].
    apply not_elem_of_nil.
Qed.

(** *** Witnesses *)

Lemma forward_copies_witness :
  ∃ s', Proxy.forward_post 0 1 (start (reading [(Success, bytes_of "hi")])) (Val 2%Z) s'.
Proof.
  eexists. eapply (forward_copies (W := script) 3 0 1 (start (reading [(Success, bytes_of "hi")]))).
  vm_compute; reflexivity.
Defined.

(** The second attempt succeeds. *)
Definition refused : st script := start (Script [] [] [] [Other_error 111; Success] 0 false).
Lemma wait_for_port_status_witness :
  WaitForPort.status (WaitForPort.connect_loop 5 0 [(V4 1, 80%Z)] refused).1 = Some 0%Z.
Proof.
  destruct (WaitForPort.connect_loop 5 0 [(V4 1, 80%Z)] refused) as [r s'] eqn:Hrun.
  apply (proj1 (wait_for_port_status (W := script) 5 0 _ refused r s' Hrun)).
  exists [Other_error 111]. split; [by repeat constructor|].
  vm_compute in Hrun. injection Hrun as <- <-. vm_compute. reflexivity.
Defined.
