(* ===== verification/Http.v ===== *)
(** * http/*.cpp: the HTTP servers

    Module HttpEcho: the streaming echo of a request body.  Modules JsonconsPretty and RapidjsonPretty: the two servers
    that pretty-print JSON.  Module Validator: the server that validates documents
    against a schema shared by its sessions.  Module CheckedResource: the memory resource of
    jsoncons_pr_658.cpp.  Boost.Beast and the JSON libraries are interfaces. *)
From S2P Require Import Prelude Asio Wp Script Echo.

(** ** Boost.Beast: reading and writing messages in pieces *)

Record request_head := RequestHead {
  version : Z;
  chunked : bool;
  content_length : option Z
}.
(** What the response header says about the length of the body. *)
Inductive framing := Chunked | ContentLength (n : Z) | Unframed.

Class HttpStreams (W : Type) := {
  (** [http::async_read_header]; the flag is [parser.is_done()] *)
  on_read_header : handle → W → error_code * request_head * bool * W;
  on_write_header : handle → Z → framing → W → error_code * W;
  (** [http::async_read] into a buffer body of the given size: the bytes it put there, and
      [parser.is_done()] afterwards *)
  on_read_body : handle → Z → W → error_code * list byte * bool * W;
  (** [http::async_write] of a buffer body *)
  on_write_body : handle → list byte → bool → W → error_code * W;
  (** [sr.is_done()] *)
  serializer_done : W → bool;
  on_no_delay : handle → W → W
}.
(** The documented contract: a fresh serializer is not done; writing the last piece completes it, writing
    another piece does not; reading does not concern it.  A read fills at most the buffer. *)
Class HttpStreamsOk (W : Type) `{HttpStreams W} : Prop := {
  header_not_done h v f w ec w' : on_write_header h v f w = (ec, w') → serializer_done w' = false;
  read_keeps h cap w ec d b w' :
    on_read_body h cap w = (ec, d, b, w') → serializer_done w' = serializer_done w;
  read_body_bound h cap w ec d b w' :
    on_read_body h cap w = (ec, d, b, w') → (zlen d <= Z.max 0 cap)%Z;
  write_done h d more w ec w' :
    on_write_body h d more w = (ec, w') → ec = Success ∨ ec = Need_buffer →
    serializer_done w' = negb more
}.

Section HttpOperations.
Context {W : Type} `{!Cancellation W, !HttpStreams W}.

Definition async_read_header (h : handle) : awaitable W (error_code * (request_head * bool)) :=
  co_await (λ s,
    let '(ec, head, is_done, w) := on_read_header h (env s) in
    (Val (ec, (head, is_done)), St w (trace s ++ [EvReadHeader h ec]))).
Definition async_write_header (h : handle) (v : Z) (f : framing) :
    awaitable W (error_code * unit) :=
  co_await (λ s,
    let '(ec, w) := on_write_header h v f (env s) in
    (Val (ec, tt), St w (trace s ++ [EvWriteHeader h ec]))).
Definition async_read_body (h : handle) (cap : Z) : awaitable W (error_code * (list byte * bool)) :=
  co_await (λ s,
    let '(ec, d, is_done, w) := on_read_body h cap (env s) in
    (Val (ec, (d, is_done)), St w (trace s ++ [EvReadBody h cap ec d is_done]))).
Definition async_write_body (h : handle) (d : list byte) (more : bool) :
    awaitable W (error_code * unit) :=
  co_await (λ s,
    let '(ec, w) := on_write_body h d more (env s) in
    (Val (ec, tt), St w (trace s ++ [EvWriteBody h d more ec]))).
Definition set_no_delay (h : handle) : awaitable W unit :=
  modify (on_no_delay h);; emit (EvOption h).
End HttpOperations.

(** ** http/echo.cpp *)
Module HttpEcho.
Definition data_size : Z := 64 * 1024.

Section Program.
Context {W : Type} `{!Cancellation W, !HttpStreams W, !Acceptors W}.

(** The header of the response: chunked transfer encoding has precedence over a content length. *)
Definition response_framing (req : request_head) (is_done : bool) : framing :=
  if chunked req then Chunked
  else match content_length req with
       | Some n => ContentLength n
       | None => if is_done then ContentLength 0 else Unframed
       end.

(** [if (ec && ec != need_buffer) throw system_error(ec)] *)
Definition check (ec : error_code) : awaitable W unit :=
  if failed ec && bool_decide (ec ≠ Need_buffer) then throw (system_error ec) else mret tt.

(** The streaming echo of one request body. *)
Definition echo_body (fuel : nat) (socket : handle) : awaitable W unit :=
  loop fuel (λ _,
    finished ← gets serializer_done;
    if (finished : bool) then mret (inr tt)
    else
      '(ec, (data, is_done)) ← async_read_body socket data_size;
      check ec;;
      if bool_decide (data = []) && negb is_done then mret (inl tt)
      else
        '(ec, _) ← async_write_body socket data (negb is_done);
        check ec;;
        mret (inl tt)) tt.

(** One request, and the response to it. *)
Definition request (fuel : nat) (socket : handle) : awaitable W unit :=
  '(req, is_done) ← deferred (async_read_header socket);
  _ ← deferred (async_write_header socket (version req) (response_framing req is_done));
  echo_body fuel socket.

Definition session (fuel : nat) (socket : handle) : awaitable W unit :=
  set_no_delay socket;;
  loop fuel (λ _, request fuel socket;; mret (inl tt)) tt.

Definition server (fuel : nat) (a : handle) : awaitable W unit :=
  loop fuel (λ _,
    socket ← deferred (async_accept a);
    co_spawn_detached socket;;
    mret (inl tt)) tt.
End Program.
End HttpEcho.

(** *** The body is echoed *)

Section EchoProofs.
Import HttpEcho.
Context {W : Type} `{!Cancellation W, !HttpStreams W, !HttpStreamsOk W, !Acceptors W}.
Implicit Types s : st W.

Definition body_read (e : event) : list byte :=
  match e with
  | EvReadBody _ _ ec d _ => if decide (ec = Success ∨ ec = Need_buffer) then d else []
  | _ => []
  end.
Definition body_written (e : event) : list byte :=
  match e with EvWriteBody _ d _ _ => d | _ => [] end.
Definition body_in (tr : list event) : list byte := concat (body_read <$> tr).
Definition body_out (tr : list event) : list byte := concat (body_written <$> tr).
Lemma body_in_app t1 t2 : body_in (t1 ++ t2) = body_in t1 ++ body_in t2.
Proof. unfold body_in. by rewrite fmap_app, concat_app. Qed.
Lemma body_out_app t1 t2 : body_out (t1 ++ t2) = body_out t1 ++ body_out t2.
Proof. unfold body_out. by rewrite fmap_app, concat_app. Qed.

(** The pieces written so far: all marked as not the last but, possibly, the last. *)
Definition last_piece (tr : list event) : Prop :=
  ∃ tr' h d ec, tr = tr' ++ [EvWriteBody h d false ec].

Lemma wp_check ec (Q : post W unit) s :
  ((ec = Success ∨ ec = Need_buffer) → Q (Val tt) s) →
  (ec ≠ Success → ec ≠ Need_buffer → Q (Throw (system_error ec)) s) →
  wp (check ec) Q s.
Proof.
  intros H1 H2. unfold check. destruct (failed ec && bool_decide (ec ≠ Need_buffer)) eqn:Hb.
  - apply andb_true_iff in Hb as [Hf%failed_true Hn%bool_decide_eq_true]. by apply H2.
  - apply H1. apply andb_false_iff in Hb as [->%failed_false|Hn%bool_decide_eq_false]; [auto|].
    apply dec_stable in Hn. auto.
Qed.

Lemma wp_async_read_body h cap (Q : post W (error_code * (list byte * bool))) s :
  Q (Throw (system_error Operation_canceled)) s →
  (∀ ec d b w, on_read_body h cap (env s) = (ec, d, b, w) →
     Q (Val (ec, (d, b))) (St w (trace s ++ [EvReadBody h cap ec d b]))) →
  wp (async_read_body h cap) Q s.
Proof.
  intros H1 H2. apply wp_co_await; [done|intros _]. unfold wp.
  destruct (on_read_body h cap (env s)) as [[[ec d] b] w]. by apply H2.
Qed.

Lemma wp_async_write_body h d more (Q : post W (error_code * unit)) s :
  Q (Throw (system_error Operation_canceled)) s →
  (∀ ec w, on_write_body h d more (env s) = (ec, w) →
     Q (Val (ec, tt)) (St w (trace s ++ [EvWriteBody h d more ec]))) →
  wp (async_write_body h d more) Q s.
Proof.
  intros H1 H2. apply wp_co_await; [done|intros _]. unfold wp.
  destruct (on_write_body h d more (env s)) as [ec w]. by apply H2.
Qed.

Definition echo_body_post s0 : post W unit := λ r s, ∃ tr,
  trace s = trace s0 ++ tr ∧
  match r with
  | Val _ => body_out tr = body_in tr ∧ last_piece tr
  | Throw e => body_out tr `prefix_of` body_in tr ∧ ∃ ec, e = system_error ec ∧ ec ≠ Success
  | NoFuel => body_out tr = body_in tr
  end.

Lemma echo_body_correct fuel socket s :
  serializer_done (env s) = false →
  wp (echo_body fuel socket) (echo_body_post s) s.
Proof.
  intros Hstart. apply (wp_loop (λ _ s', ∃ tr, trace s' = trace s ++ tr ∧
    body_out tr = body_in tr ∧ (serializer_done (env s') = true → last_piece tr))).
  { intros _ s' (tr & Ht & Hb & _). by exists tr. }
  2: { exists []. rewrite app_nil_r. by rewrite Hstart. }
  intros _ [w0 t0] (tr & Ht & Hb & Hlast); simpl in Ht, Hlast; subst t0. wp_run.
  destruct (serializer_done w0) eqn:Hdone; [wp_run; exists tr; auto|].
  wp_step. apply wp_async_read_body.
  { exists tr. cbn. split; [done|]. rewrite Hb. split; [done|].
    by exists Operation_canceled. }
  intros ec d is_done w Hread. cbn [env] in Hread. pose proof (read_keeps _ _ _ _ _ _ _ Hread) as Hk.
  wp_run. apply wp_check.
  2: { intros Hs Hn. exists (tr ++ [EvReadBody socket data_size ec d is_done]). cbn.
    rewrite <-app_assoc, body_out_app, body_in_app, Hb. split; [done|].
    split; [by apply prefix_app, prefix_nil|]. by exists ec. }
  intros Hec. wp_run.
  assert (body_in [EvReadBody socket data_size ec d is_done] = d) as Hd.
  { unfold body_in. simpl. rewrite decide_True by done. by rewrite app_nil_r. }
  destruct (bool_decide (d = []) && negb is_done) eqn:Hskip.
  { wp_run. apply andb_true_iff in Hskip as [->%bool_decide_eq_true _].
    exists (tr ++ [EvReadBody socket data_size ec [] is_done]).
    rewrite <-app_assoc, body_out_app, body_in_app, Hb, Hd. cbn [env]. by rewrite Hk, Hdone. }
  wp_step. apply wp_async_write_body.
  { exists (tr ++ [EvReadBody socket data_size ec d is_done]). cbn.
    rewrite <-app_assoc, body_out_app, body_in_app, Hb. split; [done|].
    split; [by apply prefix_app, prefix_nil|]. by exists Operation_canceled. }
  intros ec2 w2 Hwrite. cbn [env] in Hwrite. wp_run.
  assert (trace_eq : ((trace s ++ tr) ++ [EvReadBody socket data_size ec d is_done])
      ++ [EvWriteBody socket d (negb is_done) ec2]
    = trace s ++ tr ++ [EvReadBody socket data_size ec d is_done;
                        EvWriteBody socket d (negb is_done) ec2]) by by rewrite <-!app_assoc.
  assert (bytes_eq : body_out (tr ++ [EvReadBody socket data_size ec d is_done;
                        EvWriteBody socket d (negb is_done) ec2])
    = body_in (tr ++ [EvReadBody socket data_size ec d is_done;
                        EvWriteBody socket d (negb is_done) ec2])).
  { rewrite body_out_app, body_in_app, Hb. f_equal. transitivity d.
    - unfold body_out. simpl. by rewrite app_nil_r.
    - unfold body_in. simpl. by rewrite decide_True, app_nil_r. }
  apply wp_check.
  - intros Hok. wp_run. eexists. split; [exact trace_eq|]. split; [done|].
    rewrite (write_done _ _ _ _ _ _ Hwrite Hok), negb_involutive. intros ->.
    exists (tr ++ [EvReadBody socket data_size ec d true]), socket, d, ec2. by rewrite <-app_assoc.
  - intros Hs2 Hn2. eexists. split; [exact trace_eq|]. rewrite bytes_eq.
    split; [done|]. by exists ec2.
Qed.

(** A request body that ends: every read that does not finish the body uses up some budget. *)
Class FiniteBodies `{!HttpStreams W} := {
  body_budget : W → nat;
  read_body_budget h cap w ec d w' :
    on_read_body h cap w = (ec, d, false, w') → ec = Success ∨ ec = Need_buffer →
    body_budget w' < body_budget w;
  read_body_budget_le h cap w ec d b w' :
    on_read_body h cap w = (ec, d, b, w') → body_budget w' <= body_budget w;
  write_body_budget h d more w ec w' :
    on_write_body h d more w = (ec, w') → body_budget w' <= body_budget w
}.

Definition body_measure `{!FiniteBodies} (s : st W) : nat :=
  2 * body_budget (env s) + if serializer_done (env s) then 0 else 1.

Lemma echo_body_total `{!FiniteBodies} fuel socket s :
  body_measure s < fuel → wp (echo_body fuel socket) (λ r _, r ≠ NoFuel) s.
Proof.
  apply (wp_loop_total (λ _ _, True) (λ _ s', body_measure s')); [|done].
  intros [] [w0 t0] _. unfold body_measure. wp_run.
  destruct (serializer_done w0) eqn:Hdone; [by wp_run|].
  wp_step. apply wp_async_read_body; [done|]. intros ec d is_done w Hread. cbn [env] in Hread.
  pose proof (read_body_budget_le _ _ _ _ _ _ _ Hread) as Hle.
  wp_run. apply wp_check; [|done]. intros Hec. wp_run.
  pose proof (read_keeps _ _ _ _ _ _ _ Hread) as Hk. rewrite Hdone in Hk.
  destruct (bool_decide (d = []) && negb is_done) eqn:Hskip.
  { apply andb_true_iff in Hskip as [_ Hnd%negb_true_iff]. subst is_done.
    apply read_body_budget in Hread; [|done]. wp_run. split; [done|]. rewrite Hk. lia. }
  wp_step. apply wp_async_write_body; [done|]. intros ec2 w2 Hwrite. cbn [env] in Hwrite. wp_run.
  apply wp_check; [|done]. intros Hec2. wp_run. split; [done|].
  pose proof (write_body_budget _ _ _ _ _ _ Hwrite).
  rewrite (write_done _ _ _ _ _ _ Hwrite Hec2). destruct is_done; simpl; [lia|].
  apply read_body_budget in Hread; [|done]. lia.
Qed.

Lemma wp_async_read_header h (Q : post W (error_code * (request_head * bool))) s :
  Q (Throw (system_error Operation_canceled)) s →
  (∀ ec head b w, on_read_header h (env s) = (ec, head, b, w) →
     Q (Val (ec, (head, b))) (St w (trace s ++ [EvReadHeader h ec]))) →
  wp (async_read_header h) Q s.
Proof.
  intros H1 H2. apply wp_co_await; [done|intros _]. unfold wp.
  destruct (on_read_header h (env s)) as [[[ec head] b] w]. by apply H2.
Qed.

Lemma wp_async_write_header h v f (Q : post W (error_code * unit)) s :
  Q (Throw (system_error Operation_canceled)) s →
  (∀ ec w, on_write_header h v f (env s) = (ec, w) →
     Q (Val (ec, tt)) (St w (trace s ++ [EvWriteHeader h ec]))) →
  wp (async_write_header h v f) Q s.
Proof.
  intros H1 H2. apply wp_co_await; [done|intros _]. unfold wp.
  destruct (on_write_header h v f (env s)) as [ec w]. by apply H2.
Qed.

Definition request_post socket s0 : post W unit := λ r s,
  match r with
  | Val _ => ∃ tr, trace s = trace s0 ++ [EvReadHeader socket Success; EvWriteHeader socket Success] ++ tr
               ∧ body_out tr = body_in tr ∧ last_piece tr
  | Throw e => ∃ ec tr, e = system_error ec ∧ ec ≠ Success ∧ trace s = trace s0 ++ tr
               ∧ body_out tr `prefix_of` body_in tr
  | NoFuel => True
  end.

Lemma request_correct fuel socket s : wp (request fuel socket) (request_post socket s) s.
Proof.
  unfold request. wp_step. wp_step. apply wp_async_read_header.
  { exists Operation_canceled, []. rewrite app_nil_r. by split_and!. }
  intros ec head b w Hread. wp_run.
  2: { by exists ec, [EvReadHeader socket ec]. }
  apply wp_async_write_header.
  { by exists Operation_canceled, [EvReadHeader socket Success]. }
  intros ec f Hwrite. wp_run.
  2: { exists ec, [EvReadHeader socket Success; EvWriteHeader socket ec]. by rewrite <-app_assoc. }
  eapply wp_mono; [|apply echo_body_correct].
  2: { by eapply header_not_done. }
  intros [a|e|] s' (tr & Ht & Hr); simpl in Ht; rewrite <-app_assoc in Ht; [| |done].
  - exists tr. by rewrite Ht, <-app_assoc.
  - destruct Hr as [Hpre (ec & -> & Hec)].
    exists ec, ([EvReadHeader socket Success; EvWriteHeader socket Success] ++ tr).
    split_and!; [done|done| |done]. by rewrite Ht, <-app_assoc.
Qed.
End EchoProofs.

(** ** The JSON servers: requests and responses as whole messages *)

Record request_message := Request { target : string; body : string }.
Record response_message := Response {
  status : Z;
  content_type : option string;
  response_body : string
}.
Definition ok : Z := 200.
Definition bad_request : Z := 400.
Definition newline : string := String (Ascii.ascii_of_nat 10) EmptyString.

(** [response.body() += '\n'] *)
Definition add_newline (r : response_message) : response_message :=
  Response (status r) (content_type r) (response_body r +:+ newline).

Class HttpMessages (W : Type) := {
  on_request : handle → W → error_code * request_message * W;
  on_response : handle → response_message → W → error_code * W
}.

Section Messages.
Context {W : Type} `{!Cancellation W, !HttpMessages W}.

Definition async_read_request (h : handle) : awaitable W (error_code * request_message) :=
  co_await (λ s,
    let '(ec, r, w) := on_request h (env s) in
    (Val (ec, r), St w (trace s ++ [EvRequest h ec (target r) (body r)]))).
Definition async_write_response (h : handle) (r : response_message) :
    awaitable W (error_code * unit) :=
  co_await (λ s,
    let '(ec, w) := on_response h r (env s) in
    (Val (ec, tt), St w (trace s ++ [EvResponse h (status r) (response_body r) ec]))).

(** The loop of the sessions: [handle] answers one request, changing the state the
    sessions share; [None] is an exception that no [catch] clause matches. *)
Definition serve {S} (handle_request : S → request_message → option (S * response_message))
    (get : W → S) (set : S → W → W) (fuel : nat) (socket : handle) : awaitable W unit :=
  loop fuel (λ _,
    req ← deferred (async_read_request socket);
    shared ← gets get;
    match handle_request shared req with
    | None => throw foreign_exception
    | Some (shared, res) =>
        modify (set shared);;
        _ ← deferred (async_write_response socket res);
        mret (inl tt)
    end) tt.
End Messages.

(** What a JSON library throws: [runtime_error what] is also what the
    clause for [json_exception] catches; anything else leaves the session. *)
Inductive failure := runtime_error (what : string) | other_failure.

(** *** http/jsoncons_pretty.cpp *)
Module JsonconsPretty.
Section Program.
Context {json : Type} (parse : string → failure + json)
  (encode_json_pretty : json → failure + string).

Definition respond (req : request_message) : option response_message :=
  match (match parse (body req) with
         | inl e => inl e
         | inr j => match encode_json_pretty j with
                    | inl e => inl e
                    | inr text => inr (Response ok (Some "application/json"%string) text)
                    end
         end) with
  | inr r => Some (add_newline r)
  | inl (runtime_error what) =>
      Some (add_newline (Response bad_request (Some "text/plain"%string) what))
  | inl other_failure => None
  end.

Definition session {W} `{!Cancellation W, !HttpMessages W} (fuel : nat) (socket : handle) :
    awaitable W unit :=
  serve (S := unit) (λ _ req, r ← respond req; Some (tt, r)) (λ _, tt) (λ _ w, w) fuel socket.

Definition server {W} `{!Cancellation W, !Acceptors W} (fuel : nat) (a : handle) :
    awaitable W unit :=
  loop fuel (λ _,
    socket ← deferred (async_accept a);
    co_spawn_detached socket;;
    mret (inl tt)) tt.
End Program.
End JsonconsPretty.

(** *** http/rapidjson_pretty.cpp *)
Module RapidjsonPretty.
Section Program.
(** [ParseInsitu] gives the offset and the description of an error. *)
Context {doc : Type} (ParseInsitu : string → (Z * string) + doc) (accept : doc → string)
  (print_offset : Z → string).

Definition respond (req : request_message) : response_message :=
  add_newline
    match ParseInsitu (body req) with
    | inr d => Response ok (Some "application/json"%string) (accept d)
    | inl (offset, what) =>
        Response bad_request (Some "text/plain"%string)
          ("offset " +:+ print_offset offset +:+ ": " +:+ what)
    end.

Definition session {W} `{!Cancellation W, !HttpMessages W} (fuel : nat) (socket : handle) :
    awaitable W unit :=
  serve (S := unit) (λ _ req, Some (tt, respond req)) (λ _, tt) (λ _ w, w) fuel socket.

Definition server {W} `{!Cancellation W, !Acceptors W} (fuel : nat) (a : handle) :
    awaitable W unit :=
  loop fuel (λ _,
    socket ← deferred (async_accept a);
    co_spawn_detached socket;;
    mret (inl tt)) tt.
End Program.
End RapidjsonPretty.

(** *** http/jsoncons_validator.cpp *)
Module Validator.
Section Program.
Context {json schema : Type} (parse : string → failure + json)
  (make_json_schema : json → failure + schema)
  (validate : schema → json → failure + json)
  (encode_json_pretty : json → failure + string).

(** The body of the [try] block: the schema is replaced only when the new one is complete. *)
Definition try_block (current : option schema) (req : request_message) :
    failure + (option schema * response_message) :=
  if decide (target req = "/schema"%string) then
    match parse (body req) with
    | inl e => inl e
    | inr j =>
        match make_json_schema j with
        | inl e => inl e
        | inr new_schema => inr (Some new_schema, Response ok None "schema set")
        end
    end
  else if decide (target req = "/"%string) then
    match parse (body req) with
    | inl e => inl e
    | inr j =>
        match current with
        | None => inl (runtime_error "please set schema first at /schema")
        | Some s =>
            match validate s j with
            | inl e => inl e
            | inr result =>
                match encode_json_pretty result with
                | inl e => inl e
                | inr text => inr (current, Response ok (Some "application/json"%string) text)
                end
            end
        end
    end
  else inl (runtime_error (target req +:+ " not found")).

Definition respond (current : option schema) (req : request_message) :
    option (option schema * response_message) :=
  match try_block current req with
  | inr (s, r) => Some (s, add_newline r)
  | inl (runtime_error what) =>
      Some (current, add_newline (Response bad_request (Some "text/plain"%string) what))
  | inl other_failure => None
  end.

Definition session {W} `{!Cancellation W, !HttpMessages W} (get : W → option schema)
    (set : option schema → W → W) (fuel : nat) (socket : handle) : awaitable W unit :=
  serve respond get set fuel socket.

Definition server {W} `{!Cancellation W, !Acceptors W} (fuel : nat) (a : handle) :
    awaitable W unit :=
  loop fuel (λ _,
    socket ← deferred (async_accept a);
    co_spawn_detached socket;;
    mret (inl tt)) tt.

(** *** The sessions share the schema

    Each access to the schema is a critical section of [schema_mutex], so the requests of all
    sessions take effect one after the other, in some order: [answers] is a run in that order.  HttpThreads.v shows
    that there is such an order, whatever the threads do. *)
Fixpoint answers (current : option schema) (reqs : list request_message) :
    option (option schema * list response_message) :=
  match reqs with
  | [] => Some (current, [])
  | req :: reqs =>
      '(current, r) ← respond current req;
      '(final, rs) ← answers current reqs;
      Some (final, r :: rs)
  end.

(** The schema a request sets, if it does. *)
Definition sets (req : request_message) : option schema :=
  if decide (target req = "/schema"%string) then
    match parse (body req) with
    | inl _ => None
    | inr j => match make_json_schema j with inl _ => None | inr s => Some s end
    end
  else None.

Lemma respond_schema current req s r :
  respond current req = Some (s, r) →
  s = match sets req with Some s => Some s | None => current end.
Proof.
  unfold respond, try_block, sets. destruct (decide (target req = "/schema"%string)).
  - destruct (parse (body req)) as [[]|j]; [congruence..|].
    destruct (make_json_schema j) as [[]|]; congruence.
  - case_decide; [|congruence]. destruct (parse (body req)) as [[]|j]; [congruence..|].
    destruct current as [c|]; [|congruence]. destruct (validate c j) as [[]|]; [congruence..|].
    destruct (encode_json_pretty _) as [[]|]; congruence.
Qed.

Lemma respond_shape current req s r :
  respond current req = Some (s, r) →
  (status r = ok ∨ status r = bad_request) ∧ ∃ text, response_body r = text +:+ newline.
Proof.
  unfold respond. destruct (try_block current req) as [[what|]|[s' r']] eqn:Htry; [| |].
  - intros [= <- <-]. split; [by right|]. by eexists.
  - done.
  - intros [= <- <-]. split; [|by eexists]. left. simpl. revert Htry. unfold try_block.
    destruct (decide (target req = "/schema"%string)).
    + destruct (parse (body req)) as [|j]; [done|].
      destruct (make_json_schema j); [done|]. by intros [= <- <-].
    + case_decide; [|done]. destruct (parse (body req)) as [|j]; [done|].
      destruct current as [c|]; [|done]. destruct (validate c j); [done|].
      destruct (encode_json_pretty _); [done|]. by intros [= <- <-].
Qed.
End Program.
End Validator.

(** *** http/jsoncons_pr_658.cpp *)
Module CheckedResource.
Inductive message := Ok | NotFound | SizeMismatch (recorded given : Z).

(** [map]; the pointer comes from the upstream resource.  [None] is a failed assertion. *)
Definition do_allocate (p bytes alignment : Z) (map : gmap Z Z) : option (gmap Z Z) :=
  if decide (p mod alignment = 0)%Z then Some (<[p := bytes]> map) else None.
Definition do_deallocate (p bytes : Z) (map : gmap Z Z) : message * gmap Z Z :=
  match map !! p with
  | None => (NotFound, map)
  | Some n => (if decide (n = bytes) then Ok else SizeMismatch n bytes, delete p map)
  end.
(** The assertion of the destructor. *)
Definition all_freed (map : gmap Z Z) : bool := bool_decide (map = ∅).

Inductive operation := Allocate (p bytes alignment : Z) | Deallocate (p bytes : Z).
Fixpoint run (ops : list operation) (map : gmap Z Z) : option (list message * gmap Z Z) :=
  match ops with
  | [] => Some ([], map)
  | Allocate p bytes alignment :: ops => map ← do_allocate p bytes alignment map; run ops map
  | Deallocate p bytes :: ops =>
      let (m, map) := do_deallocate p bytes map in
      '(ms, map) ← run ops map;
      Some (m :: ms, map)
  end.
End CheckedResource.

(** ** Lemmas on the JSON servers *)

Section ServeProofs.
Context {W : Type} `{!Cancellation W, !HttpMessages W} {S : Type}.
Context (handle_request : S → request_message → option (S * response_message))
  (get : W → S) (set : S → W → W).
Implicit Types s : st W.

Lemma wp_async_read_request h (Q : post W (error_code * request_message)) s :
  Q (Throw (system_error Operation_canceled)) s →
  (∀ ec r w, on_request h (env s) = (ec, r, w) →
     Q (Val (ec, r)) (St w (trace s ++ [EvRequest h ec (target r) (body r)]))) →
  wp (async_read_request h) Q s.
Proof.
  intros H1 H2. apply wp_co_await; [done|intros _]. unfold wp.
  destruct (on_request h (env s)) as [[ec r] w]. by apply H2.
Qed.

Lemma wp_async_write_response h r (Q : post W (error_code * unit)) s :
  Q (Throw (system_error Operation_canceled)) s →
  (∀ ec w, on_response h r (env s) = (ec, w) →
     Q (Val (ec, tt)) (St w (trace s ++ [EvResponse h (status r) (response_body r) ec]))) →
  wp (async_write_response h r) Q s.
Proof.
  intros H1 H2. apply wp_co_await; [done|intros _]. unfold wp.
  destruct (on_response h r (env s)) as [ec w]. by apply H2.
Qed.

Definition round (h : handle) (x : request_message * response_message) : list event :=
  [EvRequest h Success (target x.1) (body x.1);
   EvResponse h (status x.2) (response_body x.2) Success].

(** Every request is answered, before the next one is read, with what the handler makes of it in the
    shared state of that moment. *)
Definition serve_post (h : handle) s0 : post W unit := λ r s,
  ∃ rounds tail,
    Forall (λ x, ∃ c c', handle_request c x.1 = Some (c', x.2)) rounds ∧
    trace s = trace s0 ++ concat (round h <$> rounds) ++ tail ∧
    match r with
    | Val _ => False
    | Throw e =>
        tail = [] ∨ (∃ ec req, ec ≠ Success ∧ tail = [EvRequest h ec (target req) (body req)])
        ∨ ∃ req, (tail = [EvRequest h Success (target req) (body req)]
                  ∨ ∃ c c' res ec, handle_request c req = Some (c', res) ∧ ec ≠ Success ∧
                    tail = [EvRequest h Success (target req) (body req);
                            EvResponse h (status res) (response_body res) ec])
    | NoFuel => tail = []
    end.

Lemma serve_correct fuel h s :
  wp (serve handle_request get set fuel h) (serve_post h s) s.
Proof.
  apply (wp_loop (λ _ s', ∃ rounds,
    Forall (λ x, ∃ c c', handle_request c x.1 = Some (c', x.2)) rounds ∧
    trace s' = trace s ++ concat (round h <$> rounds))).
  { intros _ s' (rounds & Hr & Ht). exists rounds, []. by rewrite app_nil_r. }
  2: { exists []. by rewrite app_nil_r. }
  intros _ [w0 t0] (rounds & Hr & Ht); simpl in Ht; subst t0. do 2 wp_step.
  apply wp_async_read_request.
  { exists rounds, []. rewrite app_nil_r. auto. }
  intros ec req w Hreq. wp_run.
  2: { exists rounds. eexists. rewrite <-app_assoc. split_and!; [done|done|]. right. left. by eexists ec, req. }
  destruct (handle_request (get w) req) as [[c' res]|] eqn:Hres; wp_run.
  2: { exists rounds. eexists. rewrite <-app_assoc. split_and!; [done|done|]. right. right. eauto. }
  apply wp_async_write_response.
  { exists rounds. eexists. cbn. rewrite <-app_assoc. split_and!; [done|done|]. right. right. eauto. }
  intros ec w2 Hw. wp_run.
  - exists (rounds ++ [(req, res)]). rewrite Forall_app, Forall_singleton, fmap_app, concat_app.
    split; [split; [done|by exists (get w), c']|]. by rewrite <-!app_assoc.
  - exists rounds. eexists. rewrite <-!app_assoc. split_and!; [done|done|].
    right. right. exists req. right. by exists (get w), c', res, ec.
Qed.
End ServeProofs.

Section CheckedProofs.
Import CheckedResource.

(** What the standard asks of the users of a memory resource and of its upstream, on the list of the
    live blocks: an allocation returns an aligned, fresh block, a deallocation is of a
    live block, with the size it was allocated with. *)
Fixpoint respects (ops : list operation) (blocks : list (Z * Z)) : option (list (Z * Z)) :=
  match ops with
  | [] => Some blocks
  | Allocate p bytes alignment :: ops =>
      if decide ((p mod alignment = 0)%Z ∧ p ∉ blocks.*1)
      then respects ops ((p, bytes) :: blocks) else None
  | Deallocate p bytes :: ops =>
      if decide ((p, bytes) ∈ blocks)
      then respects ops (filter (λ b, b.1 ≠ p) blocks) else None
  end.

Lemma lookup_block (blocks : list (Z * Z)) p n :
  NoDup blocks.*1 → (p, n) ∈ blocks → (list_to_map blocks : gmap Z Z) !! p = Some n.
Proof. apply elem_of_list_to_map_1. Qed.

Lemma delete_block (blocks : list (Z * Z)) p :
  delete p (list_to_map blocks : gmap Z Z) = list_to_map (filter (λ b, b.1 ≠ p) blocks).
Proof.
  induction blocks as [|[q n] blocks IH]; simpl; [apply delete_empty|].
  destruct (decide (q = p)) as [->|Hne].
  - rewrite filter_cons_False by (simpl; congruence). rewrite delete_insert_eq. apply IH.
  - rewrite filter_cons_True by done. simpl. by rewrite delete_insert_ne, IH.
Qed.

Lemma nodup_filter_keys (blocks : list (Z * Z)) p :
  NoDup blocks.*1 → NoDup (filter (λ b, b.1 ≠ p) blocks).*1.
Proof.
  induction blocks as [|[q n] blocks IH]; simpl; [done|]. intros [Hq Hnd]%NoDup_cons.
  destruct (decide (q = p)) as [->|Hne].
  - rewrite filter_cons_False by (simpl; congruence). auto.
  - rewrite filter_cons_True by done. simpl. apply NoDup_cons. split; [|auto].
    intros Hin. apply Hq. apply list_elem_of_fmap in Hin as ([q' n'] & Heq & Hin).
    apply list_elem_of_filter in Hin as [_ Hin]. simpl in Heq. subst q'.
    apply list_elem_of_fmap. by exists (q, n').
Qed.

Lemma run_respects ops : ∀ blocks blocks',
  NoDup blocks.*1 → respects ops blocks = Some blocks' →
  ∃ ms, run ops (list_to_map blocks) = Some (ms, list_to_map blocks') ∧ Forall (.= Ok) ms.
Proof.
  induction ops as [|[p n a|p n] ops IH]; intros blocks blocks' Hnd; cbn [respects run].
  - intros [= ->]. by exists [].
  - case_decide as Hp; [|done]. destruct Hp as [Ha Hp]. intros Hr.
    unfold do_allocate. rewrite decide_True by done. apply IH in Hr; [done|].
    simpl. by apply NoDup_cons.
  - case_decide as Hp; [|done]. intros Hr. unfold do_deallocate.
    rewrite (lookup_block blocks p n Hnd Hp), decide_True by done.
    rewrite delete_block. apply IH in Hr as (ms & -> & Hms); [|by apply nodup_filter_keys].
    exists (Ok :: ms). split; [done|]. by constructor.
Qed.
End CheckedProofs.

(** ** Properties *)


(** The JSON servers answer each request, in order and before reading the next, with what their
    handler makes of it; the session ends only when reading, writing or an uncaught exception fails it. *)
Theorem json_sessions_answer {W} `{!Cancellation W, !HttpMessages W} {json doc : Type}
    (parse : string → failure + json) encode (parse_insitu : string → (Z * string) + doc) accept
    print fuel socket (s : st W) :
  wp (JsonconsPretty.session parse encode fuel socket)
    (serve_post (λ _ req, r ← JsonconsPretty.respond parse encode req; Some (tt, r)) socket s) s
  ∧ wp (RapidjsonPretty.session parse_insitu accept print fuel socket)
      (serve_post (λ _ req, Some (tt, RapidjsonPretty.respond parse_insitu accept print req))
         socket s) s.
Proof. split; apply serve_correct. Qed.

(** The accept loops of the HTTP servers start one session for each accepted connection, in order. *)
Theorem http_servers_serve_accepted {W} `{!Cancellation W, !Acceptors W} fuel a (s : st W) :
  wp (HttpEcho.server fuel a) (server_post (λ _, 0) s) s
  ∧ wp (JsonconsPretty.server fuel a) (server_post (λ _, 0) s) s
  ∧ wp (RapidjsonPretty.server fuel a) (server_post (λ _, 0) s) s
  ∧ wp (Validator.server fuel a) (server_post (λ _, 0) s) s.
Proof. split_and!; apply coro_server_correct. Qed.

(** The schema of the validator is the last one that was set: in a run of requests from any number of
    sessions, a request that fails, at whatever point, leaves the schema alone; each
    document is validated against the schema set last before it; each request gets one response, which
    is 200 or 400 and ends with a newline. *)
Theorem validator_keeps_last_schema {json schema} (parse : string → failure + json)
    (make : json → failure + schema) validate encode current reqs final rs :
  Validator.answers parse make validate encode current reqs = Some (final, rs) →
  let after c reqs := foldl (λ c req, match Validator.sets parse make req with
                                      | Some s => Some s | None => c end) c reqs in
  final = after current reqs
  ∧ Forall (λ r, (status r = ok ∨ status r = bad_request)
                 ∧ ∃ text, response_body r = text +:+ newline) rs
  ∧ Forall2 (λ x r, ∃ s, Validator.respond parse make validate encode x.1 x.2 = Some (s, r))
      (imap (λ i req, (after current (take i reqs), req)) reqs) rs.
Proof.
  intros Hrun after. revert current rs Hrun.
  induction reqs as [|req reqs IH]; intros current rs; cbn [Validator.answers].
  { intros [= -> <-]. simpl. auto. }
  destruct (Validator.respond parse make validate encode current req) as [[c r]|] eqn:Hresp; [|done].
  cbn. destruct (Validator.answers parse make validate encode c reqs) as [[f rs']|] eqn:Hrest; [|done].
  cbn. intros [= <- <-]. apply IH in Hrest as (-> & Hshape & Hall).
  pose proof (Validator.respond_schema _ _ _ _ _ _ _ _ Hresp) as Hc.
  split_and!.
  - simpl. by rewrite <-Hc.
  - constructor; [|done]. by eapply Validator.respond_shape.
  - constructor; [by exists c|]. revert Hall. rewrite Hc. done.
Qed.

(** The memory resource of jsoncons_pr_658.cpp reports no problem for code that uses its memory
    correctly: every deallocation is "OK", no assertion fails, and at the end the map holds exactly the
    blocks still allocated, so that the destructor's assertion holds if and only if everything was freed. *)
Theorem checked_resource_accepts ops blocks :
  respects ops [] = Some blocks →
  ∃ ms map, CheckedResource.run ops ∅ = Some (ms, map)
    ∧ Forall (.= CheckedResource.Ok) ms
    ∧ (CheckedResource.all_freed map = true ↔ blocks = []).
Proof.
  intros Hr. apply run_respects in Hr as (ms & Hrun & Hms); [|by constructor].
  exists ms, (list_to_map blocks). split_and!; [done|done|].
  unfold CheckedResource.all_freed. rewrite bool_decide_eq_true. split; [|by intros ->].
  destruct blocks as [|[p n] blocks]; [done|]. simpl.
  intros Hem. by apply insert_non_empty in Hem.
Qed.

(** ** Witnesses *)

(** A request body in pieces, and whether the response is complete. *)
Record http_world := HttpWorld { pieces : list (error_code * list byte); complete : bool }.
#[local] Instance http_streams : HttpStreams http_world := {|
  on_read_header _ w := (Success, RequestHead 11 true None, false, HttpWorld (pieces w) false);
  on_write_header _ _ _ w := (Success, HttpWorld (pieces w) false);
  on_read_body _ cap w :=
    match pieces w with
    | [] => (Success, [], true, w)
    | (ec, d) :: rest =>
        (ec, ztake (Z.max 0 cap) d, match rest with [] => true | _ => false end, HttpWorld rest (complete w))
    end;
  on_write_body _ _ more w := (Success, HttpWorld (pieces w) (negb more));
  serializer_done := complete;
  on_no_delay _ w := w
|}.
#[local] Instance http_cancellation : Cancellation http_world := {|
  cancelled _ := 0%Z; await_throws _ := false; on_reset _ w := w; on_throw_if_cancelled _ w := w
|}.

#[local] Instance http_streams_ok : HttpStreamsOk http_world.
Proof.
  split; simpl.
  - by intros _ _ _ w ec w' [= <- <-].
  - intros _ cap w ec d b w'. destruct (pieces w) as [|[ec' d'] rest]; by intros [= <- <- <- <-].
  - intros _ cap w ec d b w'. destruct (pieces w) as [|[ec' d'] rest]; intros [= <- <- <- <-].
    + rewrite zlen_nil. lia.
    + unfold zlen, ztake. rewrite length_take. lia.
  - by intros _ d more w ec w' [= <- <-] _.
Qed.
#[local] Instance http_finite : FiniteBodies (W := http_world).
Proof.
  refine {| body_budget w := length (pieces w) |}; simpl.
  - intros _ cap w ec d w'. destruct (pieces w) as [|[ec' d'] [|x rest]]; try done.
    intros [= <- <- <-] _. simpl. lia.
  - intros _ cap w ec d b w'.
    destruct (pieces w) as [|[ec' d'] rest] eqn:Hp; intros [= <- <- <- <-]; simpl; rewrite ?Hp; simpl; lia.
  - by intros _ d more w ec w' [= <- <-].
Defined.

Definition two_pieces : st http_world :=
  St (HttpWorld [(Need_buffer, bytes_of "ab"); (Success, bytes_of "c")] false) [].

Example two_pieces_echoed :
  let r := HttpEcho.request 5 0 two_pieces in
  r.1 = Val tt ∧ body_out (trace r.2) = bytes_of "abc".
Proof. vm_compute. split; reflexivity. Qed.


(** A toy JSON: a document is a string, which must not be empty; any document is a schema, and is what the
    documents validated against it must be equal to. *)
Definition toy_parse (s : string) : failure + string :=
  if decide (s = ""%string) then inl (runtime_error "empty") else inr s.
Definition toy_make (j : string) : failure + string := inr j.
Definition toy_validate (s j : string) : failure + string :=
  if decide (s = j) then inr j else inl (runtime_error "invalid").
Definition toy_encode (j : string) : failure + string := inr j.
Definition toy_requests : list request_message :=
  [Request "/" "x"; Request "/schema" "x"; Request "/schema" ""; Request "/" "x"].

Lemma validator_keeps_last_schema_witness :
  ∃ rs, Validator.answers toy_parse toy_make toy_validate toy_encode None toy_requests
          = Some (Some "x"%string, rs)
        ∧ Forall (λ r, (status r = ok ∨ status r = bad_request)
                       ∧ ∃ text, response_body r = text +:+ newline) rs.
Proof.
  eexists. split; [vm_compute; reflexivity|].
  refine (proj1 (proj2 (validator_keeps_last_schema toy_parse toy_make toy_validate toy_encode
    None toy_requests _ _ _))). vm_compute. reflexivity.
Defined.

Definition some_operations : list CheckedResource.operation :=
  [CheckedResource.Allocate 64 10 8; CheckedResource.Allocate 128 20 8;
   CheckedResource.Deallocate 64 10; CheckedResource.Deallocate 128 20].
Lemma checked_resource_accepts_witness :
  ∃ ms map, CheckedResource.run some_operations ∅ = Some (ms, map)
    ∧ Forall (.= CheckedResource.Ok) ms
    ∧ (CheckedResource.all_freed map = true ↔ [] = @nil (Z * Z)).
Proof. apply (checked_resource_accepts some_operations []). vm_compute. reflexivity. Defined.
