(* ===== verification/HttpThreads.v ===== *)
(** * http/jsoncons_validator.cpp: sessions that share the schema

    [run(context, argc, argv)] may run the sessions of the validator in several threads; they share the schema, which
    [schema_mutex] protects.  A request is handled in the steps between which other threads may run: parsing, taking the
    lock, the two halves of the assignment, the two reads of the schema, releasing the lock.  Any number of requests may
    be handled at a time, which allows more than the sessions do: each of them has one.  Whatever their
    interleaving, the requests are answered as if they came one after the other ([Validator.answers]), and each of
    them is, unless an exception ends its session. *)
From S2P Require Import Prelude Asio Http.

Section Model.
Context {json schema : Type} (parse : string → failure + json)
  (make_json_schema : json → failure + schema)
  (validate : schema → json → failure + json)
  (encode_json_pretty : json → failure + string).

(** How the [try] block ends: with an exception, or a response. *)
Abbreviation outcome := (failure + response_message)%type.

(** Where the handling of a request is. *)
Inductive place :=
| Received                                    (* the request was read *)
| LockingUnique (new_schema : schema)         (* constructs the [unique_lock] *)
| Assigning (new_schema : schema)             (* has it *)
| Assigned (new_schema : schema)              (* in the assignment *)
| LockingShared (j : json)                    (* constructs the [shared_lock] *)
| Checking (j : json)                         (* has it: [if (!schema)] *)
| Validating (j : json)                       (* [schema->validate], and the rest *)
| Unlocking (unique : bool) (o : outcome)     (* the destructor of the lock *)
| Answered (r : response_message)
| Failed.                                     (* an exception that is not caught *)

(** [std::shared_mutex] *)
Record shared_mutex := Mutex { unique : bool; shared : nat }.

(** The variable [schema]: its value, or, while it is being assigned, the old one, which must not be read. *)
Inductive variable := Value (s : option schema) | InAssignment (old : option schema).

(** [undefined]: [schema] was read while it was assigned, or dereferenced while it was empty.  [answered]: the
    requests with their responses, in the order in which they took effect (not in the program). *)
Record state := State {
  current : variable;
  mutex : shared_mutex;
  requests : list (request_message * place);
  answered : list (nat * request_message * response_message);
  undefined : bool
}.

Definition initial : state := State (Value None) (Mutex false 0) [] [] false.

Inductive label :=
| Arrives (req : request_message)             (* [async_read] has completed, in some session *)
| Parses (i : nat) | LocksUnique (i : nat) | BeginsAssignment (i : nat) | EndsAssignment (i : nat)
| LocksShared (i : nat) | Checks (i : nat) | Validates (i : nat) | Unlocks (i : nat).

(** The [catch] block, and the last line of the body. *)
Definition finish (o : outcome) : option response_message :=
  match o with
  | inr r => Some (add_newline r)
  | inl (runtime_error what) => Some (add_newline (Response bad_request (Some "text/plain"%string) what))
  | inl other_failure => None
  end.
Definition leave (o : outcome) : place := match finish o with Some r => Answered r | None => Failed end.

(** Up to the lock. *)
Definition parse_request (req : request_message) : failure + place :=
  if decide (target req = "/schema"%string) then
    match parse (body req) with
    | inl e => inl e
    | inr j => match make_json_schema j with inl e => inl e | inr new_schema => inr (LockingUnique new_schema) end
    end
  else if decide (target req = "/"%string) then
    match parse (body req) with inl e => inl e | inr j => inr (LockingShared j) end
  else inl (runtime_error (target req +:+ " not found")).

Definition schema_set : outcome := inr (Response ok None "schema set").
Definition no_schema : outcome := inl (runtime_error "please set schema first at /schema").
Definition evaluate (s : schema) (j : json) : outcome :=
  match validate s j with
  | inl e => inl e
  | inr result =>
      match encode_json_pretty result with
      | inl e => inl e
      | inr text => inr (Response ok (Some "application/json"%string) text)
      end
  end.

(** The request [i] goes on at another place. *)
Definition go (i : nat) (req : request_message) (p : place) (s : state) : state :=
  State (current s) (mutex s) (<[i := (req, p)]> (requests s)) (answered s) (undefined s).
Definition set_mutex (m : shared_mutex) (s : state) : state :=
  State (current s) m (requests s) (answered s) (undefined s).
Definition set_current (v : variable) (s : state) : state :=
  State v (mutex s) (requests s) (answered s) (undefined s).
(** It has taken effect, unless it ends with an exception that is not caught. *)
Definition takes_effect (i : nat) (req : request_message) (o : outcome) (s : state) : state :=
  State (current s) (mutex s) (requests s)
    (answered s ++ match finish o with Some r => [(i, req, r)] | None => [] end) (undefined s).
Definition undefined_behaviour (s : state) : state :=
  State (current s) (mutex s) (requests s) (answered s) true.

Definition next (s : state) (x : label) : option state :=
  match x with
  | Arrives req => Some (State (current s) (mutex s) (requests s ++ [(req, Received)]) (answered s) (undefined s))
  | Parses i =>
      '(req, p) ← requests s !! i;
      match p with
      | Received =>
          Some match parse_request req with
               | inl e => takes_effect i req (inl e) (go i req (leave (inl e)) s)
               | inr p => go i req p s
               end
      | _ => None
      end
  | LocksUnique i =>
      '(req, p) ← requests s !! i;
      match p with
      | LockingUnique new_schema =>
          guard (unique (mutex s) = false ∧ shared (mutex s) = 0);;
          Some (set_mutex (Mutex true 0) (go i req (Assigning new_schema) s))
      | _ => None
      end
  | BeginsAssignment i =>
      '(req, p) ← requests s !! i;
      match p with
      | Assigning new_schema =>
          Some match current s with
               | Value old => set_current (InAssignment old) (go i req (Assigned new_schema) s)
               | InAssignment _ => undefined_behaviour s
               end
      | _ => None
      end
  | EndsAssignment i =>
      '(req, p) ← requests s !! i;
      match p with
      | Assigned new_schema =>
          Some (takes_effect i req schema_set
                  (set_current (Value (Some new_schema)) (go i req (Unlocking true schema_set) s)))
      | _ => None
      end
  | LocksShared i =>
      '(req, p) ← requests s !! i;
      match p with
      | LockingShared j =>
          guard (unique (mutex s) = false);;
          Some (set_mutex (Mutex false (S (shared (mutex s)))) (go i req (Checking j) s))
      | _ => None
      end
  | Checks i =>
      '(req, p) ← requests s !! i;
      match p with
      | Checking j =>
          Some match current s with
               | Value (Some _) => go i req (Validating j) s
               | Value None => takes_effect i req no_schema (go i req (Unlocking false no_schema) s)
               | InAssignment _ => undefined_behaviour s
               end
      | _ => None
      end
  | Validates i =>
      '(req, p) ← requests s !! i;
      match p with
      | Validating j =>
          Some match current s with
               | Value (Some c) =>
                   takes_effect i req (evaluate c j) (go i req (Unlocking false (evaluate c j)) s)
               | _ => undefined_behaviour s
               end
      | _ => None
      end
  | Unlocks i =>
      '(req, p) ← requests s !! i;
      match p with
      | Unlocking u o =>
          Some (set_mutex (if u then Mutex false (shared (mutex s)) else Mutex (unique (mutex s)) (pred (shared (mutex s))))
                  (go i req (leave o) s))
      | _ => None
      end
  end.
Definition step (s : state) (x : label) (s' : state) : Prop := next s x = Some s'.

(** ** The invariant *)

(** The response a request was given, from the moment at which it took effect. *)
Definition committed (p : place) : option response_message :=
  match p with Unlocking _ o => finish o | Answered r => Some r | _ => None end.
Definition finished (p : place) : Prop := match p with Answered _ | Failed => True | _ => False end.
#[export] Instance finished_dec p : Decision (finished p).
Proof. destruct p; cbn; apply _. Defined.
(** Requests that will never be answered. *)
Definition lost (p : place) : Prop :=
  match p with Unlocking _ o => finish o = None | Failed => True | _ => False end.

(** Who holds the lock, and who is in the assignment. *)
Definition holds_unique (p : place) : nat := match p with Assigning _ | Unlocking true _ => 1 | _ => 0 end.
Definition assigns (p : place) : nat := match p with Assigned _ => 1 | _ => 0 end.
Definition holds_shared (p : place) : nat :=
  match p with Checking _ | Validating _ | Unlocking false _ => 1 | _ => 0 end.
Definition count (f : place → nat) (s : state) : nat := sum_list_with (λ x, f x.2) (requests s).

(** The schema as the requests that took effect have left it. *)
Definition schema_of (v : variable) : option schema := match v with Value c | InAssignment c => c end.
Definition in_assignment (v : variable) : nat := match v with Value _ => 0 | InAssignment _ => 1 end.

Abbreviation respond := (Validator.respond parse make_json_schema validate encode_json_pretty).
Abbreviation answers := (Validator.answers parse make_json_schema validate encode_json_pretty).

(** What the place of a request says of it, and of the schema. *)
Definition fits (c : option schema) (x : request_message * place) : Prop :=
  match x.2 with
  | LockingUnique n | Assigning n | Assigned n => parse_request x.1 = inr (LockingUnique n)
  | LockingShared j | Checking j => parse_request x.1 = inr (LockingShared j)
  | Validating j => parse_request x.1 = inr (LockingShared j) ∧ is_Some c
  | _ => True
  end ∧ (lost x.2 → ∃ c, respond c x.1 = None).

Record locked (s : state) : Prop := Locked {
  locked_unique : count holds_unique s + count assigns s = if unique (mutex s) then 1 else 0;
  locked_shared : count holds_shared s = shared (mutex s);
  locked_exclusive : unique (mutex s) = true → shared (mutex s) = 0;
  locked_assigned : count assigns s = in_assignment (current s)
}.

Record logged (s : state) : Prop := Logged {
  logged_places : Forall (fits (schema_of (current s))) (requests s);
  logged_all : ∀ i req r, (i, req, r) ∈ answered s ↔
                 ∃ p, requests s !! i = Some (req, p) ∧ committed p = Some r;
  logged_once : NoDup (answered s).*1.*1;
  logged_serial : answers None (answered s).*1.*2 = Some (schema_of (current s), (answered s).*2);
  logged_defined : undefined s = false
}.

Lemma count_insert f s i req p q :
  requests s !! i = Some (req, p) →
  sum_list_with (λ x : request_message * place, f x.2) (<[i := (req, q)]> (requests s)) + f p = count f s + f q.
Proof. apply (sum_list_insert (λ x : request_message * place, f x.2) (requests s) i (req, p) (req, q)). Qed.

Lemma count_snoc f s req :
  sum_list_with (λ x : request_message * place, f x.2) (requests s ++ [(req, Received)]) = count f s + f Received.
Proof. rewrite sum_list_with_app. simpl. unfold count. lia. Qed.

Lemma count_at f s i req p : requests s !! i = Some (req, p) → f p ≤ count f s.
Proof.
  intros Hi. apply (sum_list_with_in (req, p) (λ x : request_message * place, f x.2)). by eapply list_elem_of_lookup_2.
Qed.

Lemma count_pos f s : 0 < count f s → ∃ i req p, requests s !! i = Some (req, p) ∧ 0 < f p.
Proof.
  unfold count. generalize (requests s) as l. intros l. induction l as [|[req p] l IH]; simpl; [lia|].
  intros Hpos. destruct (decide (0 < f p)) as [Hp|Hp]; [by exists 0, req, p|].
  destruct IH as (i & req' & p' & Hi & Hp'); [lia|]. by exists (S i), req', p'.
Qed.

Ltac step_cases H :=
  unfold step, next in H;
  repeat match type of H with
  | (guard ?P ≫= _) = _ => let E := fresh "Hguard" in case_guard as E; cbn in H; [|discriminate]
  | (?o ≫= _) = _ => let E := fresh "Hreq" in destruct o as [[? ?]|] eqn:E; cbn in H; [|discriminate]
  | match ?p with Received => _ | _ => _ end = _ => destruct p; try discriminate
  end.

(** Before the lock, a request holds nothing; neither does it when it has left. *)
Definition holds_nothing (p : place) : Prop := holds_unique p = 0 ∧ assigns p = 0 ∧ holds_shared p = 0.

Lemma parse_request_place req p :
  parse_request req = inr p → (∃ n, p = LockingUnique n) ∨ ∃ j, p = LockingShared j.
Proof.
  unfold parse_request. repeat case_decide; [| |done].
  - destruct (parse (body req)) as [|j]; [done|]. destruct (make_json_schema j) as [|n]; [done|].
    intros [= <-]. left. by exists n.
  - destruct (parse (body req)) as [|j]; [done|]. intros [= <-]. right. by exists j.
Qed.

Lemma leave_place o : (∃ r, finish o = Some r ∧ leave o = Answered r) ∨ finish o = None ∧ leave o = Failed.
Proof. unfold leave. destruct (finish o) as [r|]; [left; by exists r|by right]. Qed.

Lemma parsed_holds_nothing req :
  holds_nothing match parse_request req with inl e => leave (inl e) | inr p => p end.
Proof.
  destruct (parse_request req) as [e|p] eqn:Hp.
  - destruct (leave_place (inl e)) as [(r & _ & ->)|[_ ->]]; done.
  - destruct (parse_request_place _ _ Hp) as [[n ->]|[j ->]]; done.
Qed.
Lemma left_holds_nothing o : holds_nothing (leave o).
Proof. destruct (leave_place o) as [(r & _ & ->)|[_ ->]]; done. Qed.

(** One request goes on, and the lock and the variable change with it. *)
Lemma locked_move s i req p q m v s' :
  locked s → requests s !! i = Some (req, p) →
  requests s' = <[i := (req, q)]> (requests s) → mutex s' = m → current s' = v →
  (unique m = true → shared m = 0) →
  (if unique m then 1 else 0) + holds_unique p + assigns p
    = (if unique (mutex s) then 1 else 0) + holds_unique q + assigns q →
  shared m + holds_shared p = shared (mutex s) + holds_shared q →
  in_assignment v + assigns p = in_assignment (current s) + assigns q →
  locked s'.
Proof.
  intros [Hu Hs He Ha] Hreq Hrs Hm Hv Hexcl H1 H2 H3.
  pose proof (count_insert holds_unique s i req p q Hreq). pose proof (count_insert assigns s i req p q Hreq).
  pose proof (count_insert holds_shared s i req p q Hreq).
  split; unfold count; rewrite ?Hrs, ?Hm, ?Hv; [lia|lia|done|lia].
Qed.

(** Who holds the lock shared, or is about to assign, does not find the variable in an assignment. *)
Lemma holder_not_assigning s i req p :
  locked s → requests s !! i = Some (req, p) → 0 < holds_shared p + holds_unique p →
  ∃ c, current s = Value c.
Proof.
  intros [Hu Hs He Ha] Hreq Hp. destruct (current s) as [c|old]; [by exists c|]. simpl in Ha. exfalso.
  pose proof (count_at holds_unique _ _ _ _ Hreq). pose proof (count_at holds_shared _ _ _ _ Hreq).
  destruct (unique (mutex s)); [|lia]. specialize (He eq_refl). lia.
Qed.

Lemma locked_step s x s' : locked s → step s x s' → locked s'.
Proof.
  intros Hl Hstep. pose proof Hl as [Hu Hs He Ha]. destruct x; step_cases Hstep.
  - injection Hstep as <-. split; unfold count; cbn; rewrite ?count_snoc; cbn; rewrite ?Nat.add_0_r; done.
  - assert (∃ a, s' = State (current s) (mutex s) (<[i := (r, match parse_request r with
              inl e => leave (inl e) | inr p => p end)]> (requests s)) a (undefined s)) as [a ->].
    { destruct (parse_request r); simplify_eq; by eexists. }
    destruct (parsed_holds_nothing r) as (H1 & H2 & H3).
    eapply locked_move; [done|done|done|done|done|..]; cbn; rewrite ?H1, ?H2, ?H3; cbn; try done; lia.
  - simplify_eq. destruct Hguard as [Hg1 Hg2]. eapply locked_move; [done|done|done|done|done|..]; cbn; rewrite ?Hg1, ?Hg2; done.
  - destruct (holder_not_assigning _ _ _ _ Hl Hreq) as [c Hc]; [cbn; lia|]. rewrite Hc in Hstep. simplify_eq.
    eapply locked_move; [done|done|done|done|done|..]; cbn; rewrite ?Hc; cbn; try done; lia.
  - simplify_eq. pose proof (count_at assigns _ _ _ _ Hreq) as Hp. cbn in Hp.
    eapply locked_move; [done|done|done|done|done|..]; cbn; try done; destruct (current s); cbn in *; lia.
  - simplify_eq. eapply locked_move; [done|done|done|done|done|..]; cbn; rewrite ?Hguard; try done; lia.
  - destruct (holder_not_assigning _ _ _ _ Hl Hreq) as [c Hc]; [cbn; lia|]. rewrite Hc in Hstep.
    destruct c; simplify_eq; (eapply locked_move; [done|done|done|done|done|..]); cbn; rewrite ?Hc; cbn; try done; lia.
  - destruct (current s) as [[c|]|old] eqn:Hc; simplify_eq.
    2, 3: split; cbn; rewrite ?Hc; done.
    eapply locked_move; [done|done|done|done|done|..]; cbn; rewrite ?Hc; try done; lia.
  - destruct (left_holds_nothing o) as (H1 & H2 & H3). pose proof (count_at holds_unique _ _ _ _ Hreq) as Hp1.
    pose proof (count_at holds_shared _ _ _ _ Hreq) as Hp2. injection Hstep as <-.
    eapply locked_move; [done|done|done|done|done|..];
      destruct unique0, (unique (mutex s)); cbn in *; rewrite ?H1, ?H2, ?H3; try done; try lia.
Qed.

(** ** The steps of a request make its response *)

Lemma respond_parsed c req :
  respond c req =
    match parse_request req with
    | inl e => r ← finish (inl e); Some (c, r)
    | inr (LockingUnique n) => r ← finish schema_set; Some (Some n, r)
    | inr (LockingShared j) =>
        r ← finish match c with None => no_schema | Some s => evaluate s j end; Some (c, r)
    | inr _ => None
    end.
Proof.
  unfold Validator.respond, Validator.try_block, parse_request. repeat case_decide.
  - destruct (parse (body req)) as [[]|j]; [done..|]. by destruct (make_json_schema j) as [[]|n].
  - destruct (parse (body req)) as [[]|j]; [done..|]. destruct c as [s|]; [|done]. unfold evaluate.
    destruct (validate s j) as [[]|res]; [done..|]. by destruct (encode_json_pretty res) as [[]|].
  - done.
Qed.

Lemma answers_snoc c reqs req f rs f' r :
  answers c reqs = Some (f, rs) → respond f req = Some (f', r) →
  answers c (reqs ++ [req]) = Some (f', rs ++ [r]).
Proof.
  revert c rs. induction reqs as [|x reqs IH]; intros c rs; cbn.
  - intros [= -> <-] ->. done.
  - destruct (respond c x) as [[c1 r1]|]; [cbn|done].
    destruct (answers c1 reqs) as [[f1 rs1]|] eqn:Hrest; [cbn|done].
    intros [= -> <-] Hr. by rewrite (IH c1 rs1 Hrest Hr).
Qed.

Lemma fits_mono c c' x : (is_Some c → is_Some c') → fits c x → fits c' x.
Proof. intros Hc [H1 H2]. split; [|done]. destruct (x.2); naive_solver. Qed.

Lemma answered_id (a : list (nat * request_message * response_message)) i :
  i ∈ a.*1.*1 → ∃ req r, (i, req, r) ∈ a.
Proof.
  intros ([j req] & -> & ([[j' req'] r] & [= -> ->] & Hin)%list_elem_of_fmap)%list_elem_of_fmap. by exists req', r.
Qed.

(** What has been answered, when a request that has not been answered goes on. *)
Lemma answered_move s i req p q :
  logged s → requests s !! i = Some (req, p) → committed p = None →
  let a := answered s ++ match committed q with Some r => [(i, req, r)] | None => [] end in
  (∀ j req' r, (j, req', r) ∈ a ↔
     ∃ p', <[i := (req, q)]> (requests s) !! j = Some (req', p') ∧ committed p' = Some r)
  ∧ NoDup a.*1.*1.
Proof.
  intros [_ Hall Honce _ _] Hreq Hp a. subst a. assert (Hi : i < length (requests s)) by by eapply lookup_lt_Some.
  assert (Hnew : ∀ req' r, (i, req', r) ∉ answered s).
  { intros req' r Hin. apply Hall in Hin as (p' & Hp' & Hc). congruence. }
  split.
  - intros j req' r. rewrite elem_of_app, Hall. destruct (decide (i = j)) as [<-|Hne].
    + rewrite list_lookup_insert_eq by done. split.
      * intros [(p' & Hp' & Hc)|Hin]; [simplify_eq; congruence|].
        destruct (committed q) eqn:Hq; [|by apply not_elem_of_nil in Hin]. apply list_elem_of_singleton in Hin. naive_solver.
      * intros (p' & [= <- <-] & Hc). right. rewrite Hc. by apply list_elem_of_singleton.
    + rewrite list_lookup_insert_ne by done. split; [intros [H|Hin]; [done|]|by left].
      destruct (committed q); [|by apply not_elem_of_nil in Hin]. apply list_elem_of_singleton in Hin. congruence.
  - destruct (committed q); [|by rewrite app_nil_r]. rewrite !fmap_app. apply NoDup_app. split_and!; [done| |].
    + intros j (req' & r' & Hj)%answered_id Hin. apply list_elem_of_singleton in Hin. cbn in Hin. subst j. by eapply Hnew.
    + apply NoDup_singleton.
Qed.

(** A request that has not been answered goes on: it takes effect, or changes nothing. *)
Lemma logged_move s i req p q v s' :
  logged s → requests s !! i = Some (req, p) → committed p = None →
  requests s' = <[i := (req, q)]> (requests s) → current s' = v → undefined s' = false →
  answered s' = answered s ++ match committed q with Some r => [(i, req, r)] | None => [] end →
  fits (schema_of v) (req, q) →
  match committed q with
  | Some r => respond (schema_of (current s)) req = Some (schema_of v, r)
  | None => schema_of v = schema_of (current s)
  end →
  (is_Some (schema_of (current s)) → is_Some (schema_of v)) →
  logged s'.
Proof.
  intros Hlog Hreq Hp Hrs Hv Hdef Ha Hq Heffect Hmono.
  destruct (answered_move s i req p q Hlog Hreq Hp) as [Hall Honce]. destruct Hlog as [Hpl _ _ Hser _].
  split; rewrite ?Hrs, ?Hv, ?Ha; try done.
  - apply Forall_insert; [|done]. eapply Forall_impl; [exact Hpl|]. intros x. by apply fits_mono.
  - destruct (committed q) as [r|]; [|by rewrite app_nil_r, Heffect]. rewrite !fmap_app.
    by eapply answers_snoc.
Qed.

(** A request that has been answered, or never will be, leaves. *)
Lemma logged_leave s i req p q s' :
  logged s → requests s !! i = Some (req, p) →
  requests s' = <[i := (req, q)]> (requests s) → current s' = current s → undefined s' = undefined s →
  answered s' = answered s → committed q = committed p → fits (schema_of (current s)) (req, q) → logged s'.
Proof.
  intros [Hpl Hall Honce Hser Hdef] Hreq Hrs Hv Hd Ha Hc Hq. split; rewrite ?Hrs, ?Hv, ?Ha, ?Hd; try done.
  - by apply Forall_insert.
  - intros j req' r. rewrite Hall. destruct (decide (i = j)) as [<-|Hne].
    + rewrite list_lookup_insert_eq by (by eapply lookup_lt_Some). 
      split; intros (p' & Hp' & Hr); simplify_eq; [exists q|exists p]; split; congruence.
    + by rewrite list_lookup_insert_ne.
Qed.

Lemma fits_left c req o : (finish o = None → respond c req = None) → fits c (req, leave o).
Proof.
  intros H. destruct (leave_place o) as [(r & Hr & ->)|[Hr ->]]; (split; [done|]); cbn; [done|]. exists c. auto.
Qed.
Lemma committed_leave o : committed (leave o) = finish o.
Proof. by destruct (leave_place o) as [(r & Hr & ->)|[Hr ->]]. Qed.

Lemma logged_step s x s' : locked s → logged s → step s x s' → logged s'.
Proof.
  intros Hl Hlog Hstep. pose proof Hlog as [Hpl Hall Honce Hser Hdef]. destruct x; step_cases Hstep.
  2-9: pose proof (Forall_lookup_1 _ _ _ _ Hpl Hreq) as [Hat Hlost]; cbn in Hat, Hlost;
    pose proof (respond_parsed (schema_of (current s)) r) as Hresp.
  3, 4, 5, 6, 7, 8: rewrite ?Hat in Hresp.
  - injection Hstep as <-. split; cbn; try done.
    + apply Forall_app. split; [done|]. by repeat constructor.
    + intros j req' r. rewrite Hall. split; intros (p & Hp & Hc).
      * exists p. split; [by apply lookup_app_l_Some|done].
      * apply lookup_snoc_Some in Hp as [[_ Hp]|[_ Hp]]; [by exists p|simplify_eq/=].
  - destruct (parse_request r) as [e|p] eqn:Hparse; simplify_eq.
    + eapply logged_move; [done|done|done|done|done|done|..]; cbn; rewrite ?committed_leave; try done.
      * apply fits_left. intros Hf. by rewrite Hresp, Hf.
      * rewrite Hresp. by destruct (finish (inl e)).
    + assert (committed p = None) as Hc by (by destruct (parse_request_place _ _ Hparse) as [[n ->]|[j ->]]).
      eapply (logged_move _ i r _ p); [done|done|done|done|done|done|..]; rewrite ?Hc; cbn; rewrite ?app_nil_r; try done.
      destruct (parse_request_place _ _ Hparse) as [[n ->]|[j ->]]; done.
  - simplify_eq. eapply logged_move; [done|done|done|done|done|done|..]; cbn; rewrite ?app_nil_r; done.
  - destruct (holder_not_assigning _ _ _ _ Hl Hreq) as [c Hc]; [cbn; lia|]. rewrite Hc in Hstep. simplify_eq.
    eapply logged_move; [done|done|done|done|done|done|..]; cbn; rewrite ?app_nil_r, ?Hc; done.
  - simplify_eq. eapply logged_move; [done|done|done|done|done|done|..]; cbn; try done.
  - simplify_eq. eapply logged_move; [done|done|done|done|done|done|..]; cbn; rewrite ?app_nil_r; done.
  - destruct (holder_not_assigning _ _ _ _ Hl Hreq) as [c Hc]; [cbn; lia|]. rewrite Hc in Hstep, Hresp. cbn in Hresp.
    destruct c as [c|]; simplify_eq; (eapply logged_move; [done|done|done|done|done|done|..]); cbn;
      rewrite ?app_nil_r, ?Hc; try done; rewrite ?Hc; try done.
  - destruct Hat as [Hat [c Hs]]. destruct (holder_not_assigning _ _ _ _ Hl Hreq) as [c' Hc]; [cbn; lia|].
    rewrite Hc in Hstep, Hs, Hresp. cbn in Hs. subst c'. rewrite Hat in Hresp. cbn in Hresp. simplify_eq.
    eapply logged_move; [done|done|done|done|done|done|..]; cbn; rewrite ?Hc; try done.
    + split; [done|]. cbn. intros Hf. exists (Some c). by rewrite Hresp, Hf.
    + destruct (finish (evaluate c j)); done.
  - injection Hstep as <-. eapply (logged_leave _ i r _ (leave o)); try done.
    + apply committed_leave.
    + destruct (leave_place o) as [(? & Hr & Hp)|[Hr Hp]]; rewrite Hp; split; cbn; try done; auto.
Qed.

Lemma locked_initial : locked initial.
Proof. by split. Qed.
Lemma logged_initial : logged initial.
Proof.
  split; try done; [|constructor]. cbn. intros i req r. split; [by intros ?%not_elem_of_nil|].
  by intros (p & ? & _).
Qed.
Lemma invariant_run ls s : steps step initial ls s → locked s ∧ logged s.
Proof.
  apply (invariant_steps step (λ s, locked s ∧ logged s)); [|split; [apply locked_initial|apply logged_initial]].
  intros s1 x s2 [Hl Hlog] Hstep. split; [by eapply locked_step|by eapply logged_step].
Qed.

(** What was answered stays: the order of the requests that took effect is not changed later. *)
Lemma answered_grows s x s' : step s x s' → answered s `prefix_of` answered s'.
Proof.
  intros Hstep. destruct x; step_cases Hstep; repeat case_match; simplify_eq; cbn; try done; by apply prefix_app_r.
Qed.
Lemma answered_prefix s ls s' : steps step s ls s' → answered s `prefix_of` answered s'.
Proof. induction 1 as [|? ? ? ? ? _ IH Hstep]; [done|]. etrans; [exact IH|by eapply answered_grows]. Qed.

(** The requests are those that arrived, in the order in which they did. *)
Definition arrival (x : label) : option request_message := match x with Arrives req => Some req | _ => None end.

Lemma insert_same_request s i req p q :
  requests s !! i = Some (req, p) → (<[i := (req, q)]> (requests s)).*1 = (requests s).*1.
Proof. intros Hreq. rewrite list_fmap_insert. apply list_insert_id. by rewrite list_lookup_fmap, Hreq. Qed.

Lemma requests_step s x s' : step s x s' → (requests s').*1 = (requests s).*1 ++ omap arrival [x].
Proof.
  intros Hstep. destruct x; cbn; rewrite ?app_nil_r; step_cases Hstep; repeat case_match; simplify_eq; cbn;
    try done; try by eapply insert_same_request.
  by rewrite fmap_app.
Qed.
Lemma requests_run s ls s' : steps step s ls s' → (requests s').*1 = (requests s).*1 ++ omap arrival ls.
Proof.
  induction 1 as [|? ? ? ? ? _ IH Hstep]; [by rewrite app_nil_r|].
  by rewrite (requests_step _ _ _ Hstep), IH, omap_app, <-app_assoc.
Qed.

(** ** Progress *)

(** How many steps a request still takes. *)
Definition steps_left (p : place) : nat :=
  match p with
  | Received => 5
  | LockingUnique _ | LockingShared _ => 4
  | Assigning _ | Checking _ => 3
  | Assigned _ | Validating _ => 2
  | Unlocking _ _ => 1
  | Answered _ | Failed => 0
  end.
Definition credit (x : label) : nat := match x with Arrives _ => 6 | _ => 0 end.

Lemma credit_arrivals ls : sum_list_with credit ls = 6 * length (omap arrival ls).
Proof. induction ls as [|[] ls IH]; [done|..]; cbn -[Nat.mul] in *; lia. Qed.

Lemma leave_done o : steps_left (leave o) = 0.
Proof. by destruct (leave_place o) as [(r & _ & ->)|[_ ->]]. Qed.

Lemma count_decreases f s i req p q s' :
  requests s !! i = Some (req, p) → requests s' = <[i := (req, q)]> (requests s) → f q < f p → count f s' < count f s.
Proof.
  intros Hreq Hrs Hlt. pose proof (count_insert f s i req p q Hreq) as H. unfold count in *. rewrite Hrs. lia.
Qed.

Lemma step_decreases s x s' :
  locked s ∧ logged s → step s x s' → count steps_left s' < count steps_left s + credit x.
Proof.
  intros [Hl Hlog] Hstep. pose proof (logged_step s x s' Hl Hlog Hstep) as Hlog'.
  pose proof (logged_defined s' Hlog') as Hdef. destruct x; cbn [credit]; rewrite ?Nat.add_0_r; step_cases Hstep.
  - injection Hstep as <-. unfold count at 1. cbn. rewrite count_snoc. cbn. lia.
  - assert (Hlt : steps_left match parse_request r with inl e => leave (inl e) | inr p => p end < 5).
    { destruct (parse_request r) as [e|p] eqn:Hp; [rewrite leave_done; lia|].
      destruct (parse_request_place _ _ Hp) as [[n ->]|[j ->]]; cbn; lia. }
    destruct (parse_request r); simplify_eq; by eapply count_decreases.
  - simplify_eq. eapply count_decreases; [done|done|cbn; lia].
  - destruct (current s); simplify_eq; try done. eapply count_decreases; [done|done|cbn; lia].
  - simplify_eq. eapply count_decreases; [done|done|cbn; lia].
  - simplify_eq. eapply count_decreases; [done|done|cbn; lia].
  - destruct (current s) as [[c|]|]; simplify_eq; try done; (eapply count_decreases; [done|done|cbn; lia]).
  - destruct (current s) as [[c|]|]; simplify_eq; try done. eapply count_decreases; [done|done|cbn; lia].
  - simplify_eq. eapply count_decreases; [done|done|rewrite leave_done; cbn; lia].
Qed.

(** A request that holds the lock can always go on. *)
Lemma holder_steps s i req p :
  requests s !! i = Some (req, p) → 0 < holds_unique p + assigns p + holds_shared p →
  ∃ x s', arrival x = None ∧ step s x s'.
Proof.
  intros Hreq Hp. destruct p as [| |n|n| |j|j|u o| |]; cbn in Hp; try lia.
  1: exists (BeginsAssignment i). 2: exists (EndsAssignment i). 3: exists (Checks i). 4: exists (Validates i).
  5: exists (Unlocks i).
  all: unfold step, next; rewrite Hreq; cbn; by eexists.
Qed.

Lemma unfinished_steps s i req p :
  locked s → requests s !! i = Some (req, p) → ¬ finished p → ∃ x s', arrival x = None ∧ step s x s'.
Proof.
  intros [Hu Hs He Ha] Hreq Hp.
  destruct (decide (0 < count holds_unique s)) as [(j & r & q & Hq & Hh)%count_pos|Hu0].
  { eapply (holder_steps _ j); [done|lia]. }
  destruct (decide (0 < count assigns s)) as [(j & r & q & Hq & Hh)%count_pos|Ha0].
  { eapply (holder_steps _ j); [done|lia]. }
  destruct (decide (0 < count holds_shared s)) as [(j & r & q & Hq & Hh)%count_pos|Hs0].
  { eapply (holder_steps _ j); [done|lia]. }
  assert (unique (mutex s) = false) as Hfree by (destruct (unique (mutex s)); [lia|done]).
  assert (shared (mutex s) = 0) as Hfree' by lia.
  pose proof (count_at holds_unique _ _ _ _ Hreq). pose proof (count_at assigns _ _ _ _ Hreq).
  pose proof (count_at holds_shared _ _ _ _ Hreq).
  destruct p as [|n|n|n|j|j|j|[] o| |]; cbn in *; try lia; try by destruct Hp.
  1: exists (Parses i). 2: exists (LocksUnique i). 3: exists (LocksShared i).
  all: unfold step, next; rewrite Hreq; cbn; rewrite ?Hfree, ?Hfree'; cbn; by eexists.
Qed.
End Model.

(** ** Properties *)

(** C35. Several threads may handle requests of the validator at the same time; [schema_mutex] makes it look as if the
    requests came one after the other.  Whatever the interleaving: the schema is never read while it is
    assigned, nor dereferenced while it is empty; there is an order of the requests in which the handler, run on one
    request after the other, gives every request the response it was sent, and the schema its value; a request that was answered
    keeps its place in this order, so it comes before all that arrive later; a request that is not answered is one
    whose handler throws something else than a [runtime_error]. *)
Theorem validator_linearizable {json schema} (parse : string → failure + json) (make : json → failure + schema)
    validate encode ls s :
  let step := step parse make validate encode in
  steps step initial ls s →
  undefined s = false
  ∧ (requests s).*1 = omap arrival ls
  ∧ Validator.answers parse make validate encode None (answered s).*1.*2
    = Some (schema_of (current s), (answered s).*2)
  ∧ NoDup (answered s).*1.*1
  ∧ (∀ i req p, requests s !! i = Some (req, p) →
       (∀ r, p = Answered r → (i, req, r) ∈ answered s)
       ∧ (p = Failed → ∃ c, Validator.respond parse make validate encode c req = None))
  ∧ (∀ ks s', steps step s ks s' → answered s `prefix_of` answered s').
Proof.
  intros st Hrun. pose proof (requests_run _ _ _ _ _ _ _ Hrun) as Hreqs.
  apply invariant_run in Hrun as [Hl [Hpl Hall Honce Hser Hdef]].
  split_and!; [done|done|done|done| |by intros ks s'; apply answered_prefix].
  intros i req p Hreq. split.
  - intros r ->. apply Hall. by exists (Answered r).
  - intros ->. eapply Forall_lookup_1 in Hpl as [_ Hlost]; [|exact Hreq]. by apply Hlost.
Qed.

(** C36. Each request takes at most six steps, and the threads do not block each other: when none of them can go on,
    every request that arrived has been answered, or has ended with an exception. *)
Theorem validator_progress {json schema} (parse : string → failure + json) (make : json → failure + schema)
    validate encode ls s :
  let step := step parse make validate encode in
  steps step initial ls s →
  length ls <= 6 * length (omap arrival ls)
  ∧ ((∀ x s', step s x s' → is_Some (arrival x)) → Forall (λ x, finished x.2) (requests s)).
Proof.
  intros st Hrun. pose proof (invariant_run _ _ _ _ _ _ Hrun) as [Hl _]. split.
  - apply (steps_credit st (λ s, locked s ∧ logged parse make validate encode s) (count steps_left) credit) in Hrun.
    + rewrite credit_arrivals in Hrun. cbn in Hrun. lia.
    + intros s1 x s2 [? ?] ?. split; [by eapply locked_step|by eapply logged_step].
    + intros s1 x s2. apply step_decreases.
    + split; [apply locked_initial|apply logged_initial].
  - intros Hstuck. apply Forall_lookup_2. intros i [req p] Hreq. destruct (decide (finished p)) as [|Hp]; [done|].
    destruct (unfinished_steps parse make validate encode s i req p Hl Hreq Hp) as (x & s' & Hx & Hstep).
    apply Hstuck in Hstep as [? ?]. congruence.
Qed.

(** ** Witnesses *)

(** The first request finds no schema; the second sets one, while the third fails; the fourth is valid. *)
Definition interleaved : list label :=
  (Arrives <$> toy_requests)
  ++ [Parses 0; Parses 1; LocksShared 0; Parses 3; Checks 0; Unlocks 0; LocksUnique 1; BeginsAssignment 1; Parses 2;
      EndsAssignment 1; Unlocks 1; LocksShared 3; Checks 3; Validates 3; Unlocks 3].
Abbreviation toy_step := (step toy_parse toy_make toy_validate toy_encode).

Lemma interleaved_run :
  ∃ s, steps toy_step initial interleaved s
       ∧ (answered s).*1.*1 = [0; 2; 1; 3]
       ∧ (answered s).*2 = add_newline <$>
           [Response bad_request (Some "text/plain"%string) "please set schema first at /schema";
            Response bad_request (Some "text/plain"%string) "empty"; Response ok None "schema set";
            Response ok (Some "application/json"%string) "x"]
       ∧ requests s = zip toy_requests
           (Answered ∘ add_newline <$>
             [Response bad_request (Some "text/plain"%string) "please set schema first at /schema";
              Response ok None "schema set"; Response bad_request (Some "text/plain"%string) "empty";
              Response ok (Some "application/json"%string) "x"]).
Proof.
  eexists. split; [apply (execute_labels_sound toy_step (next toy_parse toy_make toy_validate toy_encode)); [done|]|];
    [vm_compute; reflexivity|split_and!; reflexivity].
Qed.

Lemma validator_linearizable_witness :
  ∃ s : state (json := string) (schema := string), Validator.answers toy_parse toy_make toy_validate toy_encode None (answered s).*1.*2
         = Some (schema_of (current s), (answered s).*2)
       ∧ (answered s).*1.*1 = [0; 2; 1; 3].
Proof.
  destruct interleaved_run as (s & Hrun & Hids & _). exists s. split; [|exact Hids].
  destruct (validator_linearizable toy_parse toy_make toy_validate toy_encode interleaved s Hrun) as (_ & _ & H & _).
  exact H.
Defined.

Lemma validator_progress_witness :
  length interleaved <= 6 * length (omap arrival interleaved).
Proof.
  destruct interleaved_run as (s & Hrun & _).
  exact (proj1 (validator_progress toy_parse toy_make toy_validate toy_encode interleaved s Hrun)).
Defined.
