(* ===== verification/Tools.v ===== *)
(** * Tools: bin/file_io.cpp, bin/handle_signal.cpp, lib/*.cpp and include/run_sync.hpp

    Module FileIo: reading as much as possible until cancelled.  Module HandleSignal:
    the parser of durations, with [std::stoll], and the loop that ignores
    signals, and what [main] waits for.  Module Run: the choices of [run(context, argc, argv)], the debug
    loop, and running a coroutine synchronously. *)
From Stdlib Require Import Ascii.
From S2P Require Import Prelude Decimal Asio Wp Script Core.

(** ** bin/file_io.cpp *)
Module FileIo.
Section Program.
Context {W : Type} `{!CancellationTypes, !Cancellation W, !Streams W}.

Definition read_file (fuel : nat) (file : handle) : awaitable W Z :=
  loop fuel (λ total,
    '(ec, data) ← async_read_some file (operator_m 1);
    let total := total +ₛ zlen data in
    c ← cs_cancelled;
    if bool_decide (ec = Eof) || bool_decide (c ≠ none) then mret (inr total)
    else if failed ec then throw (system_error ec)
    else mret (inl total)) 0%Z.
End Program.

Section Proofs.
Context {W : Type} `{!CancellationTypes, !Cancellation W, !Streams W}.
Implicit Types s : st W.

(** Everything read counts, the last, interrupted read included. *)
Definition read_file_post (file : handle) s0 : post W Z := λ r s, ∃ tr,
  trace s = trace s0 ++ tr ∧
  match r with
  | Val total => total = wrap64 (zlen (received file tr))
      ∧ ((∃ tr' cap d, tr = tr' ++ [EvRead file cap Eof d]) ∨ cancelled (env s) ≠ none)
  | Throw e => ∃ ec, e = system_error ec ∧ ec ≠ Success ∧ ec ≠ Eof
  | NoFuel => True
  end.

Lemma received_one h cap ec d : received h [EvRead h cap ec d] = d.
Proof. unfold received. simpl. by rewrite decide_True, app_nil_r. Qed.

Lemma read_file_correct fuel file s : wp (read_file fuel file) (read_file_post file s) s.
Proof.
  apply (wp_loop (λ total s', ∃ tr, trace s' = trace s ++ tr ∧
    total = wrap64 (zlen (received file tr)))).
  { intros total s' (tr & Ht & _). by exists tr. }
  2: { exists []. by rewrite app_nil_r. }
  intros total [w0 t0] (tr & Ht & ->); simpl in Ht; subst t0. wp_run.
  { exists tr. split; [done|]. by exists Operation_canceled. }
  assert (Hsum : wrap64 (zlen (received file tr)) +ₛ zlen d
          = wrap64 (zlen (received file (tr ++ [EvRead file (operator_m 1) ec d])))).
  { by rewrite size_add_wrap, received_app, received_one, zlen_app. }
  rewrite Hsum.
  destruct (bool_decide (ec = Eof) || bool_decide (cancelled w ≠ none)) eqn:Hend; wp_run.
  - eexists. rewrite <-app_assoc. split; [done|]. split; [done|].
    apply orb_true_iff in Hend as [->%bool_decide_eq_true|Hc%bool_decide_eq_true]; [left|by right].
    eauto.
  - apply orb_false_iff in Hend as [Hne%bool_decide_eq_false _].
    eexists. rewrite <-app_assoc. split; [done|]. by exists ec.
  - eexists. by rewrite <-app_assoc.
Qed.
End Proofs.
End FileIo.

(** ** bin/handle_signal.cpp *)
Module HandleSignal.

(** *** [std::stoll(s, &num_end)], base 10 *)

Definition int64_min : Z := - 2 ^ 63.
Definition int64_max : Z := 2 ^ 63 - 1.
Definition is_int64 (z : Z) : Prop := (int64_min <= z <= int64_max)%Z.
#[export] Instance is_int64_dec z : Decision (is_int64 z).
Proof. unfold is_int64. apply _. Defined.

(** The value and the rest of the string; [None] is [std::invalid_argument] or
    [std::out_of_range]. *)
Definition stoll (s : string) : option (Z * string) :=
  let (sign, s) := sign_of (skip_spaces s) in
  if starts_with_digit s then
    let (value, rest) := read_digits 0 s in
    if decide (is_int64 (sign * value)) then Some ((sign * value)%Z, rest) else None
  else None.

(** The nanoseconds of a unit. *)
Definition unit_ns (unit : string) : option Z :=
  if String.eqb unit "h" then Some (3600 * 10 ^ 9)%Z
  else if String.eqb unit "m" then Some (60 * 10 ^ 9)%Z
  else if String.eqb unit "s" then Some (10 ^ 9)%Z
  else if String.eqb unit "ms" then Some (10 ^ 6)%Z
  else None.

(** The conversion to nanoseconds multiplies [int64_t]s; its overflow is undefined. *)
Inductive parsed := NoDuration | Nanoseconds (ns : Z) | Undefined.

Definition parse_duration (s : string) : parsed :=
  match stoll s with
  | None => NoDuration
  | Some (value, unit) =>
      match unit_ns unit with
      | None => NoDuration
      | Some ns => if decide (is_int64 (value * ns)) then Nanoseconds (value * ns) else Undefined
      end
  end.

(** [validate]: a duration, or [validation_error]. *)
Definition validate (s : string) : string + parsed :=
  match parse_duration s with
  | NoDuration => inl s
  | d => inr d
  end.

Section Program.
Context {W : Type} `{!Cancellation W, !Signals W, !Timers W}.

Definition sleep (timeout : duration) : awaitable W unit := deferred (async_wait timeout).

(** [++i] on an [int]; overflow is undefined, modelled by an exception that is no
    other. *)
Definition int_max : Z := 2 ^ 31 - 1.
Definition undefined_behaviour : exn := std_exception "undefined behaviour".

(** [for (int i = 0; i <= to_ignore; ++i)]: the comparison converts [i] to [size_t]. *)
Definition handle (fuel : nat) (signal : Z) (to_ignore : Z) : awaitable W unit :=
  loop fuel (λ i,
    if (wrap64 i <=? to_ignore)%Z then
      _ ← deferred (async_signal signal);
      if (i <? int_max)%Z then mret (inl (i + 1)%Z) else throw undefined_behaviour
    else mret (inr tt)) 0%Z.

(** *** [main], after the parsing of the command line *)

Definition SIGINT : Z := 2.
Definition SIGTERM : Z := 15.

(** The options given; [None] for the whole is an exception of the parser. *)
Record options := Options {
  help : bool;
  handle_sigint : option Z;
  handle_sigterm : option Z;
  timeout : option duration
}.
(** The deferred operations of the parallel group. *)
(** The width of the terminal: [columns] is what [ioctl] reports, if it succeeds. *)
Definition term_width (isatty : bool) (columns : option Z) : Z :=
  if isatty then
    match columns with
    | Some ws_col => if (0 <? ws_col)%Z then ws_col else 80
    | None => 80
    end
  else 80.

Inductive op_type := Handle (signal to_ignore : Z) | Sleep (timeout : duration).
Inductive action := Exit (code : Z) | Wait_for_one (ops : list op_type).

Definition ops (ignore_sigint ignore_sigterm : option Z) (timeout : option duration) :
    list op_type :=
  let ops := [] in
  let ops := match ignore_sigint with Some n => ops ++ [Handle SIGINT n] | None => ops end in
  let ops := match ignore_sigterm with Some n => ops ++ [Handle SIGTERM n] | None => ops end in
  match timeout with Some d => ops ++ [Sleep d] | None => ops end.

Definition main (parsed : option options) : action :=
  match parsed with
  | None => Exit 1
  | Some o =>
      if help o then Exit 0
      else
        let timeout_value := match timeout o with Some d => Some d | None => Some (10 * 10 ^ 9)%Z end in
        Wait_for_one (ops (handle_sigint o) (handle_sigterm o) timeout_value)
  end.

(** What each operation does. *)
Definition run_op (fuel : nat) (op : op_type) : awaitable W unit :=
  match op with
  | Handle signal to_ignore => handle fuel signal to_ignore
  | Sleep d => sleep d
  end.
End Program.
End HandleSignal.

(** *** What [parse_duration] accepts *)

Section ParseProofs.
Import HandleSignal.

(** No unit starts with a digit. *)
Lemma unit_no_digit unit ns : unit_ns unit = Some ns → starts_with_digit unit = false.
Proof.
  unfold unit_ns.
  repeat match goal with |- context [String.eqb unit ?u] =>
    destruct (String.eqb_spec unit u) as [->|]; [reflexivity|] end. done.
Qed.

Lemma stoll_digits (negative : bool) ds rest :
  ds ≠ [] → Forall (λ d, d < 10) ds → starts_with_digit rest = false →
  let v := ((if negative then -1 else 1) * value_of 0 ds)%Z in
  stoll (signed negative (of_digits ds rest)) = if decide (is_int64 v) then Some (v, rest) else None.
Proof.
  intros Hne Hds Hrest v. subst v.
  unfold stoll. rewrite scan_signed by done.
  by rewrite starts_with_of_digits, read_digits_of.
Qed.
End ParseProofs.

Section HandleProofs.
Import HandleSignal.
Context {W : Type} `{!Cancellation W, !Signals W}.
Implicit Types s : st W.

Lemma replicate_snoc {A} n (x : A) : replicate n x ++ [x] = replicate (S n) x.
Proof. by rewrite <-replicate_cons_app. Qed.

(** It ends after one signal more than it ignores, if the counter does not overflow. *)
Definition handle_post (signal to_ignore : Z) s0 : post W unit := λ r s, ∃ n,
  match r with
  | Val _ => trace s = trace s0 ++ replicate n (EvSignal signal Success)
             ∧ Z.of_nat n = (to_ignore + 1)%Z ∧ (to_ignore < int_max)%Z
  | Throw e =>
      (trace s = trace s0 ++ replicate n (EvSignal signal Success)
         ∧ (e = system_error Operation_canceled ∧ (Z.of_nat n <= to_ignore)%Z
            ∨ e = undefined_behaviour ∧ Z.of_nat n = (int_max + 1)%Z ∧ (int_max <= to_ignore)%Z))
      ∨ ∃ ec, ec ≠ Success ∧ e = system_error ec ∧ (Z.of_nat n <= to_ignore)%Z ∧
              trace s = trace s0 ++ replicate n (EvSignal signal Success) ++ [EvSignal signal ec]
  | NoFuel => True
  end.

Lemma handle_correct fuel signal to_ignore s :
  (0 <= to_ignore)%Z → wp (handle fuel signal to_ignore) (handle_post signal to_ignore s) s.
Proof.
  intros Hpos. apply (wp_loop (λ i s', ∃ n,
    trace s' = trace s ++ replicate n (EvSignal signal Success) ∧ i = Z.of_nat n ∧
    (i <= to_ignore + 1)%Z ∧ (i <= int_max)%Z)).
  { intros i s' (n & Ht & _). by exists n. }
  2: { exists 0. rewrite app_nil_r. split_and!; [done|done|lia|]. unfold int_max. lia. }
  intros i [w0 t0] (n & Ht & -> & Hle & Hmax); simpl in Ht; subst t0.
  assert (is_size (Z.of_nat n)) as Hn by (unfold is_size, int_max in *; lia).
  rewrite wrap64_small by done.
  destruct (Z.leb_spec (Z.of_nat n) to_ignore) as [Hi|Hi]; wp_run.
  - exists n. left. split; [done|]. left. done.
  - destruct (Z.ltb_spec (Z.of_nat n) int_max); wp_run.
    + exists (S n). rewrite <-app_assoc, replicate_snoc. split_and!; [done|lia|lia|lia].
    + exists (S n). left. cbn [trace]. rewrite <-app_assoc, replicate_snoc. split; [done|].
      right. split_and!; [done|lia|lia].
  - exists n. right. exists ec. cbn [trace]. by rewrite <-app_assoc.
  - exists n. split_and!; [done|lia|]. assert (Z.of_nat n = to_ignore + 1)%Z by lia. lia.
Qed.

Lemma handle_total fuel signal to_ignore s :
  (0 <= to_ignore)%Z → Z.to_nat int_max < fuel ∨ Z.to_nat to_ignore + 1 < fuel →
  wp (handle fuel signal to_ignore) (λ r _, r ≠ NoFuel) s.
Proof.
  intros Hpos Hfuel.
  apply (wp_loop_total (λ i _, (0 <= i <= int_max)%Z ∧ (i <= to_ignore + 1)%Z)
    (λ i _, Z.to_nat (Z.min int_max (to_ignore + 1) - i))).
  2: { unfold int_max. lia. }
  2: { rewrite Z.sub_0_r. lia. }
  intros i [w0 t0] [Hi Hi2]. rewrite wrap64_small by (unfold is_size, int_max in *; lia).
  destruct (Z.leb_spec i to_ignore); wp_run; try done.
  destruct (Z.ltb_spec i int_max); wp_run; [|done]. split; lia.
Qed.
End HandleProofs.

(** ** lib/run.cpp, lib/program_options.cpp and include/run_sync.hpp *)
Module Run.

(** [context.run_one()]: the number of handlers executed, 0 when there is no work left. *)
Class Contexts (W : Type) := { run_one : W → Z * W }.

Section Program.
Context {W : Type} `{!Contexts W}.

Definition op_run_one : awaitable W Z := λ s,
  let (n, w) := run_one (env s) in (Val n, St w (trace s)).

(** [runDebug]; its output is not modelled. *)
Definition runDebug (fuel : nat) : awaitable W Z :=
  loop fuel (λ i,
    n ← op_run_one;
    if bool_decide (n ≠ 0%Z) then mret (inl (i +ₛ 1)) else mret (inr i)) 0%Z.

(** [run(context)]: [context_run] is the library's. *)
Definition run (ndebug : bool) (context_run : awaitable W Z) (fuel : nat) : awaitable W Z :=
  if ndebug then context_run else runDebug fuel.
End Program.

(** The command line of [run(context, argc, argv)], after parsing. *)
Record options := Options { help : bool; debug : bool; threads : Z }.
Inductive action :=
| Exit (code : Z)
| Debug                    (* [runDebug], then exit code 0 *)
| Threads (extra : Z).     (* [context.run()] in [extra] additional threads and here *)
(** [None] is a [po::error]. *)
Definition run_options (parsed : option options) : action :=
  match parsed with
  | None => Exit 1
  | Some o =>
      if help o then Exit 0
      else if debug o && (0 <? threads o)%Z then Exit 1
      else if debug o then Debug
      else Threads (threads o)
  end.

(** [get_terminal_width]: what the terminal reports, if anything. *)
Definition get_terminal_width (fallback : Z) (ws_col : option Z) : Z :=
  match ws_col with
  | Some n => if (0 <? n)%Z then n else fallback
  | None => fallback
  end.

(** [run_sync]: the coroutine runs to its end on a context of its own; if the context runs out of work
    before, the assertion fails. *)
Inductive outcome (A : Type) := Returned (a : A) | Rethrown (e : exn) | AssertionFailed.
Arguments Returned {A} _.
Arguments Rethrown {A} _.
Arguments AssertionFailed {A}.

Definition run_sync {W A} (task : awaitable W A) (s : st W) : outcome A * st W :=
  let (r, s) := task s in
  let '(result, ep) :=
    match r with
    | Val a => (Some a, None)
    | Throw e => (None, Some e)
    | NoFuel => (None, None)
    end in
  if xorb (bool_decide (is_Some ep)) (bool_decide (is_Some result)) then
    match ep, result with
    | Some e, _ => (Rethrown e, s)
    | None, Some a => (Returned a, s)
    | None, None => (AssertionFailed, s)
    end
  else (AssertionFailed, s).

(** [run_sync] of a callable. *)
Definition run_sync_callable {W A} (callable : unit → awaitable W A) (s : st W) :=
  run_sync (callable tt) s.

Section Proofs.
(** [run_sync] makes a synchronous call of the coroutine: it returns what the coroutine
    returns and throws what it throws. *)
Lemma run_sync_spec {W A} (task : awaitable W A) s :
  run_sync task s = (match (task s).1 with
                     | Val a => Returned a
                     | Throw e => Rethrown e
                     | NoFuel => AssertionFailed
                     end, (task s).2).
Proof. unfold run_sync. by destruct (task s) as [[a|e|] s']. Qed.

(** The debug loop counts the handlers. *)
Fixpoint executed `{!Contexts W} (fuel : nat) (w : W) : nat :=
  match fuel with
  | O => 0
  | S fuel => if decide ((run_one w).1 = 0%Z) then 0 else S (executed fuel (run_one w).2)
  end.

Lemma runDebug_counts `{!Contexts W} fuel (s : st W) n s' :
  runDebug fuel s = (Val n, s') → n = wrap64 (Z.of_nat (executed fuel (env s))).
Proof.
  unfold runDebug.
  assert (∀ k (s : st W), loop fuel (λ i, n ← op_run_one;
            if bool_decide (n ≠ 0%Z) then mret (inl (i +ₛ 1)) else mret (inr i))
            (wrap64 (Z.of_nat k)) s = (Val n, s') →
          n = wrap64 (Z.of_nat (k + executed fuel (env s)))) as Hgen.
  { induction fuel as [|fuel IH]; intros k s0; simpl; [done|].
    unfold mbind, awaitable_bind, op_run_one. destruct (run_one (env s0)) as [m w]. simpl.
    destruct (decide (m = 0%Z)) as [->|Hm].
    - intros [= <- <-]. by rewrite Nat.add_0_r.
    - rewrite bool_decide_eq_true_2 by done. cbn. rewrite size_add_wrap.
      replace (Z.of_nat k + 1)%Z with (Z.of_nat (S k)) by lia.
      intros Hrun. apply IH in Hrun. simpl in Hrun. rewrite Hrun. f_equal. lia. }
  intros Hrun. by apply (Hgen 0).
Qed.
End Proofs.
End Run.

(** ** Properties *)

(** [read_file] returns, at the end of the file or when it was cancelled, the number of all bytes
    read, those of the interrupted read included; any other error is thrown. *)
Theorem read_file_counts {W} `{!CancellationTypes, !Cancellation W, !Streams W} fuel file (s : st W) r s' :
  FileIo.read_file fuel file s = (r, s') → FileIo.read_file_post file s r s'.
Proof. apply wp_intro, FileIo.read_file_correct. Qed.


(** The signal handler coroutine ends after exactly one signal more than it was told to ignore, if that number is below
    2^31-1; otherwise its [int] counter overflows after 2^31 signals. *)
Theorem handle_ignores_signals {W} `{!Cancellation W, !Signals W} fuel signal to_ignore (s : st W) r s' :
  (0 <= to_ignore)%Z →
  HandleSignal.handle fuel signal to_ignore s = (r, s') →
  handle_post signal to_ignore s r s' ∧ (Z.to_nat to_ignore + 1 < fuel → r ≠ NoFuel).
Proof.
  intros Hpos Hrun. split.
  - by eapply wp_intro; [apply handle_correct|].
  - intros Hfuel.
    by apply (wp_intro _ _ _ _ _ (handle_total fuel signal to_ignore s Hpos (or_intror Hfuel)) Hrun).
Qed.

(** handle_signal always ends: the group [main] waits for is never empty, since it holds
    exactly one timer, after the given time or 10 s; besides, it handles exactly the signals it was told to, SIGINT
    before SIGTERM. *)
Theorem handle_signal_waits o :
  HandleSignal.help o = false →
  ∃ signals, HandleSignal.main (Some o) = HandleSignal.Wait_for_one
      (signals ++ [HandleSignal.Sleep (default (10 * 10 ^ 9)%Z (HandleSignal.timeout o))])
    ∧ signals = (HandleSignal.Handle HandleSignal.SIGINT <$> option_list (HandleSignal.handle_sigint o))
             ++ (HandleSignal.Handle HandleSignal.SIGTERM <$> option_list (HandleSignal.handle_sigterm o)).
Proof.
  intros Hhelp. eexists. split; [|done]. unfold HandleSignal.main. rewrite Hhelp.
  by destruct o as [? [] [] []].
Qed.

(** ** Witnesses *)

Example parse_examples :
  HandleSignal.parse_duration "5s" = HandleSignal.Nanoseconds (5 * 10 ^ 9)
  ∧ HandleSignal.parse_duration " -3m" = HandleSignal.Nanoseconds (-180 * 10 ^ 9)
  ∧ HandleSignal.parse_duration "250ms" = HandleSignal.Nanoseconds (250 * 10 ^ 6)
  ∧ HandleSignal.parse_duration "5 s" = HandleSignal.NoDuration
  ∧ HandleSignal.parse_duration "9223372036854775808s" = HandleSignal.NoDuration
  ∧ HandleSignal.parse_duration "9223372036854775807h" = HandleSignal.Undefined.
Proof. vm_compute. repeat split; reflexivity. Qed.

Lemma read_file_counts_witness :
  ∃ s', FileIo.read_file_post 0 (start (reading [(Success, bytes_of "abc")])) (Val 3%Z) s'.
Proof.
  eexists. eapply (read_file_counts (W := script) 5 0
    (start (reading [(Success, bytes_of "abc")]))).
  vm_compute. reflexivity.
Defined.


Lemma handle_ignores_signals_witness :
  ∃ s', handle_post 2 1 (start idle) (Val tt) s'.
Proof.
  eexists. refine (proj1 (handle_ignores_signals (W := script) 5 2 1 (start idle) _ _ _ _)).
  - lia.
  - vm_compute. reflexivity.
Defined.
