(* ===== verification/Mains.v ===== *)
(** * cancellation/*: the [main]s of the servers with a map of sessions, and the threads they run with

    [run(context, argc, argv)] (Tools.v) decides how many threads run the context (Context.v).  echo_class.cpp runs
    all its coroutines on a strand; echo_coro_signal_cancellation.cpp and echo_coro_signal_advanced.cpp have none.
    Each keeps a map of sessions, which the handlers of several processes access. *)
From S2P Require Import Prelude Asio Tools Context.

(** ** lib/program_options.cpp: the threads that run the context, [main]'s included *)
Definition threads_of (a : Run.action) : option nat :=
  match a with
  | Run.Exit _ => None
  | Run.Debug => Some 1
  | Run.Threads extra => Some (S (Z.to_nat extra))
  end.

(** The coroutines of the two programs with promises: [with_signal_handling];
    [server], or [EchoServer::run]; [wait_for_signal];
    the [task] of a session, [log_cancellation], and [session], or [echo]. *)
Inductive coroutine := WithSignalHandling | Server | WaitForSignal | Task | LogCancellation | Session.

(** What a coroutine waits for: to be resumed for the first time; the operator [||]; the acceptor; the coroutine it has
    spawned; the socket; a signal, after which [remaining] more are awaited.  A spawned coroutine may be reported as
    ended ([Awaiting]) at any time, which allows more runs than there are; in [race_labels] it has ended. *)
Inductive operation :=
| Begin (c : coroutine) | Group | Accepting | Awaiting (c : coroutine) | Reading | Writing | Signal (remaining : nat).

(** [cancelled]: what [cs.cancelled()] says when the coroutine is resumed is not [none]. *)
Inductive completion :=
| Begun | GroupDone | Accepted (ec : error_code) (cancelled : bool) | Ended (cancelled : bool)
| Transferred (ec : error_code) | Signalled (ec : error_code).

Definition result_fits (p : operation) (r : completion) : bool :=
  match p, r with
  | Begin _, Begun | Group, GroupDone | Accepting, Accepted _ _ | Awaiting _, Ended _ | Reading, Transferred _
  | Writing, Transferred _ | Signal _, Signalled _ => true
  | _, _ => false
  end.

(** *** The session coroutine, in both of them *)
Definition resume_session (p : operation) (r : completion) : option operation * list operation :=
  match p, r with
  | Begin Session, Begun => (Some Reading, [])
  | Reading, Transferred ec => (if failed ec then None else Some Writing, [])
  | Writing, Transferred ec => (if failed ec then None else Some Reading, [])
  | _, _ => (None, [])
  end.

(** ** cancellation/echo_class.cpp *)
Module EchoClass.

Definition resume (p : operation) (r : completion) : option operation * list operation :=
  match p, r with
  | Begin Server, Begun => (Some Accepting, [])
  | Accepting, Accepted ec cancelled =>
      if failed ec || cancelled then (None, []) else (Some Accepting, [Begin Task])
  | Begin Task, Begun => (Some (Awaiting Task), [Begin Session])
  | Begin WaitForSignal, Begun => (Some (Signal 1), [])
  | Signal (S n), Signalled ec => (if failed ec then None else Some (Signal n), [])
  | _, _ => resume_session p r
  end.

(** [sessions.emplace(...)]; [sessions.erase(id)]; [server.reset()]. *)
Definition uses_map (p : operation) (r : completion) : bool :=
  match p, r with
  | Accepting, Accepted ec cancelled => negb (failed ec || cancelled)
  | Awaiting Task, Ended cancelled => negb cancelled
  | Signal 1, Signalled ec => negb (failed ec)
  | _, _ => false
  end.

(** Everything runs on [make_strand(context.get_executor())]. *)
#[export] Instance program : Program operation completion := {|
  lifetime_of _ := Frame; strand_of _ := Some 0; fits := result_fits; Context.resume := resume
|}.

Definition main (parsed : option Run.options) : option (nat * state (P:=operation) (R:=completion)) :=
  n ← threads_of (Run.run_options parsed); Some (n, initial n [Begin Server; Begin WaitForSignal]).
End EchoClass.

(** ** cancellation/echo_coro_signal_cancellation.cpp *)
Module SignalCancellation.

(** [with_signal_handling] waits for the first of its two coroutines to end; the operator [||] is the library's. *)
Definition resume (p : operation) (r : completion) : option operation * list operation :=
  match p, r with
  | Begin WithSignalHandling, Begun => (Some Group, [Begin Server; Begin WaitForSignal])
  | Begin Server, Begun => (Some Accepting, [])
  | Accepting, Accepted ec cancelled =>
      (if failed ec || cancelled then None else Some Accepting, if failed ec then [] else [Begin Task])
  | Begin Task, Begun => (Some (Awaiting Task), [Begin LogCancellation])
  | Begin LogCancellation, Begun => (Some (Awaiting LogCancellation), [Begin Session])
  | Begin WaitForSignal, Begun => (Some (Signal 0), [])
  | _, _ => resume_session p r
  end.

(** [sessions.emplace(...)] or [sessions.clear()]; [sessions.erase(id)]. *)
Definition uses_map (p : operation) (r : completion) : bool :=
  match p, r with
  | Accepting, Accepted _ _ => true
  | Awaiting Task, Ended cancelled => negb cancelled
  | _, _ => false
  end.

#[export] Instance program : Program operation completion := {|
  lifetime_of _ := Frame; strand_of _ := None; fits := result_fits; Context.resume := resume
|}.

Definition main (parsed : option Run.options) : option (nat * state (P:=operation) (R:=completion)) :=
  n ← threads_of (Run.run_options parsed); Some (n, initial n [Begin WithSignalHandling]).
End SignalCancellation.

(** ** cancellation/echo_coro_signal_advanced.cpp *)
Module SignalAdvanced.

(** [with_signal_handling]; [signal_handling]; the coroutine made of [co_spawn(..., use_awaitable)]; [server];
    [session]; [echo]. *)
Inductive coroutine := WithSignalHandling | SignalHandling | Spawning | Server | Session | Echo.

(** What a coroutine waits for.  [Goodbye] and [Sleeping] are those of [shutdown], which the session awaits itself. *)
Inductive operation :=
| Begin (c : coroutine) | Group | SignalWait | AwaitingServer | Accepting | Receiving | AwaitingEcho
| Reading | Writing | Goodbye | Sleeping.

(** What [cs.cancelled()] says when the server is resumed. *)
Inductive seen := NotCancelled | Total | Other_cancellation.

(** [no_sessions]: [sessions.empty()], in the loop that waits for the sessions.  [gives_up]: the session ends with an
    exception instead of shutting down. *)
Inductive completion :=
| Begun | GroupDone | ServerEnded | Signalled (ec : error_code)
| Accepted (ec : error_code) (c : seen) (no_sessions : bool) | Received (no_sessions : bool)
| EchoEnded (gives_up : bool) | Transferred (ec : error_code) | Slept.

(** The session that was just accepted is in the map. *)
Definition result_fits (p : operation) (r : completion) : bool :=
  match p, r with
  | Begin _, Begun | Group, GroupDone | SignalWait, Signalled _ | AwaitingServer, ServerEnded
  | Receiving, Received _ | AwaitingEcho, EchoEnded _ | Reading, Transferred _ | Writing, Transferred _
  | Goodbye, Transferred _ | Sleeping, Slept => true
  | Accepting, Accepted ec _ no_sessions => failed ec || negb no_sessions
  | _, _ => false
  end.

Definition resume (p : operation) (r : completion) : option operation * list operation :=
  match p, r with
  | Begin WithSignalHandling, Begun => (Some Group, [Begin SignalHandling; Begin Spawning])
  | Begin SignalHandling, Begun => (Some SignalWait, [])
  | SignalWait, Signalled ec => (if failed ec then None else Some SignalWait, [])
  | Begin Spawning, Begun => (Some AwaitingServer, [Begin Server])
  | Begin Server, Begun => (Some Accepting, [])
  | Accepting, Accepted ec c no_sessions =>
      (match c with
       | Total => Some Accepting
       | NotCancelled => if failed ec then if no_sessions then None else Some Receiving else Some Accepting
       | Other_cancellation => if no_sessions then None else Some Receiving
       end, if failed ec then [] else [Begin Session])
  | Receiving, Received no_sessions => (if no_sessions then None else Some Receiving, [])
  | Begin Session, Begun => (Some AwaitingEcho, [Begin Echo])
  | AwaitingEcho, EchoEnded gives_up => (if gives_up then None else Some Goodbye, [])
  | Goodbye, Transferred ec => (if failed ec then None else Some Sleeping, [])
  | Begin Echo, Begun => (Some Reading, [])
  | Reading, Transferred ec => (if failed ec then None else Some Writing, [])
  | Writing, Transferred ec => (if failed ec then None else Some Reading, [])
  | _, _ => (None, [])
  end.

(** The server's [sessions.emplace(...)], and its loops over the sessions; [sessions.erase(id)], in the completion handler
    of a session, which its last resumption calls. *)
Definition uses_map (p : operation) (r : completion) : bool :=
  match p, r with
  | Accepting, Accepted _ _ _ | Receiving, Received _ | Sleeping, Slept => true
  | AwaitingEcho, EchoEnded gives_up => gives_up
  | Goodbye, Transferred ec => failed ec
  | _, _ => false
  end.

#[export] Instance program : Program operation completion := {|
  lifetime_of _ := Frame; strand_of _ := None; fits := result_fits; Context.resume := resume
|}.

Definition main (parsed : option Run.options) : option (nat * state (P:=operation) (R:=completion)) :=
  n ← threads_of (Run.run_options parsed); Some (n, initial n [Begin WithSignalHandling]).
End SignalAdvanced.

(** ** Accesses to the map *)
Section Programs.
Context {P R : Type}.

(** The handler [h] is being run, and accesses the map. *)
Definition accesses_map (uses_map : P → R → bool) (s : state) (h : nat) : Prop :=
  ∃ i t r (pr : process (P:=P) (R:=R)) p,
    handlers s !! h = Some (Handler i (Running t r))
    ∧ processes s !! i = Some pr ∧ now pr = Some p ∧ uses_map p r = true.
Definition data_race (uses_map : P → R → bool) (s : state) : Prop :=
  ∃ h1 h2, h1 ≠ h2 ∧ accesses_map uses_map s h1 ∧ accesses_map uses_map s h2.

(** No two handlers are being run. *)
Definition sequential (s : state (P:=P) (R:=R)) : Prop :=
  ∀ h1 h2 i1 i2 l1 l2, handlers s !! h1 = Some (Handler i1 l1) → handlers s !! h2 = Some (Handler i2 l2) →
    runs_on l1 ≠ None → runs_on l2 ≠ None → h1 = h2.

Lemma sequential_no_race uses s : sequential s → ¬ data_race uses s.
Proof.
  intros Hs (h1 & h2 & Hne & (i1 & t1 & r1 & pr1 & p1 & H1 & _) & (i2 & t2 & r2 & pr2 & p2 & H2 & _)).
  by apply Hne, (Hs h1 h2 i1 i2 _ _ H1 H2).
Qed.

Context `{!Program P R}.

(** One thread, or one strand for all. *)
Lemma one_thread_sequential ps s : reachable (step 1) (initial 1 ps) s → sequential s.
Proof.
  intros Hr h1 h2 i1 i2 l1 l2 H1 H2 Hr1 Hr2. pose proof (inv_reachable 1 ps s ltac:(lia) Hr) as Hinv.
  destruct (runs_on l1) as [t1|] eqn:Ht1; [|done]. destruct (runs_on l2) as [t2|] eqn:Ht2; [|done].
  by apply (single_thread 1 s h1 h2 i1 i2 l1 l2 t1 t2 Hinv eq_refl).
Qed.

Lemma one_strand_sequential n ps s k :
  0 < n → (∀ p, strand_of p = Some k) → reachable (step n) (initial n ps) s → sequential s.
Proof.
  intros Hn Hstrand Hr h1 h2 i1 i2 l1 l2 H1 H2 Hr1 Hr2. pose proof (inv_reachable n ps s Hn Hr) as Hinv.
  assert (∀ h i l, handlers s !! h = Some (Handler i l) → strand_at s i = Some k) as Hat.
  { intros h i l Hh. destruct (owner_process n s h i l Hinv Hh) as [pr Hp]. unfold strand_at. rewrite Hp. apply Hstrand. }
  apply (serial_reachable n ps s Hn Hr k); eexists; (split; [eassumption|]); (split; [done|by eapply Hat]).
Qed.
End Programs.

Lemma threads_of_pos a n : threads_of a = Some n → 0 < n.
Proof. destruct a; intros [=]; lia. Qed.

(** ** With an additional thread *)

Definition one_thread_more : option Run.options := Some {| Run.help := false; Run.debug := false; Run.threads := 1 |}.

(** A handler, run by the first thread. *)
Definition turn {R} (h : nat) (r : R) : list (label (R:=R)) := [Completes h r; Takes 0 h; Resumes 0; Finishes 0].

Section Races.
Context `{!Program P R}.

(** The state after [ls], with two threads. *)
Definition after (p : P) (ls : list label) : state := default (initial 2 [p]) (execute_labels (next 2) (initial 2 [p]) ls).

Lemma after_reachable p ls :
  is_Some (execute_labels (next 2) (initial 2 [p]) ls) → reachable (step 2) (initial 2 [p]) (after p ls).
Proof.
  intros [s Hs]. exists ls. unfold after. rewrite Hs.
  by apply (execute_labels_sound (step 2) (next 2) (context_next_sound 2)).
Qed.
End Races.

(** echo_coro_signal_cancellation.cpp: a session is accepted, finds the end of the file, and has ended; its task, and the
    accept of the next connection, are handled at the same time. *)
Definition cancellation_race : state :=
  after (Program0 := SignalCancellation.program) (Begin WithSignalHandling)
    ([StartsThread; Runs] ++ turn 0 Begun ++ turn 2 Begun ++ turn 4 (Accepted Success false) ++ turn 6 Begun
     ++ turn 8 Begun ++ turn 10 Begun ++ turn 11 (Transferred Eof) ++ turn 9 (Ended false)
     ++ [Completes 7 (Ended false); Completes 5 (Accepted Success false); Takes 0 7; Takes 1 5]).

(** echo_coro_signal_advanced.cpp: a session is accepted, finds the end of the file, and says goodbye; its end, and the
    accept of the next connection, are handled at the same time. *)
Definition advanced_race : state :=
  let accepted := SignalAdvanced.Accepted Success SignalAdvanced.NotCancelled false in
  after (Program0 := SignalAdvanced.program) (SignalAdvanced.Begin SignalAdvanced.WithSignalHandling)
    ([StartsThread; Runs] ++ turn 0 SignalAdvanced.Begun ++ turn 2 SignalAdvanced.Begun ++ turn 3 SignalAdvanced.Begun
     ++ turn 6 SignalAdvanced.Begun ++ turn 7 accepted ++ turn 9 SignalAdvanced.Begun ++ turn 11 SignalAdvanced.Begun
     ++ turn 12 (SignalAdvanced.Transferred Eof) ++ turn 10 (SignalAdvanced.EchoEnded false)
     ++ turn 13 (SignalAdvanced.Transferred Success)
     ++ [Completes 14 SignalAdvanced.Slept; Completes 8 accepted; Takes 0 14; Takes 1 8]).

(** Without [--threads], [run] uses one. *)
Lemma no_more_threads parsed n :
  threads_of (Run.run_options parsed) = Some n → (∀ o, parsed = Some o → Run.threads o = 0%Z) → n = 1.
Proof.
  unfold Run.run_options. destruct parsed as [[help debug k]|]; [|done]. intros Hn Hzero.
  specialize (Hzero _ eq_refl). simpl in *. subst k. destruct help, debug; naive_solver.
Qed.

(** C26. Whatever the command line, the handlers of echo_class.cpp run one after the other, so that its map of sessions
    needs no lock: every coroutine runs on the same strand.  Those of echo_coro_signal_cancellation.cpp and of
    echo_coro_signal_advanced.cpp do as long as no additional threads are asked for; with [--threads 1], the end of a session
    and the server's accept access the map at the same time. *)
Theorem map_needs_strand :
  (∀ parsed n s0 s, EchoClass.main parsed = Some (n, s0) →
     reachable (step (Program0 := EchoClass.program) n) s0 s → sequential s ∧ ¬ data_race EchoClass.uses_map s)
  ∧ (∀ parsed n s0 s, SignalCancellation.main parsed = Some (n, s0) →
     (∀ o, parsed = Some o → Run.threads o = 0%Z) →
     reachable (step (Program0 := SignalCancellation.program) n) s0 s →
     sequential s ∧ ¬ data_race SignalCancellation.uses_map s)
  ∧ (∀ parsed n s0 s, SignalAdvanced.main parsed = Some (n, s0) →
     (∀ o, parsed = Some o → Run.threads o = 0%Z) →
     reachable (step (Program0 := SignalAdvanced.program) n) s0 s →
     sequential s ∧ ¬ data_race SignalAdvanced.uses_map s)
  ∧ (∃ n s0 s, SignalCancellation.main one_thread_more = Some (n, s0)
     ∧ reachable (step (Program0 := SignalCancellation.program) n) s0 s
     ∧ data_race SignalCancellation.uses_map s)
  ∧ (∃ n s0 s, SignalAdvanced.main one_thread_more = Some (n, s0)
     ∧ reachable (step (Program0 := SignalAdvanced.program) n) s0 s
     ∧ data_race SignalAdvanced.uses_map s).
Proof.
  split_and!.
  - intros parsed n s0 s Hmain Hr. unfold EchoClass.main in Hmain.
    destruct (threads_of _) as [m|] eqn:Hn; [|done]. injection Hmain as -> <-.
    pose proof (one_strand_sequential (Program0 := EchoClass.program) n _ s 0
      (threads_of_pos _ _ Hn) (λ _, eq_refl) Hr) as Hs.
    split; [done|by apply sequential_no_race].
  - intros parsed n s0 s Hmain Hzero Hr. unfold SignalCancellation.main in Hmain.
    destruct (threads_of _) as [m|] eqn:Hn; [|done]. injection Hmain as -> <-.
    rewrite (no_more_threads parsed n Hn Hzero) in Hr.
    pose proof (one_thread_sequential _ s Hr) as Hs. split; [done|by apply sequential_no_race].
  - intros parsed n s0 s Hmain Hzero Hr. unfold SignalAdvanced.main in Hmain.
    destruct (threads_of _) as [m|] eqn:Hn; [|done]. injection Hmain as -> <-.
    rewrite (no_more_threads parsed n Hn Hzero) in Hr.
    pose proof (one_thread_sequential _ s Hr) as Hs. split; [done|by apply sequential_no_race].
  - exists 2. eexists _, cancellation_race.
    split_and!; [reflexivity|apply after_reachable; eexists; vm_compute; reflexivity|]. exists 7, 5. split_and!; [done|..].
    + exists 3, 0, (Ended false). eexists _, _. by vm_compute.
    + exists 1, 1, (Accepted Success false). eexists _, _. by vm_compute.
  - exists 2. eexists _, advanced_race.
    split_and!; [reflexivity|apply after_reachable; eexists; vm_compute; reflexivity|]. exists 14, 8. split_and!; [done|..].
    + exists 4, 0, SignalAdvanced.Slept. eexists _, _. by vm_compute.
    + exists 3, 1, (SignalAdvanced.Accepted Success SignalAdvanced.NotCancelled false). eexists _, _. by vm_compute.
Qed.

Lemma map_needs_strand_witness :
  sequential (initial (Program0 := EchoClass.program) 2 [Begin Server; Begin WaitForSignal]).
Proof.
  apply (proj1 (proj1 map_needs_strand one_thread_more 2 _ _ eq_refl (ex_intro _ [] (steps_nil _ _)))).
Defined.
