(* ===== verification/Process.v ===== *)
(** * process/*.cpp

    The programs that run a child process and log its output. *)
From S2P Require Import Prelude Asio Wp Copy Script Core Log.

(** Boost.Process: starting a child (an error is thrown), waiting for its exit code,
    interrupting it. *)
Class Processes (W : Type) := {
  on_process : string → list string → W → error_code * W;
  on_exit : W → error_code * Z * W;
  on_interrupt : W → W
}.

(** Waiting for one of several signals. *)
Inductive signum := SIGINT | SIGTERM | SIGTSTP | Other_signal (n : Z).
Class SignalSets (W : Type) := { on_any_signal : W → error_code * signum * W }.

Section Operations.
Context {W : Type} `{!Cancellation W, !Processes W, !SignalSets W}.

Definition start_process (path : string) (args : list string) : awaitable W unit := λ s,
  let (ec, w) := on_process path args (env s) in
  (if failed ec then Throw (system_error ec) else Val tt,
   St w (trace s ++ [EvProcess path args ec])).
Definition op_exit : awaitable W (error_code * Z) := λ s,
  let '(ec, code, w) := on_exit (env s) in
  (Val (ec, code), St w (trace s ++ [EvProcessExit ec code])).
Definition async_any_signal : awaitable W (error_code * signum) := co_await (λ s,
  let '(ec, sig, w) := on_any_signal (env s) in (Val (ec, sig), St w (trace s))).
Definition emit_signal (ct : cancellation_type) : awaitable W unit := emit (EvEmit ct).
Definition interrupt : awaitable W unit := modify on_interrupt;; emit EvInterrupt.
End Operations.

(** ** process/ping.cpp *)
Module Ping.
Section Program.
Context {W : Type} `{!CancellationTypes, !Cancellation W, !Streams W, !LinePipes W, !Processes W}.

Definition execute (fuel : nat) (path : string) (args : list string) (out : handle) :
    awaitable W Z :=
  start_process path args;;
  co_await (log fuel out);;
  exit_code ← deferred (co_await op_exit);
  mret exit_code.
End Program.
End Ping.

(** ** process/ping_signal.cpp: SIGINT interrupts the child *)
Module PingSignal.
Section Program.
Context {W : Type} `{!CancellationTypes, !Cancellation W, !Streams W, !LinePipes W, !Processes W}.

(** The handler of [sigint.async_wait]: an error (the set was destroyed) is ignored. *)
Definition on_sigint (ec : error_code) : awaitable W unit :=
  if failed ec then mret tt else interrupt.

Definition execute (fuel : nat) (path : string) (args : list string) (out : handle) :
    awaitable W Z :=
  start_process path args;;
  co_await (log fuel out);;
  exit_code ← deferred (co_await op_exit);
  mret exit_code.
End Program.
End PingSignal.

(** ** process/ping_signal_advanced.cpp *)
Module PingSignalAdvanced.

(** [make_args(argc, argv)] *)
Definition make_args (argc : nat) (argv : list string) : list string := drop 1 (take argc argv).

(** The arguments of [main]: a usage error, or the program and its arguments. *)
Definition main_args (argc : nat) (argv : list string) : option (string * list string) :=
  if argc <? 2 then None
  else p ← argv !! 1; Some (p, make_args (argc - 1) (drop 1 argv)).

Section Program.
Context {W : Type} `{!CancellationTypes, !Cancellation W, !Processes W, !SignalSets W, !Streams W,
  !WhenAll W}.

(** The cancellation type of a signal; other signals are not in the set. *)
Definition signal_type (sig : signum) : option cancellation_type :=
  match sig with
  | SIGTSTP => Some total
  | SIGINT => Some partial
  | SIGTERM => Some terminal
  | Other_signal _ => None
  end.

Definition signal_handling (fuel : nat) : awaitable W unit :=
  loop fuel (λ _,
    sig ← deferred async_any_signal;
    match signal_type sig with
    | Some ct => emit_signal ct
    | None => mret tt
    end;;
    mret (inl tt)) tt.

(** [execute]: [async_execute] is the library's; [pipes] is the rest of the wait for both pipes,
    limited to one second. *)
Definition execute (async_execute : awaitable W (error_code * Z)) (pipes : awaitable W unit)
    (path : string) (args : list string) : awaitable W Z :=
  reset_cancellation_state enable_total_cancellation;;
  start_process path args;;
  exit_code ← deferred (co_await async_execute);
  reset_cancellation_state (custom_filter (λ _, terminal));;
  co_await pipes;;
  mret exit_code.

(** The result of [with_signal_handling], from what the parallel group reports for the task. *)
Definition task_result (ex1 : exception_ptr) (r1 : Z) : awaitable W Z :=
  match ex1 with
  | Some e => throw e
  | None => mret r1
  end.

(** [make_parallel_group(...).async_wait(wait_for_one(), deferred)], which is the library's, gives the exception and
    the result of the task. *)
Context (parallel_group : awaitable W unit → awaitable W Z → awaitable W (exception_ptr * Z)).
Definition with_signal_handling (fuel : nat) (task : awaitable W Z) : awaitable W Z :=
  '(ex1, r1) ← co_await (parallel_group (signal_handling fuel) task);
  task_result ex1 r1.

(** The exit code: 1 for a usage error, or the result of the coroutine ([future.get()] rethrows). *)
Definition main (fuel : nat) (async_execute : awaitable W (error_code * Z)) (pipes : awaitable W unit)
    (argc : nat) (argv : list string) : awaitable W Z :=
  match main_args argc argv with
  | None => mret 1%Z
  | Some (path, args) => with_signal_handling fuel (execute async_execute pipes path args)
  end.
End Program.

(** The documented reaction of [async_execute] to a cancellation type. *)
Definition process_signal `{!CancellationTypes} (ct : cancellation_type) : signum :=
  if decide (ct = terminal) then Other_signal 9
  else if decide (ct = partial) then SIGTERM
  else SIGINT.
End PingSignalAdvanced.

(** ** Lemmas *)

(** The escalation of ping_signal_advanced.cpp: each signal reaches the child as the next weaker
    one, so that SIGTERM kills it. *)
Lemma signals_escalate `{!CancellationTypes, !CancellationTypesOk} :
  PingSignalAdvanced.process_signal <$> PingSignalAdvanced.signal_type SIGTSTP = Some SIGINT
  ∧ PingSignalAdvanced.process_signal <$> PingSignalAdvanced.signal_type SIGINT = Some SIGTERM
  ∧ PingSignalAdvanced.process_signal <$> PingSignalAdvanced.signal_type SIGTERM
      = Some (Other_signal 9).
Proof.
  pose proof terminal_range. pose proof partial_range. pose proof total_range.
  assert (terminal ≠ partial ∧ terminal ≠ total ∧ partial ≠ total) as (Htp & Htt & Hpt).
  { pose proof terminal_partial as Htp. pose proof terminal_total as Htt.
    pose proof partial_total as Hpt. repeat split; intros Heq;
      rewrite Heq, Z.land_diag in *; lia. }
  unfold PingSignalAdvanced.process_signal. simpl.
  split_and!; f_equal.
  - by rewrite !decide_False by congruence.
  - by rewrite decide_False, decide_True by congruence.
  - by rewrite decide_True.
Qed.

Lemma main_args_rest (argv : list string) prog path args :
  argv = prog :: path :: args →
  PingSignalAdvanced.main_args (length argv) argv = Some (path, args).
Proof.
  intros ->. unfold PingSignalAdvanced.main_args, PingSignalAdvanced.make_args. simpl.
  by rewrite firstn_all.
Qed.

(** ** Running a child process *)

Section ExecuteProofs.
Context {W : Type} `{!CancellationTypes, !Cancellation W, !Streams W, !LinePipes W, !Processes W}.
Context `{!LinePipesOk W, !CancelledOnce W}.
Implicit Types s : st W.

(** The process was started, and its output printed: [tr] is the run of the log coroutine. *)
Definition logged (path : string) (args : list string) s0 (tr : list event) s : Prop :=
  trace s = trace s0 ++ [EvProcess path args Success] ++ (printed <$> [EvReset log_filter] ++ tr).

Definition execute_post (path : string) (args : list string) (out : handle) s0 : post W Z := λ r s,
  match r with
  | Val code => ∃ tr s1, logged path args s0 tr s1 ∧ log_end out (Val tt) tr ∧
      trace s = trace s1 ++ [EvProcessExit Success code] ∧ Forall single_line (lines tr)
  | Throw e =>
      (∃ ec, trace s = trace s0 ++ [EvProcess path args ec] ∧
         (ec ≠ Success ∧ e = system_error ec ∨ ec = Success ∧ e = system_error Operation_canceled))
      ∨ (∃ tr, logged path args s0 tr s ∧ log_end out (Throw e) tr)
      ∨ ∃ tr s1, logged path args s0 tr s1 ∧ log_end out (Val tt) tr ∧
          (trace s = trace s1 ∧ e = system_error Operation_canceled
           ∨ ∃ ec code, trace s = trace s1 ++ [EvProcessExit ec code] ∧ ec ≠ Success ∧ e = system_error ec)
  | NoFuel => ∃ tr, logged path args s0 tr s ∧ log_end out NoFuel tr
  end.

Lemma execute_correct fuel path args out s :
  wp (Ping.execute fuel path args out) (execute_post path args out s) s.
Proof.
  apply wp_bind. unfold wp at 1, start_process.
  destruct (on_process path args (env s)) as [ec w]. simpl.
  destruct (failed ec) eqn:Hec; simpl.
  { left. exists ec. split; [done|]. left. split; [by apply failed_true|done]. }
  apply failed_false in Hec as ->. apply wp_bind, wp_co_await.
  { left. exists Success. auto. }
  intros _. eapply wp_mono; [|apply log_correct]. intros r s1 (tr & s2 & Hpost & He & H2 & H1).
  destruct Hpost as (tr' & Hs2 & Hsingle & Hend). cbn [trace] in *.
  rewrite Hs2 in H2. apply app_inv_head in H2 as <-.
  assert (logged path args s tr' s1) as Hlog by (unfold logged; by rewrite H1, <-!app_assoc).
  destruct r as [[]|e|]; simpl; [|right; left; by exists tr'|by exists tr'].
  apply wp_bind, wp_deferred, wp_co_await.
  { right. right. exists tr', s1. auto. }
  intros _. unfold wp, op_exit. destruct (on_exit (env s1)) as [[ec code] w']. simpl.
  split; intros Hec.
  - subst ec. apply wp_ret. by exists tr', s1.
  - right. right. exists tr', s1. split; [done|]. split; [done|]. right. by exists ec, code.
Qed.
End ExecuteProofs.

(** ** Properties *)

(** ping runs its child, prints all of its output, and only then waits for its exit code: a normal return follows
    the start of the process, a complete run of the log coroutine (whose lines, printed without their LF, are
    all that arrived, and which closes the pipe), and the successful wait, whose exit code is returned. If the process
    cannot be started, or logging or waiting fails, that error is thrown. ping_signal.cpp does the same. *)
Theorem execute_logs_then_waits {W} `{!CancellationTypes, !Cancellation W, !Streams W, !LinePipes W,
    !Processes W, !LinePipesOk W, !CancelledOnce W} fuel path args out (s : st W) r s' :
  Ping.execute fuel path args out s = (r, s') →
  execute_post path args out s r s' ∧ PingSignal.execute fuel path args out s = (r, s').
Proof. intros Hrun. split; [|done]. by eapply wp_intro; [apply execute_correct|]. Qed.

(** ** Witnesses *)

#[local] Instance pipe_processes : Processes pipe_world := {|
  on_process _ _ w := (Success, w);
  on_exit w := (Success, 0%Z, w);
  on_interrupt w := w
|}.
Lemma execute_logs_then_waits_witness :
  ∃ s', execute_post "ping" ["::1"] 7 (St two_lines []) (Val 0%Z) s'
        ∧ lines (trace s') = [bytes_of "one"; bytes_of "two"; bytes_of "rest"].
Proof.
  eexists. split.
  - refine (proj1 (execute_logs_then_waits (W := pipe_world) 5 "ping" ["::1"] 7 (St two_lines [])
      (Val 0%Z) _ _)). vm_compute. reflexivity.
  - vm_compute. reflexivity.
Defined.
