(* ===== verification/PingAdvanced.v ===== *)
(** * process/ping_signal_advanced.cpp: the lifetime of the pipes

    [execute] owns the two pipes of the child; two log coroutines (lib/log.cpp) read from them through references,
    in a parallel group whose promise [execute] holds.  The step relation has the three of them, the
    timer, and the signals: what [execute] may return, that it returns, and that no coroutine accesses a pipe that
    is gone. *)
From S2P Require Import Prelude Asio Script Log EchoAdvanced.

(** A type of cancellation that passes the filter of a coroutine is seen by it.  [deliver] is the
    interface of EchoAdvanced.v. *)
Class FiltersOk `{!CancellationTypes, !CancellationState} : Prop := {
  terminal_filter_passes c ct :
    Z.land ct terminal ≠ none → deliver enable_terminal_cancellation c ct ≠ none;
  custom_filter_passes g c ct : g ct ≠ none → deliver (custom_filter g) c ct ≠ none
}.

Section Model.
Context `{!CancellationTypes, !CancellationState}.

(** A log coroutine: spawned, but not started; suspended in [async_read_until]; its read has completed with [data],
    which the coroutine will find in its buffer when it is resumed; ended. *)
Inductive log_phase := Spawned | Reading | Read (ec : error_code) (data : list byte) | Ended.
#[export] Instance log_phase_eq_dec : EqDecision log_phase.
Proof. solve_decision. Defined.

(** Its cancellation state, its buffer, the lines it has handed to its callback; and (not in the program) all
    bytes that were read from its pipe. *)
Record log_state := Logging {
  phase : log_phase;
  log_cancelled : cancellation_type;
  buffer : list byte;
  handed : list (list byte);
  received : list byte
}.
Definition spawned_log : log_state := Logging Spawned none [] [] [].

Inductive program_counter :=
| Executing                   (* in [async_execute] *)
| WaitingPipes (code : Z)     (* in [promise || timer] *)
| Returned (code : Z)
| Thrown (ec : error_code).

(** The wait on the timer: pending; completed, or cancelled, but the operator [||] was not told; done. *)
Inductive timer_state := Running | Expired | Aborted | Over.

(** [logs]: STDOUT and STDERR.  [dangling]: a pipe was accessed after the frame of [execute], which owns it, was
    gone. *)
Record state := State {
  pc : program_counter;
  logs : list log_state;
  timer : timer_state;
  dangling : bool
}.

Definition frame_gone (s : state) : bool :=
  match pc s with Executing | WaitingPipes _ => false | Returned _ | Thrown _ => true end.

(** The filter of a log coroutine: the default before [log] has installed its own. *)
Definition filter_of (p : log_phase) : cancellation_filter :=
  match p with Spawned => enable_terminal_cancellation | _ => log_filter end.

(** The cancellation of a log coroutine: if the type passes its filter, and the coroutine has installed its cancellation
    handler, that hands out the lines of the buffer. *)
Definition cancel_log (ct : cancellation_type) (l : log_state) : log_state :=
  match phase l with
  | Ended => l
  | p =>
      let c := deliver (filter_of p) (log_cancelled l) ct in
      Logging p c (buffer l)
        (if decide (p = Spawned ∨ c = none) then handed l else handed l ++ views_split (buffer l))
        (received l)
  end.

(** Cancelling the parallel group cancels both coroutines. *)
Definition cancel_group (ct : cancellation_type) (s : state) : state :=
  State (pc s) (cancel_log ct <$> logs s) (timer s) (dangling s).

(** The end of a log coroutine; its buffer goes away. *)
Definition end_log (lines : list (list byte)) (l : log_state) : log_state :=
  Logging Ended (log_cancelled l) [] (handed l ++ lines) (received l).

(** The start of a log coroutine: a cancelled one throws when it is first awaited; otherwise it initiates a read. *)
Definition start_log (l : log_state) : log_state * bool :=
  if decide (log_cancelled l ≠ none) then (end_log [] l, false)
  else (Logging Reading none [] (handed l) (received l), true).

(** [async_read_until] appends what arrives to the buffer, and goes on reading. *)
Definition arrive_log (data : list byte) (l : log_state) : log_state :=
  Logging (phase l) (log_cancelled l) (buffer l ++ data) (handed l) (received l ++ data).

(** The read of a log coroutine completes. *)
Definition read_log (ec : error_code) (data : list byte) (l : log_state) : log_state :=
  Logging (Read ec data) (log_cancelled l) (buffer l) (handed l) (received l ++ data).

(** A log coroutine is resumed from the read: when it was cancelled it throws; a line is handed out and the next
    read initiated; an error ends the loop, what is left of the buffer is handed out, and at the end of the file
    the pipe is closed.  The second component: does it access the pipe? *)
Definition resume_log (ec : error_code) (data : list byte) (l : log_state) : log_state * bool :=
  if decide (log_cancelled l ≠ none) then (end_log [] l, false)
  else
    let b := buffer l ++ data in
    if failed ec then (end_log (views_split b) l, bool_decide (ec = Eof))
    else
      let n := line_length b in
      (Logging Reading (log_cancelled l) (drop (Z.to_nat n) b) (handed l ++ [ztake n b]) (received l), true).

Definition set_log (i : nat) (r : log_state * bool) (s : state) : state :=
  State (pc s) (<[i := r.1]> (logs s)) (timer s) (dangling s || r.2 && frame_gone s).

Definition set_timer (t : timer_state) (s : state) : state := State (pc s) (logs s) t (dangling s).

(** [execute] is resumed from [async_execute]: an error is thrown, which destroys the frame, and with it
    the promise, whose destructor cancels the group with all types; otherwise it waits for the
    pipes, for at most a second. *)
Definition on_exited (ec : error_code) (code : Z) (s : state) : state :=
  if failed ec then cancel_group all (State (Thrown ec) (logs s) (timer s) (dangling s))
  else State (WaitingPipes code) (logs s) Running (dangling s).

(** The wait on the timer has succeeded: the operator [||] cancels the other operation. *)
Definition on_timer (s : state) : state := cancel_group terminal (set_timer Over s).

(** The cancellation of the timer: an expired one is not affected. *)
Definition cancel_timer (s : state) : state :=
  set_timer (match timer s with Running => Aborted | t => t end) s.

(** The operator [||] has completed: both operations have. *)
Definition on_waited (code : Z) (s : state) : state :=
  State (Returned code) (logs s) (timer s) (dangling s).

(** [signal.emit(ct)] reaches the pending operation of [execute]: the child process (whose end is a step of its
    own), or both operands of the wait for the pipes, as [terminal] whatever the type. *)
Definition on_signal (ct : cancellation_type) (s : state) : state :=
  match pc s with
  | WaitingPipes _ => cancel_group terminal (cancel_timer s)
  | _ => s
  end.

Definition initial : state := State Executing [spawned_log; spawned_log] Running false.

Inductive label :=
| LogStarts (i : nat)
| LogArrives (i : nat) (data : list byte)                     (* not a line yet *)
| LogReads (i : nat) (ec : error_code) (data : list byte)     (* the read completes *)
| LogResumes (i : nat)
| Exited (ec : error_code) (code : Z)
| TimerExpires
| TimerFires          (* its handler runs, without an error *)
| TimerAborts         (* its handler runs, with an error *)
| PromiseCompletes    (* both log coroutines have ended: [||] cancels the timer *)
| Waited
| Signalled (ct : cancellation_type).

Definition all_ended (s : state) : Prop := Forall (λ l, phase l = Ended) (logs s).
#[export] Instance all_ended_dec s : Decision (all_ended s).
Proof. unfold all_ended. apply _. Defined.

(** [async_read_until] succeeds when its buffer holds a delimiter, and only then; it goes on as long as that holds
    none and it is not cancelled. *)
Inductive step : state → label → state → Prop :=
| log_starts s i l : logs s !! i = Some l → phase l = Spawned →
    step s (LogStarts i) (set_log i (start_log l) s)
| log_arrives s i l data : logs s !! i = Some l → phase l = Reading → log_cancelled l = none →
    LF ∉ buffer l ++ data → step s (LogArrives i data) (set_log i (arrive_log data l, false) s)
| log_reads s i l ec data : logs s !! i = Some l → phase l = Reading →
    (ec = Success ↔ LF ∈ buffer l ++ data) →
    step s (LogReads i ec data) (set_log i (read_log ec data l, false) s)
| log_resumes s i l ec data : logs s !! i = Some l → phase l = Read ec data →
    step s (LogResumes i) (set_log i (resume_log ec data l) s)
| exited s ec code : pc s = Executing → step s (Exited ec code) (on_exited ec code s)
| timer_expires s code : pc s = WaitingPipes code → timer s = Running →
    step s TimerExpires (set_timer Expired s)
| timer_fires s code : pc s = WaitingPipes code → timer s = Expired → step s TimerFires (on_timer s)
| timer_aborts s code : pc s = WaitingPipes code → timer s = Aborted →
    step s TimerAborts (set_timer Over s)
| promise_completes s code : pc s = WaitingPipes code → timer s = Running → all_ended s →
    step s PromiseCompletes (cancel_timer s)
| waited s code : pc s = WaitingPipes code → timer s = Over → all_ended s →
    step s Waited (on_waited code s)
| signalled s ct : frame_gone s = false → step s (Signalled ct) (on_signal ct s).

(** The step relation, as a function. *)
Definition next (s : state) (x : label) : option state :=
  match x with
  | LogStarts i => l ← logs s !! i; guard (phase l = Spawned);; Some (set_log i (start_log l) s)
  | LogArrives i data =>
      l ← logs s !! i; guard (phase l = Reading);; guard (log_cancelled l = none);;
      guard (LF ∉ buffer l ++ data);; Some (set_log i (arrive_log data l, false) s)
  | LogReads i ec data =>
      l ← logs s !! i; guard (phase l = Reading);; guard (ec = Success ↔ LF ∈ buffer l ++ data);;
      Some (set_log i (read_log ec data l, false) s)
  | LogResumes i =>
      l ← logs s !! i;
      match phase l with Read ec data => Some (set_log i (resume_log ec data l) s) | _ => None end
  | Exited ec code => match pc s with Executing => Some (on_exited ec code s) | _ => None end
  | Signalled ct => if frame_gone s then None else Some (on_signal ct s)
  | _ =>
      match pc s, x, timer s with
      | WaitingPipes _, TimerExpires, Running => Some (set_timer Expired s)
      | WaitingPipes _, TimerFires, Expired => Some (on_timer s)
      | WaitingPipes _, TimerAborts, Aborted => Some (set_timer Over s)
      | WaitingPipes _, PromiseCompletes, Running => guard (all_ended s);; Some (cancel_timer s)
      | WaitingPipes code, Waited, Over => guard (all_ended s);; Some (on_waited code s)
      | _, _, _ => None
      end
  end.

Lemma next_step s x s' : next s x = Some s' ↔ step s x s'.
Proof.
  split.
  - destruct x; simpl; intros Hnext; repeat (case_match || case_guard || simplify_option_eq); try done;
      econstructor; eauto.
  - destruct 1 as [s i l Hi Hp|s i l data Hi Hp Hc Hlf|s i l ec data Hi Hp Hec|s i l ec data Hi Hp|s ec code Hpc|s code Hpc Ht
                  |s code Hpc Ht|s code Hpc Ht|s code Hpc Ht Hall|s code Hpc Ht Hall|s ct Hg]; simpl;
      rewrite ?Hi, ?Hpc; simpl; rewrite ?Hp, ?Hc, ?Ht, ?Hg; simpl; by repeat case_guard.
Qed.

(** ** The invariant *)

(** A log coroutine that will not access its pipe any more. *)
Definition quiet (l : log_state) : Prop := phase l = Ended ∨ log_cancelled l ≠ none.

(** As long as a log coroutine was not cancelled, what was read is what was handed out, followed by what is
    on the way. *)
Definition accounted (l : log_state) : Prop :=
  log_cancelled l = none →
  match phase l with
  | Spawned => buffer l = [] ∧ concat (handed l) = received l
  | Reading => concat (handed l) ++ buffer l = received l
  | Read ec data => concat (handed l) ++ buffer l ++ data = received l
                    ∧ (ec ≠ Success → LF ∉ (buffer l ++ data))
  | Ended => concat (handed l) = received l
  end.

(** The timer can no longer be waited for: the group was cancelled, or has completed. *)
Definition settled (t : timer_state) : Prop := t = Aborted ∨ t = Over.

Record inv (s : state) : Prop := {
  inv_logs : length (logs s) = 2;
  inv_dangling : dangling s = false;
  inv_executing : pc s = Executing → Forall (λ l, log_cancelled l = none) (logs s);
  inv_timer code : pc s = WaitingPipes code → settled (timer s) → Forall quiet (logs s);
  inv_gone : frame_gone s = true → Forall quiet (logs s);
  inv_returned code : pc s = Returned code → all_ended s;
  inv_data : Forall accounted (logs s)
}.

Context `{!CancellationTypesOk, !FiltersOk}.
Implicit Types (s : state) (l : log_state).

Lemma terminal_passes : Z.land terminal (Z.lor terminal partial) ≠ none ∧ Z.land terminal terminal ≠ none
  ∧ Z.land all (Z.lor terminal partial) ≠ none ∧ Z.land all terminal ≠ none.
Proof.
  pose proof terminal_range. pose proof partial_range. rewrite none_empty, all_full.
  rewrite (Z.land_comm (2 ^ 32 - 1) (Z.lor _ _)), (Z.land_comm (2 ^ 32 - 1) terminal).
  change (2 ^ 32 - 1)%Z with (Z.ones 32).
  assert (Z.lor terminal partial ≠ 0)%Z by (rewrite Z.lor_eq_0_iff; lia).
  rewrite Z.land_lor_distr_r, Z.land_diag, terminal_partial, Z.lor_0_r.
  rewrite !Z.land_ones by lia. rewrite (Z.mod_small terminal) by lia.
  split_and!; try lia. rewrite <-Z.land_ones by lia. rewrite Z.land_lor_distr_l, !Z.land_ones by lia.
  by rewrite !Z.mod_small by lia.
Qed.

(** Both types with which the group is cancelled are seen by a log coroutine in any phase. *)
Lemma delivered ct p c : ct ∈ [terminal; all] → deliver (filter_of p) c ct ≠ none.
Proof.
  destruct terminal_passes as (? & ? & ? & ?). intros Hct.
  repeat (apply elem_of_cons in Hct as [->|Hct]; [destruct p; simpl;
    (by apply terminal_filter_passes) || by apply custom_filter_passes|]). by apply elem_of_nil in Hct.
Qed.

Lemma cancel_log_quiet ct l : ct ∈ [terminal; all] →
  quiet (cancel_log ct l) ∧ (accounted l → accounted (cancel_log ct l)).
Proof.
  intros Hct. unfold quiet, accounted, cancel_log. destruct l as [p c b h r]; simpl.
  pose proof (delivered ct p c Hct). destruct p; simpl; auto; split; auto; done.
Qed.

Lemma cancel_logs_quiet ct ls : ct ∈ [terminal; all] →
  Forall quiet (cancel_log ct <$> ls) ∧ (Forall accounted ls → Forall accounted (cancel_log ct <$> ls)).
Proof.
  intros Hct. split.
  - apply Forall_fmap, Forall_true. intros l. by apply cancel_log_quiet.
  - intros Hls. apply Forall_fmap. eapply Forall_impl; [exact Hls|]. intros l. by apply cancel_log_quiet.
Qed.

(** A log coroutine that is started or resumed: a quiet one ends without accessing the pipe. *)
Lemma start_log_ok l : phase l = Spawned →
  (quiet l → quiet (start_log l).1 ∧ (start_log l).2 = false)
  ∧ (log_cancelled l = none → log_cancelled (start_log l).1 = none)
  ∧ (accounted l → accounted (start_log l).1).
Proof.
  intros Hp. unfold quiet, accounted, start_log. destruct (decide (log_cancelled l ≠ none)) as [Hc|Hc]; simpl.
  - split_and!; auto; done.
  - apply dec_stable in Hc. rewrite Hp. split_and!; [naive_solver|done|].
    intros Ha _. by rewrite app_nil_r, (proj2 (Ha Hc)).
Qed.

Lemma resume_log_ok ec data l : phase l = Read ec data →
  (quiet l → quiet (resume_log ec data l).1 ∧ (resume_log ec data l).2 = false)
  ∧ (log_cancelled l = none → log_cancelled (resume_log ec data l).1 = none)
  ∧ (accounted l → accounted (resume_log ec data l).1).
Proof.
  intros Hp. unfold quiet, accounted, resume_log. rewrite Hp.
  destruct (decide (log_cancelled l ≠ none)) as [Hc|Hc]; simpl.
  { split_and!; auto; done. }
  apply dec_stable in Hc. destruct (failed ec) eqn:Hec; simpl; (split_and!; [naive_solver|done|]).
  - apply failed_true in Hec. intros Ha _. destruct (Ha Hc) as [<- Hlf].
    rewrite concat_app, views_split_partial by auto. done.
  - intros Ha _. destruct (Ha Hc) as [<- _]. rewrite concat_app. simpl. rewrite app_nil_r, <-app_assoc.
    f_equal. apply take_drop.
Qed.

(** The steps of a log coroutine. *)
Lemma set_log_inv s i l r :
  logs s !! i = Some l → phase l ≠ Ended →
  (quiet l → quiet r.1 ∧ r.2 = false) → (log_cancelled l = none → log_cancelled r.1 = none) →
  (accounted l → accounted r.1) → inv s → inv (set_log i r s).
Proof.
  intros Hi Hp Hq Hc Ha [Hlen Hd He Ht Hg Hr Hdata].
  assert (∀ P : log_state → Prop, Forall P (logs s) → P l) as Hl by (intros P Hf; by eapply Forall_lookup_1).
  assert (frame_gone (set_log i r s) = frame_gone s) as Hgone by done.
  split; rewrite ?Hgone; unfold set_log, all_ended; cbn [pc logs timer dangling].
  - by rewrite length_insert.
  - rewrite Hd. simpl. destruct (frame_gone s); [|by rewrite andb_false_r].
    rewrite andb_true_r. apply Hq, Hl; auto.
  - intros Hpc. specialize (He Hpc). apply Forall_insert; [done|]. apply Hc, (Hl _ He).
  - intros code Hpc Htimer. specialize (Ht code Hpc Htimer). apply Forall_insert; [done|]. by apply Hq, Hl.
  - intros Hf. specialize (Hg Hf). apply Forall_insert; [done|]. by apply Hq, Hl.
  - intros code Hpc. exfalso. by apply Hp, (Hl _ (Hr code Hpc)).
  - apply Forall_insert; [done|]. by apply Ha, Hl.
Qed.

Lemma arrive_log_ok data l : phase l = Reading → accounted l → accounted (arrive_log data l).
Proof. unfold accounted. simpl. intros -> Ha Hc. by rewrite app_assoc, (Ha Hc). Qed.

Lemma read_log_ok ec data l : phase l = Reading → (ec = Success ↔ LF ∈ buffer l ++ data) →
  (quiet l → quiet (read_log ec data l)) ∧ (accounted l → accounted (read_log ec data l)).
Proof.
  intros Hp Hec. unfold quiet, accounted. rewrite Hp. simpl. split; [naive_solver|].
  intros Ha Hc. rewrite <-(Ha Hc), <-app_assoc. split; [done|]. by rewrite Hec.
Qed.

Lemma ping_inv_initial : inv initial.
Proof. split; simpl; try done; intros; repeat constructor; done. Qed.

(** The cancellation of the group, with anything but the log coroutines being as it should. *)
Lemma cancel_group_inv ct s :
  ct ∈ [terminal; all] → pc s ≠ Executing → (∀ code, pc s = Returned code → all_ended s) →
  length (logs s) = 2 → dangling s = false → Forall accounted (logs s) → inv (cancel_group ct s).
Proof.
  intros Hct Hpc Hret Hlen Hd Ha. destruct (cancel_logs_quiet ct (logs s) Hct) as [Hq Ha'].
  split; unfold cancel_group, all_ended; cbn [pc logs timer dangling]; rewrite ?length_fmap; auto.
  - done.
  - intros code Hc. apply Forall_fmap. eapply Forall_impl; [exact (Hret code Hc)|].
    intros l Hl. unfold compose, cancel_log. by rewrite Hl.
Qed.

Lemma set_timer_inv t s :
  (settled t → settled (timer s) ∨ Forall quiet (logs s)) → inv s → inv (set_timer t s).
Proof.
  intros Ht Hinv. destruct Hinv as [? ? ? Hs ? ? ?]. split; try done. simpl. intros code Hpc Hset.
  destruct (Ht Hset); eauto.
Qed.

Lemma all_ended_quiet s : all_ended s → Forall quiet (logs s).
Proof. intros Hall. eapply Forall_impl; [exact Hall|]. by left. Qed.

Lemma ping_inv_inductive : inductive_invariant step inv.
Proof.
  intros s x s' Hinv Hstep.
  destruct Hstep as [s i l Hi Hp|s i l data Hi Hp Hc Hlf|s i l ec data Hi Hp Hec|s i l ec data Hi Hp|s ec code Hpc|s code Hpc Ht
                    |s code Hpc Ht|s code Hpc Ht|s code Hpc Ht Hall|s code Hpc Ht Hall|s ct Hg].
  - destruct (start_log_ok l Hp) as (? & ? & ?). apply (set_log_inv _ _ l); auto; congruence.
  - apply (set_log_inv _ _ l); [done|congruence|intros [|]; congruence|done|by apply arrive_log_ok|done].
  - destruct (read_log_ok ec data l Hp Hec). apply (set_log_inv _ _ l); simpl; auto; congruence.
  - destruct (resume_log_ok ec data l Hp) as (? & ? & ?). apply (set_log_inv _ _ l); auto; congruence.
  - destruct Hinv as [Hlen Hd He _ _ _ Ha]. unfold on_exited. destruct (failed ec).
    + apply cancel_group_inv; simpl; try done. set_solver.
    + split; try done. simpl. intros ? _ [|]; done.
  - apply set_timer_inv; [|done]. intros [|]; done.
  - destruct Hinv. apply cancel_group_inv; simpl; try done; [set_solver|congruence..].
  - apply set_timer_inv; [|done]. left. by left.
  - apply set_timer_inv; [|done]. right. by apply all_ended_quiet.
  - destruct Hinv. split; try done. simpl. intros _. by apply all_ended_quiet.
  - unfold on_signal. destruct (pc s) eqn:Hpc; try done. destruct Hinv.
    apply cancel_group_inv; simpl; try done; [set_solver|congruence..].
Qed.

Lemma ping_inv_reachable s : reachable step initial s → inv s.
Proof. apply invariant_reachable; [apply ping_inv_inductive|apply ping_inv_initial]. Qed.

(** ** Termination *)

Definition is_signal (x : label) : bool := match x with Signalled _ => true | _ => false end.

(** The steps a log coroutine still takes once it is cancelled; those of the others. *)
Definition work l : nat := match phase l with Spawned => 1 | Reading => 2 | Read _ _ => 1 | Ended => 0 end.
Definition total_work (ls : list log_state) : nat := sum_list_with work ls.
Definition own_work s : nat :=
  match pc s with
  | WaitingPipes _ => match timer s with Over => 1 | _ => 2 end
  | _ => 0
  end.
Definition remaining s : nat := total_work (logs s) + own_work s.

Lemma work_cancel ct ls : total_work (cancel_log ct <$> ls) = total_work ls.
Proof. induction ls as [|[p c b h r] ls IH]; [done|]. unfold total_work in *. rewrite fmap_cons.
  cbn [sum_list_with]. rewrite IH. by destruct p. Qed.

Lemma remaining_bound s : inv s → remaining s <= 6.
Proof.
  intros Hinv. pose proof (inv_logs s Hinv) as Hlen. unfold remaining.
  assert (∀ l, work l <= 2) as Hw by (intros l; unfold work; destruct (phase l); lia).
  assert (own_work s <= 2) by (unfold own_work; destruct (pc s), (timer s); lia).
  destruct (logs s) as [|l1 [|l2 [|]]]; try done. unfold total_work. simpl.
  pose proof (Hw l1). pose proof (Hw l2). lia.
Qed.

(** The state of the shutdown: the timer cannot be waited for any more, or [execute] has returned. *)
Definition winding_down (code : Z) s : Prop :=
  pc s = WaitingPipes code ∧ settled (timer s) ∨ pc s = Returned code.

Lemma winding_down_quiet code s i l :
  inv s → winding_down code s → logs s !! i = Some l → phase l ≠ Ended → log_cancelled l ≠ none.
Proof.
  intros Hinv Hw Hi Hp. destruct Hw as [[Hpc Ht]|Hpc].
  - pose proof (Forall_lookup_1 _ _ _ _ (inv_timer _ Hinv _ Hpc Ht) Hi) as [|]; done.
  - pose proof (Forall_lookup_1 _ _ _ _ (inv_returned _ Hinv _ Hpc) Hi). done.
Qed.

Lemma set_log_remaining s i l r :
  logs s !! i = Some l → work r.1 < work l → remaining (set_log i r s) + 1 <= remaining s.
Proof.
  intros Hi Hw. pose proof (sum_list_insert work _ _ _ r.1 Hi). unfold remaining, total_work, own_work. simpl. lia.
Qed.

Lemma winding_down_step code s x s' :
  inv s → winding_down code s → step s x s' →
  winding_down code s' ∧ remaining s' + (if is_signal x then 0 else 1) <= remaining s.
Proof.
  intros Hinv Hw Hstep.
  pose proof (λ i l, winding_down_quiet code s i l Hinv Hw) as Hquiet.
  destruct Hstep as [s i l Hi Hp|s i l data Hi Hp Hc Hlf|s i l ec data Hi Hp Hec|s i l ec data Hi Hp|s ec code' Hpc|s code' Hpc Ht
                    |s code' Hpc Ht|s code' Hpc Ht|s code' Hpc Ht Hall|s code' Hpc Ht Hall|s ct Hg];
    try (destruct Hw as [[Hpc' [|]]|]; congruence).
  - split; [done|]. apply (set_log_remaining _ _ l); [done|]. unfold start_log.
    rewrite decide_True by (apply (Hquiet i l Hi); congruence). unfold work. simpl. rewrite Hp. lia.
  - exfalso. apply (Hquiet i l Hi); congruence.
  - split; [done|]. apply (set_log_remaining _ _ l); [done|]. unfold work. simpl. rewrite Hp. lia.
  - split; [done|]. apply (set_log_remaining _ _ l); [done|]. unfold resume_log.
    rewrite decide_True by (apply (Hquiet i l Hi); congruence). unfold work. simpl. rewrite Hp. lia.
  - destruct Hw as [[Hpc' _]|Hpc']; [|congruence]. split; [left; split; [done|by right]|].
    unfold remaining, own_work. simpl. rewrite Hpc, Ht. lia.
  - destruct Hw as [[Hpc' _]|Hpc']; [|congruence]. split; [right; simpl; congruence|].
    unfold remaining, own_work. simpl. rewrite Hpc, Ht. lia.
  - unfold on_signal, winding_down, remaining, own_work. destruct Hw as [[Hpc Ht]|Hpc]; rewrite Hpc.
    + simpl. rewrite Hpc, work_cancel. destruct Ht as [-> | ->]; simpl; (split; [left|lia]).
      * split; [done|by left].
      * split; [done|by right].
    + simpl. rewrite Hpc. split; [by right|lia].
Qed.

Lemma winding_down_steps code s ls s' :
  inv s → winding_down code s → steps step s ls s' →
  winding_down code s' ∧ remaining s' + length (base.filter (λ x, is_signal x = false) ls) <= remaining s.
Proof.
  intros Hinv Hw Hrun. induction Hrun as [s|s ls s1 x s2 Hrun IH Hstep]; [simpl; split; [done|lia]|].
  destruct (IH Hinv Hw) as [Hw1 Hr1].
  assert (inv s1) as Hinv1 by (eapply invariant_steps; [apply ping_inv_inductive|done..]).
  destruct (winding_down_step code s1 x s2 Hinv1 Hw1 Hstep) as [Hw2 Hr2]. split; [done|].
  rewrite filter_app, length_app, filter_cons. destruct (is_signal x); simpl in *; lia.
Qed.

Lemma winding_down_progress code s :
  winding_down code s → pc s = Returned code ∨ ∃ x s', is_signal x = false ∧ step s x s'.
Proof.
  intros [[Hpc Ht]|Hpc]; [|by left]. right.
  destruct Ht as [Ht|Ht]; [exists TimerAborts; eexists; split; [done|by eapply timer_aborts]|].
  destruct (decide (Forall (λ l, phase l = Ended) (logs s))) as [Hall|Hall].
  { exists Waited. eexists. split; [done|]. by eapply waited. }
  apply not_Forall_Exists in Hall; [|apply _]. apply Exists_exists in Hall as (l & Hl & Hp).
  apply list_elem_of_lookup in Hl as [i Hi]. destruct (phase l) as [| |ec data|] eqn:Hph.
  - exists (LogStarts i). eexists. split; [done|]. by apply log_starts with (l := l).
  - destruct (decide (LF ∈ buffer l ++ [])) as [Hlf|Hlf];
      [exists (LogReads i Success [])|exists (LogReads i Operation_canceled [])];
      (eexists; split; [done|by apply log_reads with (l := l)]).
  - exists (LogResumes i). eexists. split; [done|]. by apply log_resumes with (l := l) (ec := ec) (data := data).
  - done.
Qed.

(** ** Where results and cancellations come from *)

Lemma result_of_run ls s : steps step initial ls s →
  match pc s with
  | Executing => True
  | WaitingPipes code | Returned code => Exited Success code ∈ ls
  | Thrown ec => ec ≠ Success ∧ ∃ code, Exited ec code ∈ ls
  end.
Proof.
  intros Hrun. remember initial as s0 eqn:Hs0. induction Hrun as [s0|s0 ls s x s' Hrun IH Hstep]; [by subst|].
  specialize (IH Hs0). clear Hs0 Hrun.
  assert (∀ y, y ∈ ls → y ∈ ls ++ [x]) as Hsub by (intros; apply elem_of_app; auto).
  assert (x ∈ ls ++ [x]) as Hx by (apply elem_of_app; right; by apply list_elem_of_singleton).
  assert (∀ s1, pc s1 = pc s → match pc s1 with Executing => True
    | WaitingPipes code | Returned code => Exited Success code ∈ ls ++ [x]
    | Thrown ec => ec ≠ Success ∧ ∃ code, Exited ec code ∈ ls ++ [x] end) as Hsame.
  { intros s1 ->. destruct (pc s); naive_solver. }
  destruct Hstep as [s i l Hi Hp|s i l data Hi Hp Hc Hlf|s i l ec data Hi Hp Hec|s i l ec data Hi Hp|s ec code Hpc|s code Hpc Ht
                    |s code Hpc Ht|s code Hpc Ht|s code Hpc Ht Hall|s code Hpc Ht Hall|s ct Hg];
    try (by apply Hsame).
  - unfold on_exited. destruct (failed ec) eqn:Hec; simpl.
    + apply failed_true in Hec. split; [done|]. by exists code.
    + apply failed_false in Hec as ->. done.
  - simpl. rewrite Hpc in IH. auto.
  - apply Hsame. unfold on_signal. destruct (pc s) eqn:Hpc; simpl; congruence.
Qed.

(** What can have cancelled a log coroutine of [execute] as long as that has not thrown: the end of the second,
    or a signal after the child has exited. *)
Definition cut_short (ls : list label) : Prop :=
  TimerFires ∈ ls
  ∨ ∃ ls1 ct ls2 code, ls = ls1 ++ [Signalled ct] ++ ls2 ∧ Exited Success code ∈ ls1.

Lemma cut_short_snoc ls x : cut_short ls → cut_short (ls ++ [x]).
Proof.
  intros [Hf|(ls1 & ct & ls2 & code & -> & He)].
  - left. apply elem_of_app. by left.
  - right. exists ls1, ct, (ls2 ++ [x]), code. by rewrite <-!app_assoc.
Qed.

Definition uncancelled s : Prop := Forall (λ l, log_cancelled l = none) (logs s).

Lemma set_log_uncancelled s i l r :
  logs s !! i = Some l → (log_cancelled l = none → log_cancelled r.1 = none) →
  uncancelled s → uncancelled (set_log i r s).
Proof.
  intros Hi Hr Hs. unfold uncancelled, set_log. simpl. apply Forall_insert; [done|].
  apply Hr. exact (Forall_lookup_1 _ _ _ _ Hs Hi).
Qed.

Lemma cancellation_of_run ls s : steps step initial ls s →
  uncancelled s ∨ cut_short ls ∨ ∃ ec, pc s = Thrown ec.
Proof.
  intros Hrun. remember initial as s0 eqn:Hs0.
  induction Hrun as [s0|s0 ls s x s' Hrun IH Hstep]; [left; subst; by repeat constructor|].
  specialize (IH Hs0). subst s0. pose proof (result_of_run ls s Hrun) as Hres. clear Hrun.
  destruct IH as [Hs|[Hcut|[e Hthrown]]]; [|right; left; by apply cut_short_snoc|].
  2: { right. right. exists e. destruct Hstep as [| | | | | | | | | |s ct Hg]; simpl; try congruence.
       unfold on_signal. by rewrite Hthrown. }
  destruct Hstep as [s i l Hi Hp|s i l data Hi Hp Hc Hlf|s i l ec data Hi Hp Hec|s i l ec data Hi Hp|s ec code Hpc|s code Hpc Ht
                    |s code Hpc Ht|s code Hpc Ht|s code Hpc Ht Hall|s code Hpc Ht Hall|s ct Hg];
    try (by left).
  - left. apply (set_log_uncancelled _ _ l); [done|apply (start_log_ok l Hp)|done].
  - left. by apply (set_log_uncancelled _ _ l).
  - left. by apply (set_log_uncancelled _ _ l).
  - left. apply (set_log_uncancelled _ _ l); [done|apply (resume_log_ok ec data l Hp)|done].
  - unfold on_exited. destruct (failed ec); [|by left]. right. right. by exists ec.
  - right. left. left. apply elem_of_app. right. by apply list_elem_of_singleton.
  - unfold on_signal. destruct (pc s) as [|code| |] eqn:Hpc; [by left| |by left..].
    right. left. right. by exists ls, ct, [], code.
Qed.

(** ** Properties *)



(** C14. When [execute] returns, the output of the child has been logged: everything that was read from the two pipes was handed
    out, in order and once, unless the second was over before the pipes were, or a signal arrived after the child had exited. *)
Theorem output_complete ls s code i l :
  steps step initial ls s → pc s = Returned code → logs s !! i = Some l → ¬ cut_short ls →
  phase l = Ended ∧ concat (handed l) = received l.
Proof.
  intros Hrun Hpc Hi Hcut. pose proof (ping_inv_reachable s (ex_intro _ ls Hrun)) as Hinv.
  pose proof (Forall_lookup_1 _ _ _ _ (inv_returned s Hinv code Hpc) Hi) as Hp. split; [done|].
  pose proof (Forall_lookup_1 _ _ _ _ (inv_data s Hinv) Hi) as Ha. unfold accounted in Ha. simpl in Hp.
  rewrite Hp in Ha. apply Ha.
  destruct (cancellation_of_run ls s Hrun) as [Hu|[|[ec Hec]]]; [|done|congruence].
  exact (Forall_lookup_1 _ _ _ _ Hu Hi).
Qed.
End Model.

(** ** Witnesses *)

#[local] Instance asio_cancellation_state : CancellationState := {|
  deliver f _ ct :=
    match f with
    | enable_terminal_cancellation => Z.land ct terminal
    | enable_partial_cancellation => Z.land ct (Z.lor terminal partial)
    | enable_total_cancellation => Z.land ct (Z.lor (Z.lor terminal partial) total)
    | custom_filter f => f ct
    end
|}.
#[local] Instance asio_filters_ok : FiltersOk.
Proof. by split. Qed.

Lemma run_next ls s : execute_labels next initial ls = Some s → steps step initial ls s.
Proof. apply execute_labels_sound. intros ? ? ? Hnext. by apply next_step. Qed.

(** The child exits while STDOUT is being read and STDERR was not even started; the timer fires. *)
Definition late_labels : list label := [LogStarts 0; Exited Success 3; TimerExpires; TimerFires].
Definition late : state := default initial (execute_labels next initial late_labels).

Lemma late_run : steps step initial late_labels late.
Proof. apply run_next. reflexivity. Qed.

(** Both pipes are read to their end, then the child exits. *)
Definition one : list byte := bytes_of "one" ++ [LF].
Definition complete_labels : list label :=
  [LogStarts 0; LogStarts 1; LogReads 0 Success one; LogResumes 0; LogReads 0 Eof (bytes_of "two");
   LogResumes 0; Exited Success 0; LogReads 1 Eof []; LogResumes 1; PromiseCompletes; TimerAborts; Waited].
Definition complete : state := default initial (execute_labels next initial complete_labels).



Lemma output_complete_witness :
  ∃ l, logs complete !! 0 = Some l ∧ handed l = [one; bytes_of "two"] ∧ concat (handed l) = received l.
Proof.
  eexists. split; [reflexivity|]. split; [reflexivity|].
  refine (proj2 (output_complete complete_labels complete 0 0 _ _ _ _ _)); [|reflexivity..|].
  - apply run_next. reflexivity.
  - intros [Hf|(ls1 & ct & ls2 & code & Hls & _)].
    + unfold complete_labels in Hf. set_solver.
    + assert (Signalled ct ∈ complete_labels) as Hct by (rewrite Hls; set_solver).
      unfold complete_labels in Hct. set_solver.
Defined.

(** Two cancellations of the wait for the pipes, here SIGINT twice, run the handler of a log coroutine twice before it
    is resumed: what is left in its buffer is handed out twice. *)
Theorem output_duplicated :
  ∃ ls s l, steps step initial ls s ∧ pc s = Returned 0 ∧ logs s !! 0 = Some l
    ∧ received l = one ++ bytes_of "par" ∧ handed l = [one; bytes_of "par"; bytes_of "par"].
Proof.
  exists [LogStarts 0; LogStarts 1; LogReads 0 Success (one ++ bytes_of "par"); LogResumes 0; Exited Success 0;
          Signalled partial; Signalled partial; LogReads 0 Operation_canceled []; LogResumes 0;
          LogReads 1 Operation_canceled []; LogResumes 1; TimerAborts; Waited].
  eexists _, _. split; [apply run_next; vm_compute; reflexivity|]. split_and!; vm_compute; reflexivity.
Qed.
