(* ===== verification/PingLog.v ===== *)
(** * The log coroutines of PingAdvanced.v are those of Log.v

    The step relation of process/ping_signal_advanced.cpp has a log coroutine as a state machine; lib/log.cpp
    is modelled as a function in Log.v.  For the same completions of its reads, and the same cancellation, the state machine
    hands out the lines of the function. *)
From S2P Require Import Prelude Asio Script Wp Core Log EchoAdvanced PingAdvanced.

Section Refinement.
Context `{!CancellationState, !FiltersOk}.
Implicit Types (l : log_state).

(** One awaited [async_read_until]: the bytes after which the coroutine is cancelled, if it is; the result. *)
Definition completion : Type := option (list byte) * error_code * list byte.

Definition feed l (e : completion) : log_state :=
  let '(cancelled_after, ec, data) := e in
  let l := match cancelled_after with Some d => cancel_log terminal (arrive_log d l) | None => l end in
  (resume_log ec data (read_log ec data l)).1.

(** The completions of a pipe: each succeeds if the buffer then holds a line, and only then; they go on until the
    coroutine has ended. *)
Definition fits (b : list byte) (e : completion) : Prop :=
  let '(cancelled_after, ec, data) := e in
  ec = Success ↔ LF ∈ (b ++ default [] cancelled_after) ++ data.
Fixpoint well_formed l (es : list completion) : Prop :=
  match es with
  | [] => phase l = Ended
  | e :: es => phase l = Reading ∧ log_cancelled l = none ∧ fits (buffer l) e ∧ well_formed (feed l e) es
  end.

Abbreviation emit_line := (λ line, emit (W := pipe_world) (EvLine line)).
Abbreviation handler := (λ b, handle_lines emit_line (views_split b)).

(** ** The function, on such a pipe *)

Definition line_result (ec : error_code) (b : list byte) : Z := if failed ec then 0%Z else line_length b.

Lemma completed_script pipe c ec d es ct b tr :
  (ec = Success ↔ LF ∈ b ++ d) →
  completed pipe b (St (PipeWorld ((c, ec, d) :: es) ct) tr) =
    (Val (ec, b ++ d, line_result ec (b ++ d)),
     St (PipeWorld es ct) (tr ++ [EvReadUntil pipe ec d (line_result ec (b ++ d))])).
Proof.
  intros Hec. unfold completed. simpl. unfold line_result.
  destruct (decide (LF ∈ b ++ d)) as [Hlf|Hlf].
  - rewrite (proj2 Hec Hlf). done.
  - assert (ec ≠ Success) as Hne by tauto. rewrite (decide_False _ _ Hne).
    by rewrite (proj2 (failed_true ec) Hne).
Qed.

Lemma handle_lines_eq ls : ∀ s : st pipe_world,
  handle_lines emit_line ls s = (Val tt, St (env s) (trace s ++ (EvLine <$> ls))).
Proof.
  intros s. pose proof (wp_handle_lines (W := pipe_world) ls (λ r s', r = Val tt ∧ s' = St (env s) (trace s ++ (EvLine <$> ls))) s) as Hwp.
  unfold wp in Hwp. destruct Hwp as [Hr Hs]; [done|].
  by rewrite (surjective_pairing (handle_lines _ ls s)), Hr, Hs.
Qed.

Lemma read_until_uncancelled pipe b ec d es tr :
  (ec = Success ↔ LF ∈ b ++ d) →
  async_read_until pipe b handler (St (PipeWorld ((None, ec, d) :: es) 0) tr) =
    (Val (ec, b ++ d, line_result ec (b ++ d)),
     St (PipeWorld es 0) (tr ++ [EvReadUntil pipe ec d (line_result ec (b ++ d))])).
Proof. intros Hec. exact (completed_script pipe None ec d es 0 b tr Hec). Qed.

Lemma read_until_cancelled pipe b d0 ec d es tr :
  (ec = Success ↔ LF ∈ (b ++ d0) ++ d) →
  async_read_until pipe b handler (St (PipeWorld ((Some d0, ec, d) :: es) 0) tr) =
    (Val (ec, (b ++ d0) ++ d, line_result ec ((b ++ d0) ++ d)),
     St (PipeWorld es 1) (((tr ++ [EvArrived pipe d0]) ++ (EvLine <$> views_split (b ++ d0)))
       ++ [EvReadUntil pipe ec d (line_result ec ((b ++ d0) ++ d))])).
Proof.
  intros Hec. rewrite <-(completed_script pipe (Some d0) ec d es 1 (b ++ d0) _ Hec).
  unfold async_read_until, co_await. simpl. unfold mbind, awaitable_bind at 1. simpl.
  unfold mbind, awaitable_bind. simpl. by rewrite handle_lines_eq.
Qed.

(** The body of the main loop of [log_with]. *)
Definition log_body (pipe : handle) (b : list byte) : awaitable pipe_world (list byte + error_code * list byte) :=
  '(ec, b, n) ← async_read_until pipe b handler;
  cancelled ← gets (λ state, isCancelled state all);
  if cancelled : bool then throw (system_error (make_system_error operation_canceled))
  else if failed ec then mret (inr (ec, b))
  else
    emit (EvLine (ztake n b));;
    mret (inl (drop (Z.to_nat n) b)).

Lemma log_body_uncancelled pipe b ec d es tr :
  (ec = Success ↔ LF ∈ b ++ d) →
  log_body pipe b (St (PipeWorld ((None, ec, d) :: es) 0) tr) =
    let read := EvReadUntil pipe ec d (line_result ec (b ++ d)) in
    let n := line_length (b ++ d) in
    if failed ec then (Val (inr (ec, b ++ d)), St (PipeWorld es 0) (tr ++ [read]))
    else (Val (inl (drop (Z.to_nat n) (b ++ d))), St (PipeWorld es 0) ((tr ++ [read]) ++ [EvLine (ztake n (b ++ d))])).
Proof.
  intros Hec. unfold log_body, mbind, awaitable_bind. rewrite (read_until_uncancelled _ _ _ _ _ _ Hec). simpl.
  unfold line_result. by destruct (failed ec).
Qed.

Lemma log_body_cancelled pipe b d0 ec d es tr :
  (ec = Success ↔ LF ∈ (b ++ d0) ++ d) →
  log_body pipe b (St (PipeWorld ((Some d0, ec, d) :: es) 0) tr) =
    (Throw (system_error Operation_canceled),
     St (PipeWorld es 1) (((tr ++ [EvArrived pipe d0]) ++ (EvLine <$> views_split (b ++ d0)))
       ++ [EvReadUntil pipe ec d (line_result ec ((b ++ d0) ++ d))])).
Proof.
  intros Hec. unfold log_body, mbind, awaitable_bind. by rewrite (read_until_cancelled _ _ _ _ _ _ _ Hec).
Qed.

(** What one completion does to a coroutine that is reading. *)
Lemma feed_uncancelled l ec d :
  phase l = Reading → log_cancelled l = none →
  feed l (None, ec, d) =
    let b := buffer l ++ d in
    let n := line_length b in
    if failed ec then Logging Ended none [] (handed l ++ views_split b) (received l ++ d)
    else Logging Reading none (drop (Z.to_nat n) b) (handed l ++ [ztake n b]) (received l ++ d).
Proof.
  intros Hp Hc. unfold feed, resume_log, end_log. simpl. rewrite Hc, decide_False by (intros []; done).
  by destruct (failed ec).
Qed.

Lemma feed_cancelled l d0 ec d :
  phase l = Reading → log_cancelled l = none →
  ∃ c, c ≠ none ∧ feed l (Some d0, ec, d) =
    Logging Ended c [] (handed l ++ views_split (buffer l ++ d0)) ((received l ++ d0) ++ d).
Proof.
  intros Hp Hc. pose proof (delivered terminal Reading none ltac:(set_solver)) as Hd.
  exists (deliver log_filter none terminal). split; [done|]. unfold feed, cancel_log, arrive_log. simpl.
  rewrite Hp, Hc. simpl. unfold resume_log, end_log. simpl. rewrite decide_True by done.
  rewrite decide_False by (intros [|]; done). by rewrite app_nil_r.
Qed.

Definition loop_post l es : post pipe_world (error_code * list byte) := λ r s,
  let l' := foldl feed l es in
  phase l' = Ended ∧ received l' = arrived (trace s) ∧
  match r with
  | Val (ec, b) => ec ≠ Success ∧ log_cancelled l' = none ∧ handed l' = lines (trace s) ++ views_split b
  | Throw e => e = system_error Operation_canceled ∧ log_cancelled l' ≠ none ∧ handed l' = lines (trace s)
  | NoFuel => False
  end.

Lemma ended_well_formed l es : phase l = Ended → well_formed l es → es = [].
Proof. destruct es; [done|]. intros Hp [Hr _]. congruence. Qed.

Lemma log_loop pipe es : ∀ l fuel tr,
  phase l = Reading → well_formed l es → length es <= fuel → handed l = lines tr → received l = arrived tr →
  wp (loop fuel (log_body pipe) (buffer l)) (loop_post l es) (St (PipeWorld es 0) tr).
Proof.
  induction es as [|[[[d0|] ec] d] es IH]; intros l fuel tr Hp Hwf Hfuel Hh Hr; [simpl in Hwf; congruence|..];
    (destruct fuel as [|fuel]; [simpl in Hfuel; lia|]); destruct Hwf as (_ & Hc & Hec & Hes);
    simpl loop; apply wp_bind; unfold wp at 1.
  - destruct (feed_cancelled l d0 ec d Hp Hc) as (c & Hne & Hfeed). rewrite Hfeed in Hes.
    apply ended_well_formed in Hes as ->; [|done].
    rewrite (log_body_cancelled _ _ _ _ _ _ _ Hec). unfold loop_post. cbn [foldl fst snd post_bind trace].
    rewrite Hfeed. simpl. autorewrite with log_db. rewrite <-Hh, <-Hr. simpl. by rewrite ?app_nil_r, <-?app_assoc.
  - unfold fits in Hec. cbn [default] in Hec. rewrite app_nil_r in Hec.
    rewrite (log_body_uncancelled _ _ _ _ _ _ Hec).
    pose proof (feed_uncancelled l ec d Hp Hc) as Hfeed. unfold loop_post. cbn [foldl]. rewrite Hfeed in *. clear Hfeed.
    unfold line_result. destruct (failed ec) eqn:Hf; cbn [length] in Hfuel; cbn zeta iota in Hes |- *.
    + apply ended_well_formed in Hes as ->; [|done]. apply wp_ret. simpl.
      apply failed_true in Hf. autorewrite with log_db. simpl. by rewrite ?app_nil_r, Hh, Hr.
    + apply (IH (Logging _ _ _ _ _)); simpl; try done; [lia|..];
        autorewrite with log_db; simpl; by rewrite ?app_nil_r, ?Hh, ?Hr.
Qed.

Definition started : log_state := (start_log spawned_log).1.

(** The lines handed out and the bytes received are those of the run of [log_with]. *)
Definition same_run l : post pipe_world unit := λ r s,
  phase l = Ended ∧ handed l = lines (trace s) ∧ received l = arrived (trace s)
  ∧ r ≠ NoFuel ∧ (log_cancelled l ≠ none → r = Throw (system_error Operation_canceled)).

Lemma log_with_same_run pipe es fuel :
  well_formed started es → length es <= fuel →
  wp (log_with fuel pipe emit_line) (same_run (foldl feed started es)) (St (PipeWorld es 0) []).
Proof.
  intros Hwf Hfuel. unfold log_with. change started with (Logging Reading none [] [] []) in *.
  apply wp_bind, wp_reset. apply wp_bind, wp_gets.
  apply wp_bind. eapply wp_mono; [|apply (log_loop pipe es (Logging Reading none [] [] []) fuel); done].
  intros [[ec b]|e|] s (Hp & Hr & Hend); cbn [post_bind]; unfold same_run; [|naive_solver|done].
  destruct Hend as (Hec & Hc & Hh). apply wp_bind, wp_handle_lines.
  case_bool_decide; [|rewrite (proj2 (failed_true ec) Hec)]; wp_run; autorewrite with log_db; simpl;
    by rewrite ?app_nil_r.
Qed.

(** ** The completions in a run of [execute] *)

(** The completed reads of the [i]-th coroutine, and what has arrived since the last one. *)
Definition completions_step (i : nat) (acc : list completion * list byte) (x : label) : list completion * list byte :=
  let '(es, pending) := acc in
  match x with
  | LogArrives j data => if decide (i = j) then (es, pending ++ data) else acc
  | LogReads j ec data => if decide (i = j) then (es ++ [(None, ec, pending ++ data)], []) else acc
  | _ => acc
  end.
Definition completions_of (i : nat) (ls : list label) : list completion * list byte :=
  foldl (completions_step i) ([], []) ls.
Definition completions (i : nat) (ls : list label) : list completion := (completions_of i ls).1.

(** A coroutine that has taken the steps [es] to be where it is. *)
Fixpoint leads_to l (es : list completion) : Prop :=
  match es with
  | [] => True
  | e :: es => phase l = Reading ∧ log_cancelled l = none ∧ fits (buffer l) e ∧ leads_to (feed l e) es
  end.

Lemma leads_to_snoc es e : ∀ l,
  leads_to l (es ++ [e]) ↔ leads_to l es ∧ phase (foldl feed l es) = Reading
    ∧ log_cancelled (foldl feed l es) = none ∧ fits (buffer (foldl feed l es)) e.
Proof. induction es as [|e' es IH]; intros l; simpl; [tauto|]. rewrite IH. tauto. Qed.

Lemma leads_to_well_formed es : ∀ l, leads_to l es → phase (foldl feed l es) = Ended → well_formed l es.
Proof. induction es as [|e es IH]; intros l; simpl; [done|]. naive_solver. Qed.

Definition tracks (acc : list completion * list byte) l : Prop :=
  let '(es, pending) := acc in
  leads_to started es ∧
  match phase l with
  | Spawned => l = spawned_log ∧ es = [] ∧ pending = []
  | Reading => l = arrive_log pending (foldl feed started es)
  | Read ec d => pending = [] ∧ ∃ es' p, es = es' ++ [(None, ec, p ++ d)]
      ∧ l = read_log ec d (arrive_log p (foldl feed started es'))
  | Ended => l = foldl feed started es ∧ pending = []
  end.

Lemma completions_snoc i ls x : completions_of i (ls ++ [x]) = completions_step i (completions_of i ls) x.
Proof. unfold completions_of. by rewrite foldl_app. Qed.

Lemma arrive_nil l : arrive_log [] l = l.
Proof. destruct l. unfold arrive_log. simpl. by rewrite !app_nil_r. Qed.

Lemma resume_feed ec d p l :
  (resume_log ec d (read_log ec d (arrive_log p l))).1 = feed l (None, ec, p ++ d).
Proof.
  unfold feed, resume_log, end_log. simpl. rewrite !app_assoc.
  destruct (decide _); [done|]. by destruct (failed ec).
Qed.

Lemma tracks_starts acc l :
  phase l = Spawned → log_cancelled (start_log l).1 = none → tracks acc l → tracks acc (start_log l).1.
Proof.
  destruct acc as [es pending]. unfold tracks. intros Hp Hc [Hes Ht]. rewrite Hp in Ht.
  destruct Ht as (-> & -> & ->). split; [done|]. simpl. done.
Qed.

Lemma tracks_arrives i acc l data :
  phase l = Reading → tracks acc l → tracks (completions_step i acc (LogArrives i data)) (arrive_log data l).
Proof.
  destruct acc as [es pending]. unfold tracks, completions_step. intros Hp [Hes Ht].
  rewrite decide_True by done. simpl. rewrite Hp in *. split; [done|]. rewrite Ht. unfold arrive_log. simpl.
  by rewrite !app_assoc.
Qed.

Lemma tracks_reads i acc l ec data :
  phase l = Reading → log_cancelled l = none → (ec = Success ↔ LF ∈ buffer l ++ data) → tracks acc l →
  tracks (completions_step i acc (LogReads i ec data)) (read_log ec data l).
Proof.
  destruct acc as [es pending]. unfold tracks, completions_step. intros Hp Hc Hec [Hes Ht].
  rewrite decide_True by done. simpl. rewrite Hp in Ht. split.
  - apply leads_to_snoc. rewrite Ht in Hp, Hc, Hec. simpl in Hp, Hc, Hec. split_and!; [done..|].
    unfold fits. simpl. by rewrite app_nil_r, app_assoc.
  - split; [done|]. exists es, pending. by rewrite Ht.
Qed.

Lemma tracks_resumes acc l ec data :
  phase l = Read ec data → log_cancelled l = none → tracks acc l → tracks acc (resume_log ec data l).1.
Proof.
  destruct acc as [es pending]. unfold tracks. intros Hp Hc [Hes Ht]. rewrite Hp in Ht.
  destruct Ht as (-> & es' & p & -> & ->). split; [done|]. rewrite foldl_app. cbn [foldl].
  rewrite resume_feed, arrive_nil.
  apply leads_to_snoc in Hes as (_ & Hr & Hn & _). rewrite (feed_uncancelled _ _ _ Hr Hn).
  by destruct (failed ec).
Qed.

(** The steps that concern the other coroutine, or none. *)
Lemma completions_other i ls x :
  (∀ data, x ≠ LogArrives i data) → (∀ ec data, x ≠ LogReads i ec data) →
  completions_of i (ls ++ [x]) = completions_of i ls.
Proof.
  intros Ha Hr. rewrite completions_snoc. destruct (completions_of i ls) as [es pending].
  destruct x as [|j data|j ec data| | | | | | | |]; simpl; try done; case_decide; subst; naive_solver.
Qed.

Lemma cancel_group_uncancelled ct s i l :
  ct ∈ [terminal; all] → logs (cancel_group ct s) !! i = Some l → log_cancelled l = none → logs s !! i = Some l.
Proof.
  intros Hct Hl Hc. unfold cancel_group in Hl. simpl in Hl. rewrite list_lookup_fmap in Hl.
  destruct (logs s !! i) as [l0|]; [|done]. simpl in Hl. injection Hl as <-.
  unfold cancel_log in *. pose proof (λ p, delivered ct p (log_cancelled l0) Hct) as Hd.
  destruct (phase l0) as [| |ec data|]; [| | |done]; simpl in Hc; exfalso;
    [apply (Hd Spawned)|apply (Hd Reading)|apply (Hd Reading)]; exact Hc.
Qed.

Lemma start_log_uncancelled l : log_cancelled (start_log l).1 = none → log_cancelled l = none.
Proof.
  unfold start_log. destruct (decide (log_cancelled l = none)); [done|]. by rewrite decide_True.
Qed.

Lemma resume_log_uncancelled ec data l : log_cancelled (resume_log ec data l).1 = none → log_cancelled l = none.
Proof.
  unfold resume_log. destruct (decide (log_cancelled l = none)); [done|]. by rewrite decide_True.
Qed.

Lemma set_log_lookup s i j l r l' :
  logs s !! j = Some l → logs (set_log j r s) !! i = Some l' → i = j ∧ l' = r.1 ∨ i ≠ j ∧ logs s !! i = Some l'.
Proof.
  intros Hj Hi. unfold set_log in Hi. simpl in Hi.
  apply list_lookup_insert_Some in Hi as [(-> & -> & _)|[Hne Hi]]; auto.
Qed.

(** A step of [execute] on the coroutines, as one of them sees it. *)
Lemma run_tracks ls s : steps step initial ls s →
  ∀ i l, logs s !! i = Some l → log_cancelled l = none → tracks (completions_of i ls) l.
Proof.
  intros Hrun. remember initial as s0 eqn:Hs0. induction Hrun as [s0|s0 ls s x s' Hrun IH Hstep].
  { subst. intros i l Hi _. assert (l = spawned_log) as ->; [|done].
    destruct i as [|[|i]]; simpl in Hi; naive_solver. }
  specialize (IH Hs0). intros i l' Hi Hc.
  destruct Hstep as [s j l Hj Hp|s j l data Hj Hp Hcj Hlf|s j l ec data Hj Hp Hec|s j l ec data Hj Hp|s ec code Hpc
                    |s code Hpc Ht|s code Hpc Ht|s code Hpc Ht|s code Hpc Ht Hall|s code Hpc Ht Hall|s ct Hg].
  - rewrite completions_other by done. destruct (set_log_lookup _ _ _ _ _ _ Hj Hi) as [[-> ->]|[_ Hi']]; [|auto].
    apply tracks_starts; [done..|]. apply (IH j l Hj). by apply start_log_uncancelled.
  - destruct (set_log_lookup _ _ _ _ _ _ Hj Hi) as [[-> ->]|[Hne Hi']].
    + rewrite completions_snoc. apply tracks_arrives; auto.
    + rewrite completions_other; [auto| |]; intros; congruence.
  - destruct (set_log_lookup _ _ _ _ _ _ Hj Hi) as [[-> ->]|[Hne Hi']].
    + rewrite completions_snoc. apply tracks_reads; auto.
    + rewrite completions_other; [auto| |]; intros; congruence.
  - rewrite completions_other by done. destruct (set_log_lookup _ _ _ _ _ _ Hj Hi) as [[-> ->]|[_ Hi']]; [|auto].
    pose proof (resume_log_uncancelled _ _ _ Hc). apply tracks_resumes; auto.
  - rewrite completions_other by done. apply IH; [|done]. unfold on_exited in Hi. destruct (failed ec); [|done].
    by apply cancel_group_uncancelled in Hi; [|set_solver|].
  - rewrite completions_other by done. by apply IH.
  - rewrite completions_other by done. apply IH; [|done].
    by apply cancel_group_uncancelled in Hi; [|set_solver|].
  - rewrite completions_other by done. by apply IH.
  - rewrite completions_other by done. by apply IH.
  - rewrite completions_other by done. by apply IH.
  - rewrite completions_other by done. apply IH; [|done]. unfold on_signal in Hi.
    destruct (pc s); try done. by apply cancel_group_uncancelled in Hi; [|set_solver|].
Qed.
End Refinement.

(** ** Properties *)

(** C13. The log coroutines of [execute] do what lib/log.cpp does. For every sequence of completions, and a cancellation at any
    point of it, the state machine of PingAdvanced.v hands out the lines and receives the bytes of [Log.log_with], which
    throws operation_canceled if it was cancelled; and in every run of [execute], in which the steps of the two coroutines, the
    child, the timer and the signals interleave, a coroutine that has ended without being cancelled has handed out the
    lines that [log_with] hands out for the completions of its own pipe. *)
Theorem logs_are_log_with `{!CancellationState, !FiltersOk} :
  (∀ es fuel pipe r s', well_formed started es → length es <= fuel →
     log_with fuel pipe (λ line, emit (EvLine line)) (St (PipeWorld es 0) []) = (r, s') →
     same_run (foldl feed started es) r s')
  ∧ ∀ ls s i l fuel pipe r s', steps step initial ls s → logs s !! i = Some l →
     phase l = Ended → log_cancelled l = none → length (completions i ls) <= fuel →
     log_with fuel pipe (λ line, emit (EvLine line)) (St (PipeWorld (completions i ls) 0) []) = (r, s') →
     r ≠ NoFuel ∧ handed l = lines (trace s') ∧ received l = arrived (trace s').
Proof.
  assert (∀ es fuel pipe r s', well_formed started es → length es <= fuel →
     log_with fuel pipe (λ line, emit (EvLine line)) (St (PipeWorld es 0) []) = (r, s') →
     same_run (foldl feed started es) r s') as Hsame.
  { intros es fuel pipe r s' Hwf Hfuel. apply wp_intro. by apply log_with_same_run. }
  split; [exact Hsame|]. intros ls s i l fuel pipe r s' Hrun Hi Hp Hc Hfuel Hlog.
  pose proof (run_tracks ls s Hrun i l Hi Hc) as Ht. unfold completions in *.
  destruct (completions_of i ls) as [es pending]. destruct Ht as [Hes Ht]. rewrite Hp in Ht. destruct Ht as [-> _].
  destruct (Hsame es fuel pipe r s' (leads_to_well_formed _ _ Hes Hp) Hfuel Hlog) as (_ & Hh & Hr & Hn & _).
  by split_and!.
Qed.

(** ** Witnesses *)

#[local] Existing Instance asio_cancellation_state.
#[local] Existing Instance asio_filters_ok.

(** STDOUT in a run in which nothing is cancelled; a coroutine that is cancelled with a line in its buffer. *)
Lemma logs_are_log_with_witness :
  (∃ l, logs complete !! 0 = Some l ∧ handed l = [one; bytes_of "two"]
     ∧ completions 0 complete_labels = [(None, Success, one); (None, Eof, bytes_of "two")]
     ∧ handed l = lines (trace (log_with 2 7 (λ line, emit (EvLine line))
         (St (PipeWorld (completions 0 complete_labels) 0) [])).2))
  ∧ let es := [(None, Success, one ++ bytes_of "par"); (Some [], Operation_canceled, [])] in
    handed (foldl feed started es) = [one; bytes_of "par"]
    ∧ same_run (foldl feed started es) (log_with 2 7 (λ line, emit (EvLine line)) (St (PipeWorld es 0) [])).1
        (log_with 2 7 (λ line, emit (EvLine line)) (St (PipeWorld es 0) [])).2.
Proof.
  destruct logs_are_log_with as [Hes Hrun]. split.
  - eexists. split; [reflexivity|]. split; [reflexivity|]. split; [vm_compute; reflexivity|].
    refine (proj1 (proj2 (Hrun complete_labels complete 0 _ 2 7 _ _ _ _ _ _ _ _)));
      [apply run_next; reflexivity|reflexivity|reflexivity|reflexivity|vm_compute; lia|apply surjective_pairing].
  - split; [vm_compute; reflexivity|].
    refine (Hes _ 2 7 _ _ _ _ _); [|simpl; lia|apply surjective_pairing].
    unfold well_formed, fits. vm_compute. intuition (congruence || set_solver).
Defined.
