(* ===== verification/Threads.v ===== *)
(** * threading/*.cpp

    The program that counts with a thread pool, as a step relation: any number of its coroutines are in
    the pool at a time, the context runs them one at a time. *)
From S2P Require Import Prelude.

Module ThreadPool.
Section Model.
Context (n : nat).

(** Where a coroutine is: spawned, working in the thread pool, scheduled on the context
    again, done. *)
Inductive place := Spawned | InPool | Posted | Done.
#[export] Instance place_eq_dec : EqDecision place.
Proof. solve_decision. Defined.

Record state := State { places : list place; count : Z }.
Definition initial : state := State (replicate n Spawned) 0.

(** [context] steps run one at a time; any number of coroutines are in the pool. *)
Inductive label := Starts (i : nat) | Works (i : nat) | Counts (i : nat).
Inductive step : state → label → state → Prop :=
| starts s i : places s !! i = Some Spawned →
    step s (Starts i) (State (<[i := InPool]> (places s)) (count s))
| works s i : places s !! i = Some InPool →
    step s (Works i) (State (<[i := Posted]> (places s)) (count s))
| counts s i : places s !! i = Some Posted →
    step s (Counts i) (State (<[i := Done]> (places s)) (count s +ₛ 1)).

Definition dones (ps : list place) : nat := length (filter (.= Done) ps).

Lemma dones_insert ps i p q :
  ps !! i = Some p → p ≠ Done → dones (<[i := q]> ps) = dones ps + if decide (q = Done) then 1 else 0.
Proof.
  revert i. unfold dones. induction ps as [|p' ps IH]; intros [|i]; simpl; try done.
  - intros [= ->] Hp. rewrite !filter_cons. repeat case_decide; simpl; try done; lia.
  - intros Hi Hp. destruct (decide (p' = Done)) as [->|Hp'].
    + rewrite !filter_cons_True by done. simpl. rewrite (IH i) by done. lia.
    + rewrite !filter_cons_False by done. by apply IH.
Qed.

Definition inv (s : state) : Prop :=
  length (places s) = n ∧ count s = wrap64 (Z.of_nat (dones (places s))).

Lemma pool_inv_inductive : inductive_invariant step inv.
Proof.
  intros s l s' [Hlen Hcount] Hstep.
  destruct Hstep as [s i Hi|s i Hi|s i Hi]; (split; simpl; [by rewrite length_insert|]).
  - rewrite (dones_insert _ _ _ _ Hi) by done. rewrite decide_False, Nat.add_0_r by done. done.
  - rewrite (dones_insert _ _ _ _ Hi) by done. rewrite decide_False, Nat.add_0_r by done. done.
  - rewrite (dones_insert _ _ _ _ Hi) by done. rewrite decide_True by done.
    rewrite Hcount, size_add_wrap. f_equal. lia.
Qed.

Lemma pool_inv_initial : inv initial.
Proof.
  split; simpl; [apply length_replicate|]. unfold dones. clear. induction n as [|k IH]; simpl; [done|].
  by rewrite filter_cons_False.
Qed.
End Model.
End ThreadPool.

(** ** threading/thread_pool_slides.cpp: without the hop, the context runs the coroutines one after the other *)
Definition slides_coroutine (count : Z) : Z := count +ₛ 1.
Definition slides_main : Z := Nat.iter 20 slides_coroutine 0%Z.
Example slides_count : slides_main = 20%Z.
Proof. reflexivity. Qed.

(** ** Properties *)

(** The thread-pool program counts every coroutine: in every reachable state of its [n] coroutines, whatever
    the interleaving of the pool and the context, the counter is the number of coroutines that are
    done, so that it is [n] in the end (for [n] below 2^64). *)
Theorem thread_pool_counts (n : nat) s :
  reachable (ThreadPool.step) (ThreadPool.initial n) s →
  ThreadPool.count s = wrap64 (Z.of_nat (ThreadPool.dones (ThreadPool.places s)))
  ∧ (Forall (.= ThreadPool.Done) (ThreadPool.places s) → is_size (Z.of_nat n) →
     ThreadPool.count s = Z.of_nat n).
Proof.
  intros Hr.
  destruct (invariant_reachable ThreadPool.step (ThreadPool.inv n) _ _ (ThreadPool.pool_inv_inductive n)
    (ThreadPool.pool_inv_initial n) Hr) as [Hlen Hcount].
  split; [done|]. intros Hall Hn. rewrite Hcount. unfold ThreadPool.dones.
  assert (filter (.= ThreadPool.Done) (ThreadPool.places s) = ThreadPool.places s) as ->.
  { clear -Hall. induction Hall as [|p ps Hp _ IH]; [done|]. by rewrite filter_cons_True, IH. }
  by rewrite Hlen, wrap64_small.
Qed.

(** ** Witnesses *)

Definition one_done : ThreadPool.state := ThreadPool.State [ThreadPool.Done] 1.
Lemma one_done_reachable : reachable ThreadPool.step (ThreadPool.initial 1) one_done.
Proof.
  exists (([] ++ [ThreadPool.Starts 0]) ++ [ThreadPool.Works 0] ++ [ThreadPool.Counts 0]).
  rewrite app_assoc.
  eapply steps_snoc; [eapply steps_snoc; [eapply steps_snoc; [constructor|]|]|].
  - by apply (ThreadPool.starts (ThreadPool.initial 1) 0).
  - by apply (ThreadPool.works (ThreadPool.State [ThreadPool.InPool] 0) 0).
  - by apply (ThreadPool.counts (ThreadPool.State [ThreadPool.Posted] 0) 0).
Qed.
Lemma thread_pool_counts_witness : ThreadPool.count one_done = 1%Z.
Proof.
  apply (proj2 (thread_pool_counts 1 one_done one_done_reachable)).
  - by repeat constructor.
  - by vm_compute.
Defined.
