(* ===== verification/Issues.v ===== *)
(** * issues/*.cpp

    The coroutines of the programs that demonstrate a defect of a library. *)
From S2P Require Import Prelude Asio Core Tools.

(** *** asio_issue_1705.cpp: how [cancel_promise(variant)] awaits the promise *)
Inductive awaited := Cancel_after | Co_spawn | Parallel_group | Nothing.
Definition cancel_promise (variant : string) : awaited :=
  if String.eqb variant "cancel_after" then Cancel_after
  else if String.eqb variant "co_spawn" then Co_spawn
  else if String.eqb variant "cancel_after" then Parallel_group
  else Nothing.
(** The three calls of [main]. *)
Definition main_1705 : list awaited :=
  cancel_promise <$> ["cancel_after"; "co_spawn"; "parallel group"]%string.

Section Program.
Context {W : Type} `{!CancellationTypes, !Cancellation W, !Timers W, !WhenAll W}.

Definition two_seconds : duration := 2 * 10 ^ 9.

(** The cancellation filter of [task(filter)]. *)
Definition task_filter (filter : cancellation_type) : cancellation_filter :=
  custom_filter (λ type, Z.land type filter).

(** asio_issue_cancellation_minimal.cpp and boost_asio_issue_458.cpp *)
Definition task_minimal (filter : cancellation_type) : awaitable W unit :=
  reset_cancellation_state (task_filter filter);;
  '(ec, _) ← async_wait two_seconds;
  if failed ec then throw (system_error ec) else mret tt.

(** asio_issue_cancellation.cpp: the same with exceptions, which are printed and rethrown,
    and a final reset *)
Definition task (filter : cancellation_type) : awaitable W unit :=
  reset_cancellation_state (task_filter filter);;
  try_catch (deferred (async_wait two_seconds)) throw;;
  reset_cancellation_state enable_terminal_cancellation.

(** It throws an [error_code], which is not a [std::exception]. *)
Definition throw_error : awaitable W unit :=
  co_await yield;;
  throw foreign_exception.

(** The groups of the three programs, which make one of two tasks ignore [total] cancellation;
    [make_parallel_group(...).async_wait] is the library's. *)
Inductive wait_condition := wait_for_one | wait_for_one_error.
Context (async_wait_group : wait_condition → list (awaitable W unit) → awaitable W unit).
Definition filters : list cancellation_type := [Z.lor (Z.lor terminal partial) total; terminal].

(** boost_asio_issue_458.cpp *)
Definition task_458 (filter : cancellation_type) : awaitable W unit :=
  reset_cancellation_state (task_filter filter);;
  '(ec, _) ← async_wait two_seconds;
  if failed ec then throw (system_error ec) else mret tt.
Definition group_458 : awaitable W unit :=
  reset_cancellation_state enable_total_cancellation;;
  co_await (async_wait_group wait_for_one (task_458 <$> filters)).

(** asio_issue_cancellation_minimal.cpp: the coroutine of [main] *)
Definition group_minimal : awaitable W unit :=
  reset_cancellation_state enable_total_cancellation;;
  co_await (async_wait_group wait_for_one (task_minimal <$> filters)).

(** asio_issue_cancellation.cpp *)
Definition group : awaitable W unit :=
  reset_cancellation_state enable_total_cancellation;;
  co_await (async_wait_group wait_for_one_error (task <$> filters)).

(** What the [main]s of boost_asio_issue_458.cpp and asio_issue_cancellation.cpp spawn: the delay after which the
    coroutine is cancelled, the cancellation type, and the coroutine. *)
Definition main_458 : duration * cancellation_type * awaitable W unit := (10 ^ 6, total, group_458)%Z.
Definition main_cancellation : duration * cancellation_type * awaitable W unit := (10 ^ 6, total, group)%Z.

(** asio_issue_cancellation.cpp has its own [run]; the output of the loop is not modelled. *)
Definition run `{!Run.Contexts W} (ndebug : bool) (context_run : awaitable W Z) (fuel : nat) : awaitable W Z :=
  if ndebug then context_run
  else loop fuel (λ i,
    n ← Run.op_run_one;
    if bool_decide (n = 0%Z) then mret (inr i) else mret (inl (i +ₛ 1))) 0%Z.

(** asio_issue_spawn_cancellation.cpp *)
Definition wrapped : awaitable W unit :=
  reset_cancellation_state enable_total_cancellation;;
  deferred (async_wait two_seconds).

(** [t0.async_wait(use_awaitable)] *)
Definition awaitable_wait : awaitable W unit := deferred (async_wait two_seconds).

(** The three coroutines of [main]: the label that is printed, the cancellation type after 1 ms, and the
    coroutine, whose initial filter is the default. *)
Definition spawned : list (string * cancellation_type * awaitable W unit) :=
  [("total", total, awaitable_wait);
   ("terminal", terminal, awaitable_wait);
   ("wrapped total", terminal, wrapped)]%string.
End Program.

(** ** Properties *)

(** Its [run] is that of lib/run.cpp. *)
Theorem run_is_library_run {W} `{!Run.Contexts W} ndebug (context_run : awaitable W Z) fuel (s : st W) :
  run ndebug context_run fuel s = Run.run ndebug context_run fuel s.
Proof.
  unfold run, Run.run, Run.runDebug. destruct ndebug; [done|]. generalize 0%Z at 3 7. revert s.
  induction fuel as [|fuel IH]; intros s i; [done|]. cbn [loop]. unfold mbind, awaitable_bind.
  destruct (Run.op_run_one s) as [[n|e|] s']; try done.
  destruct (decide (n = 0%Z)) as [->|Hn].
  { rewrite (bool_decide_eq_false_2 (0 ≠ 0)%Z) by naive_solver. done. }
  rewrite (bool_decide_eq_false_2 (n = 0%Z)), (bool_decide_eq_true_2 (n ≠ 0%Z)) by done. apply IH.
Qed.

(** asio_issue_1705.cpp never awaits its promise through a parallel group: the test for the third
    variant compares with the name of the first, so that no argument selects it, and the third
    call of [main] awaits nothing. *)
Theorem parallel_group_unreachable :
  (∀ variant, cancel_promise variant ≠ Parallel_group)
  ∧ main_1705 = [Cancel_after; Co_spawn; Nothing].
Proof.
  split; [|reflexivity]. intros variant. unfold cancel_promise.
  destruct (String.eqb variant "cancel_after"); [done|]. by destruct (String.eqb variant "co_spawn").
Qed.

(** The point of the three cancellation reproducers: the [total] cancellation their group
    receives passes the filter of its first task only. *)
Theorem group_partially_cancelled `{!CancellationTypes, !CancellationTypesOk} :
  (λ f, Z.land total f) <$> filters = [total; none].
Proof.
  unfold filters. simpl.
  by rewrite !Z.land_lor_distr_r, Z.land_diag, (Z.land_comm total terminal), terminal_total,
    (Z.land_comm total partial), partial_total, none_empty.
Qed.
