(* ===== verification/Promise.v ===== *)
(** * issues/asio_issue_promise.cpp: references of a cancelled coroutine

    A parent coroutine owns a resource, gives a reference to a child, cancels the child, and waits for it.  The
    file's comments say what goes wrong without the waiting; [awaits] is that difference, and the step
    relation shows both. *)
From S2P Require Import Prelude Asio.

(** [subtask]: spawned but not started; suspended in [timer.async_wait]; the wait has completed, but the coroutine
    was not resumed; ended. *)
Inductive subtask_phase := Spawned | Waiting | Resuming | Ended.
(** [cancel_promise]: before [promise.cancel()]; in [co_await std::move(promise)]; ended. *)
Inductive parent_phase := Starting | Awaiting | Finished.
#[export] Instance subtask_phase_eq_dec : EqDecision subtask_phase.
Proof. solve_decision. Defined.
#[export] Instance parent_phase_eq_dec : EqDecision parent_phase.
Proof. solve_decision. Defined.

(** [cancelled]: the subtask was cancelled.  [asserts_hold]: no [assert(resource.alive)] has failed. *)
Record state := State {
  parent : parent_phase;
  subtask : subtask_phase;
  cancelled : bool;
  asserts_hold : bool
}.

(** [Resource]: alive until the frame of [cancel_promise] is destroyed. *)
Definition alive (s : state) : bool := bool_decide (parent s ≠ Finished).
Definition assert_alive (s : state) : bool := asserts_hold s && alive s.

(** The cancellation handler of the subtask, called by [promise.cancel()] or the promise's destructor: it asserts that
    the resource is alive, and cancels the timer. *)
Definition cancel (s : state) : state :=
  match subtask s with
  | Spawned => State (parent s) Spawned true (asserts_hold s)
  | Waiting => State (parent s) Resuming true (assert_alive s)
  | _ => s
  end.

(** The subtask is started: if it was cancelled, awaiting it throws, and its body does not run. *)
Definition start_subtask (s : state) : state :=
  State (parent s) (if cancelled s then Ended else Waiting) (cancelled s) (asserts_hold s).

(** The subtask is resumed from [timer.async_wait(as_tuple)], which does not throw: it asserts that the resource is
    alive, and ends. *)
Definition resume_subtask (s : state) : state :=
  State (parent s) Ended (cancelled s) (assert_alive s).

(** [cancel_promise] goes on: it cancels the promise, and waits for it; without the waiting, its frame is
    destroyed. *)
Definition run_parent (awaits : bool) (s : state) : state :=
  let s := cancel s in
  State (if awaits then Awaiting else Finished) (subtask s) (cancelled s) (asserts_hold s).

(** The promise has completed. *)
Definition resume_parent (s : state) : state :=
  State Finished (subtask s) (cancelled s) (asserts_hold s).

Definition initial : state := State Starting Spawned false true.

Inductive label := SubtaskStarts | TimerExpires | SubtaskResumes | ParentRuns | ParentResumes.

Inductive step (awaits : bool) : state → label → state → Prop :=
| subtask_starts s : subtask s = Spawned → step awaits s SubtaskStarts (start_subtask s)
| timer_expires s : subtask s = Waiting →
    step awaits s TimerExpires (State (parent s) Resuming (cancelled s) (asserts_hold s))
| subtask_resumes s : subtask s = Resuming → step awaits s SubtaskResumes (resume_subtask s)
| parent_runs s : parent s = Starting → step awaits s ParentRuns (run_parent awaits s)
| parent_resumes s : parent s = Awaiting → subtask s = Ended →
    step awaits s ParentResumes (resume_parent s).

(** ** With the waiting *)

Definition inv (s : state) : Prop :=
  asserts_hold s = true ∧ (parent s = Finished → subtask s = Ended).

Lemma promise_inv_inductive : inductive_invariant (step true) inv.
Proof.
  intros s l s' (Ha & Hf) Hstep. unfold inv.
  destruct Hstep as [s Hs|s Hs|s Hs|s Hp|s Hp Hs]; simpl; unfold assert_alive, alive.
  - split; [done|]. intros Hp. specialize (Hf Hp). congruence.
  - split; [done|]. intros Hp. specialize (Hf Hp). congruence.
  - rewrite Ha. split; [|done]. apply bool_decide_eq_true. intros Hp. specialize (Hf Hp). congruence.
  - unfold cancel, assert_alive, alive. rewrite (bool_decide_eq_true_2 (parent s ≠ Finished)) by congruence.
    destruct (subtask s); simpl; rewrite ?Ha; by split.
  - by split.
Qed.

Lemma promise_inv_reachable s : reachable (step true) initial s → inv s.
Proof. apply invariant_reachable; [apply promise_inv_inductive|by split]. Qed.

(** Every step is one of at most five. *)
Definition remaining (s : state) : nat :=
  match subtask s with Spawned => 3 | Waiting => 2 | Resuming => 1 | Ended => 0 end +
  match parent s with Starting => 2 | Awaiting => 1 | Finished => 0 end.

Lemma remaining_step awaits s l s' : step awaits s l s' → remaining s' < remaining s.
Proof.
  intros Hstep. destruct Hstep as [s Hs|s Hs|s Hs|s Hp|s Hp Hs]; unfold remaining; simpl; rewrite ?Hs, ?Hp.
  - destruct (cancelled s); lia.
  - lia.
  - lia.
  - unfold cancel. destruct (subtask s) eqn:Hs, awaits; simpl; rewrite ?Hs; lia.
  - lia.
Qed.

Lemma remaining_steps awaits s ls s' :
  steps (step awaits) s ls s' → remaining s' + length ls <= remaining s.
Proof.
  induction 1 as [|s ls s1 l s2 Hrun IH Hstep]; simpl; [lia|].
  apply remaining_step in Hstep. rewrite length_app. simpl. lia.
Qed.

(** ** Properties *)


(** Without the last [co_await] of [cancel_promise], the subtask is resumed when the resource is gone, as the
    comment at the top of the file warns. *)
Theorem resource_may_dangle :
  ∃ s, reachable (step false) initial s ∧ asserts_hold s = false.
Proof.
  eexists. split.
  { exists (([] ++ [SubtaskStarts]) ++ [ParentRuns] ++ [SubtaskResumes]). rewrite app_assoc.
    eapply steps_snoc; [eapply steps_snoc; [eapply steps_snoc; [constructor|]|]|].
    - by apply subtask_starts.
    - by apply parent_runs.
    - by apply subtask_resumes. }
  by vm_compute.
Qed.

(** ** Witnesses *)

(** The subtask was suspended when it was cancelled, and both have ended. *)
Definition all_ended : state :=
  resume_parent (resume_subtask (run_parent true (start_subtask initial))).
Lemma all_ended_run :
  steps (step true) initial [SubtaskStarts; ParentRuns; SubtaskResumes; ParentResumes] all_ended.
Proof.
  change [SubtaskStarts; ParentRuns; SubtaskResumes; ParentResumes]
    with (((([] ++ [SubtaskStarts]) ++ [ParentRuns]) ++ [SubtaskResumes]) ++ [ParentResumes]).
  repeat (eapply steps_snoc); [constructor|by constructor..].
Qed.
