(* ===== verification/Cobalt.v ===== *)
(** * cobalt/*.cpp

    The coroutines of the programs that use Boost.Cobalt, and the guard of a thread's state.
    [eager] starts a promise and gives what awaits it, [race] is the library's. *)
From S2P Require Import Prelude Asio Wp.

(** *** spawn_cobalt_main.cpp *)
Module SpawnCobaltMain.
Section Program.
Context {W : Type} `{!Cancellation W, !Timers W}.
Context (eager : awaitable W unit → awaitable W (awaitable W unit))
  (race : awaitable W unit → awaitable W unit → awaitable W unit).

Definition sleep (message : string) (timeout : duration) : awaitable W unit :=
  '(ec, _) ← async_wait timeout;
  mret tt.

Definition co_main : awaitable W Z :=
  promise ← eager (sleep "long time" (10 * 10 ^ 9));
  co_await (sleep "delay" (10 ^ 9));;
  co_await (race promise (sleep "short time" (10 ^ 9)));;
  mret 0%Z.
End Program.
End SpawnCobaltMain.

(** *** spawn_promise.cpp *)
Module SpawnPromise.
Section Program.
Context {W : Type} `{!Cancellation W, !Timers W}.
Context (eager : awaitable W unit → awaitable W (awaitable W unit))
  (race : awaitable W unit → awaitable W unit → awaitable W unit).

Definition sleep (message : string) (timeout : duration) : awaitable W unit :=
  '(ec, _) ← async_wait timeout;
  mret tt.

Definition task : awaitable W unit :=
  promise ← eager (sleep "long time" (10 * 10 ^ 9));
  co_await (sleep "delay" (10 ^ 9));;
  co_await (race promise (sleep "short time" (10 ^ 9))).
End Program.
End SpawnPromise.

(** *** spawn_promise_pmr.cpp *)
Module SpawnPromisePmr.
Section Program.
Context {W : Type} `{!Cancellation W, !Timers W}.
Context (eager : awaitable W unit → awaitable W (awaitable W unit))
  (race : awaitable W unit → awaitable W unit → awaitable W unit).

Definition sleep (message : string) (timeout : duration) : awaitable W unit :=
  '(ec, _) ← async_wait timeout;
  mret tt.

Definition task : awaitable W unit :=
  promise ← eager (sleep "long time" (10 * 10 ^ 9));
  co_await (sleep "delay" (10 ^ 9));;
  co_await (race promise (sleep "short time" (10 ^ 9))).
End Program.
(** [logging_resource] passes everything on to its upstream; the log is not modelled. *)
Definition do_allocate {S} (upstream : Z → Z → S → Z * S) (bytes alignment : Z) (s : S) : Z * S :=
  upstream bytes alignment s.
Definition do_deallocate {S} (upstream : Z → Z → Z → S → S) (p bytes alignment : Z) (s : S) : S :=
  upstream p bytes alignment s.

(** The thread's default resource and executor; reading an executor that is not set throws. *)
Record thread_state := ThreadState { resource : Z; executor : option Z }.
Record guard := Guard { previous_resource : Z; previous_executor : option Z }.

(** The constructor and the destructor of [cobalt_thread_context_guard]. *)
Definition guard_enter (exec res : Z) (t : thread_state) : guard * thread_state :=
  (Guard (resource t) (executor t), ThreadState res (Some exec)).
Definition guard_exit (g : guard) (t : thread_state) : thread_state :=
  ThreadState (previous_resource g)
    (match previous_executor g with Some e => Some e | None => executor t end).

(** [main]: the guard is in place while the context runs, [run] being what that does to the thread's state. *)
Definition main (context_executor cobalt_logger : Z) (run : thread_state → thread_state)
    (t : thread_state) : thread_state :=
  let (cobalt_scope, t) := guard_enter context_executor cobalt_logger t in
  guard_exit cobalt_scope (run t).

(** The guard restores the thread's state, whatever was done to it in between, except that an
    executor installed where there was none stays. *)
Lemma guard_restores exec res t t' :
  let g := (guard_enter exec res t).1 in
  guard_exit g t' =
    ThreadState (resource t) (match executor t with Some e => Some e | None => executor t' end).
Proof. done. Qed.

(** [main] leaves the executor of its context, which is gone, installed in a thread that had none. *)
Lemma main_leaves_executor ex res run t :
  executor t = None → (∀ t, executor (run t) = executor t) →
  main ex res run t = ThreadState (resource t) (Some ex).
Proof. intros Ht Hrun. unfold main, guard_enter, guard_exit. simpl. by rewrite Ht, Hrun. Qed.
End SpawnPromisePmr.

(** *** spawn_task.cpp: the long task is started only when awaited *)
Module SpawnTask.
Section Program.
Context {W : Type} `{!Cancellation W, !Timers W}.
Context (eager : awaitable W unit → awaitable W (awaitable W unit))
  (race : awaitable W unit → awaitable W unit → awaitable W unit).

Definition sleep (message : string) (timeout : duration) : awaitable W unit :=
  '(ec, _) ← async_wait timeout;
  mret tt.

Definition task : awaitable W unit :=
  let long_task := sleep "long time -- this is NOT started eagerly" (10 * 10 ^ 9) in
  co_await (sleep "delay" (10 ^ 9));;
  co_await (race long_task (sleep "short time" (10 ^ 9))).
End Program.
End SpawnTask.

(** *** with.cpp *)
Module With.
Section Program.
Context {W : Type} `{!Cancellation W, !Timers W}.
Context (eager : awaitable W unit → awaitable W (awaitable W unit))
  (race : awaitable W unit → awaitable W unit → awaitable W unit).

Definition sleep (message : string) (timeout : duration) : awaitable W unit :=
  '(ec, _) ← async_wait timeout;
  mret tt.

(** [for (int i = 0; i < 10; ++i)] *)
Fixpoint ticks (n : nat) : awaitable W unit :=
  match n with
  | O => mret tt
  | S n => co_await (sleep "200ms" (200 * 10 ^ 6));; ticks n
  end.
Definition worker (id : Z) : awaitable W unit := ticks 10.

(** The body given to [cobalt::with]. *)
Definition with_body : awaitable W unit :=
  co_await (race (worker 1) (worker 2));;
  co_await (sleep "8000ms" (800 * 10 ^ 6)).

(** The teardown prints the exception, and leaves it for [cobalt::with] to throw again. *)
Definition teardown (ep : exception_ptr) : awaitable W exception_ptr := mret ep.

(** [cobalt::with] runs the body, awaits the teardown however the body ends, and throws what the teardown has left. *)
Context (with_ : awaitable W unit → (exception_ptr → awaitable W exception_ptr) → awaitable W unit).
Definition main_task : awaitable W unit := co_await (with_ with_body teardown).

(** [main] starts the task with a limit of 300 ms. *)
Context `{!Spawning W}.
Definition main : awaitable W unit := co_spawn (Some (300 * 10 ^ 6)%Z) main_task.

(** A worker that is not cancelled sleeps ten times. *)
Fixpoint waits (ecs : list error_code) : list event :=
  match ecs with [] => [] | ec :: ecs => EvWait (200 * 10 ^ 6) ec :: waits ecs end.

Lemma ticks_spec n : ∀ s,
  wp (ticks n) (λ r s', ∃ ecs, trace s' = trace s ++ waits ecs
    ∧ match r with Val _ => length ecs = n | Throw e => e = system_error Operation_canceled | NoFuel => False end
    ∧ length ecs <= n) s.
Proof.
  induction n as [|n IH]; intros s; simpl.
  { wp_run. exists []. by rewrite app_nil_r. }
  apply wp_bind, wp_co_await; [intros _|intros _; unfold sleep; wp_run].
  - exists []. rewrite app_nil_r. split_and!; [done|done|simpl; lia].
  - exists []. rewrite app_nil_r. split_and!; [done|done|simpl; lia].
  - eapply wp_mono; [|apply IH]. cbn [trace]. intros r s' (ecs & Ht & Hr & Hlen). exists (ec :: ecs).
    rewrite Ht, <-app_assoc. split_and!; [done| |simpl; lia]. by destruct r; [subst n| |].
Qed.
End Program.
End With.
